(** * Inter-module constant propagation and dead-code elimination (FIRRTL)

    A shallow embedding of [lib/Dialect/FIRRTL/Transforms/IMConstProp.cpp]
    and [lib/Dialect/FIRRTL/Transforms/IMDeadCodeElim.cpp]: the IR the two
    passes walk, the lattice of the SCCP solver, the solver itself, the
    constant-propagation rewrite, and the liveness solver with its driver. *)

From stdpp Require Import gmap list strings.

Set Warnings "-register-all".
Local Open Scope Z_scope.

(** ** The FIRRTL IR, as far as the two passes look at it *)

Module FIRRTL.

(** [llvm::APSInt]: a bit width, the bits read as an unsigned number below
    [2 ^ width], and the signedness flag. *)
Record APSInt := mkAPSInt {
  apBitWidth : Z;
  apBits : Z;
  apIsUnsigned : bool
}.

Definition APSInt_wf (a : APSInt) : Prop :=
  0 <= apBitWidth a ∧ 0 <= apBits a < 2 ^ apBitWidth a.

Definition isNegative (a : APSInt) : bool :=
  (0 <? apBitWidth a) && (2 ^ (apBitWidth a - 1) <=? apBits a).

(** The number an [APSInt] denotes under its own signedness. *)
Definition toZ (a : APSInt) : Z :=
  if apIsUnsigned a then apBits a
  else if isNegative a then apBits a - 2 ^ apBitWidth a else apBits a.

Definition zext (a : APSInt) (width : Z) : APSInt :=
  mkAPSInt width (apBits a) (apIsUnsigned a).

Definition sext (a : APSInt) (width : Z) : APSInt :=
  mkAPSInt width
    (if isNegative a then apBits a + (2 ^ width - 2 ^ apBitWidth a) else apBits a)
    (apIsUnsigned a).

Definition trunc (a : APSInt) (width : Z) : APSInt :=
  mkAPSInt width (apBits a mod 2 ^ width) (apIsUnsigned a).

(** [APSInt::extOrTrunc]: zero- or sign-extension by the value's own
    signedness, truncation when the target is narrower. *)
Definition extOrTrunc (a : APSInt) (width : Z) : APSInt :=
  if apBitWidth a <? width then
    (if apIsUnsigned a then zext a width else sext a width)
  else if width <? apBitWidth a then trunc a width
  else a.

(** Modelled from the spec: [extOrTruncZeroWidth] is declared in
    [circt/Support/APInt.h], outside the files at hand.  It is
    [APSInt::extOrTrunc], except that a zero-width value becomes the zero of
    the requested width ("extension preserves the numeric value under the
    source's signedness"). *)
Definition extOrTruncZeroWidth (a : APSInt) (width : Z) : APSInt :=
  if apBitWidth a =? 0 then mkAPSInt width 0 (apIsUnsigned a)
  else extOrTrunc a width.

(** The attribute a lattice constant carries: an [IntegerAttr] proper, or a
    [BoolAttr] (the literal of clock and reset constants). *)
Inductive IntegerAttr :=
| IntAttr (value : APSInt)
| BoolAttr (value : bool).

Inductive Attribute :=
| AttrInteger (a : IntegerAttr)
| AttrOther (tag : nat).

Global Instance APSInt_eq_dec : EqDecision APSInt.
Proof. solve_decision. Defined.
Global Instance IntegerAttr_eq_dec : EqDecision IntegerAttr.
Proof. solve_decision. Defined.

(** Types.  A width of [-1] is an unknown width. *)
Inductive FIRRTLBaseType :=
| ClockType
| ResetType
| AsyncResetType
| SIntType (width : Z)
| UIntType (width : Z)
| AnalogType (width : Z)
| BundleType (elements : list (bool * FIRRTLBaseType))
| FVectorType (elementType : FIRRTLBaseType) (numElements : nat).

Inductive Type_ :=
| BaseType (t : FIRRTLBaseType)
| RefType (t : FIRRTLBaseType)
| ForeignType (tag : nat).

Fixpoint FIRRTLBaseType_eq_dec (x y : FIRRTLBaseType) : {x = y} + {x ≠ y}.
Proof.
  decide equality; try apply Z.eq_dec; try apply Nat.eq_dec.
  apply List.list_eq_dec. intros [b1 t1] [b2 t2].
  destruct (bool_dec b1 b2) as [->|Hb]; [|right; congruence].
  destruct (FIRRTLBaseType_eq_dec t1 t2) as [->|Ht];
    [left; reflexivity|right; congruence].
Defined.

Global Instance FIRRTLBaseType_eq_decision : EqDecision FIRRTLBaseType :=
  FIRRTLBaseType_eq_dec.

Global Instance Type_eq_dec : EqDecision Type_.
Proof. solve_decision. Defined.

Definition isGround (t : FIRRTLBaseType) : bool :=
  match t with
  | BundleType _ | FVectorType _ _ => false
  | _ => true
  end.

(** Modelled from the spec: [getPassiveType] (FIRRTLTypes) removes every
    flip of a bundle, recursively. *)
Fixpoint getPassiveType (t : FIRRTLBaseType) : FIRRTLBaseType :=
  match t with
  | BundleType elements =>
      BundleType (map (λ e, (false, getPassiveType (snd e))) elements)
  | FVectorType e n => FVectorType (getPassiveType e) n
  | g => g
  end.

(** Modelled from the spec: [getBitWidthOrSentinel] (FIRRTLTypes): the width
    of a ground type, [-1] when it is unknown, [-2] for an aggregate. *)
Definition getBitWidthOrSentinel (t : FIRRTLBaseType) : Z :=
  match t with
  | ClockType | ResetType | AsyncResetType => 1
  | SIntType w | UIntType w | AnalogType w => w
  | BundleType _ | FVectorType _ _ => -2
  end.

(** SSA values: a block argument (a port of the module owning the block) or
    a result of an operation. *)
Inductive Value :=
| BlockArgument (owner : nat) (argNumber : nat)
| OpResult (owner : nat) (resultNumber : nat).

Global Instance Value_eq_dec : EqDecision Value.
Proof. solve_decision. Defined.

Global Instance Value_countable : Countable Value.
Proof.
  refine (inj_countable'
    (λ v, match v with
          | BlockArgument b n => inl (b, n)
          | OpResult o n => inr (o, n)
          end)
    (λ s, match s with
          | inl (b, n) => BlockArgument b n
          | inr (o, n) => OpResult o n
          end) _).
  by intros [].
Defined.

(** [FieldRef]: a root value and a field ID. *)
Abbreviation FieldRef := (Value * nat)%type.

Definition getSubField (ref : FieldRef) (fieldID : nat) : FieldRef :=
  (ref.1, (ref.2 + fieldID)%nat).

Inductive Direction := In | Out.

Global Instance Direction_eq_dec : EqDecision Direction.
Proof. solve_decision. Defined.

(** The memory-effect classes the passes tell apart. *)
Inductive SideEffect := Pure | AllocateOnly | ReadOnly | UnknownEffect.

Inductive OpKind :=
| WireOp
| RegOp
| RegResetOp
| NodeOp
| MemOp
| ConstantOp (value : APSInt)
| SpecialConstantOp (value : bool)
| InvalidValueOp
| InstanceOp (moduleName : nat)
| ConnectOp
| StrictConnectOp
| RefDefineOp
| SubfieldOp
| SubindexOp
| SubaccessOp
| RefSendOp
| RefResolveOp
| UnrealizedConversionCastOp
| VerbatimExprOp
| VerbatimWireOp
| OtherOp (name : nat).

Record Operation := mkOp {
  opId : nat;
  opKind : OpKind;
  operands : list Value;
  resultTypes : list Type_;
  opDontTouch : bool;
  opAnnotationsEmpty : bool;
  opDroppableName : bool;
  opInnerSym : bool;
  opEffect : SideEffect
}.

Record PortInfo := mkPort {
  portDirection : Direction;
  portType : Type_;
  portDontTouch : bool
}.

(** A module: [isFModule] tells an [FModuleOp] from an external module,
    which has ports and no body. *)
Record FModuleLike := mkModule {
  isFModule : bool;
  isPublic : bool;
  modAnnotationsEmpty : bool;
  ports : list PortInfo;
  body : list Operation
}.

(** A circuit: its modules; a module's index is its name and the identity
    of its body block. *)
Abbreviation CircuitOp := (list FModuleLike).

Definition getResults (op : Operation) : list Value :=
  imap (λ i _, OpResult (opId op) i) (resultTypes op).

Definition getArguments (block : nat) (m : FModuleLike) : list Value :=
  imap (λ i _, BlockArgument block i) (ports m).

Definition isFConnectLike (op : Operation) : bool :=
  match opKind op with
  | ConnectOp | StrictConnectOp | RefDefineOp => true
  | _ => false
  end.

Definition findOp (ops : list Operation) (id : nat) : option Operation :=
  List.find (λ op, Nat.eqb (opId op) id) ops.

(** [Value::getDefiningOp]: the operation an [OpResult] belongs to. *)
Definition getDefiningOp (circuit : CircuitOp) (v : Value) : option Operation :=
  match v with
  | BlockArgument _ _ => None
  | OpResult o _ => findOp (concat (map body circuit)) o
  end.

Definition getPortDirection (m : FModuleLike) (i : nat) : option Direction :=
  portDirection <$> ports m !! i.

(** Modelled from the spec: [hasDontTouch(Value)] is defined outside the
    files at hand; it is the do-not-touch marker of the defining operation,
    or of the port for a block argument. *)
Definition hasDontTouchValue (circuit : CircuitOp) (v : Value) : bool :=
  match v with
  | BlockArgument b n =>
      match circuit !! b with
      | Some m => from_option portDontTouch false (ports m !! n)
      | None => false
      end
  | OpResult _ _ => from_option opDontTouch false (getDefiningOp circuit v)
  end.

(** [Value::getType]. *)
Definition getType (circuit : CircuitOp) (v : Value) : option Type_ :=
  match v with
  | BlockArgument b n => m ← circuit !! b; portType <$> ports m !! n
  | OpResult _ n => op ← getDefiningOp circuit v; resultTypes op !! n
  end.

(** The recursive walk of [foreachFIRRTLGroundType]: the calls of [fn] in
    order, each with the field ID reached, and the counter afterwards.  Every
    element of an aggregate takes one ID before its own subtree is entered. *)
Fixpoint recurse (t : FIRRTLBaseType) (fieldID : nat)
    : list (nat * FIRRTLBaseType) * nat :=
  match t with
  | BundleType elements =>
      (fix elems (l : list (bool * FIRRTLBaseType)) (fieldID : nat) :=
         match l with
         | [] => ([], fieldID)
         | e :: l' =>
             let r := recurse (snd e) (S fieldID) in
             let r' := elems l' (snd r) in
             (fst r ++ fst r', snd r')
         end) elements fieldID
  | FVectorType elementType numElements =>
      (fix elems (n : nat) (fieldID : nat) :=
         match n with
         | O => ([], fieldID)
         | S n' =>
             let r := recurse elementType (S fieldID) in
             let r' := elems n' (snd r) in
             (fst r ++ fst r', snd r')
         end) numElements fieldID
  | groundType => ([(fieldID, groundType)], fieldID)
  end.

(** [foreachFIRRTLGroundType] on a base type: a ground type is its own
    single leaf, with field ID 0. *)
Definition foreachFIRRTLGroundTypeBase (t : FIRRTLBaseType)
    : list (nat * FIRRTLBaseType) :=
  if isGround t then [(0%nat, t)] else fst (recurse t 0).

(** [foreachFIRRTLGroundType] on a type: a reference type is walked through
    the type it wraps.  The source casts; a type that is neither (the cast
    asserts there) has no leaf here. *)
Definition foreachFIRRTLGroundType (t : Type_) : list (nat * FIRRTLBaseType) :=
  match t with
  | BaseType b | RefType b => foreachFIRRTLGroundTypeBase b
  | ForeignType _ => []
  end.

(** The walk of a value whose type must be a base type
    ([value.getType().cast<FIRRTLBaseType>()]); where the cast would assert,
    there is no leaf. *)
Definition groundTypesOfBaseValue (circuit : CircuitOp) (v : Value)
    : list (nat * FIRRTLBaseType) :=
  match getType circuit v with
  | Some (BaseType b) => foreachFIRRTLGroundTypeBase b
  | _ => []
  end.

Definition isWireOrReg (op : Operation) : bool :=
  match opKind op with
  | WireOp | RegResetOp | RegOp => true
  | _ => false
  end.

Definition isNodeOp (op : Operation) : bool :=
  match opKind op with NodeOp => true | _ => false end.

(** [isDeletableWireOrRegOrNode]. *)
Definition isDeletableWireOrRegOrNode (op : Operation) : bool :=
  (isWireOrReg op || isNodeOp op) && opAnnotationsEmpty op &&
  negb (opDontTouch op) && opDroppableName op.

(** Shorthands for the example circuits: the type [UInt<8>], and an
    operation without annotations, marker or symbol, that has a droppable
    name and no side effect. *)
Definition UInt8 : Type_ := BaseType (UIntType 8).

Definition plainOp (id : nat) (kind : OpKind) (operands : list Value)
    (resultTypes : list Type_) : Operation :=
  mkOp id kind operands resultTypes false true true false Pure.

End FIRRTL.

Export FIRRTL.

(** ** IMConstProp: the lattice *)

Module IMConstProp.

(** [LatticeValue]: the tag and, for a constant, its attribute. *)
Inductive LatticeValue :=
| Unknown
| Unwritten
| Constant (value : IntegerAttr)
| Overdefined.

Global Instance LatticeValue_eq_dec : EqDecision LatticeValue.
Proof. solve_decision. Defined.

Definition isUnknown (v : LatticeValue) : bool :=
  match v with Unknown => true | _ => false end.
Definition isUnwritten (v : LatticeValue) : bool :=
  match v with Unwritten => true | _ => false end.
Definition isConstant (v : LatticeValue) : bool :=
  match v with Constant _ => true | _ => false end.
Definition isOverdefined (v : LatticeValue) : bool :=
  match v with Overdefined => true | _ => false end.

(** [LatticeValue::getValue]: the attribute of a constant, null otherwise. *)
Definition getValue (v : LatticeValue) : option IntegerAttr :=
  match v with Constant a => Some a | _ => None end.

(** [LatticeValue::mergeIn]: the new value of the target and whether it
    changed. *)
Definition mergeIn (this rhs : LatticeValue) : LatticeValue * bool :=
  if isOverdefined this || isUnknown rhs then (this, false)
  else if isUnknown this then (rhs, true)
  else if isUnwritten rhs then (this, false)
  else if isUnwritten this then (rhs, true)
  else if bool_decide (this ≠ rhs) then (Overdefined, true)
  else (this, false).

(** The state [mergeIn] leaves in the target. *)
Definition merged (this rhs : LatticeValue) : LatticeValue := (mergeIn this rhs).1.

(** ** IMConstProp: the pass state and the solver *)

(** What [emitError] leaves behind: the operation the diagnostic is attached
    to, its message, and the value whose location the note points at. *)
Record Diagnostic := mkDiagnostic {
  diagOp : nat;
  diagMessage : string;
  diagNoteAt : Value
}.

(** The result of a fold hook for one result: an attribute or a value. *)
Inductive OpFoldResult :=
| FoldAttr (a : Attribute)
| FoldValue (v : Value).

(** The members of [IMConstPropPass].  The worklist is a stack: its head is
    the back of the [SmallVector]. *)
Record IMConstPropPass := mkPass {
  latticeValues : gmap FieldRef LatticeValue;
  executableBlocks : gset nat;
  changedLatticeValueWorklist : list FieldRef;
  fieldRefToUsers : gmap FieldRef (list (nat * Operation));
  resultPortToInstanceResultMapping : gmap Value (list Value);
  diagnostics : list Diagnostic
}.

Definition initialPass : IMConstPropPass := mkPass ∅ ∅ [] ∅ ∅ [].

Definition setEntry (key : FieldRef) (v : LatticeValue) (push : bool)
    (st : IMConstPropPass) : IMConstPropPass :=
  mkPass (<[key := v]> (latticeValues st)) (executableBlocks st)
         (if push then key :: changedLatticeValueWorklist st
          else changedLatticeValueWorklist st)
         (fieldRefToUsers st) (resultPortToInstanceResultMapping st)
         (diagnostics st).

Definition setWorklist (wl : list FieldRef) (st : IMConstPropPass) : IMConstPropPass :=
  mkPass (latticeValues st) (executableBlocks st) wl (fieldRefToUsers st)
         (resultPortToInstanceResultMapping st) (diagnostics st).

Definition insertExecutable (block : nat) (st : IMConstPropPass) : IMConstPropPass :=
  mkPass (latticeValues st) ({[block]} ∪ executableBlocks st)
         (changedLatticeValueWorklist st) (fieldRefToUsers st)
         (resultPortToInstanceResultMapping st) (diagnostics st).

Definition addUser (key : FieldRef) (user : nat * Operation)
    (st : IMConstPropPass) : IMConstPropPass :=
  mkPass (latticeValues st) (executableBlocks st) (changedLatticeValueWorklist st)
         (<[key := default [] (fieldRefToUsers st !! key) ++ [user]]> (fieldRefToUsers st))
         (resultPortToInstanceResultMapping st) (diagnostics st).

Definition addInstanceResult (port result : Value)
    (st : IMConstPropPass) : IMConstPropPass :=
  mkPass (latticeValues st) (executableBlocks st) (changedLatticeValueWorklist st)
         (fieldRefToUsers st)
         (<[port := default [] (resultPortToInstanceResultMapping st !! port) ++ [result]]>
            (resultPortToInstanceResultMapping st))
         (diagnostics st).

Definition emitError (d : Diagnostic) (st : IMConstPropPass) : IMConstPropPass :=
  mkPass (latticeValues st) (executableBlocks st) (changedLatticeValueWorklist st)
         (fieldRefToUsers st) (resultPortToInstanceResultMapping st)
         (diagnostics st ++ [d]).

(** The entry [latticeValues[key]] refers to: a missing one is created
    Unknown. *)
Definition entryOf (st : IMConstPropPass) (key : FieldRef) : LatticeValue :=
  default Unknown (latticeValues st !! key).

Definition isBlockExecutable (st : IMConstPropPass) (block : nat) : bool :=
  bool_decide (block ∈ executableBlocks st).

(** [latticeValues[key]] read for its value only: a missing entry appears,
    Unknown. *)
Definition touchEntry (key : FieldRef) (st : IMConstPropPass) : IMConstPropPass :=
  match latticeValues st !! key with
  | Some _ => st
  | None => setEntry key Unknown false st
  end.

(** [isOverdefined(Key)]. *)
Definition isOverdefinedKey (st : IMConstPropPass) (key : FieldRef) : bool :=
  match latticeValues st !! key with
  | Some v => isOverdefined v
  | None => false
  end.

(** [markOverdefined(Key)]. *)
Definition markOverdefinedKey (key : FieldRef) (st : IMConstPropPass)
    : IMConstPropPass :=
  if isOverdefined (entryOf st key) then st
  else setEntry key Overdefined true st.

(** [markUnwritten(Key)]. *)
Definition markUnwrittenKey (key : FieldRef) (st : IMConstPropPass)
    : IMConstPropPass :=
  if isUnwritten (entryOf st key) then st
  else setEntry key Unwritten true st.

(** [mergeLatticeValue(Key, LatticeValue)], with the three-argument overload
    it calls on the entry of [key]. *)
Definition mergeLatticeValue (key : FieldRef) (source : LatticeValue)
    (st : IMConstPropPass) : IMConstPropPass :=
  if isUnknown source then st
  else
    let r := mergeIn (entryOf st key) source in
    if snd r then setEntry key (fst r) true st else st.

(** [mergeLatticeValue(Key result, Key from)]. *)
Definition mergeLatticeValueFrom (result from : FieldRef) (st : IMConstPropPass)
    : IMConstPropPass :=
  match latticeValues st !! from with
  | None => st
  | Some source => mergeLatticeValue result source st
  end.

(** [setLatticeValue]. *)
Definition setLatticeValue (key : FieldRef) (source : LatticeValue)
    (st : IMConstPropPass) : IMConstPropPass :=
  if isUnknown source then st
  else if bool_decide (entryOf st key ≠ source) then setEntry key source true st
  else st.

(** [getExtendedLatticeValue].  [allowTruncation] is a parameter of the
    source function; its body never reads it.  The destination width is an
    [int32_t] compared and passed on as [unsigned]. *)
Definition getExtendedLatticeValue (st : IMConstPropPass) (key : FieldRef)
    (destType : FIRRTLBaseType) (allowTruncation : bool) : LatticeValue :=
  match latticeValues st !! key with
  | None => Unknown
  | Some result =>
      match result with
      | Unknown | Overdefined | Unwritten => result
      | Constant (BoolAttr b) => Constant (BoolAttr b)
      | Constant (IntAttr resultConstant) =>
          let destWidth := getBitWidthOrSentinel destType in
          if destWidth =? -1 then Overdefined
          else if apBitWidth resultConstant =? destWidth mod 2 ^ 32 then result
          else Constant (IntAttr
                 (extOrTruncZeroWidth resultConstant (destWidth mod 2 ^ 32)))
      end
  end.

Section Solver.

(** The circuit under analysis; [getFieldRefFromValue] (FIRRTLUtils) and the
    fold hooks of the operations ([Operation::fold]) are the pass's external
    collaborators. *)
Variable circuit : CircuitOp.
Variable getFieldRefFromValue : Value → FieldRef.
Variable foldHook : Operation → list (option Attribute) → option (list OpFoldResult).

(** [markOverdefined(Value)]. *)
Definition markOverdefined (value : Value) (st : IMConstPropPass) : IMConstPropPass :=
  let fieldRef := getFieldRefFromValue value in
  foldl (λ st leaf, markOverdefinedKey (getSubField fieldRef (fst leaf)) st)
        st (groundTypesOfBaseValue circuit value).

(** [markUnwritten(Value)]: the body of the source marks every leaf with
    [markOverdefined]. *)
Definition markUnwritten (value : Value) (st : IMConstPropPass) : IMConstPropPass :=
  let fieldRef := getFieldRefFromValue value in
  foldl (λ st leaf, markOverdefinedKey (getSubField fieldRef (fst leaf)) st)
        st (groundTypesOfBaseValue circuit value).

(** [mergeLatticeValue(Value result, Value from)]. *)
Definition mergeLatticeValueValues (result from : Value) (st : IMConstPropPass)
    : IMConstPropPass :=
  let fieldRefFrom := getFieldRefFromValue from in
  match latticeValues st !! fieldRefFrom with
  | None => st
  | Some _ =>
      let fieldRefResult := getFieldRefFromValue result in
      match getType circuit result with
      | Some (BaseType _ as t) | Some (RefType _ as t) =>
          foldl (λ st leaf,
                   mergeLatticeValueFrom (getSubField fieldRefResult (fst leaf))
                                         (getSubField fieldRefFrom (fst leaf)) st)
                st (foreachFIRRTLGroundType t)
      | _ => mergeLatticeValueFrom fieldRefResult (getFieldRefFromValue from) st
      end
  end.

(** [markWireOrRegOp]. *)
Definition markWireOrRegOp (wireOrReg : Operation) (st : IMConstPropPass)
    : IMConstPropPass :=
  let resultValue := OpResult (opId wireOrReg) 0 in
  match resultTypes wireOrReg !! 0%nat with
  | Some (BaseType t) =>
      if negb (isGround (getPassiveType t)) then markOverdefined resultValue st
      else if opDontTouch wireOrReg then markOverdefined resultValue st
      else markUnwritten resultValue st
  | _ => markOverdefined resultValue st
  end.

(** [markMemOp]. *)
Definition markMemOp (mem : Operation) (st : IMConstPropPass) : IMConstPropPass :=
  foldl (λ st result, markOverdefined result st) st (getResults mem).

(** [markConstantOp] and [markSpecialConstantOp]. *)
Definition markConstantOp (constant : Operation) (value : APSInt)
    (st : IMConstPropPass) : IMConstPropPass :=
  mergeLatticeValue (getFieldRefFromValue (OpResult (opId constant) 0))
                    (Constant (IntAttr value)) st.

Definition markSpecialConstantOp (specialConstant : Operation) (value : bool)
    (st : IMConstPropPass) : IMConstPropPass :=
  mergeLatticeValue (getFieldRefFromValue (OpResult (opId specialConstant) 0))
                    (Constant (BoolAttr value)) st.

(** [markInvalidValueOp]. *)
Definition markInvalidValueOp (invalid : Operation) (st : IMConstPropPass)
    : IMConstPropPass :=
  markOverdefined (OpResult (opId invalid) 0) st.

(** One call of the lambda [propagateElementLattice] of [visitConnectLike],
    for the leaf [fieldID] of the destination. *)
Definition propagateElementLattice (connect : Operation) (dest src : Value)
    (fieldID : nat) (destTypeFIRRTL : FIRRTLBaseType) (st : IMConstPropPass)
    : IMConstPropPass :=
  let fieldRefSrc := getFieldRefFromValue src in
  let fieldRefDest := getFieldRefFromValue dest in
  let destType := getPassiveType destTypeFIRRTL in
  let fieldRefDestConnected := getSubField fieldRefDest fieldID in
  let srcValue :=
    getExtendedLatticeValue st (getSubField fieldRefSrc fieldID) destType false in
  if isUnknown srcValue then st
  else
    match fst fieldRefDest with
    | BlockArgument _ _ as blockArg =>
        let st :=
          foldl (λ st userOfResultPort,
                   mergeLatticeValue (userOfResultPort, snd fieldRefDestConnected)
                                     srcValue st)
                st (default [] (resultPortToInstanceResultMapping st !! blockArg)) in
        mergeLatticeValue fieldRefDestConnected srcValue st
    | OpResult _ resultNumber as destRoot =>
        match getDefiningOp circuit destRoot with
        | None => st
        | Some owner =>
            if isWireOrReg owner then
              mergeLatticeValue fieldRefDestConnected srcValue st
            else
              match opKind owner with
              | InstanceOp moduleName =>
                  let st := mergeLatticeValue fieldRefDestConnected srcValue st in
                  match circuit !! moduleName with
                  | Some module =>
                      if isFModule module then
                        mergeLatticeValue
                          (BlockArgument moduleName resultNumber,
                           snd fieldRefDestConnected) srcValue st
                      else st
                  | None => st
                  end
              | MemOp => st
              | _ =>
                  emitError
                    (mkDiagnostic (opId connect)
                       "connectlike operation unhandled by IMConstProp" dest) st
              end
        end
    end.

(** [visitConnectLike]: the destination is operand 0, the source operand 1. *)
Definition visitConnectLike (connect : Operation) (st : IMConstPropPass)
    : IMConstPropPass :=
  match operands connect with
  | dest :: src :: _ =>
      match getType circuit dest with
      | Some (BaseType baseType) | Some (RefType baseType) =>
          foldl (λ st leaf,
                   propagateElementLattice connect dest src (fst leaf) (snd leaf) st)
                st (foreachFIRRTLGroundTypeBase baseType)
      | _ => markOverdefined dest (markOverdefined src st)
      end
  | _ => st
  end.

Definition isZeroAttr (a : IntegerAttr) : bool :=
  match a with
  | IntAttr v => apBits v =? 0
  | BoolAttr b => negb b
  end.

(** [visitRegResetOp]: the operands are the clock, the reset signal and the
    reset value. *)
Definition visitRegResetOp (regReset : Operation) (st : IMConstPropPass)
    : IMConstPropPass :=
  match operands regReset with
  | _ :: resetSignal :: resetValue :: _ =>
      let fieldRefReset := getFieldRefFromValue resetValue in
      match getType circuit resetSignal, resultTypes regReset !! 0%nat with
      | Some (BaseType signalType), Some regType =>
          let enable :=
            getExtendedLatticeValue st (getFieldRefFromValue resetSignal)
                                    signalType true in
          if isOverdefined enable ||
             match enable with Constant a => negb (isZeroAttr a) | _ => false end
          then
            foldl (λ st leaf,
                     let srcValue :=
                       getExtendedLatticeValue st (getSubField fieldRefReset (fst leaf))
                                               (snd leaf) true in
                     mergeLatticeValue (OpResult (opId regReset) 0, fst leaf)
                                       srcValue st)
                  st (foreachFIRRTLGroundType regType)
          else st
      | _, _ => st
      end
  | _ => st
  end.

(** [visitRefSend] and [visitRefResolve]. *)
Definition visitRefSend (send : Operation) (st : IMConstPropPass) : IMConstPropPass :=
  match operands send with
  | base :: _ => mergeLatticeValueValues (OpResult (opId send) 0) base st
  | [] => st
  end.

Definition visitRefResolve (resolve : Operation) (st : IMConstPropPass)
    : IMConstPropPass :=
  match operands resolve with
  | ref :: _ => mergeLatticeValueValues (OpResult (opId resolve) 0) ref st
  | [] => st
  end.

(** [visitNode]. *)
Definition visitNode (node : Operation) (st : IMConstPropPass) : IMConstPropPass :=
  if opDontTouch node || negb (opAnnotationsEmpty node) then
    markOverdefined (OpResult (opId node) 0) st
  else
    match operands node with
    | input :: _ => mergeLatticeValueValues (OpResult (opId node) 0) input st
    | [] => st
    end.

(** The operand loop of [visitOperation]: every operand's entry is read
    through [latticeValues[...]], which creates a missing entry; an Unknown
    operand ends the visit ([None]). *)
Fixpoint collectOperandConstants (ops : list Value) (st : IMConstPropPass)
    : IMConstPropPass * option (list (option Attribute)) :=
  match ops with
  | [] => (st, Some [])
  | operand :: rest =>
      let key := getFieldRefFromValue operand in
      let operandLattice := entryOf st key in
      let st := touchEntry key st in
      if isUnknown operandLattice then (st, None)
      else
        let r := collectOperandConstants rest st in
        (fst r, cons (AttrInteger <$> getValue operandLattice) <$> snd r)
  end.

(** The loop of [visitOperation] over the fold results, from index [i]. *)
Fixpoint adoptFoldResults (op : Operation) (i : nat) (foldResults : list OpFoldResult)
    (st : IMConstPropPass) : IMConstPropPass :=
  match foldResults with
  | [] => st
  | foldResult :: rest =>
      let (st, resultLattice) :=
        match foldResult with
        | FoldAttr (AttrInteger intAttr) => (st, Constant intAttr)
        | FoldAttr (AttrOther _) => (st, Overdefined)
        | FoldValue v =>
            let key := getFieldRefFromValue v in
            (touchEntry key st, entryOf st key)
        end in
      adoptFoldResults op (S i) rest
        (setLatticeValue (getFieldRefFromValue (OpResult (opId op) i))
                         resultLattice st)
  end.

(** [visitOperation]. *)
Definition visitOperation (op : Operation) (st : IMConstPropPass) : IMConstPropPass :=
  if isFConnectLike op then visitConnectLike op st
  else
    match opKind op with
    | RegResetOp => visitRegResetOp op st
    | RefSendOp => visitRefSend op st
    | RefResolveOp => visitRefResolve op st
    | NodeOp => visitNode op st
    | RegOp => st
    | _ =>
        if forallb (λ value, isOverdefinedKey st (getFieldRefFromValue value))
                   (getResults op)
        then st
        else
          match collectOperandConstants (operands op) st with
          | (st, None) => st
          | (st, Some operandConstants) =>
              match foldHook op operandConstants with
              | None =>
                  foldl (λ st value, markOverdefined value st) st (getResults op)
              | Some foldResults => adoptFoldResults op 0 foldResults st
              end
          end
    end.

(** A loop whose body may run out of fuel. *)
Fixpoint foldlOpt {A S : Type} (f : S → A → option S) (st : S) (l : list A)
    : option S :=
  match l with
  | [] => Some st
  | a :: l' =>
      match f st a with
      | Some st' => foldlOpt f st' l'
      | None => None
      end
  end.

(** The tail of the loop body of [markBlockExecutable]: the operation is
    recorded as a user of every leaf of every FIRRTL-typed operand. *)
Definition recordUsers (block : nat) (op : Operation) (st : IMConstPropPass)
    : IMConstPropPass :=
  foldl (λ st operand,
           let fieldRef := getFieldRefFromValue operand in
           match getType circuit operand with
           | Some (BaseType _ as t) | Some (RefType _ as t) =>
               foldl (λ st leaf, addUser (getSubField fieldRef (fst leaf)) (block, op) st)
                     st (foreachFIRRTLGroundType t)
           | _ => st
           end)
        st (operands op).

(** [markInstanceOp], on the results that are not inputs of the module. *)
Definition markExtInstanceResults (instance : Operation) (module : FModuleLike)
    (st : IMConstPropPass) : IMConstPropPass :=
  foldl (λ st resultNo,
           match getPortDirection module resultNo with
           | Some In => st
           | _ => markOverdefined (OpResult (opId instance) resultNo) st
           end)
        st (seq 0 (length (resultTypes instance))).

Definition forwardInstanceResults (instance : Operation) (moduleName : nat)
    (fModule : FModuleLike) (st : IMConstPropPass) : IMConstPropPass :=
  foldl (λ st resultNo,
           match getPortDirection fModule resultNo with
           | Some In => st
           | _ =>
               let instancePortVal := OpResult (opId instance) resultNo in
               let modulePortVal := BlockArgument moduleName resultNo in
               mergeLatticeValueValues instancePortVal modulePortVal
                 (addInstanceResult modulePortVal instancePortVal st)
           end)
        st (seq 0 (length (resultTypes instance))).

(** [markBlockExecutable], with [markInstanceOp] inlined where it recurses
    into the body of the instantiated module.  Each nested call marks a block
    that was not executable, so the depth is bounded by the number of
    modules; [None] is fuel running out. *)
Fixpoint markBlockExecutable (fuel : nat) (block : nat) (st : IMConstPropPass)
    : option IMConstPropPass :=
  match fuel with
  | O => None
  | S fuel' =>
      if isBlockExecutable st block then Some st
      else
        let st := insertExecutable block st in
        match circuit !! block with
        | None => Some st
        | Some module =>
            let st :=
              foldl (λ st ba,
                       if hasDontTouchValue circuit ba then markOverdefined ba st
                       else st)
                    st (getArguments block module) in
            foldlOpt
              (λ st op,
                 let marked :=
                   if isWireOrReg op then Some (markWireOrRegOp op st)
                   else
                     match opKind op with
                     | ConstantOp value => Some (markConstantOp op value st)
                     | SpecialConstantOp value =>
                         Some (markSpecialConstantOp op value st)
                     | InvalidValueOp => Some (markInvalidValueOp op st)
                     | InstanceOp moduleName =>
                         match circuit !! moduleName with
                         | None => Some st
                         | Some referenced =>
                             if isFModule referenced then
                               forwardInstanceResults op moduleName referenced
                                 <$> markBlockExecutable fuel' moduleName st
                             else Some (markExtInstanceResults op referenced st)
                         end
                     | MemOp => Some (markMemOp op st)
                     | UnrealizedConversionCastOp =>
                         Some (foldl (λ st result, markOverdefined result st)
                                     st (getResults op))
                     | VerbatimExprOp | VerbatimWireOp =>
                         Some (markOverdefined (OpResult (opId op) 0) st)
                     | _ => Some st
                     end in
                 recordUsers block op <$> marked)
              st (body module)
        end
  end.

(** The first loop of [runOnOperation]: the public modules. *)
Definition markPublicModules (fuel : nat) (st : IMConstPropPass)
    : option IMConstPropPass :=
  foldlOpt
    (λ st bm,
       let block := fst bm in
       let module := snd bm in
       if isFModule module && isPublic module then
         (λ st, foldl (λ st port, markOverdefined port st) st
                      (getArguments block module)) <$>
           markBlockExecutable fuel block st
       else Some st)
    st (imap (λ i m, (i, m)) circuit).

(** One turn of the worklist loop of [runOnOperation]. *)
Definition visitUsers (changedKey : FieldRef) (st : IMConstPropPass)
    : IMConstPropPass :=
  foldl (λ st user,
           if isBlockExecutable st (fst user) then visitOperation (snd user) st
           else st)
        st (default [] (fieldRefToUsers st !! changedKey)).

(** The worklist loop; [None] is fuel running out before the worklist is
    empty. *)
Fixpoint solve (fuel : nat) (st : IMConstPropPass) : option IMConstPropPass :=
  match changedLatticeValueWorklist st with
  | [] => Some st
  | changedKey :: rest =>
      match fuel with
      | O => None
      | S fuel' => solve fuel' (visitUsers changedKey (setWorklist rest st))
      end
  end.

(** The analysis of [runOnOperation], up to the fixpoint. *)
Definition analyze (fuel : nat) : option IMConstPropPass :=
  st ← markPublicModules fuel initialPass; solve fuel st.

End Solver.


(** ** IMConstProp: the rewrite of a module body *)

(** Modelled from the spec: the side-effect classifier is MLIR's; an
    operation that is pure, only allocates or only reads would be trivially
    dead once unused ([wouldOpBeTriviallyDead]). *)
Definition wouldOpBeTriviallyDead (op : Operation) : bool :=
  match opEffect op with
  | UnknownEffect => false
  | _ => true
  end.

(** The block being rewritten and the builder's state: the operations in
    order, the next fresh operation, the insertion point (the operation new
    ones go before; [None] is the end of the block), the constant pool and
    the two statistics. *)
Record Rewriter := mkRewriter {
  rwOps : list Operation;
  rwNextId : nat;
  rwInsertionPoint : option nat;
  rwConstPool : list ((IntegerAttr * Type_) * Value);
  numErasedOp : nat;
  numFoldedOp : nat
}.

Definition replaceOperand (value replacement : Value) (op : Operation) : Operation :=
  mkOp (opId op) (opKind op)
       (imap (λ i operand,
                if bool_decide (operand = value) &&
                   (negb (isFConnectLike op) || negb (Nat.eqb i 0))
                then replacement else operand)
             (operands op))
       (resultTypes op) (opDontTouch op) (opAnnotationsEmpty op)
       (opDroppableName op) (opInnerSym op) (opEffect op).

(** The lambda [replaceIfNotConnect]: [replaceUsesWithIf], every use but the
    destination operand of a connect. *)
Definition replaceIfNotConnect (value replacement : Value) (rw : Rewriter) : Rewriter :=
  mkRewriter (map (replaceOperand value replacement) (rwOps rw)) (rwNextId rw)
             (rwInsertionPoint rw) (rwConstPool rw) (numErasedOp rw) (numFoldedOp rw).

(** [Operation::use_empty]. *)
Definition use_empty (ops : list Operation) (op : Operation) : bool :=
  forallb (λ user,
             forallb (λ operand,
                        match operand with
                        | OpResult o _ => negb (Nat.eqb o (opId op))
                        | BlockArgument _ _ => true
                        end)
                     (operands user))
          ops.

Definition eraseOp (id : nat) (rw : Rewriter) : Rewriter :=
  mkRewriter (filter (λ op, opId op ≠ id) (rwOps rw)) (rwNextId rw)
             (rwInsertionPoint rw) (rwConstPool rw) (numErasedOp rw) (numFoldedOp rw).

Definition countErased (rw : Rewriter) : Rewriter :=
  mkRewriter (rwOps rw) (rwNextId rw) (rwInsertionPoint rw) (rwConstPool rw)
             (S (numErasedOp rw)) (numFoldedOp rw).

Definition countFolded (rw : Rewriter) : Rewriter :=
  mkRewriter (rwOps rw) (rwNextId rw) (rwInsertionPoint rw) (rwConstPool rw)
             (numErasedOp rw) (S (numFoldedOp rw)).

Definition setInsertionPoint (ip : option nat) (rw : Rewriter) : Rewriter :=
  mkRewriter (rwOps rw) (rwNextId rw) ip (rwConstPool rw)
             (numErasedOp rw) (numFoldedOp rw).

(** The operations with [new] put before the operation [ip], at the end
    when there is none. *)
Fixpoint insertBefore (ip : option nat) (new : Operation) (ops : list Operation)
    : list Operation :=
  match ops with
  | [] => [new]
  | op :: rest =>
      if bool_decide (ip = Some (opId op)) then new :: op :: rest
      else op :: insertBefore ip new rest
  end.

(** [builder.create] of a one-result operation at the insertion point. *)
Definition createOp (kind : OpKind) (type : Type_) (effect : SideEffect)
    (rw : Rewriter) : Rewriter * Value :=
  let new := mkOp (rwNextId rw) kind [] [type] false true true false effect in
  (mkRewriter (insertBefore (rwInsertionPoint rw) new (rwOps rw))
              (S (rwNextId rw)) (rwInsertionPoint rw) (rwConstPool rw)
              (numErasedOp rw) (numFoldedOp rw),
   OpResult (rwNextId rw) 0).

(** Modelled from the spec: [FIRRTLDialect::materializeConstant] is outside
    the files at hand; it returns the operation that defines the constant:
    a special constant for a boolean attribute, and for a one-bit integer of
    clock or reset type, a [ConstantOp] otherwise. *)
Definition materializeConstant (constantValue : IntegerAttr) (type : Type_) : OpKind :=
  match constantValue with
  | BoolAttr b => SpecialConstantOp b
  | IntAttr v =>
      match type with
      | BaseType ClockType | BaseType ResetType | BaseType AsyncResetType =>
          if apBitWidth v =? 1 then SpecialConstantOp (apBits v =? 1)
          else ConstantOp v
      | _ => ConstantOp v
      end
  end.

(** The lambda [getConst]: one constant per (value, type), created at the
    start of the block. *)
Definition getConst (constantValue : IntegerAttr) (type : Type_) (rw : Rewriter)
    : Rewriter * Value :=
  match List.find (λ e, bool_decide (fst e = (constantValue, type))) (rwConstPool rw) with
  | Some e => (rw, snd e)
  | None =>
      let savedIP := rwInsertionPoint rw in
      let rw := setInsertionPoint (opId <$> head (rwOps rw)) rw in
      let r := createOp (materializeConstant constantValue type) type Pure rw in
      let rw := setInsertionPoint savedIP (fst r) in
      (mkRewriter (rwOps rw) (rwNextId rw) (rwInsertionPoint rw)
                  (((constantValue, type), snd r) :: rwConstPool rw)
                  (numErasedOp rw) (numFoldedOp rw),
       snd r)
  end.

Section Rewrite.

Variable getFieldRefFromValue : Value → FieldRef.

(** The converged pass state, and the module whose body is rewritten. *)
Variable st : IMConstPropPass.
Variable block : nat.
Variable module : FModuleLike.

(** [Value::getType] inside the block being rewritten. *)
Definition typeOf (rw : Rewriter) (value : Value) : option Type_ :=
  match value with
  | BlockArgument _ n => portType <$> ports module !! n
  | OpResult o n => op ← findOp (rwOps rw) o; resultTypes op !! n
  end.

Definition definingOp (rw : Rewriter) (value : Value) : option Operation :=
  match value with
  | BlockArgument _ _ => None
  | OpResult o _ => findOp (rwOps rw) o
  end.

(** The lambda [replaceValueIfPossible]. *)
Definition replaceValueIfPossible (value : Value) (rw : Rewriter) : Rewriter * bool :=
  match latticeValues st !! getFieldRefFromValue value with
  | None | Some Overdefined | Some Unknown => (rw, false)
  | Some Unwritten =>
      match definingOp rw value with
      | Some reg =>
          match opKind reg, resultTypes reg !! 0%nat with
          | RegOp, Some regType =>
              let r := createOp InvalidValueOp regType AllocateOnly rw in
              (replaceIfNotConnect value (snd r) (fst r), true)
          | _, _ => (rw, false)
          end
      | None => (rw, false)
      end
  | Some (Constant constantValue) =>
      match typeOf rw value with
      | Some (BaseType _ as type) =>
          let r := getConst constantValue type rw in
          (replaceIfNotConnect value (snd r) (fst r), true)
      | _ => (rw, false)
      end
  end.

Definition isInstanceOp (op : Operation) : bool :=
  match opKind op with InstanceOp _ => true | _ => false end.

Definition isConstantLike (op : Operation) : bool :=
  match opKind op with
  | ConstantOp _ | SpecialConstantOp _ | InvalidValueOp => true
  | _ => false
  end.

(** The body of the bottom-up loop of [rewriteModuleBody], for the operation
    the walk stands at. *)
Definition rewriteOp (id : nat) (rw : Rewriter) : Rewriter :=
  match findOp (rwOps rw) id with
  | None => rw
  | Some op =>
      if isFConnectLike op then
        match operands op with
        | dest :: _ =>
            match definingOp rw dest with
            | Some destOp =>
                if isDeletableWireOrRegOrNode destOp &&
                   negb (isOverdefinedKey st (getFieldRefFromValue dest))
                then countErased (eraseOp id rw)
                else rw
            | None => rw
            end
        | [] => rw
        end
      else if negb (Nat.eqb (length (resultTypes op)) 1) && negb (isInstanceOp op)
      then rw
      else if use_empty (rwOps rw) op &&
              (wouldOpBeTriviallyDead op || isDeletableWireOrRegOrNode op)
      then eraseOp id rw
      else if isConstantLike op then rw
      else
        let rw := setInsertionPoint (Some id) rw in
        let r :=
          foldl (λ acc result,
                   let r := replaceValueIfPossible result (fst acc) in
                   (fst r, snd acc || snd r))
                (rw, false) (getResults op) in
        let rw := if snd r then countFolded (fst r) else fst r in
        if snd r && use_empty (rwOps rw) op &&
           (wouldOpBeTriviallyDead op || isDeletableWireOrRegOrNode op)
        then countErased (eraseOp id rw)
        else rw
  end.

(** The operation before [id] in the block. *)
Fixpoint prevOp (ops : list Operation) (id : nat) : option nat :=
  match ops with
  | op :: (op' :: _) as rest =>
      if Nat.eqb (opId op') id then Some (opId op) else prevOp rest id
  | _ => None
  end.

(** The reverse walk with an early-incremented iterator: the next stop is
    fixed before the operation at hand is rewritten.  [None] is fuel running
    out. *)
Fixpoint walk (fuel : nat) (cur : option nat) (rw : Rewriter) : option Rewriter :=
  match cur with
  | None => Some rw
  | Some id =>
      match fuel with
      | O => None
      | S fuel' => walk fuel' (prevOp (rwOps rw) id) (rewriteOp id rw)
      end
  end.

(** [rewriteModuleBody]: [freshId] is the first operation the builder may
    create. *)
Definition rewriteModuleBody (fuel : nat) (freshId : nat) : option Rewriter :=
  let rw := mkRewriter (body module) freshId (opId <$> head (body module)) [] 0 0 in
  if negb (isBlockExecutable st block) then Some rw
  else
    let rw :=
      foldl (λ rw port, fst (replaceValueIfPossible port rw))
            rw (getArguments block module) in
    walk fuel (opId <$> last (rwOps rw)) rw.

End Rewrite.

(** ** IMConstProp: what the properties are stated with *)

(** An update keeps every Overdefined entry of the lattice map. *)
Definition keepsOverdefined (f : IMConstPropPass → IMConstPropPass) : Prop :=
  ∀ st k, latticeValues st !! k = Some Overdefined →
          latticeValues (f st) !! k = Some Overdefined.

(** The diagnostics [visitConnectLike] emits for an unhandled destination:
    one for every leaf of the destination type whose source value, extended,
    is not Unknown. *)
Definition unhandledDiagnostics (getFieldRefFromValue : Value → FieldRef)
    (st : IMConstPropPass) (connect : Operation) (dest src : Value)
    (baseType : FIRRTLBaseType) : list Diagnostic :=
  flat_map
    (λ leaf,
       if isUnknown (getExtendedLatticeValue st
                       (getSubField (getFieldRefFromValue src) (fst leaf))
                       (getPassiveType (snd leaf)) false)
       then []
       else [mkDiagnostic (opId connect)
               "connectlike operation unhandled by IMConstProp" dest])
    (foreachFIRRTLGroundTypeBase baseType).

(** The number of blocks of the circuit that are not executable yet: what
    bounds the depth of [markBlockExecutable]. *)
Definition notYetExecutable (circuit : CircuitOp) (st : IMConstPropPass) : nat :=
  length (List.filter (λ block, negb (isBlockExecutable st block))
                      (seq 0 (length circuit))).

(** Every operation that has an operand has at most one result: the
    operations the solver visits are expressions.  (Instances and memories
    have several results and no operand.) *)
Definition singleResultUsers (ops : list Operation) : bool :=
  forallb (λ op, match operands op with
                 | [] => true
                 | _ => Nat.leb (length (resultTypes op)) 1
                 end) ops.

(** The fold hook returns one result for every result of the operation (the
    assertion of [visitOperation]). *)
Definition foldHookArity
    (foldHook : Operation → list (option Attribute) → option (list OpFoldResult))
    : Prop :=
  ∀ op operandConstants foldResults,
    foldHook op operandConstants = Some foldResults →
    length foldResults = length (resultTypes op).

(** The users the solver has on record are operations of the circuit that
    have an operand. *)
Definition usersFromCircuit (circuit : CircuitOp) (st : IMConstPropPass) : Prop :=
  ∀ key user, user ∈ default [] (fieldRefToUsers st !! key) →
    ∃ module, circuit !! user.1 = Some module ∧ user.2 ∈ body module ∧
              operands user.2 ≠ [].

(** Every leaf of the value is Overdefined. *)
Definition allOverdefined (circuit : CircuitOp) (getFieldRefFromValue : Value → FieldRef)
    (st : IMConstPropPass) (value : Value) : Prop :=
  ∀ leaf, leaf ∈ groundTypesOfBaseValue circuit value →
    latticeValues st !! getSubField (getFieldRefFromValue value) leaf.1
    = Some Overdefined.

(** An update of the initial scans: Overdefined entries stay, and the
    executable blocks, the users on record and the instance results on
    record only gain members. *)
Definition scanKeeps (st st' : IMConstPropPass) : Prop :=
  (∀ k, latticeValues st !! k = Some Overdefined →
        latticeValues st' !! k = Some Overdefined) ∧
  executableBlocks st ⊆ executableBlocks st' ∧
  (∀ key user, user ∈ default [] (fieldRefToUsers st !! key) →
               user ∈ default [] (fieldRefToUsers st' !! key)) ∧
  (∀ port r, r ∈ default [] (resultPortToInstanceResultMapping st !! port) →
             r ∈ default [] (resultPortToInstanceResultMapping st' !! port)).

(** The results the scan of a block gives up on are Overdefined, and an
    instance of a module with a body has made the module executable and put
    its results on record at the module's ports. *)
Definition scanMarked (circuit : CircuitOp) (getFieldRefFromValue : Value → FieldRef)
    (op : Operation) (st : IMConstPropPass) : Prop :=
  if isWireOrReg op then
    allOverdefined circuit getFieldRefFromValue st (OpResult (opId op) 0)
  else
    match opKind op with
    | InvalidValueOp | VerbatimExprOp | VerbatimWireOp =>
        allOverdefined circuit getFieldRefFromValue st (OpResult (opId op) 0)
    | MemOp | UnrealizedConversionCastOp =>
        ∀ result, result ∈ getResults op →
                  allOverdefined circuit getFieldRefFromValue st result
    | InstanceOp moduleName =>
        match circuit !! moduleName with
        | None => True
        | Some referenced =>
            if isFModule referenced then
              moduleName ∈ executableBlocks st ∧
              ∀ resultNo, (resultNo < length (resultTypes op))%nat →
                getPortDirection referenced resultNo ≠ Some In →
                OpResult (opId op) resultNo ∈
                  default [] (resultPortToInstanceResultMapping st
                                !! BlockArgument moduleName resultNo)
            else
              ∀ resultNo, (resultNo < length (resultTypes op))%nat →
                getPortDirection referenced resultNo ≠ Some In →
                allOverdefined circuit getFieldRefFromValue st
                               (OpResult (opId op) resultNo)
        end
    | _ => True
    end.

(** What the scan of a block leaves behind for one of its operations: the
    operation is on record as a user of every leaf of every operand, and
    its results are marked. *)
Definition scannedOp (circuit : CircuitOp) (getFieldRefFromValue : Value → FieldRef)
    (block : nat) (op : Operation) (st : IMConstPropPass) : Prop :=
  (∀ operand t leaf,
     operand ∈ operands op → getType circuit operand = Some t →
     leaf ∈ foreachFIRRTLGroundType t →
     (block, op) ∈ default [] (fieldRefToUsers st
                                 !! getSubField (getFieldRefFromValue operand) leaf.1)) ∧
  scanMarked circuit getFieldRefFromValue op st.

Definition scannedBlock (circuit : CircuitOp) (getFieldRefFromValue : Value → FieldRef)
    (st : IMConstPropPass) (block : nat) : Prop :=
  ∀ module, circuit !! block = Some module →
    ∀ op, op ∈ body module → scannedOp circuit getFieldRefFromValue block op st.

(** Every executable block is scanned, but for the blocks in [inProgress]. *)
Definition scansDone (circuit : CircuitOp) (getFieldRefFromValue : Value → FieldRef)
    (inProgress : gset nat) (st : IMConstPropPass) : Prop :=
  ∀ block, block ∈ executableBlocks st → block ∉ inProgress →
           scannedBlock circuit getFieldRefFromValue st block.

(** What the first loop of [runOnOperation] leaves behind for a public
    module. *)
Definition publicSeeded (circuit : CircuitOp) (getFieldRefFromValue : Value → FieldRef)
    (st : IMConstPropPass) (bm : nat * FModuleLike) : Prop :=
  isFModule bm.2 && isPublic bm.2 = true →
  bm.1 ∈ executableBlocks st ∧
  ∀ port, port ∈ getArguments bm.1 bm.2 →
          allOverdefined circuit getFieldRefFromValue st port.

(** The value has a ground base type. *)
Definition groundValue (circuit : CircuitOp) (value : Value) : bool :=
  match getType circuit value with
  | Some (BaseType t) => isGround t
  | _ => false
  end.

(** What the rewrite may turn an operation of the block into: the same
    operation with some operands replaced, the destination of a connect
    never among them. *)
Definition rewrittenFrom (orig new : Operation) : Prop :=
  opId new = opId orig ∧ opKind new = opKind orig ∧
  resultTypes new = resultTypes orig ∧
  opDontTouch new = opDontTouch orig ∧
  opAnnotationsEmpty new = opAnnotationsEmpty orig ∧
  opDroppableName new = opDroppableName orig ∧
  opInnerSym new = opInnerSym orig ∧ opEffect new = opEffect orig ∧
  length (operands new) = length (operands orig) ∧
  (isFConnectLike orig = true → operands new !! 0%nat = operands orig !! 0%nat).

(** The operations of a block under rewrite: each one comes from an
    operation of the original body, or was created by the builder as a
    constant or an invalid value. *)
Definition rewriteShape (freshId : nat) (original : list Operation) (rw : Rewriter)
    : Prop :=
  (freshId ≤ rwNextId rw)%nat ∧
  ∀ op, op ∈ rwOps rw →
    (∃ orig, orig ∈ original ∧ rewrittenFrom orig op) ∨
    (operands op = [] ∧ (freshId ≤ opId op < rwNextId rw)%nat ∧
     isConstantLike op = true ∧ length (resultTypes op) = 1%nat).

(** The target holds what the source says: [mergeIn] leaves the target as it
    is and answers false. *)
Definition absorbs (target source : LatticeValue) : Prop :=
  mergeIn target source = (target, false).

(** What a visit does to the state it starts from: it takes nothing from
    the worklist, it queues the key of every entry it changes, the entries
    at the keys in [safe] only rise, and it leaves the executable blocks,
    the users and the instance results on record alone. *)
Definition visitStep (safe : FieldRef → Prop) (st st' : IMConstPropPass) : Prop :=
  (∀ key, key ∈ changedLatticeValueWorklist st →
          key ∈ changedLatticeValueWorklist st') ∧
  (∀ key, entryOf st' key ≠ entryOf st key →
          key ∈ changedLatticeValueWorklist st') ∧
  (∀ key, safe key → absorbs (entryOf st' key) (entryOf st key)) ∧
  executableBlocks st' = executableBlocks st ∧
  fieldRefToUsers st' = fieldRefToUsers st ∧
  resultPortToInstanceResultMapping st' = resultPortToInstanceResultMapping st.

(** The entries that [propagateElementLattice] merges the source into, for
    the leaf [fieldID] of a destination that is a root value: for a port of
    the module, the results on record for the port at the instances of the
    module, then the port; for the result of a wire or register, the
    result; for the result of an instance, the result and, if the module has
    a body, its port. *)
Definition connectTargets (circuit : CircuitOp) (st : IMConstPropPass)
    (dest : Value) (fieldID : nat) : list FieldRef :=
  match dest with
  | BlockArgument _ _ =>
      map (λ userOfResultPort, (userOfResultPort, fieldID))
          (default [] (resultPortToInstanceResultMapping st !! dest))
      ++ [(dest, fieldID)]
  | OpResult _ resultNumber =>
      match getDefiningOp circuit dest with
      | None => []
      | Some owner =>
          if isWireOrReg owner then [(dest, fieldID)]
          else
            match opKind owner with
            | InstanceOp moduleName =>
                (dest, fieldID) ::
                match circuit !! moduleName with
                | Some module =>
                    if isFModule module
                    then [(BlockArgument moduleName resultNumber, fieldID)]
                    else []
                | None => []
                end
            | _ => []
            end
      end
  end.

(** The connect is satisfied at the leaf: every entry it drives absorbs the
    value of the source, extended to the type of the leaf. *)
Definition connectSatisfied (circuit : CircuitOp) (st : IMConstPropPass)
    (dest src : Value) (leaf : nat * FIRRTLBaseType) : Prop :=
  ∀ key, key ∈ connectTargets circuit st dest leaf.1 →
    absorbs (entryOf st key)
            (getExtendedLatticeValue st (src, leaf.1) (getPassiveType leaf.2) false).

(** Operation ids are unique in the circuit, and instances have no
    operand. *)
Definition instancesWellFormed (ops : list Operation) : bool :=
  bool_decide (NoDup (map opId ops)) &&
  forallb (λ op, match opKind op with
                 | InstanceOp _ => bool_decide (operands op = [])
                 | _ => true
                 end) ops.

(** Every leaf of the destination is a leaf of the source. *)
Definition leavesCovered (circuit : CircuitOp) (dest src : Value) : bool :=
  match getType circuit dest, getType circuit src with
  | Some destType, Some srcType =>
      forallb (λ leaf : nat * FIRRTLBaseType,
                 existsb (λ leaf' : nat * FIRRTLBaseType, Nat.eqb leaf'.1 leaf.1)
                         (foreachFIRRTLGroundType srcType))
              (foreachFIRRTLGroundType destType)
  | _, _ => false
  end.

(** A root value that no visit overwrites: a port, or the result of an
    operation without operands (no operation without operands is a user). *)
Definition safeRoot (circuit : CircuitOp) (value : Value) : Prop :=
  match value with
  | BlockArgument _ _ => True
  | OpResult o _ =>
      ∀ op, op ∈ concat (map body circuit) → opId op = o → operands op = []
  end.

(** The instance results on record are results of instances of the
    circuit. *)
Definition mappingFromCircuit (circuit : CircuitOp) (st : IMConstPropPass) : Prop :=
  ∀ port result,
    result ∈ default [] (resultPortToInstanceResultMapping st !! port) →
    ∃ instance moduleName resultNo,
      instance ∈ concat (map body circuit) ∧
      opKind instance = InstanceOp moduleName ∧
      result = OpResult (opId instance) resultNo.

(** Every entry that is not Unknown has its key on the worklist. *)
Definition seededQueued (st : IMConstPropPass) : Prop :=
  ∀ key, entryOf st key ≠ Unknown → key ∈ changedLatticeValueWorklist st.

(** Where the worklist loop stands with the connects of the executable
    blocks: at every leaf, the destination or the source is on the worklist,
    or the connect is among the users still to be visited in this turn, or
    it is satisfied. *)
Definition connectsPending (circuit : CircuitOp) (remaining : list (nat * Operation))
    (st : IMConstPropPass) : Prop :=
  ∀ block module op dest src rest destType leaf,
    block ∈ executableBlocks st → circuit !! block = Some module →
    op ∈ body module → isFConnectLike op = true →
    operands op = dest :: src :: rest →
    leavesCovered circuit dest src = true →
    getType circuit dest = Some destType →
    leaf ∈ foreachFIRRTLGroundType destType →
    (dest, leaf.1) ∈ changedLatticeValueWorklist st ∨
    (src, leaf.1) ∈ changedLatticeValueWorklist st ∨
    (block, op) ∈ remaining ∨
    connectSatisfied circuit st dest src leaf.

(** Every operation of an executable block is on record as a user of every
    leaf of each of its operands. *)
Definition usersRecorded (circuit : CircuitOp) (getFieldRefFromValue : Value → FieldRef)
    (st : IMConstPropPass) : Prop :=
  ∀ block module op operand t leaf,
    block ∈ executableBlocks st → circuit !! block = Some module →
    op ∈ body module → operand ∈ operands op →
    getType circuit operand = Some t → leaf ∈ foreachFIRRTLGroundType t →
    (block, op) ∈ default [] (fieldRefToUsers st
                                !! getSubField (getFieldRefFromValue operand) leaf.1).

(** One turn of the worklist loop of [runOnOperation]: the key at the back
    of the worklist is taken off and its users are visited. *)
Definition solveTurn (circuit : CircuitOp) (getFieldRefFromValue : Value → FieldRef)
    (foldHook : Operation → list (option Attribute) → option (list OpFoldResult))
    (st : IMConstPropPass) : IMConstPropPass :=
  match changedLatticeValueWorklist st with
  | [] => st
  | changedKey :: rest =>
      visitUsers circuit getFieldRefFromValue foldHook changedKey (setWorklist rest st)
  end.

(** The body of the loop of [markBlockExecutable] over the operations of a
    block; [fuel] is what is left for the nested calls. *)
Definition scanStep (circuit : CircuitOp) (getFieldRefFromValue : Value → FieldRef)
    (fuel : nat) (block : nat) (st : IMConstPropPass) (op : Operation)
    : option IMConstPropPass :=
  let marked :=
    if isWireOrReg op
    then Some (markWireOrRegOp circuit getFieldRefFromValue op st)
    else
      match opKind op with
      | ConstantOp value => Some (markConstantOp getFieldRefFromValue op value st)
      | SpecialConstantOp value =>
          Some (markSpecialConstantOp getFieldRefFromValue op value st)
      | InvalidValueOp => Some (markInvalidValueOp circuit getFieldRefFromValue op st)
      | InstanceOp moduleName =>
          match circuit !! moduleName with
          | None => Some st
          | Some referenced =>
              if isFModule referenced then
                forwardInstanceResults circuit getFieldRefFromValue op moduleName
                                       referenced
                  <$> markBlockExecutable circuit getFieldRefFromValue fuel
                                          moduleName st
              else Some (markExtInstanceResults circuit getFieldRefFromValue
                                                op referenced st)
          end
      | MemOp => Some (markMemOp circuit getFieldRefFromValue op st)
      | UnrealizedConversionCastOp =>
          Some (foldl (λ st result,
                         markOverdefined circuit getFieldRefFromValue result st)
                      st (getResults op))
      | VerbatimExprOp | VerbatimWireOp =>
          Some (markOverdefined circuit getFieldRefFromValue (OpResult (opId op) 0) st)
      | _ => Some st
      end in
  recordUsers circuit getFieldRefFromValue block op <$> marked.

(** An update of the initial scans, seen from the lattice: the executable
    blocks are the same and every entry absorbs what it held. *)
Definition scanRises (st st' : IMConstPropPass) : Prop :=
  executableBlocks st' = executableBlocks st ∧
  ∀ key, absorbs (entryOf st' key) (entryOf st key).

(** The literal of a constant operation has been merged into the entry of
    its result. *)
Definition constantSeeded (getFieldRefFromValue : Value → FieldRef)
    (op : Operation) (st : IMConstPropPass) : Prop :=
  ∀ value, opKind op = ConstantOp value →
    absorbs (entryOf st (getFieldRefFromValue (OpResult (opId op) 0)))
            (Constant (IntAttr value)).

(** Every constant of an executable block is seeded, but for the blocks in
    [inProgress]. *)
Definition constantsSeeded (circuit : CircuitOp)
    (getFieldRefFromValue : Value → FieldRef) (inProgress : gset nat)
    (st : IMConstPropPass) : Prop :=
  ∀ block module op,
    block ∈ executableBlocks st → block ∉ inProgress →
    circuit !! block = Some module → op ∈ body module →
    constantSeeded getFieldRefFromValue op st.

(** What [getExtendedLatticeValue] returns for an entry that holds the
    integer constant [value]: the constant at the width of [destType], or
    Overdefined if that width is unknown. *)
Definition extendedLiteral (value : APSInt) (destType : FIRRTLBaseType)
    : LatticeValue :=
  let destWidth := getBitWidthOrSentinel destType in
  if destWidth =? -1 then Overdefined
  else if apBitWidth value =? destWidth mod 2 ^ 32 then Constant (IntAttr value)
  else Constant (IntAttr (extOrTruncZeroWidth value (destWidth mod 2 ^ 32))).

(** A call site that drives a port of a module with a literal: the block
    holds an instance of [callee], a constant operation with the literal
    [value], and a connect from the result of the constant to the result of
    the instance for port [resultNo].  The instance result has the type [t]
    and the constant a ground type. *)
Definition literalSite (circuit : CircuitOp) (callee resultNo : nat)
    (t : FIRRTLBaseType) (block : nat) (value : APSInt) : Prop :=
  ∃ module instance constant connect rest constantType,
    circuit !! block = Some module ∧
    instance ∈ body module ∧ opKind instance = InstanceOp callee ∧
    constant ∈ body module ∧ opKind constant = ConstantOp value ∧
    operands constant = [] ∧
    connect ∈ body module ∧ isFConnectLike connect = true ∧
    operands connect
    = OpResult (opId instance) resultNo :: OpResult (opId constant) 0 :: rest ∧
    getType circuit (OpResult (opId instance) resultNo) = Some (BaseType t) ∧
    getType circuit (OpResult (opId constant) 0) = Some (BaseType constantType) ∧
    isGround constantType = true.

(** ** IMConstProp: concrete circuits *)

(** [getFieldRefFromValue] for values that no subfield, subindex or
    subaccess operation defines: the value itself, field 0. *)
Definition rootFieldRef (v : Value) : FieldRef := (v, 0%nat).

(** A fold hook that always fails. *)
Definition noFold (op : Operation) (operandConstants : list (option Attribute))
    : option (list OpFoldResult) := None.

(** A public module with a ground wire. *)
Definition wireOp : Operation := plainOp 1 WireOp [] [UInt8].
Definition wireCircuit : CircuitOp := [mkModule true true true [] [wireOp]].

(** A one-result operation, a state in which its result and its operand
    are Overdefined, and a fold hook that would fold the result to a
    constant. *)
Definition oneResultState : IMConstPropPass :=
  mkPass {[ (BlockArgument 0 0, 0%nat) := Overdefined;
            (OpResult 1 0, 0%nat) := Overdefined ]}
         {[ 0%nat ]} [] ∅ ∅ [].
Definition oneResultOp : Operation :=
  plainOp 1 (OtherOp 0) [BlockArgument 0 0] [UInt8].
Definition oneResultFold (op : Operation) (operandConstants : list (option Attribute))
    : option (list OpFoldResult) :=
  Some [FoldAttr (AttrInteger (IntAttr (mkAPSInt 8 5 true)))].

(** A connect whose destination is the result of an operation of another
    kind, driven by a constant that the solver knows. *)
Definition strayConnectCircuit : CircuitOp :=
  [mkModule true true true []
     [plainOp 1 (ConstantOp (mkAPSInt 8 1 true)) [] [UInt8];
      plainOp 2 (OtherOp 0) [] [UInt8];
      plainOp 3 ConnectOp [OpResult 2 0; OpResult 1 0] []]].
Definition strayConnect : Operation :=
  plainOp 3 ConnectOp [OpResult 2 0; OpResult 1 0] [].
Definition strayConnectState : IMConstPropPass :=
  mkPass {[ (OpResult 1 0, 0%nat) := Constant (IntAttr (mkAPSInt 8 1 true)) ]}
         {[ 0%nat ]} [] ∅ ∅ [].

(** Scenario 1: a public module with an output port and a ground, deletable
    wire that is read by a connect to the port and never driven. *)
Definition undrivenWireModule : FModuleLike :=
  mkModule true true true [mkPort Out UInt8 false]
    [plainOp 1 WireOp [] [UInt8];
     plainOp 2 StrictConnectOp [BlockArgument 0 0; OpResult 1 0] []].

(** ** IMConstProp: two call sites of one module *)

(** The unsigned 8-bit literal [v]. *)
Definition literal (v : Z) : APSInt := mkAPSInt 8 v true.

(** The public top module: two constants, two instances of the callee, and
    a connect from each constant to the input port of one instance. *)
Definition twoSitesTop (a b : APSInt) : FModuleLike :=
  mkModule true true true []
    [plainOp 1 (ConstantOp a) [] [UInt8];
     plainOp 2 (ConstantOp b) [] [UInt8];
     plainOp 3 (InstanceOp 1) [] [UInt8];
     plainOp 4 (InstanceOp 1) [] [UInt8];
     plainOp 5 StrictConnectOp [OpResult 3 0; OpResult 1 0] [];
     plainOp 6 StrictConnectOp [OpResult 4 0; OpResult 2 0] []].

(** The callee: one input port, read by a node. *)
Definition twoSitesCallee : FModuleLike :=
  mkModule true false true [mkPort In UInt8 false]
    [plainOp 7 NodeOp [BlockArgument 1 0] [UInt8]].

Definition twoSitesCircuit (a b : APSInt) : CircuitOp :=
  [twoSitesTop a b; twoSitesCallee].

(** ** IMConstProp: an Overdefined entry that a later fold overwrites *)




(** ** IMConstProp: two call sites, one of them in a module that is never
    instantiated *)

(** The public top module drives the port of the callee with [a]. *)
Definition liveSiteTop (a : APSInt) : FModuleLike :=
  mkModule true true true []
    [plainOp 1 (ConstantOp a) [] [UInt8];
     plainOp 3 (InstanceOp 1) [] [UInt8];
     plainOp 5 StrictConnectOp [OpResult 3 0; OpResult 1 0] []].

(** A private module that nothing instantiates drives the same port of the
    callee with [b]. *)
Definition deadSiteModule (b : APSInt) : FModuleLike :=
  mkModule true false true []
    [plainOp 2 (ConstantOp b) [] [UInt8];
     plainOp 4 (InstanceOp 1) [] [UInt8];
     plainOp 6 StrictConnectOp [OpResult 4 0; OpResult 2 0] []].

Definition deadSiteCircuit (a b : APSInt) : CircuitOp :=
  [liveSiteTop a; twoSitesCallee; deadSiteModule b].

End IMConstProp.

(** ** IMDeadCodeElim: the liveness solver *)

Module IMDeadCodeElim.

(** [hasUnknownSideEffect]: an effect other than none, allocation alone or
    a read alone. *)
Definition hasUnknownSideEffect (op : Operation) : bool :=
  match opEffect op with
  | UnknownEffect => true
  | _ => false
  end.

(** [isDeclaration]. *)
Definition isDeclaration (op : Operation) : bool :=
  match opKind op with
  | WireOp | RegResetOp | RegOp | NodeOp | MemOp => true
  | _ => false
  end.

(** [isDeletableDeclaration]. *)
Definition isDeletableDeclaration (op : Operation) : bool :=
  opDroppableName op && negb (opDontTouch op).

Definition isSubelement (op : Operation) : bool :=
  match opKind op with
  | SubfieldOp | SubindexOp | SubaccessOp => true
  | _ => false
  end.

(** The members of [IMDeadCodeElimPass].  An instance is named by the
    identity of its operation; an inner symbol by the module and the
    operation that carries it.  The two symbol worklists of the source are
    never pushed to and are left out, with the loops over them. *)
Record IMDeadCodeElimPass := mkPass {
  executableBlocks : gset nat;
  resultPortToInstanceResultMapping : gmap Value (list Value);
  valueWorklist : list Value;
  liveValues : gset Value;
  liveInstances : gset nat;
  liveInnerSymbols : gset (nat * nat);
  undeletableBlocks : gset nat;
  lazyLiveInputPorts : gmap nat (list Value)
}.

Definition initialPass : IMDeadCodeElimPass := mkPass ∅ ∅ [] ∅ ∅ ∅ ∅ ∅.

Definition isKnownAlive (st : IMDeadCodeElimPass) (value : Value) : bool :=
  bool_decide (value ∈ liveValues st).

Definition isBlockExecutable (st : IMDeadCodeElimPass) (block : nat) : bool :=
  bool_decide (block ∈ executableBlocks st).

Definition isBlockUndeletable (st : IMDeadCodeElimPass) (block : nat) : bool :=
  bool_decide (block ∈ undeletableBlocks st).

Definition isLiveInnerSymbol (st : IMDeadCodeElimPass) (module symbol : nat) : bool :=
  bool_decide ((module, symbol) ∈ liveInnerSymbols st).

Definition markBlockUndeletable (block : nat) (st : IMDeadCodeElimPass)
    : IMDeadCodeElimPass :=
  mkPass (executableBlocks st) (resultPortToInstanceResultMapping st)
         (valueWorklist st) (liveValues st) (liveInstances st)
         (liveInnerSymbols st) ({[block]} ∪ undeletableBlocks st)
         (lazyLiveInputPorts st).

Definition insertLiveInstance (instance : nat) (st : IMDeadCodeElimPass)
    : IMDeadCodeElimPass :=
  mkPass (executableBlocks st) (resultPortToInstanceResultMapping st)
         (valueWorklist st) (liveValues st) ({[instance]} ∪ liveInstances st)
         (liveInnerSymbols st) (undeletableBlocks st) (lazyLiveInputPorts st).

(** [markAlive(InstanceOp)]: [block] is the block of the instance. *)
Definition markAliveInstance (block : nat) (instance : Operation)
    (st : IMDeadCodeElimPass) : IMDeadCodeElimPass :=
  insertLiveInstance (opId instance) (markBlockUndeletable block st).

(** [markAlive(Value)]. *)
Definition markAlive (value : Value) (st : IMDeadCodeElimPass) : IMDeadCodeElimPass :=
  if isKnownAlive st value then st
  else
    mkPass (executableBlocks st) (resultPortToInstanceResultMapping st)
           (value :: valueWorklist st) ({[value]} ∪ liveValues st)
           (liveInstances st) (liveInnerSymbols st) (undeletableBlocks st)
           (lazyLiveInputPorts st).

Definition insertExecutable (block : nat) (st : IMDeadCodeElimPass)
    : IMDeadCodeElimPass :=
  mkPass ({[block]} ∪ executableBlocks st) (resultPortToInstanceResultMapping st)
         (valueWorklist st) (liveValues st) (liveInstances st)
         (liveInnerSymbols st) (undeletableBlocks st) (lazyLiveInputPorts st).

Definition addInstanceResult (port result : Value) (st : IMDeadCodeElimPass)
    : IMDeadCodeElimPass :=
  mkPass (executableBlocks st)
         (<[port := default [] (resultPortToInstanceResultMapping st !! port) ++ [result]]>
            (resultPortToInstanceResultMapping st))
         (valueWorklist st) (liveValues st) (liveInstances st)
         (liveInnerSymbols st) (undeletableBlocks st) (lazyLiveInputPorts st).

(** [lazyLiveInputPorts[instance].push_back(port)]. *)
Definition pushLazy (instance : nat) (port : Value) (st : IMDeadCodeElimPass)
    : IMDeadCodeElimPass :=
  mkPass (executableBlocks st) (resultPortToInstanceResultMapping st)
         (valueWorklist st) (liveValues st) (liveInstances st)
         (liveInnerSymbols st) (undeletableBlocks st)
         (<[instance := default [] (lazyLiveInputPorts st !! instance) ++ [port]]>
            (lazyLiveInputPorts st)).

Definition setValueWorklist (wl : list Value) (st : IMDeadCodeElimPass)
    : IMDeadCodeElimPass :=
  mkPass (executableBlocks st) (resultPortToInstanceResultMapping st) wl
         (liveValues st) (liveInstances st) (liveInnerSymbols st)
         (undeletableBlocks st) (lazyLiveInputPorts st).

(** The pending input ports of an instance. *)
Definition pendingOf (st : IMDeadCodeElimPass) (instance : nat) : list Value :=
  default [] (lazyLiveInputPorts st !! instance).

Definition markAliveAll (values : list Value) (st : IMDeadCodeElimPass)
    : IMDeadCodeElimPass :=
  foldl (λ st value, markAlive value st) st values.

(** [markDeclaration]. *)
Definition markDeclaration (block : nat) (op : Operation) (st : IMDeadCodeElimPass)
    : IMDeadCodeElimPass :=
  if negb (isDeletableDeclaration op) then
    markBlockUndeletable block (markAliveAll (getResults op) st)
  else st.

(** [markUnknownSideEffectOp]. *)
Definition markUnknownSideEffectOp (block : nat) (op : Operation)
    (st : IMDeadCodeElimPass) : IMDeadCodeElimPass :=
  markBlockUndeletable block
    (markAliveAll (operands op) (markAliveAll (getResults op) st)).

(** [visitConnect] and [visitSubelement]. *)
Definition visitConnect (connect : Operation) (st : IMDeadCodeElimPass)
    : IMDeadCodeElimPass :=
  match operands connect with
  | dest :: src :: _ => if isKnownAlive st dest then markAlive src st else st
  | _ => st
  end.

Definition visitSubelement (op : Operation) (st : IMDeadCodeElimPass)
    : IMDeadCodeElimPass :=
  match operands op with
  | input :: _ =>
      if isKnownAlive st input then markAlive (OpResult (opId op) 0) st else st
  | [] => st
  end.

(** [visitUser]. *)
Definition visitUser (op : Operation) (st : IMDeadCodeElimPass) : IMDeadCodeElimPass :=
  if isFConnectLike op then visitConnect op st
  else if isSubelement op then visitSubelement op st
  else st.

Section Liveness.

Variable circuit : CircuitOp.

(** [Value::getUsers]: one entry for every use, here in block order. *)
Definition getUsers (value : Value) : list Operation :=
  flat_map (λ op,
              flat_map (λ operand, if bool_decide (operand = value) then [op] else [])
                       (operands op))
           (concat (map body circuit)).

(** The loop of [visitValue] over the instance results bound to an input
    port that became alive: marked alive at once when the instance is known
    alive, queued with the instance otherwise. *)
Definition propagateToInstances (blockArg : Value) (st : IMDeadCodeElimPass)
    : IMDeadCodeElimPass :=
  foldl (λ st userOfResultPort,
           match userOfResultPort with
           | OpResult instance _ =>
               if bool_decide (instance ∈ liveInstances st)
               then markAlive userOfResultPort st
               else pushLazy instance userOfResultPort st
           | BlockArgument _ _ => st
           end)
        st (default [] (resultPortToInstanceResultMapping st !! blockArg)).

(** [visitValue]. *)
Definition visitValue (value : Value) (st : IMDeadCodeElimPass) : IMDeadCodeElimPass :=
  let st := foldl (λ st user, visitUser user st) st (getUsers value) in
  match value with
  | BlockArgument block argNumber =>
      match circuit !! block with
      | Some module =>
          match getPortDirection module argNumber with
          | Some In => propagateToInstances value st
          | _ => st
          end
      | None => st
      end
  | OpResult _ resultNumber =>
      match getDefiningOp circuit value with
      | None => st
      | Some op =>
          match opKind op with
          | InstanceOp moduleName =>
              match circuit !! moduleName with
              | Some module =>
                  if negb (isFModule module) then st
                  else
                    match getPortDirection module resultNumber with
                    | Some In => st
                    | _ =>
                        let st :=
                          if bool_decide (opId op ∈ liveInstances st) then st
                          else markAliveAll (pendingOf st (opId op))
                                            (insertLiveInstance (opId op) st) in
                        markAlive (BlockArgument moduleName resultNumber) st
                    end
              | None => st
              end
          | MemOp => markAliveAll (getResults op) st
          | _ => markAliveAll (operands op) st
          end
      end
  end.

(** A loop whose body may run out of fuel. *)
Fixpoint foldlOpt {A S : Type} (f : S → A → option S) (st : S) (l : list A)
    : option S :=
  match l with
  | [] => Some st
  | a :: l' =>
      match f st a with
      | Some st' => foldlOpt f st' l'
      | None => None
      end
  end.

(** The tail of [markInstanceOp] for an instance of a module with a body. *)
Definition recordInstanceResults (instance : Operation) (moduleName : nat)
    (st : IMDeadCodeElimPass) : IMDeadCodeElimPass :=
  foldl (λ st resultNo,
           addInstanceResult (BlockArgument moduleName resultNo)
                             (OpResult (opId instance) resultNo) st)
        st (seq 0 (length (resultTypes instance))).

(** [markInstanceOp] for an instance of an external module. *)
Definition markExtInstanceOp (block : nat) (instance : Operation)
    (module : FModuleLike) (st : IMDeadCodeElimPass) : IMDeadCodeElimPass :=
  markAliveInstance block instance
    (foldl (λ st resultNo,
              match getPortDirection module resultNo with
              | Some Out => st
              | _ => markAlive (OpResult (opId instance) resultNo) st
              end)
           st (seq 0 (length (resultTypes instance)))).

(** What [markInstanceOp] does once the body of the instantiated module is
    marked executable. *)
Definition afterCalleeMarked (block : nat) (instance : Operation) (moduleName : nat)
    (st : IMDeadCodeElimPass) : IMDeadCodeElimPass :=
  let st :=
    if isBlockUndeletable st moduleName then markAliveInstance block instance st
    else st in
  let st :=
    if opInnerSym instance && isLiveInnerSymbol st moduleName (opId instance)
    then markAliveInstance block instance st
    else st in
  recordInstanceResults instance moduleName st.

(** [markBlockExecutable], with [markInstanceOp] inlined where it recurses;
    [None] is fuel running out. *)
Fixpoint markBlockExecutable (fuel : nat) (block : nat) (st : IMDeadCodeElimPass)
    : option IMDeadCodeElimPass :=
  match fuel with
  | O => None
  | S fuel' =>
      if isBlockExecutable st block then Some st
      else
        let st := insertExecutable block st in
        match circuit !! block with
        | None => Some st
        | Some fmodule =>
            let st :=
              if isPublic fmodule || negb (modAnnotationsEmpty fmodule)
              then markBlockUndeletable block st else st in
            let st :=
              foldl (λ st blockArg,
                       if hasDontTouchValue circuit blockArg
                       then markBlockUndeletable block (markAlive blockArg st)
                       else st)
                    st (getArguments block fmodule) in
            foldlOpt
              (λ st op,
                 if isDeclaration op then Some (markDeclaration block op st)
                 else
                   match opKind op with
                   | InstanceOp moduleName =>
                       match circuit !! moduleName with
                       | None => Some st
                       | Some referenced =>
                           if isFModule referenced then
                             afterCalleeMarked block op moduleName
                               <$> markBlockExecutable fuel' moduleName st
                           else Some (markExtInstanceOp block op referenced st)
                       end
                   | _ =>
                       if isFConnectLike op then Some st
                       else if hasUnknownSideEffect op
                       then Some (markUnknownSideEffectOp block op st)
                       else Some st
                   end)
              st (body fmodule)
        end
  end.

(** The loop of [runOnOperation] over the public modules. *)
Definition markPublicModules (fuel : nat) (st : IMDeadCodeElimPass)
    : option IMDeadCodeElimPass :=
  foldlOpt
    (λ st bm,
       let block := fst bm in
       let module := snd bm in
       if isFModule module && isPublic module then
         markAliveAll (getArguments block module) <$>
           markBlockExecutable fuel block st
       else Some st)
    st (imap (λ i m, (i, m)) circuit).

(** One turn of the worklist loop: [visitValue(valueWorklist.pop_back_val())]. *)
Definition solveStep (st : IMDeadCodeElimPass) : IMDeadCodeElimPass :=
  match valueWorklist st with
  | [] => st
  | value :: rest => visitValue value (setValueWorklist rest st)
  end.

(** The loop over the value worklist of [runOnOperation],
    [while (!valueWorklist.empty()) visitValue(valueWorklist.pop_back_val())];
    [None] is fuel running out.  The two loops over [symbolWorklist] that
    follow it in the source, and the outer loop around the three, are left
    out: nothing pushes to the symbol worklists, and [visitSymbol] and
    [visitInnerSymbol] are not declared in the file. *)
Fixpoint solve (fuel : nat) (st : IMDeadCodeElimPass) : option IMDeadCodeElimPass :=
  match valueWorklist st with
  | [] => Some st
  | _ :: _ =>
      match fuel with
      | O => None
      | S fuel' => solve fuel' (solveStep st)
      end
  end.

(** The liveness analysis of [runOnOperation]: the marking of the public
    modules and the loop over the value worklist, on the circuit as
    [forwardConstantOutputPort] left it. *)
Definition analyze (fuel : nat) : option IMDeadCodeElimPass :=
  st ← markPublicModules fuel initialPass; solve fuel st.

End Liveness.


(** ** IMDeadCodeElim: the driver *)

Section Driver.

(** [runOnOperation] as the sequence of its phases over the state of the
    world (the IR, the instance graph and the pass state).  [modules] is the
    vector copied from the post-order walk of the instance graph, an external
    capability; the other loops walk the modules of the circuit in order.
    [parallelForEach] returns when every body is rewritten. *)
Context {World : Type}.
Variable forwardConstantOutputPort : nat → World → World.
Variable liveness : World → World.
Variable rewriteModuleSignature : nat → World → World.
Variable rewriteModuleBody : nat → World → World.
Variable eraseEmptyModule : nat → World → World.

Variable circuit : CircuitOp.
Variable postOrder : list nat.

Definition isFModuleName (name : nat) : bool :=
  from_option isFModule false (circuit !! name).

(** [circuit.getBodyBlock()->getOps<FModuleOp>()]. *)
Definition fModuleOps : list nat :=
  List.filter isFModuleName (seq 0 (length circuit)).

Definition runOnOperation (w : World) : World :=
  let modules := List.filter isFModuleName postOrder in
  let w := foldl (λ w module, forwardConstantOutputPort module w) w modules in
  let w := liveness w in
  let w := foldl (λ w module, rewriteModuleSignature module w) w fModuleOps in
  let w := foldl (λ w module, rewriteModuleBody module w) w fModuleOps in
  foldl (λ w module, eraseEmptyModule module w) w modules.

End Driver.

(** The phases of the driver, for the order in which it runs them. *)
Inductive Phase :=
| ForwardConstantOutputPort (module : nat)
| Liveness
| RewriteModuleSignature (module : nat)
| RewriteModuleBody (module : nat)
| EraseEmptyModule (module : nat).

(** The phases that edit a module signature or the instance graph:
    [rewriteModuleSignature] erases dead instances with their graph edges,
    erases ports and replaces instances in the graph; [eraseEmptyModule]
    erases instances, their edges and the node of the module. *)
Definition mutatesSignatureOrInstanceGraph (p : Phase) : bool :=
  match p with
  | RewriteModuleSignature _ | EraseEmptyModule _ => true
  | _ => false
  end.

(** The driver run on the log of its own phases. *)
Definition schedule (circuit : CircuitOp) (postOrder : list nat) : list Phase :=
  runOnOperation
    (λ module log, log ++ [ForwardConstantOutputPort module])
    (λ log, log ++ [Liveness])
    (λ module log, log ++ [RewriteModuleSignature module])
    (λ module log, log ++ [RewriteModuleBody module])
    (λ module log, log ++ [EraseEmptyModule module])
    circuit postOrder [].

(** ** IMDeadCodeElim: the rewrite of a module body *)

(** [isAssumedDead], on a value and on an operation. *)
Definition isAssumedDead (st : IMDeadCodeElimPass) (value : Value) : bool :=
  negb (isKnownAlive st value).

Definition isAssumedDeadOp (st : IMDeadCodeElimPass) (op : Operation) : bool :=
  forallb (λ value, negb (isKnownAlive st value)) (getResults op).

(** [mlir::isOpTriviallyDead]: no use is left and the operation has no
    effect that matters. *)
Definition isOpTriviallyDead (ops : list Operation) (op : Operation) : bool :=
  IMConstProp.use_empty ops op && IMConstProp.wouldOpBeTriviallyDead op.

(** What [rewriteModuleBody] leaves: the operations of the block, the
    statistic, and whether the assertion "users should be already removed"
    held at every operation it erased as dead. *)
Record BodyRewrite := mkBodyRewrite {
  brOps : list Operation;
  numErasedOps : nat;
  usersRemoved : bool
}.

Definition keepOp (op : Operation) (r : BodyRewrite) : BodyRewrite :=
  mkBodyRewrite (op :: brOps r) (numErasedOps r) (usersRemoved r).

Definition dropOp (r : BodyRewrite) : BodyRewrite :=
  mkBodyRewrite (brOps r) (S (numErasedOps r)) (usersRemoved r).

Definition dropDeadOp (usersGone : bool) (r : BodyRewrite) : BodyRewrite :=
  mkBodyRewrite (brOps r) (S (numErasedOps r)) (usersRemoved r && usersGone).

(** The bottom-up loop of [rewriteModuleBody] on the operations [ops] that
    follow [before] in the block: the operations behind [op] are rewritten
    first; when the walk stands at [op] the block is [before], [op] and what
    is left of the operations behind it.  A connect without operands has no
    destination to look at and stays. *)
Fixpoint rewriteOps (st : IMDeadCodeElimPass) (before ops : list Operation)
    : BodyRewrite :=
  match ops with
  | [] => mkBodyRewrite [] 0 true
  | op :: rest =>
      let r := rewriteOps st (before ++ [op]) rest in
      let block := before ++ op :: brOps r in
      if isFConnectLike op then
        match operands op with
        | dest :: _ => if isAssumedDead st dest then dropOp r else keepOp op r
        | [] => keepOp op r
        end
      else if (isDeclaration op || negb (hasUnknownSideEffect op)) &&
              isAssumedDeadOp st op
      then dropDeadOp (IMConstProp.use_empty block op) r
      else if isOpTriviallyDead block op then dropOp r
      else keepOp op r
  end.

(** [rewriteModuleBody]. *)
Definition rewriteModuleBody (st : IMDeadCodeElimPass) (block : nat)
    (module : FModuleLike) : BodyRewrite :=
  if negb (isBlockExecutable st block) then mkBodyRewrite (body module) 0 true
  else rewriteOps st [] (body module).

(** ** IMDeadCodeElim: the erasure of empty modules *)

(** Why [eraseEmptyModule] leaves an empty module in place; for instances
    that are referenced by name, the instances the note lists. *)
Inductive EmptyModuleWarning :=
| ModuleIsPublic
| ModuleHasAnnotations
| ModuleHasPorts
| InstanceReferencedByName (instances : list nat).

(** What [eraseEmptyModule] works on: the modules with their bodies, the
    modules erased from the circuit and from the instance graph, the
    warnings emitted, each with its module, and the statistic. *)
Record ModuleEraser := mkModuleEraser {
  meCircuit : CircuitOp;
  meErased : gset nat;
  meWarnings : list (nat * EmptyModuleWarning);
  numErasedModules : nat
}.

Definition isInstanceOf (name : nat) (op : Operation) : bool :=
  match opKind op with
  | InstanceOp moduleName => bool_decide (moduleName = name)
  | _ => false
  end.

(** [instanceGraphNode->uses()]: the instances of the module in the
    circuit. *)
Definition instancesOf (circuit : CircuitOp) (name : nat) : list Operation :=
  List.filter (isInstanceOf name) (concat (map body circuit)).

(** The loop of [eraseEmptyModule] over the uses, in one module: an
    instance without an inner symbol is erased. *)
Definition eraseInstancesOf (name : nat) (module : FModuleLike) : FModuleLike :=
  mkModule (isFModule module) (isPublic module) (modAnnotationsEmpty module)
           (ports module)
           (List.filter (λ op, negb (isInstanceOf name op && negb (opInnerSym op)))
                        (body module)).

Definition emitWarning (name : nat) (warning : EmptyModuleWarning)
    (w : ModuleEraser) : ModuleEraser :=
  mkModuleEraser (meCircuit w) (meErased w) (meWarnings w ++ [(name, warning)])
                 (numErasedModules w).

(** [eraseEmptyModule]. *)
Definition eraseEmptyModule (name : nat) (w : ModuleEraser) : ModuleEraser :=
  match meCircuit w !! name with
  | None => w
  | Some module =>
      if negb (bool_decide (body module = [])) then w
      else if isPublic module then emitWarning name ModuleIsPublic w
      else if negb (modAnnotationsEmpty module)
      then emitWarning name ModuleHasAnnotations w
      else if negb (bool_decide (ports module = []))
      then emitWarning name ModuleHasPorts w
      else
        let instancesWithSymbols :=
          List.filter opInnerSym (instancesOf (meCircuit w) name) in
        let circuit := map (eraseInstancesOf name) (meCircuit w) in
        if negb (bool_decide (instancesWithSymbols = [])) then
          mkModuleEraser circuit (meErased w)
            (meWarnings w ++
             [(name, InstanceReferencedByName (map opId instancesWithSymbols))])
            (numErasedModules w)
        else
          mkModuleEraser circuit ({[name]} ∪ meErased w) (meWarnings w)
                         (S (numErasedModules w))
  end.

(** ** IMDeadCodeElim: what the properties are stated with *)

(** An update that only adds live values: the live instances and the
    pending lists are what they were. *)
Definition onlyAddsLiveValues (st st' : IMDeadCodeElimPass) : Prop :=
  liveInstances st' = liveInstances st ∧
  lazyLiveInputPorts st' = lazyLiveInputPorts st ∧
  resultPortToInstanceResultMapping st' = resultPortToInstanceResultMapping st ∧
  liveValues st ⊆ liveValues st'.

(** The pending ports of live instances are alive. *)
Definition pendingPortsOfLiveInstancesAlive (st : IMDeadCodeElimPass) : Prop :=
  ∀ instance port,
    instance ∈ liveInstances st → port ∈ pendingOf st instance →
    port ∈ liveValues st.

(** The initial scans leave the pending lists alone. *)
Definition keepsPending (st st' : IMDeadCodeElimPass) : Prop :=
  lazyLiveInputPorts st' = lazyLiveInputPorts st.

(** The number of blocks of the circuit that are not executable yet: what
    bounds the depth of [markBlockExecutable]. *)
Definition notYetExecutable (circuit : CircuitOp) (st : IMDeadCodeElimPass) : nat :=
  length (List.filter (λ block, negb (isBlockExecutable st block))
                      (seq 0 (length circuit))).

(** An update under which liveness only grows: live values, live instances and
    pending lists only gain members, the worklist keeps its entries, every
    value that became alive is on the worklist, and the map from ports to
    instance results is what it was. *)
Definition grows (st st' : IMDeadCodeElimPass) : Prop :=
  liveValues st ⊆ liveValues st' ∧
  liveInstances st ⊆ liveInstances st' ∧
  (∀ i port, port ∈ pendingOf st i → port ∈ pendingOf st' i) ∧
  resultPortToInstanceResultMapping st' = resultPortToInstanceResultMapping st ∧
  (∀ v, v ∈ valueWorklist st → v ∈ valueWorklist st') ∧
  (∀ v, v ∈ liveValues st' → v ∈ liveValues st ∨ v ∈ valueWorklist st') ∧
  (∀ v, v ∈ valueWorklist st' →
        v ∈ valueWorklist st ∨ (v ∈ liveValues st' ∧ v ∉ liveValues st)) ∧
  executableBlocks st' = executableBlocks st ∧
  undeletableBlocks st' = undeletableBlocks st.

(** What a visit of the alive value [v] must have established. *)
Definition closedAt (circuit : CircuitOp) (st : IMDeadCodeElimPass) (v : Value) : Prop :=
  (∀ op src rest,
     op ∈ concat (map body circuit) → isFConnectLike op = true →
     operands op = v :: src :: rest → src ∈ liveValues st) ∧
  (∀ op rest,
     op ∈ concat (map body circuit) → isFConnectLike op = false →
     isSubelement op = true → operands op = v :: rest →
     OpResult (opId op) 0 ∈ liveValues st) ∧
  (∀ block argNumber module instance resultNo,
     v = BlockArgument block argNumber → circuit !! block = Some module →
     getPortDirection module argNumber = Some In →
     OpResult instance resultNo ∈
       default [] (resultPortToInstanceResultMapping st !! v) →
     OpResult instance resultNo ∈ liveValues st ∨
     OpResult instance resultNo ∈ pendingOf st instance) ∧
  (∀ op, getDefiningOp circuit v = Some op →
     match opKind op with
     | InstanceOp moduleName =>
         ∀ module resultNumber,
           v = OpResult (opId op) resultNumber →
           circuit !! moduleName = Some module → isFModule module = true →
           getPortDirection module resultNumber ≠ Some In →
           opId op ∈ liveInstances st ∧
           BlockArgument moduleName resultNumber ∈ liveValues st
     | MemOp => ∀ port, port ∈ getResults op → port ∈ liveValues st
     | _ => ∀ operand, operand ∈ operands op → operand ∈ liveValues st
     end).

(** The invariant of the worklist loop: what is on the worklist is alive, and
    an alive value that is not on the worklist has been visited. *)
Definition visitedOrQueued (circuit : CircuitOp) (st : IMDeadCodeElimPass) : Prop :=
  (∀ v, v ∈ valueWorklist st → v ∈ liveValues st) ∧
  (∀ v, v ∈ liveValues st → v ∉ valueWorklist st → closedAt circuit st v).

(** The values the IR of a circuit mentions: ports, results (with the first
    result a subelement operation would have) and operands. *)
Definition circuitValues (circuit : CircuitOp) : list Value :=
  concat (imap getArguments circuit) ++
  flat_map (λ op, OpResult (opId op) 0 :: getResults op ++ operands op)
           (concat (map body circuit)).

(** The port of the instantiated module behind an instance result. *)
Definition calleePort (circuit : CircuitOp) (v : Value) : list Value :=
  match v with
  | OpResult _ resultNumber =>
      match getDefiningOp circuit v with
      | Some op =>
          match opKind op with
          | InstanceOp moduleName => [BlockArgument moduleName resultNumber]
          | _ => []
          end
      | None => []
      end
  | BlockArgument _ _ => []
  end.

(** Every value the liveness analysis can mark alive. *)
Definition reachableValues (circuit : CircuitOp) : list Value :=
  circuitValues circuit ++ flat_map (calleePort circuit) (circuitValues circuit).

(** What is left to do: the values on the worklist, and twice the values
    that are not alive yet. *)
Definition potential (circuit : CircuitOp) (st : IMDeadCodeElimPass) : nat :=
  length (valueWorklist st) +
  2 * size ((list_to_set (reachableValues circuit) : gset Value) ∖ liveValues st).

Definition bounded (circuit : CircuitOp) (n : nat) (st : IMDeadCodeElimPass) : Prop :=
  (∀ v, v ∈ liveValues st → v ∈ reachableValues circuit) ∧
  (∀ port r, r ∈ default [] (resultPortToInstanceResultMapping st !! port) →
             r ∈ circuitValues circuit) ∧
  (∀ i r, r ∈ pendingOf st i → r ∈ circuitValues circuit) ∧
  (potential circuit st ≤ n)%nat.

(** Between the initial scans and the loop: the alive values are the values
    on the worklist. *)
Definition allQueued (st : IMDeadCodeElimPass) : Prop :=
  ∀ v, v ∈ liveValues st ↔ v ∈ valueWorklist st.

(** Fuel that lets the analysis of a circuit run to its end. *)
Definition analysisFuel (circuit : CircuitOp) : nat :=
  S (length circuit + 2 * length (reachableValues circuit)).

(** An update of the initial scans: every set and every list of the map
    from ports to instance results only gains members. *)
Definition scanGrows (st st' : IMDeadCodeElimPass) : Prop :=
  liveValues st ⊆ liveValues st' ∧
  liveInstances st ⊆ liveInstances st' ∧
  executableBlocks st ⊆ executableBlocks st' ∧
  undeletableBlocks st ⊆ undeletableBlocks st' ∧
  (∀ port r, r ∈ default [] (resultPortToInstanceResultMapping st !! port) →
             r ∈ default [] (resultPortToInstanceResultMapping st' !! port)).

(** What the scan of a block leaves behind for one of its operations. *)
Definition scannedOp (circuit : CircuitOp) (block : nat) (op : Operation)
    (st : IMDeadCodeElimPass) : Prop :=
  if isDeclaration op then
    isDeletableDeclaration op = false →
    (∀ result, result ∈ getResults op → result ∈ liveValues st) ∧
    block ∈ undeletableBlocks st
  else
    match opKind op with
    | InstanceOp moduleName =>
        match circuit !! moduleName with
        | None => True
        | Some referenced =>
            if isFModule referenced then
              moduleName ∈ executableBlocks st ∧
              ∀ resultNo, (resultNo < length (resultTypes op))%nat →
                OpResult (opId op) resultNo ∈
                  default [] (resultPortToInstanceResultMapping st
                                !! BlockArgument moduleName resultNo)
            else
              opId op ∈ liveInstances st ∧ block ∈ undeletableBlocks st ∧
              ∀ resultNo, (resultNo < length (resultTypes op))%nat →
                getPortDirection referenced resultNo ≠ Some Out →
                OpResult (opId op) resultNo ∈ liveValues st
        end
    | _ =>
        isFConnectLike op = false → hasUnknownSideEffect op = true →
        (∀ result, result ∈ getResults op → result ∈ liveValues st) ∧
        (∀ operand, operand ∈ operands op → operand ∈ liveValues st) ∧
        block ∈ undeletableBlocks st
    end.

Definition scannedBlock (circuit : CircuitOp) (st : IMDeadCodeElimPass)
    (block : nat) : Prop :=
  ∀ module, circuit !! block = Some module →
    (isPublic module || negb (modAnnotationsEmpty module) = true →
     block ∈ undeletableBlocks st) ∧
    (∀ op, op ∈ body module → scannedOp circuit block op st) ∧
    (∀ port, port ∈ getArguments block module →
             hasDontTouchValue circuit port = true →
             port ∈ liveValues st ∧ block ∈ undeletableBlocks st).

(** Every executable block is scanned, but for the blocks in [inProgress]. *)
Definition scansDone (circuit : CircuitOp) (inProgress : gset nat)
    (st : IMDeadCodeElimPass) : Prop :=
  ∀ block, block ∈ executableBlocks st → block ∉ inProgress →
           scannedBlock circuit st block.

(** What the first loop of [runOnOperation] leaves behind for a public
    module. *)
Definition publicSeeded (st : IMDeadCodeElimPass) (bm : nat * FModuleLike) : Prop :=
  isFModule bm.2 && isPublic bm.2 = true →
  bm.1 ∈ executableBlocks st ∧
  ∀ port, port ∈ getArguments bm.1 bm.2 → port ∈ liveValues st.

(** The block is in SSA form: every operand that is a result is a result
    that an operation further up in the block has.  [before] are the
    operations above [ops]. *)
Fixpoint definedBefore (before ops : list Operation) : bool :=
  match ops with
  | [] => true
  | op :: rest =>
      forallb (λ operand,
                 match operand with
                 | OpResult o k =>
                     existsb (λ def, Nat.eqb (opId def) o &&
                                     Nat.ltb k (length (resultTypes def)))
                             before
                 | BlockArgument _ _ => true
                 end)
              (operands op) &&
      definedBefore (before ++ [op]) rest
  end.

(** The live values are closed under the rules of the liveness analysis, as
    far as the operations [ops] go: the source of a connect with an alive
    destination is alive, and so are the operands of an operation that has
    an alive result, or an unknown side effect without being a
    declaration. *)
Definition liveClosed (st : IMDeadCodeElimPass) (ops : list Operation) : bool :=
  forallb
    (λ op,
       if isFConnectLike op then
         match operands op with
         | [dest; src] => implb (isKnownAlive st dest) (isKnownAlive st src)
         | _ => false
         end
       else
         implb (negb (isAssumedDeadOp st op) ||
                hasUnknownSideEffect op && negb (isDeclaration op))
               (forallb (isKnownAlive st) (operands op)))
    ops.

(** The shape the liveness rules count on: operation ids are unique in the
    circuit, a connect has a destination and a source, and instances and
    memories have no operand. *)
Definition wellFormedOps (ops : list Operation) : bool :=
  bool_decide (NoDup (map opId ops)) &&
  forallb (λ op,
             if isFConnectLike op then Nat.eqb (length (operands op)) 2
             else
               match opKind op with
               | InstanceOp _ | MemOp => Nat.eqb (length (operands op)) 0
               | _ => true
               end)
          ops.

(** An update made while [block] is scanned: sets only grow, no block
    becomes executable, and no block but [block] becomes undeletable. *)
Definition pins (block : nat) (st st' : IMDeadCodeElimPass) : Prop :=
  scanGrows st st' ∧
  executableBlocks st' = executableBlocks st ∧
  undeletableBlocks st' ⊆ {[block]} ∪ undeletableBlocks st.

(** For every scanned block outside [inProgress]: a module with a body that
    the block instantiates is scanned and not in progress, and if it is
    undeletable the instance is alive and the block undeletable. *)
Definition instancesPinned (circuit : CircuitOp) (inProgress : gset nat)
    (st : IMDeadCodeElimPass) : Prop :=
  ∀ block module instance moduleName referenced,
    block ∈ executableBlocks st → block ∉ inProgress →
    circuit !! block = Some module → instance ∈ body module →
    opKind instance = InstanceOp moduleName →
    circuit !! moduleName = Some referenced → isFModule referenced = true →
    moduleName ∈ executableBlocks st ∧ (moduleName ∉ inProgress) ∧
    (moduleName ∈ undeletableBlocks st →
     opId instance ∈ liveInstances st ∧ block ∈ undeletableBlocks st).

(** The instance graph has no cycle: [rank] grows along every
    instantiation. *)
Definition instantiationRanked (circuit : CircuitOp) (rank : nat → nat) : Prop :=
  ∀ block module instance moduleName,
    circuit !! block = Some module → instance ∈ body module →
    opKind instance = InstanceOp moduleName →
    (rank block < rank moduleName)%nat.

(** ** IMDeadCodeElim: a concrete circuit *)

(** Two instances of a child whose output is driven by its input.  The
    output of the first instance feeds the first output port of the public
    top module, that of the second the second. *)
Definition childInstance (id : nat) : Operation :=
  mkOp id (InstanceOp 1) [] [UInt8; UInt8] false true true false UnknownEffect.

Definition waitingTop : FModuleLike :=
  mkModule true true true [mkPort Out UInt8 false; mkPort Out UInt8 false]
    [childInstance 1; childInstance 2;
     plainOp 3 (ConstantOp (mkAPSInt 8 1 true)) [] [UInt8];
     plainOp 4 StrictConnectOp [OpResult 1 0; OpResult 3 0] [];
     plainOp 5 StrictConnectOp [OpResult 2 0; OpResult 3 0] [];
     plainOp 6 StrictConnectOp [BlockArgument 0 0; OpResult 1 1] [];
     plainOp 7 StrictConnectOp [BlockArgument 0 1; OpResult 2 1] []].

Definition waitingChild : FModuleLike :=
  mkModule true false true [mkPort In UInt8 false; mkPort Out UInt8 false]
    [plainOp 8 StrictConnectOp [BlockArgument 1 1; BlockArgument 1 0] []].

Definition waitingCircuit : CircuitOp := [waitingTop; waitingChild].

(** A block with a dead wire that a dead node reads, and a state in which
    nothing is alive. *)
Definition deadChain : list Operation :=
  [plainOp 1 WireOp [] [UInt8]; plainOp 2 NodeOp [OpResult 1 0] [UInt8]].

(** A public top module with an input and an output port: a wire read by a
    node that may not be touched and by a subfield, an instance of a child
    module and one of an external module, a memory, and an operation with an
    unknown side effect.  The child drives its output from its input and
    has a second input that may not be touched. *)
Definition sampleInstance : Operation :=
  plainOp 3 (InstanceOp 1) [] [UInt8; UInt8; UInt8].

Definition sampleTop : FModuleLike :=
  mkModule true true true [mkPort In UInt8 false; mkPort Out UInt8 false]
    [plainOp 1 WireOp [] [UInt8];
     mkOp 2 NodeOp [OpResult 1 0] [UInt8] true true true false Pure;
     sampleInstance;
     plainOp 4 (InstanceOp 2) [] [UInt8];
     plainOp 5 StrictConnectOp [OpResult 3 0; BlockArgument 0 0] [];
     plainOp 6 StrictConnectOp [BlockArgument 0 1; OpResult 3 1] [];
     plainOp 7 SubfieldOp [OpResult 1 0] [UInt8];
     mkOp 8 (OtherOp 0) [OpResult 7 0] [] false true true false UnknownEffect;
     plainOp 9 MemOp [] [UInt8; UInt8];
     plainOp 10 StrictConnectOp [BlockArgument 0 1; OpResult 9 0] []].

Definition sampleChild : FModuleLike :=
  mkModule true false true
    [mkPort In UInt8 false; mkPort Out UInt8 false; mkPort In UInt8 true]
    [plainOp 11 StrictConnectOp [BlockArgument 1 1; BlockArgument 1 0] []].

Definition sampleExt : FModuleLike :=
  mkModule false false true [mkPort In UInt8 false] [].

Definition sampleCircuit : CircuitOp := [sampleTop; sampleChild; sampleExt].

(** A top module with two instances of an empty private module, one of them
    behind an inner symbol. *)
Definition emptyChildCircuit (withSymbol : bool) : CircuitOp :=
  [mkModule true true true []
     [plainOp 1 (InstanceOp 1) [] [];
      mkOp 2 (InstanceOp 1) [] [] false true true withSymbol Pure];
   mkModule true false true [] []].

End IMDeadCodeElim.

(** ** IMConstProp: properties *)

Module IMConstPropProofs.

Import IMConstProp.

(** C1: [mergeIn] is the join of the four-state lattice: an Overdefined
    target and an Unknown source change nothing; an Unknown target adopts the
    source; an Unwritten source never changes a Constant or Overdefined
    target; two different constants give Overdefined and equal ones change
    nothing; and the resulting state does not depend on which operand is the
    target. *)
Theorem mergeIn_is_join :
  (∀ b, mergeIn Overdefined b = (Overdefined, false)) ∧
  (∀ a, mergeIn a Unknown = (a, false)) ∧
  (∀ b, merged Unknown b = b) ∧
  (∀ c, mergeIn (Constant c) Unwritten = (Constant c, false)) ∧
  mergeIn Overdefined Unwritten = (Overdefined, false) ∧
  (∀ c d, c ≠ d → mergeIn (Constant c) (Constant d) = (Overdefined, true)) ∧
  (∀ c, mergeIn (Constant c) (Constant c) = (Constant c, false)) ∧
  (∀ a b, merged a b = merged b a).
Proof.
  split_and!.
  - by intros [].
  - by intros [].
  - by intros [].
  - done.
  - done.
  - intros c d Hcd. unfold mergeIn; simpl.
    rewrite bool_decide_eq_true_2; [done | congruence].
  - intros c. unfold mergeIn; simpl.
    rewrite bool_decide_eq_false_2; [done | tauto].
  - intros a b. unfold merged, mergeIn.
    destruct a as [| |c|], b as [| |d|]; simpl; try done.
    destruct (decide (c = d)) as [->|Hne]; [done|].
    rewrite !bool_decide_eq_true_2; [done | congruence | congruence].
Qed.


(** *** Width handling of [getExtendedLatticeValue] *)

Lemma pow2_half (w : Z) : 0 < w → 2 ^ w = 2 * 2 ^ (w - 1).
Proof.
  intros Hw. replace w with (Z.succ (w - 1)) at 1 by lia.
  rewrite Z.pow_succ_r; lia.
Qed.

Lemma toZ_extOrTruncZeroWidth_wider (v : APSInt) (width : Z) :
  APSInt_wf v → apBitWidth v < width →
  toZ (extOrTruncZeroWidth v width) = toZ v ∧
  APSInt_wf (extOrTruncZeroWidth v width).
Proof.
  intros [Hw Hb] Hlt. destruct v as [w b u]; simpl in *.
  unfold extOrTruncZeroWidth, extOrTrunc, APSInt_wf; simpl.
  assert (Hpw : 0 < 2 ^ width) by (apply Z.pow_pos_nonneg; lia).
  destruct (Z.eqb_spec w 0) as [->|Hw0].
  - change (2 ^ 0) with 1 in Hb. assert (b = 0) as -> by lia.
    unfold toZ, isNegative; simpl.
    assert (Hh : 0 < 2 ^ (width - 1)) by (apply Z.pow_pos_nonneg; lia).
    destruct (Z.ltb_spec 0 width); [|lia].
    destruct (Z.leb_spec (2 ^ (width - 1)) 0); [lia|].
    destruct u; simpl; split; lia.
  - destruct (Z.ltb_spec w width); [|lia].
    assert (Hmono : 2 ^ w <= 2 ^ (width - 1))
      by (apply Z.pow_le_mono_r; lia).
    assert (Hhalf := pow2_half width ltac:(lia)).
    assert (Hhalfw := pow2_half w ltac:(lia)).
    destruct u; simpl.
    + unfold toZ; simpl. split; [done|]. split; lia.
    + unfold toZ, sext, isNegative; simpl.
      destruct (Z.ltb_spec 0 w); [|lia]. simpl.
      destruct (Z.ltb_spec 0 width); [|lia]. simpl.
      destruct (Z.leb_spec (2 ^ (w - 1)) b); simpl.
      * destruct (Z.leb_spec (2 ^ (width - 1)) (b + (2 ^ width - 2 ^ w)));
          split; lia.
      * destruct (Z.leb_spec (2 ^ (width - 1)) b); split; lia.
Qed.

(** C10: a constant with an integer attribute that is not a [BoolAttr],
    asked for at a destination type of unknown width (sentinel [-1]), comes
    back Overdefined: the known constant is given up. *)
Theorem getExtendedLatticeValue_unknown_width
    (st : IMConstPropPass) (key : FieldRef) (v : APSInt)
    (destType : FIRRTLBaseType) (allowTruncation : bool) :
  latticeValues st !! key = Some (Constant (IntAttr v)) →
  getBitWidthOrSentinel destType = -1 →
  getExtendedLatticeValue st key destType allowTruncation = Overdefined.
Proof.
  intros Hkey Hwidth. unfold getExtendedLatticeValue.
  rewrite Hkey, Hwidth. reflexivity.
Qed.

Lemma getExtendedLatticeValue_unknown_width_witness :
  getExtendedLatticeValue
    (mkPass {[ (BlockArgument 0 0, 0%nat) := Constant (IntAttr (mkAPSInt 8 7 true)) ]}
            ∅ [] ∅ ∅ [])
    (BlockArgument 0 0, 0%nat) (UIntType (-1)) false = Overdefined.
Proof.
  apply (getExtendedLatticeValue_unknown_width _ _ (mkAPSInt 8 7 true)).
  - reflexivity.
  - reflexivity.
Defined.

(** [getExtendedLatticeValue] never looks at [allowTruncation]. *)
Lemma getExtendedLatticeValue_ignores_allowTruncation
    (st : IMConstPropPass) (key : FieldRef) (destType : FIRRTLBaseType) (b : bool) :
  getExtendedLatticeValue st key destType b =
  getExtendedLatticeValue st key destType true.
Proof. reflexivity. Qed.

(** A constant narrower than the destination is extended to the
    destination's width under its own signedness, and denotes the same
    number afterwards. *)
Theorem getExtendedLatticeValue_extension_preserves_value
    (st : IMConstPropPass) (key : FieldRef) (v : APSInt)
    (destType : FIRRTLBaseType) (allowTruncation : bool) :
  latticeValues st !! key = Some (Constant (IntAttr v)) →
  APSInt_wf v →
  apBitWidth v < getBitWidthOrSentinel destType < 2 ^ 32 →
  ∃ v', getExtendedLatticeValue st key destType allowTruncation
          = Constant (IntAttr v') ∧
        apBitWidth v' = getBitWidthOrSentinel destType ∧
        apIsUnsigned v' = apIsUnsigned v ∧
        toZ v' = toZ v.
Proof.
  intros Hkey Hwf [Hlt Hmax].
  assert (Hw : 0 <= apBitWidth v) by apply Hwf.
  unfold getExtendedLatticeValue. rewrite Hkey.
  destruct (Z.eqb_spec (getBitWidthOrSentinel destType) (-1)); [lia|].
  rewrite (Z.mod_small (getBitWidthOrSentinel destType)) by lia.
  destruct (Z.eqb_spec (apBitWidth v) (getBitWidthOrSentinel destType)); [lia|].
  eexists; split; [reflexivity|].
  destruct (toZ_extOrTruncZeroWidth_wider v _ Hwf Hlt) as [Hval _].
  split_and!; [| |exact Hval].
  - unfold extOrTruncZeroWidth, extOrTrunc.
    destruct (Z.eqb_spec (apBitWidth v) 0); [reflexivity|].
    destruct (Z.ltb_spec (apBitWidth v) (getBitWidthOrSentinel destType)); [|lia].
    destruct v as [w b []]; reflexivity.
  - unfold extOrTruncZeroWidth, extOrTrunc.
    destruct (Z.eqb_spec (apBitWidth v) 0); [reflexivity|].
    destruct (Z.ltb_spec (apBitWidth v) (getBitWidthOrSentinel destType)); [|lia].
    destruct v as [w b []]; reflexivity.
Qed.

Lemma getExtendedLatticeValue_extension_witness :
  ∃ v', getExtendedLatticeValue
          (mkPass {[ (BlockArgument 0 0, 0%nat) := Constant (IntAttr (mkAPSInt 4 9 false)) ]}
                  ∅ [] ∅ ∅ [])
          (BlockArgument 0 0, 0%nat) (SIntType 8) false = Constant (IntAttr v') ∧
        apBitWidth v' = getBitWidthOrSentinel (SIntType 8) ∧
        apIsUnsigned v' = apIsUnsigned (mkAPSInt 4 9 false) ∧
        toZ v' = toZ (mkAPSInt 4 9 false).
Proof.
  apply (getExtendedLatticeValue_extension_preserves_value _ _ (mkAPSInt 4 9 false)).
  - reflexivity.
  - unfold APSInt_wf; simpl; lia.
  - simpl; lia.
Defined.

(** C4, the code at the failing input: the four-bit constant 15 asked for
    at [UInt<2>] with [allowTruncation = false] comes back as the two-bit
    constant 3; the flag does not enter the result. *)
Theorem getExtendedLatticeValue_truncates_unasked :
  let st := mkPass {[ (BlockArgument 0 0, 0%nat) := Constant (IntAttr (mkAPSInt 4 15 true)) ]}
                   ∅ [] ∅ ∅ [] in
  getExtendedLatticeValue st (BlockArgument 0 0, 0%nat) (UIntType 2) false
    = Constant (IntAttr (mkAPSInt 2 3 true)) ∧
  ∀ key destType allowTruncation,
    getExtendedLatticeValue st key destType allowTruncation
    = getExtendedLatticeValue st key destType (negb allowTruncation).
Proof. split; [reflexivity | intros; reflexivity]. Qed.


(** *** Entries of the lattice map under the state updates *)

Lemma lookup_setEntry (key k : FieldRef) v push st :
  latticeValues (setEntry key v push st) !! k =
  if decide (key = k) then Some v else latticeValues st !! k.
Proof. unfold setEntry; simpl. apply lookup_insert. Qed.

Lemma lookup_markOverdefinedKey_eq key st :
  latticeValues (markOverdefinedKey key st) !! key = Some Overdefined.
Proof.
  unfold markOverdefinedKey, entryOf.
  destruct (latticeValues st !! key) as [[]|] eqn:E; simpl;
    rewrite ?lookup_insert_eq; done.
Qed.

Lemma getPassiveType_ground t : isGround t = true → getPassiveType t = t.
Proof. by destruct t. Qed.

Lemma keepsOverdefined_id : keepsOverdefined (λ st, st).
Proof. by intros st k H. Qed.

Lemma keepsOverdefined_compose f g :
  keepsOverdefined f → keepsOverdefined g → keepsOverdefined (λ st, g (f st)).
Proof. intros Hf Hg st k H. by apply Hg, Hf. Qed.

Lemma keepsOverdefined_foldl {A} (f : IMConstPropPass → A → IMConstPropPass) l :
  (∀ a, keepsOverdefined (λ st, f st a)) → keepsOverdefined (λ st, foldl f st l).
Proof.
  intros Hf. induction l as [|a l IH]; simpl; [apply keepsOverdefined_id|].
  intros st k H. apply IH. by apply (Hf a).
Qed.

Lemma keepsOverdefined_markOverdefinedKey key :
  keepsOverdefined (markOverdefinedKey key).
Proof.
  intros st k H. unfold markOverdefinedKey.
  destruct (isOverdefined (entryOf st key)); [done|].
  rewrite lookup_setEntry. by case_decide.
Qed.

Lemma keepsOverdefined_touchEntry key : keepsOverdefined (touchEntry key).
Proof.
  intros st k H. unfold touchEntry.
  destruct (latticeValues st !! key) eqn:E; [done|].
  rewrite lookup_setEntry. case_decide; [congruence|done].
Qed.

Lemma keepsOverdefined_mergeLatticeValue key source :
  keepsOverdefined (mergeLatticeValue key source).
Proof.
  intros st k H. unfold mergeLatticeValue.
  destruct (isUnknown source); [done|].
  destruct (mergeIn (entryOf st key) source) as [new changed] eqn:E; simpl.
  destruct changed; [|done].
  rewrite lookup_setEntry. case_decide as Hk; [|done]. subst k.
  unfold entryOf in E. rewrite H in E. simpl in E. by inversion E.
Qed.

Lemma keepsOverdefined_mergeLatticeValueFrom result from :
  keepsOverdefined (mergeLatticeValueFrom result from).
Proof.
  intros st k H. unfold mergeLatticeValueFrom.
  destruct (latticeValues st !! from); [|done].
  by apply keepsOverdefined_mergeLatticeValue.
Qed.

Lemma keepsOverdefined_emitError d : keepsOverdefined (emitError d).
Proof. by intros st k H. Qed.

Section SolverProperties.

Variable circuit : CircuitOp.
Variable getFieldRefFromValue : Value → FieldRef.
Variable foldHook : Operation → list (option Attribute) → option (list OpFoldResult).

Lemma keepsOverdefined_markOverdefined value :
  keepsOverdefined (markOverdefined circuit getFieldRefFromValue value).
Proof.
  unfold markOverdefined. apply keepsOverdefined_foldl.
  intros leaf. apply keepsOverdefined_markOverdefinedKey.
Qed.

Lemma keepsOverdefined_mergeLatticeValueValues result from :
  keepsOverdefined (mergeLatticeValueValues circuit getFieldRefFromValue result from).
Proof.
  intros st k H. unfold mergeLatticeValueValues.
  destruct (latticeValues st !! getFieldRefFromValue from); [|done].
  destruct (getType circuit result) as [[]|];
    try (by apply keepsOverdefined_mergeLatticeValueFrom);
    by apply (keepsOverdefined_foldl
                (λ st leaf, mergeLatticeValueFrom _ _ st));
       [intros leaf; apply keepsOverdefined_mergeLatticeValueFrom|].
Qed.

Lemma keepsOverdefined_propagateElementLattice connect dest src fieldID destType :
  keepsOverdefined
    (propagateElementLattice circuit getFieldRefFromValue connect dest src
                             fieldID destType).
Proof.
  intros st k H. unfold propagateElementLattice.
  destruct (isUnknown _); [done|].
  destruct (getFieldRefFromValue dest).1 as [b n|o n].
  - apply keepsOverdefined_mergeLatticeValue.
    by apply (keepsOverdefined_foldl (λ st u, mergeLatticeValue _ _ st));
      [intros u; apply keepsOverdefined_mergeLatticeValue|].
  - destruct (getDefiningOp circuit (OpResult o n)) as [owner|]; [|done].
    destruct (isWireOrReg owner); [by apply keepsOverdefined_mergeLatticeValue|].
    destruct (opKind owner); try done.
    destruct (circuit !! moduleName) as [module|];
      [destruct (isFModule module)|];
      repeat apply keepsOverdefined_mergeLatticeValue; done.
Qed.

Lemma keepsOverdefined_visitConnectLike connect :
  keepsOverdefined (visitConnectLike circuit getFieldRefFromValue connect).
Proof.
  intros st k H. unfold visitConnectLike.
  destruct (operands connect) as [|dest [|src rest]]; try done.
  destruct (getType circuit dest) as [[]|];
    try (by repeat apply keepsOverdefined_markOverdefined);
    by apply (keepsOverdefined_foldl
                (λ st leaf, propagateElementLattice _ _ _ _ _ _ _ st));
       [intros leaf; apply keepsOverdefined_propagateElementLattice|].
Qed.

Lemma keepsOverdefined_visitRegResetOp regReset :
  keepsOverdefined (visitRegResetOp circuit getFieldRefFromValue regReset).
Proof.
  intros st k H. unfold visitRegResetOp.
  destruct (operands regReset) as [|clock [|resetSignal [|resetValue rest]]];
    try done.
  destruct (getType circuit resetSignal) as [[]|]; try done.
  destruct (resultTypes regReset !! 0%nat); [|done].
  destruct (_ || _); [|done].
  refine (keepsOverdefined_foldl _ _ _ st k H).
  intros leaf st' H'. by apply keepsOverdefined_mergeLatticeValue.
Qed.

Lemma keepsOverdefined_visitNode node :
  keepsOverdefined (visitNode circuit getFieldRefFromValue node).
Proof.
  intros st k H. unfold visitNode.
  destruct (_ || _); [by apply keepsOverdefined_markOverdefined|].
  destruct (operands node); [done|].
  by apply keepsOverdefined_mergeLatticeValueValues.
Qed.

Lemma collectOperandConstants_keeps ops :
  keepsOverdefined (λ st, (collectOperandConstants getFieldRefFromValue ops st).1).
Proof.
  induction ops as [|operand rest IH]; intros st k H; simpl; [done|].
  destruct (isUnknown _); simpl.
  - by apply keepsOverdefined_touchEntry.
  - apply IH. by apply keepsOverdefined_touchEntry.
Qed.

Lemma touchEntry_not_overdefined key k st :
  isOverdefinedKey st k = false → isOverdefinedKey (touchEntry key st) k = false.
Proof.
  unfold isOverdefinedKey, touchEntry. intros H.
  destruct (latticeValues st !! key) eqn:E; [done|].
  rewrite lookup_setEntry. case_decide; [done|exact H].
Qed.

Lemma collectOperandConstants_not_overdefined ops k st :
  isOverdefinedKey st k = false →
  isOverdefinedKey (collectOperandConstants getFieldRefFromValue ops st).1 k = false.
Proof.
  revert st. induction ops as [|operand rest IH]; intros st H; simpl; [done|].
  destruct (isUnknown _); simpl.
  - by apply touchEntry_not_overdefined.
  - apply IH. by apply touchEntry_not_overdefined.
Qed.

Lemma setLatticeValue_keeps_others key source st k :
  isOverdefinedKey st key = false →
  latticeValues st !! k = Some Overdefined →
  latticeValues (setLatticeValue key source st) !! k = Some Overdefined.
Proof.
  intros Hkey H. unfold setLatticeValue.
  destruct (isUnknown source); [done|].
  case_bool_decide; [|done].
  rewrite lookup_setEntry. case_decide as Hk; [|done]. subst k.
  unfold isOverdefinedKey in Hkey. by rewrite H in Hkey.
Qed.

(** [visitOperation] keeps every Overdefined entry when the operation has at
    most one result and the fold hook returns one result per result of the
    operation (the assertion of the source). *)
Theorem visitOperation_keeps_overdefined (op : Operation) :
  (length (resultTypes op) ≤ 1)%nat →
  (∀ operandConstants foldResults,
     foldHook op operandConstants = Some foldResults →
     length foldResults = length (resultTypes op)) →
  keepsOverdefined (visitOperation circuit getFieldRefFromValue foldHook op).
Proof.
  intros Hone Hfold st k H. unfold visitOperation.
  destruct (isFConnectLike op); [by apply keepsOverdefined_visitConnectLike|].
  assert (Hgeneric :
    latticeValues
      (if forallb (λ value, isOverdefinedKey st (getFieldRefFromValue value))
                  (getResults op)
       then st
       else
         match collectOperandConstants getFieldRefFromValue (operands op) st with
         | (st, None) => st
         | (st, Some operandConstants) =>
             match foldHook op operandConstants with
             | None =>
                 foldl (λ st value, markOverdefined circuit getFieldRefFromValue value st)
                       st (getResults op)
             | Some foldResults =>
                 adoptFoldResults getFieldRefFromValue op 0 foldResults st
             end
         end) !! k = Some Overdefined).
  { destruct (forallb _ _) eqn:Hall; [done|].
    pose proof (collectOperandConstants_keeps (operands op) st k H) as Hk.
    simpl in Hk.
    destruct (collectOperandConstants getFieldRefFromValue (operands op) st)
      as [st1 [operandConstants|]] eqn:Hcollect; simpl in Hk; [|done].
    destruct (foldHook op operandConstants) as [foldResults|] eqn:Hhook.
    - apply Hfold in Hhook. unfold getResults in Hall.
      destruct (resultTypes op) as [|t [|t' ts]]; simpl in *; try lia; try done.
      destruct foldResults as [|r [|r' rs]]; simpl in *; try lia.
      rewrite andb_true_r in Hall.
      assert (Hst1 : isOverdefinedKey st1
                       (getFieldRefFromValue (OpResult (opId op) 0)) = false).
      { pose proof (collectOperandConstants_not_overdefined
                      (operands op) _ st Hall) as Hn.
        by rewrite Hcollect in Hn. }
      destruct r as [[intAttr|tag]|v]; simpl.
      + by apply setLatticeValue_keeps_others.
      + by apply setLatticeValue_keeps_others.
      + apply setLatticeValue_keeps_others.
        * by apply touchEntry_not_overdefined.
        * by apply keepsOverdefined_touchEntry.
    - refine (keepsOverdefined_foldl _ _ _ st1 k Hk).
      intros value. apply keepsOverdefined_markOverdefined. }
  destruct (opKind op); try exact Hgeneric; try done.
  - by apply keepsOverdefined_visitRegResetOp.
  - by apply keepsOverdefined_visitNode.
  - unfold visitRefSend. destruct (operands op); [done|].
    by apply keepsOverdefined_mergeLatticeValueValues.
  - unfold visitRefResolve. destruct (operands op); [done|].
    by apply keepsOverdefined_mergeLatticeValueValues.
Qed.


(** C2, what the code does: the initial scan leaves the entry of a ground
    wire or register without a do-not-touch marker Overdefined, because
    [markUnwritten(Value)] marks its leaves with [markOverdefined]; the entry
    is not Unwritten. *)
Theorem markWireOrRegOp_ground_is_overdefined
    (wireOrReg : Operation) (t : FIRRTLBaseType) (st : IMConstPropPass) :
  isWireOrReg wireOrReg = true →
  getDefiningOp circuit (OpResult (opId wireOrReg) 0) = Some wireOrReg →
  resultTypes wireOrReg !! 0%nat = Some (BaseType t) →
  isGround t = true →
  opDontTouch wireOrReg = false →
  latticeValues (markWireOrRegOp circuit getFieldRefFromValue wireOrReg st)
    !! getSubField (getFieldRefFromValue (OpResult (opId wireOrReg) 0)) 0
  = Some Overdefined.
Proof.
  intros _ Hdef Hty Hground Hdt. unfold markWireOrRegOp.
  rewrite Hty, (getPassiveType_ground t Hground), Hground, Hdt. simpl.
  unfold markUnwritten, groundTypesOfBaseValue, getType.
  rewrite Hdef. simpl. rewrite Hty.
  unfold foreachFIRRTLGroundTypeBase. rewrite Hground. simpl.
  apply lookup_markOverdefinedKey_eq.
Qed.

(** A connect whose destination is the result of an operation that is not
    a wire, a register, an instance or a memory: every leaf whose source
    value is known emits the diagnostic, and neither the lattice map nor the
    worklist changes. *)
Lemma propagateElementLattice_unhandled connect dest src fieldID destType st o n owner :
  (getFieldRefFromValue dest).1 = OpResult o n →
  getDefiningOp circuit (OpResult o n) = Some owner →
  isWireOrReg owner = false →
  isInstanceOp owner = false →
  opKind owner ≠ MemOp →
  let st' := propagateElementLattice circuit getFieldRefFromValue connect dest src
                                     fieldID destType st in
  latticeValues st' = latticeValues st ∧
  changedLatticeValueWorklist st' = changedLatticeValueWorklist st ∧
  diagnostics st' =
    diagnostics st ++
    (if isUnknown (getExtendedLatticeValue st
                     (getSubField (getFieldRefFromValue src) fieldID)
                     (getPassiveType destType) false)
     then []
     else [mkDiagnostic (opId connect)
             "connectlike operation unhandled by IMConstProp" dest]).
Proof.
  intros Hroot Hdef Hwire Hinst Hmem. unfold propagateElementLattice.
  cbv zeta.
  destruct (isUnknown _).
  { by rewrite app_nil_r. }
  rewrite Hroot. cbv beta iota. rewrite Hdef, Hwire.
  unfold isInstanceOp in Hinst.
  destruct (opKind owner); try done.
Qed.

End SolverProperties.

(** C8, amended: for a connect-like operation of FIRRTL type whose
    destination is the result of an operation that is none of wire,
    register, instance and memory, [visitConnectLike] emits the diagnostic,
    attached to the connect, once for every destination leaf whose source
    lattice value is not Unknown, and changes no lattice entry and not the
    worklist: nothing is marked Overdefined. *)
Theorem visitConnectLike_unhandled_destination
    (circuit : CircuitOp) (getFieldRefFromValue : Value → FieldRef)
    (connect : Operation) (dest src : Value) (rest : list Value)
    (baseType : FIRRTLBaseType) (o n : nat) (owner : Operation)
    (st : IMConstPropPass) :
  operands connect = dest :: src :: rest →
  (getType circuit dest = Some (BaseType baseType) ∨
   getType circuit dest = Some (RefType baseType)) →
  (getFieldRefFromValue dest).1 = OpResult o n →
  getDefiningOp circuit (OpResult o n) = Some owner →
  isWireOrReg owner = false →
  isInstanceOp owner = false →
  opKind owner ≠ MemOp →
  let st' := visitConnectLike circuit getFieldRefFromValue connect st in
  latticeValues st' = latticeValues st ∧
  changedLatticeValueWorklist st' = changedLatticeValueWorklist st ∧
  diagnostics st' =
    diagnostics st ++
    unhandledDiagnostics getFieldRefFromValue st connect dest src baseType.
Proof.
  intros Hops Hty Hroot Hdef Hwire Hinst Hmem. unfold visitConnectLike.
  rewrite Hops.
  assert (Hloop : ∀ leaves st0,
    latticeValues st0 = latticeValues st →
    let st' := foldl (λ st leaf,
                        propagateElementLattice circuit getFieldRefFromValue
                          connect dest src (fst leaf) (snd leaf) st)
                     st0 leaves in
    latticeValues st' = latticeValues st ∧
    changedLatticeValueWorklist st' = changedLatticeValueWorklist st0 ∧
    diagnostics st' =
      diagnostics st0 ++
      flat_map
        (λ leaf,
           if isUnknown (getExtendedLatticeValue st
                           (getSubField (getFieldRefFromValue src) (fst leaf))
                           (getPassiveType (snd leaf)) false)
           then []
           else [mkDiagnostic (opId connect)
                   "connectlike operation unhandled by IMConstProp" dest])
        leaves).
  { induction leaves as [|leaf leaves IH]; intros st0 Hst0; simpl.
    - by rewrite app_nil_r.
    - destruct (propagateElementLattice_unhandled circuit getFieldRefFromValue
                  connect dest src leaf.1 leaf.2 st0 o n owner
                  Hroot Hdef Hwire Hinst Hmem) as (Hl & Hw & Hd).
      destruct (IH _ (eq_trans Hl Hst0)) as (Hl' & Hw' & Hd').
      split_and!; [done|congruence|].
      rewrite Hd', Hd, <- app_assoc. do 2 f_equal.
      unfold getExtendedLatticeValue. by rewrite Hst0. }
  destruct Hty as [-> | ->]; apply Hloop; reflexivity.
Qed.



(** *** Driving the input port of an instance *)

Lemma mergeLatticeValue_same k c st :
  latticeValues st !! k = Some (Constant c) →
  mergeLatticeValue k (Constant c) st = st.
Proof.
  intros H. unfold mergeLatticeValue, entryOf. rewrite H. simpl.
  unfold mergeIn. simpl. by rewrite bool_decide_eq_false_2 by tauto.
Qed.

Lemma mergeLatticeValue_conflict k c d st :
  latticeValues st !! k = Some (Constant c) → c ≠ d →
  mergeLatticeValue k (Constant d) st = setEntry k Overdefined true st.
Proof.
  intros H Hne. unfold mergeLatticeValue, entryOf. rewrite H. simpl.
  unfold mergeIn. simpl. by rewrite bool_decide_eq_true_2 by congruence.
Qed.

Lemma mergeLatticeValue_overdefined k source st :
  latticeValues st !! k = Some Overdefined →
  mergeLatticeValue k source st = st.
Proof.
  intros H. unfold mergeLatticeValue, entryOf. rewrite H.
  by destruct source.
Qed.

Section SolverSteps.

Variable circuit : CircuitOp.
Variable getFieldRefFromValue : Value → FieldRef.
Variable foldHook : Operation → list (option Attribute) → option (list OpFoldResult).

Lemma solve_unfold fuel st key rest :
  changedLatticeValueWorklist st = key :: rest →
  solve circuit getFieldRefFromValue foldHook (S fuel) st =
  solve circuit getFieldRefFromValue foldHook fuel
        (visitUsers circuit getFieldRefFromValue foldHook key (setWorklist rest st)).
Proof. intros H. simpl. by rewrite H. Qed.

Lemma solve_done fuel st :
  changedLatticeValueWorklist st = [] →
  solve circuit getFieldRefFromValue foldHook fuel st = Some st.
Proof. intros H. destruct fuel; simpl; by rewrite H. Qed.

Lemma visitUsers_none key st :
  fieldRefToUsers st !! key = None →
  visitUsers circuit getFieldRefFromValue foldHook key st = st.
Proof. intros H. unfold visitUsers. by rewrite H. Qed.

Lemma visitUsers_single key st block op :
  fieldRefToUsers st !! key = Some [(block, op)] →
  isBlockExecutable st block = true →
  visitUsers circuit getFieldRefFromValue foldHook key st =
  visitOperation circuit getFieldRefFromValue foldHook op st.
Proof. intros H Hexec. unfold visitUsers. rewrite H. simpl. by rewrite Hexec. Qed.

(** A connect of ground type whose destination is a result of an instance
    of a module with a body merges the source value, when it is known, into
    the instance result and into the matching argument of the module. *)
Lemma visitOperation_instance_input
    connect dest src rest t o n owner moduleName module srcValue st :
  isFConnectLike connect = true →
  operands connect = dest :: src :: rest →
  getType circuit dest = Some (BaseType t) →
  isGround t = true →
  (getFieldRefFromValue dest).1 = OpResult o n →
  getDefiningOp circuit (OpResult o n) = Some owner →
  opKind owner = InstanceOp moduleName →
  circuit !! moduleName = Some module →
  isFModule module = true →
  getExtendedLatticeValue st (getSubField (getFieldRefFromValue src) 0)
                          (getPassiveType t) false = srcValue →
  isUnknown srcValue = false →
  visitOperation circuit getFieldRefFromValue foldHook connect st =
  mergeLatticeValue
    (BlockArgument moduleName n, (getSubField (getFieldRefFromValue dest) 0).2)
    srcValue
    (mergeLatticeValue (getSubField (getFieldRefFromValue dest) 0) srcValue st).
Proof.
  intros Hconnect Hops Hty Hground Hroot Hdef Hkind Hmod Hfm Hsrc Hknown.
  unfold visitOperation. rewrite Hconnect.
  unfold visitConnectLike. rewrite Hops, Hty.
  unfold foreachFIRRTLGroundTypeBase. rewrite Hground. simpl.
  unfold propagateElementLattice. cbv zeta.
  rewrite Hsrc, Hknown, Hroot. cbv beta iota.
  rewrite Hdef.
  assert (isWireOrReg owner = false) as ->
    by (unfold isWireOrReg; by rewrite Hkind).
  by rewrite Hkind, Hmod, Hfm.
Qed.

End SolverSteps.

Lemma markWireOrRegOp_ground_witness :
  latticeValues (markWireOrRegOp wireCircuit rootFieldRef wireOp initialPass)
    !! getSubField (rootFieldRef (OpResult (opId wireOp) 0)) 0
  = Some Overdefined.
Proof.
  apply (markWireOrRegOp_ground_is_overdefined wireCircuit rootFieldRef wireOp
           (UIntType 8)); reflexivity.
Defined.

(** Where the early return of [visitOperation] is enough: an entry that is
    Overdefined stays Overdefined under every [mergeLatticeValue], and under
    every [visitOperation] of an operation with at most one result whose
    fold hook returns one result per result of the operation. *)
Theorem overdefined_entry_is_kept
    (circuit : CircuitOp) (getFieldRefFromValue : Value → FieldRef)
    (foldHook : Operation → list (option Attribute) → option (list OpFoldResult))
    (op : Operation) (st : IMConstPropPass) (k : FieldRef) :
  (length (resultTypes op) ≤ 1)%nat →
  (∀ operandConstants foldResults,
     foldHook op operandConstants = Some foldResults →
     length foldResults = length (resultTypes op)) →
  latticeValues st !! k = Some Overdefined →
  (∀ key source,
     latticeValues (mergeLatticeValue key source st) !! k = Some Overdefined) ∧
  latticeValues (visitOperation circuit getFieldRefFromValue foldHook op st) !! k
  = Some Overdefined.
Proof.
  intros Hone Hfold Hk. split.
  - intros key source. by apply keepsOverdefined_mergeLatticeValue.
  - by apply visitOperation_keeps_overdefined.
Qed.

Lemma overdefined_entry_is_kept_witness :
  (∀ key source,
     latticeValues (mergeLatticeValue key source oneResultState)
       !! (OpResult 1 0, 0%nat) = Some Overdefined) ∧
  latticeValues (visitOperation
                   [mkModule true true true [mkPort In UInt8 false] [oneResultOp]]
                   rootFieldRef oneResultFold oneResultOp oneResultState)
    !! (OpResult 1 0, 0%nat)
  = Some Overdefined.
Proof.
  apply overdefined_entry_is_kept.
  - simpl; lia.
  - intros operandConstants foldResults H. by inversion H.
  - reflexivity.
Defined.

(** C8, counterexample: the diagnostic is emitted, and afterwards neither
    the destination nor the source entry is Overdefined. *)
Lemma visitConnectLike_diagnoses_without_marking :
  let st' := visitConnectLike strayConnectCircuit rootFieldRef strayConnect
                              strayConnectState in
  diagnostics st' =
    [mkDiagnostic 3 "connectlike operation unhandled by IMConstProp" (OpResult 2 0)] ∧
  isOverdefinedKey st' (OpResult 2 0, 0%nat) = false ∧
  isOverdefinedKey st' (OpResult 1 0, 0%nat) = false.
Proof. split_and!; vm_compute; reflexivity. Qed.

Lemma visitConnectLike_unhandled_destination_witness :
  let st' := visitConnectLike strayConnectCircuit rootFieldRef strayConnect
                              strayConnectState in
  latticeValues st' = latticeValues strayConnectState ∧
  changedLatticeValueWorklist st' = changedLatticeValueWorklist strayConnectState ∧
  diagnostics st' =
    diagnostics strayConnectState ++
    unhandledDiagnostics rootFieldRef strayConnectState strayConnect
                         (OpResult 2 0) (OpResult 1 0) (UIntType 8).
Proof.
  apply (visitConnectLike_unhandled_destination strayConnectCircuit rootFieldRef
           strayConnect (OpResult 2 0) (OpResult 1 0) [] (UIntType 8) 2 0
           (plainOp 2 (OtherOp 0) [] [UInt8])).
  - reflexivity.
  - left; reflexivity.
  - reflexivity.
  - reflexivity.
  - reflexivity.
  - reflexivity.
  - discriminate.
Defined.


(** *** The rewrite and a wire that is never driven *)

Lemma findOp_opId ops id op : findOp ops id = Some op → opId op = id.
Proof.
  unfold findOp. intros H. apply List.find_some in H as [_ H].
  by apply Nat.eqb_eq in H.
Qed.

(** [replaceValueIfPossible] leaves alone every value that is not a Constant
    and that no [RegOp] defines. *)
Lemma replaceValueIfPossible_not_register gfr st module value rw :
  (∀ c, latticeValues st !! gfr value ≠ Some (Constant c)) →
  (∀ op, definingOp rw value = Some op → opKind op ≠ RegOp) →
  replaceValueIfPossible gfr st module value rw = (rw, false).
Proof.
  intros Hconst Hreg. unfold replaceValueIfPossible.
  destruct (latticeValues st !! gfr value) as [[| |c|]|] eqn:E; try done.
  - destruct (definingOp rw value) as [reg|] eqn:Hdef; [|done].
    specialize (Hreg reg eq_refl). by destruct (opKind reg).
  - by specialize (Hconst c).
Qed.

(** C9, amended: when the reverse walk of [rewriteModuleBody] stands at a
    wire whose entry is Unwritten or Overdefined, no operation is created (no
    InvalidValue) and no read of the wire is replaced; the wire is erased
    exactly when it has no use left and may be deleted, and nothing else
    changes in the block. *)
Theorem rewriteOp_undriven_wire
    (getFieldRefFromValue : Value → FieldRef) (st : IMConstPropPass)
    (module : FModuleLike) (id : nat) (w : Operation) (rw : Rewriter) :
  findOp (rwOps rw) id = Some w →
  opKind w = WireOp →
  length (resultTypes w) = 1%nat →
  (latticeValues st !! getFieldRefFromValue (OpResult id 0) = Some Unwritten ∨
   latticeValues st !! getFieldRefFromValue (OpResult id 0) = Some Overdefined) →
  let rw' := rewriteOp getFieldRefFromValue st module id rw in
  rwNextId rw' = rwNextId rw ∧
  rwOps rw' =
    if use_empty (rwOps rw) w &&
       (wouldOpBeTriviallyDead w || isDeletableWireOrRegOrNode w)
    then filter (λ op, opId op ≠ id) (rwOps rw)
    else rwOps rw.
Proof.
  intros Hfind Hkind Hlen Hstate. unfold rewriteOp.
  pose proof (findOp_opId _ _ _ Hfind) as Hid.
  rewrite Hfind.
  assert (isFConnectLike w = false) as -> by (unfold isFConnectLike; by rewrite Hkind).
  rewrite Hlen. simpl.
  destruct (use_empty (rwOps rw) w &&
            (wouldOpBeTriviallyDead w || isDeletableWireOrRegOrNode w)); [done|].
  assert (isConstantLike w = false) as -> by (unfold isConstantLike; by rewrite Hkind).
  unfold getResults.
  destruct (resultTypes w) as [|t [|t' ts]]; simpl in Hlen; try lia.
  simpl. rewrite Hid.
  rewrite replaceValueIfPossible_not_register.
  - simpl. done.
  - intros c. destruct Hstate as [-> | ->]; done.
  - intros op Hdef. simpl in Hdef. rewrite Hfind in Hdef.
    inversion Hdef; subst. by rewrite Hkind.
Qed.

(** C9, counterexample: after the analysis and the rewrite the body is what
    it was: the wire is there, the connect reads it, and there is no
    InvalidValue.  The same holds from a state in which the wire is
    Unwritten. *)
Lemma undriven_wire_is_left_in_place :
  rwOps <$> (analyze [undrivenWireModule] rootFieldRef noFold 8 ≫=
             λ st, rewriteModuleBody rootFieldRef st 0 undrivenWireModule 8 100)
  = Some (body undrivenWireModule) ∧
  rwOps <$> rewriteModuleBody rootFieldRef
              (mkPass {[ (OpResult 1 0, 0%nat) := Unwritten ]} {[ 0%nat ]} [] ∅ ∅ [])
              0 undrivenWireModule 8 100
  = Some (body undrivenWireModule).
Proof. split; vm_compute; reflexivity. Qed.

Lemma rewriteOp_undriven_wire_witness :
  let rw := mkRewriter (body undrivenWireModule) 100 None [] 0 0 in
  let st := mkPass {[ (OpResult 1 0, 0%nat) := Overdefined ]} {[ 0%nat ]} [] ∅ ∅ [] in
  let rw' := rewriteOp rootFieldRef st undrivenWireModule 1 rw in
  rwNextId rw' = rwNextId rw ∧
  rwOps rw' =
    if use_empty (rwOps rw) (plainOp 1 WireOp [] [UInt8]) &&
       (wouldOpBeTriviallyDead (plainOp 1 WireOp [] [UInt8]) ||
        isDeletableWireOrRegOrNode (plainOp 1 WireOp [] [UInt8]))
    then filter (λ op, opId op ≠ 1%nat) (rwOps rw)
    else rwOps rw.
Proof.
  apply (rewriteOp_undriven_wire rootFieldRef _ undrivenWireModule 1
           (plainOp 1 WireOp [] [UInt8])).
  - reflexivity.
  - reflexivity.
  - reflexivity.
  - right. reflexivity.
Defined.


(** *** Scenario 5: two instantiation sites, two literals *)

(** The worklist loop is run one turn at a time; the state of each turn is
    kept behind a name, and a turn that compares two constants is taken
    through the lemmas on [mergeLatticeValue]. *)
Ltac pop_worklist name :=
  lazymatch goal with
  | |- context [solve ?c ?g ?f (S ?n) ?st] =>
      let wl := eval vm_compute in (changedLatticeValueWorklist st) in
      lazymatch wl with
      | ?key :: ?rest =>
          rewrite (solve_unfold c g f n st key rest) by (vm_compute; reflexivity);
          set (name := setWorklist rest st)
      end
  end.

Ltac plain_turn name :=
  let popped := fresh "popped" in
  pop_worklist popped;
  lazymatch goal with
  | |- context [visitUsers ?c ?g ?f ?key popped] =>
      set (name := visitUsers c g f key popped)
  end.

Ltac instance_connect_turn instance :=
  lazymatch goal with
  | |- context [visitUsers ?c ?g ?f ?key ?p] =>
      let users := eval vm_compute in (fieldRefToUsers p !! key) in
      lazymatch users with
      | Some [(?block, ?op)] =>
          rewrite (visitUsers_single c g f key p block op)
            by (vm_compute; reflexivity);
          let src := eval vm_compute in (nth 1 (operands op) (BlockArgument 0 0)) in
          let srcValue :=
            eval vm_compute in
              (getExtendedLatticeValue p (src, 0%nat) (UIntType 8) false) in
          rewrite (visitOperation_instance_input c g f op (OpResult instance 0) src []
                     (UIntType 8) instance 0%nat
                     (plainOp instance (InstanceOp 1) [] [UInt8]) 1%nat
                     twoSitesCallee srcValue p)
            by (vm_compute; reflexivity)
      end
  end.

(** Scenario 5 of the specification, run for every pair of 8-bit literals:
    with two different literals driven into the input port of the two
    instances of the callee, the solver reaches its fixpoint (the worklist
    is empty) and the entry of the callee's argument is Overdefined. *)
Theorem two_sites_make_argument_overdefined (va vb : Z) :
  0 <= va < 256 → 0 <= vb < 256 →
  va ≠ vb →
  ∃ st, analyze (twoSitesCircuit (literal va) (literal vb)) rootFieldRef noFold 20
          = Some st ∧
        changedLatticeValueWorklist st = [] ∧
        latticeValues st !! (BlockArgument 1 0, 0%nat) = Some Overdefined.
Proof.
  intros _ _ Hne. unfold analyze.
  let r := eval vm_compute in
             (markPublicModules (twoSitesCircuit (literal va) (literal vb))
                                rootFieldRef 20 initialPass) in
  lazymatch r with
  | Some ?s =>
      pose (s0 := s);
      replace (markPublicModules (twoSitesCircuit (literal va) (literal vb))
                                 rootFieldRef 20 initialPass)
        with (Some s0) by (vm_compute; reflexivity)
  end.
  cbn [mbind option_bind].
  (* the second constant, its connect, the argument, the node *)
  plain_turn s1. plain_turn s2. plain_turn s3.
  (* the result of the second instance: its connect again, the same literal *)
  pop_worklist p4. instance_connect_turn 4%nat.
  rewrite (mergeLatticeValue_same (getSubField (rootFieldRef (OpResult 4 0)) 0))
    by (vm_compute; reflexivity).
  rewrite mergeLatticeValue_same by (vm_compute; reflexivity).
  (* the first constant: its connect meets the other literal *)
  pop_worklist p5. instance_connect_turn 3%nat.
  set (s5 := mergeLatticeValue (getSubField (rootFieldRef (OpResult 3 0)) 0) _ p5).
  rewrite (mergeLatticeValue_conflict _ (IntAttr (literal vb)) (IntAttr (literal va)) s5)
    by (first [vm_compute; reflexivity | unfold literal; congruence]).
  set (s5' := setEntry _ _ _ s5).
  plain_turn s6. plain_turn s7.
  (* the result of the first instance *)
  pop_worklist p8. instance_connect_turn 3%nat.
  rewrite (mergeLatticeValue_same (getSubField (rootFieldRef (OpResult 3 0)) 0))
    by (vm_compute; reflexivity).
  rewrite mergeLatticeValue_overdefined by (vm_compute; reflexivity).
  rewrite solve_done by (vm_compute; reflexivity).
  eexists; split; [reflexivity|]. split; vm_compute; reflexivity.
Qed.

Lemma two_sites_make_argument_overdefined_witness :
  ∃ st, analyze (twoSitesCircuit (literal 3) (literal 4)) rootFieldRef noFold 20
          = Some st ∧
        changedLatticeValueWorklist st = [] ∧
        latticeValues st !! (BlockArgument 1 0, 0%nat) = Some Overdefined.
Proof. apply (two_sites_make_argument_overdefined 3 4); lia. Defined.

(** Whatever the argument held before: once the literal [c] was merged
    into it, then any other values, then a different literal [d], it is
    Overdefined. *)
Lemma merged_two_constants (x : LatticeValue) (c d : IntegerAttr)
    (others : list LatticeValue) :
  c ≠ d →
  merged (foldl merged (merged x (Constant c)) others) (Constant d) = Overdefined.
Proof.
  intros Hne.
  assert (Hstay : ∀ l y, (y = Constant c ∨ y = Overdefined) →
                         foldl merged y l = Constant c ∨ foldl merged y l = Overdefined).
  { induction l as [|z l IH]; intros y Hy; simpl; [done|].
    apply IH. destruct Hy as [-> | ->]; [|by right].
    unfold merged, mergeIn. destruct z as [| |e|]; simpl; auto.
    case_bool_decide; auto. }
  destruct (Hstay others (merged x (Constant c))) as [-> | ->].
  - unfold merged, mergeIn. destruct x as [| |e|]; simpl; auto.
    case_bool_decide; auto.
  - unfold merged, mergeIn. simpl. by rewrite bool_decide_eq_true_2 by congruence.
  - done.
Qed.


(** *** The initial scans *)

Section Scans.

Variable circuit : CircuitOp.
Variable getFieldRefFromValue : Value → FieldRef.

(** A property of the pass state that every update of the initial scans
    keeps is kept by the scans. *)
Variable P : IMConstPropPass → Prop.
Hypothesis P_insertExecutable : ∀ b st, P st → P (insertExecutable b st).
Hypothesis P_markOverdefinedKey : ∀ key st, P st → P (markOverdefinedKey key st).
Hypothesis P_mergeLatticeValue :
  ∀ key source st, P st → P (mergeLatticeValue key source st).
Hypothesis P_addUser :
  ∀ key block module op st,
    circuit !! block = Some module → op ∈ body module → operands op ≠ [] →
    P st → P (addUser key (block, op) st).
Hypothesis P_addInstanceResult :
  ∀ port r st, P st → P (addInstanceResult port r st).

Lemma scan_foldl {A} (f : IMConstPropPass → A → IMConstPropPass) l :
  (∀ st a, P st → P (f st a)) → ∀ st, P st → P (foldl f st l).
Proof.
  intros Hf. induction l as [|a l IH]; intros st HP; simpl; [done|].
  by apply IH, Hf.
Qed.

Lemma scan_markOverdefined value st :
  P st → P (markOverdefined circuit getFieldRefFromValue value st).
Proof.
  unfold markOverdefined. apply scan_foldl. intros st' leaf. apply P_markOverdefinedKey.
Qed.

Lemma scan_mergeLatticeValueFrom result from st :
  P st → P (mergeLatticeValueFrom result from st).
Proof.
  intros HP. unfold mergeLatticeValueFrom.
  destruct (latticeValues st !! from); [|done]. by apply P_mergeLatticeValue.
Qed.

Lemma scan_mergeLatticeValueValues result from st :
  P st → P (mergeLatticeValueValues circuit getFieldRefFromValue result from st).
Proof.
  intros HP. unfold mergeLatticeValueValues.
  destruct (latticeValues st !! getFieldRefFromValue from); [|done].
  destruct (getType circuit result) as [[]|];
    try (by apply scan_mergeLatticeValueFrom);
    (apply scan_foldl; [|done]; intros st' leaf; apply scan_mergeLatticeValueFrom).
Qed.

Lemma scan_markWireOrRegOp op st :
  P st → P (markWireOrRegOp circuit getFieldRefFromValue op st).
Proof.
  intros HP. unfold markWireOrRegOp, markUnwritten.
  destruct (resultTypes op !! 0%nat) as [[t| |]|]; try by apply scan_markOverdefined.
  destruct (negb (isGround (getPassiveType t))); [by apply scan_markOverdefined|].
  destruct (opDontTouch op); [by apply scan_markOverdefined|].
  apply scan_foldl; [|done]. intros st' leaf. apply P_markOverdefinedKey.
Qed.

Lemma scan_recordUsers block module op st :
  circuit !! block = Some module → op ∈ body module →
  P st → P (recordUsers circuit getFieldRefFromValue block op st).
Proof.
  intros Hmod Hop HP. unfold recordUsers.
  destruct (operands op) as [|operand0 rest] eqn:Hops; [done|].
  rewrite <- Hops. apply scan_foldl; [|done].
  intros st' operand HP'.
  destruct (getType circuit operand) as [[]|]; try done;
    (apply scan_foldl; [|done]; intros st'' leaf; apply (P_addUser _ _ module);
     [done|done|by rewrite Hops]).
Qed.

Lemma scan_forwardInstanceResults instance moduleName fModule st :
  P st → P (forwardInstanceResults circuit getFieldRefFromValue instance moduleName
                                   fModule st).
Proof.
  intros HP. unfold forwardInstanceResults. apply scan_foldl; [|done].
  intros st' resultNo HP'.
  destruct (getPortDirection fModule resultNo) as [[]|]; try done;
    by apply scan_mergeLatticeValueValues, P_addInstanceResult.
Qed.

Lemma scan_markExtInstanceResults instance module st :
  P st → P (markExtInstanceResults circuit getFieldRefFromValue instance module st).
Proof.
  intros HP. unfold markExtInstanceResults. apply scan_foldl; [|done].
  intros st' resultNo HP'.
  destruct (getPortDirection module resultNo) as [[]|]; try done;
    by apply scan_markOverdefined.
Qed.

Lemma scan_foldlOpt {A} (f : IMConstPropPass → A → option IMConstPropPass)
    (Q : A → Prop) l :
  (∀ st a st', Q a → f st a = Some st' → P st → P st') → (∀ a, a ∈ l → Q a) →
  ∀ st st', foldlOpt f st l = Some st' → P st → P st'.
Proof.
  intros Hf. induction l as [|a l IH]; intros HQ st st' Hrun HP; simpl in Hrun.
  - by inversion Hrun; subst.
  - destruct (f st a) as [st1|] eqn:E; [|done].
    apply (IH (λ x Hx, HQ x (proj2 (elem_of_cons _ _ _) (or_intror Hx))) st1 st' Hrun).
    apply (Hf st a st1); [|done..]. apply HQ. by apply elem_of_cons; left.
Qed.

Lemma scan_markBlockExecutable fuel :
  ∀ block st st',
    markBlockExecutable circuit getFieldRefFromValue fuel block st = Some st' →
    P st → P st'.
Proof.
  induction fuel as [|fuel IH]; intros block st st' Hrun HP; simpl in Hrun; [done|].
  destruct (isBlockExecutable st block); [by inversion Hrun; subst|].
  destruct (circuit !! block) as [module|] eqn:Hmod;
    [|inversion Hrun; subst; by apply P_insertExecutable].
  refine (scan_foldlOpt _ (λ op, op ∈ body module) _ _ _ _ _ Hrun _); [|done|].
  - intros st0 op st1 Hop Hstep HP0.
    assert (Hmark : ∀ st2, P st2 →
              P (recordUsers circuit getFieldRefFromValue block op st2)).
    { intros st2. by apply (scan_recordUsers block module). }
    destruct (isWireOrReg op).
    { inversion Hstep; subst. by apply Hmark, scan_markWireOrRegOp. }
    destruct (opKind op); simpl in Hstep;
      try (inversion Hstep; subst; apply Hmark; done).
    + inversion Hstep; subst. apply Hmark. by apply scan_foldl;
        [intros; apply scan_markOverdefined|].
    + inversion Hstep; subst. by apply Hmark, P_mergeLatticeValue.
    + inversion Hstep; subst. by apply Hmark, P_mergeLatticeValue.
    + inversion Hstep; subst. by apply Hmark, scan_markOverdefined.
    + destruct (circuit !! moduleName) as [referenced|];
        [|inversion Hstep; subst; by apply Hmark].
      destruct (isFModule referenced).
      * destruct (markBlockExecutable circuit getFieldRefFromValue fuel moduleName st0)
          as [st2|] eqn:E; [|done].
        simpl in Hstep. inversion Hstep; subst.
        apply Hmark, scan_forwardInstanceResults. by apply (IH _ _ _ E).
      * inversion Hstep; subst. by apply Hmark, scan_markExtInstanceResults.
    + inversion Hstep; subst. apply Hmark. by apply scan_foldl;
        [intros; apply scan_markOverdefined|].
    + inversion Hstep; subst. by apply Hmark, scan_markOverdefined.
    + inversion Hstep; subst. by apply Hmark, scan_markOverdefined.
  - apply scan_foldl; [|by apply P_insertExecutable].
    intros st0 ba HP0. destruct (hasDontTouchValue circuit ba); [|done].
    by apply scan_markOverdefined.
Qed.

Lemma scan_markPublicModules fuel st st' :
  markPublicModules circuit getFieldRefFromValue fuel st = Some st' → P st → P st'.
Proof.
  unfold markPublicModules. intros Hrun HP.
  refine (scan_foldlOpt _ (λ _, True) _ _ _ _ _ Hrun HP); [|done].
  intros st0 [block module] st1 _ Hstep HP0. simpl in Hstep.
  destruct (_ && _); [|by inversion Hstep; subst].
  destruct (markBlockExecutable circuit getFieldRefFromValue fuel block st0)
    as [st2|] eqn:E; [|done].
  simpl in Hstep. inversion Hstep; subst.
  apply scan_foldl; [intros; by apply scan_markOverdefined|].
  by apply (scan_markBlockExecutable _ _ _ _ E).
Qed.

End Scans.

(** *** The initial scans: they return *)

Section ScansReturn.

Variable circuit : CircuitOp.
Variable getFieldRefFromValue : Value → FieldRef.

Lemma count_filter_le {A} (P Q : A → bool) (l : list A) :
  (∀ x, P x = true → Q x = true) →
  (length (List.filter P l) ≤ length (List.filter Q l))%nat.
Proof.
  intros HPQ. induction l as [|a l IH]; simpl; [done|].
  destruct (P a) eqn:E.
  - rewrite (HPQ a E). simpl. lia.
  - destruct (Q a); simpl; lia.
Qed.

Lemma count_filter_lt {A} (P Q : A → bool) (l : list A) (a : A) :
  (∀ x, P x = true → Q x = true) →
  a ∈ l → P a = false → Q a = true →
  (length (List.filter P l) < length (List.filter Q l))%nat.
Proof.
  intros HPQ Hin HP HQ. induction l as [|b l IH]; [by apply elem_of_nil in Hin|].
  pose proof (count_filter_le P Q l HPQ) as Hle. simpl.
  apply elem_of_cons in Hin as [Heq | Hin].
  - subst b. rewrite HP, HQ. simpl. lia.
  - specialize (IH Hin). destruct (P b) eqn:E.
    + rewrite (HPQ b E). simpl. lia.
    + destruct (Q b); simpl; lia.
Qed.

Lemma notYetExecutable_anti st st' :
  executableBlocks st ⊆ executableBlocks st' →
  (notYetExecutable circuit st' ≤ notYetExecutable circuit st)%nat.
Proof.
  intros Hsub. apply count_filter_le. intros b. unfold isBlockExecutable.
  rewrite !negb_true_iff, !bool_decide_eq_false. intros Hnot Hin.
  by apply Hnot, Hsub.
Qed.

Lemma notYetExecutable_insertExecutable block st :
  (block < length circuit)%nat →
  block ∉ executableBlocks st →
  (notYetExecutable circuit (insertExecutable block st)
   < notYetExecutable circuit st)%nat.
Proof.
  intros Hlt Hnot. apply count_filter_lt with (a := block).
  - intros b. unfold isBlockExecutable. simpl.
    rewrite !negb_true_iff, !bool_decide_eq_false. intros Hb Hin.
    by apply Hb, elem_of_union_r.
  - apply elem_of_seq. lia.
  - unfold isBlockExecutable. simpl. apply negb_false_iff, bool_decide_eq_true.
    by apply elem_of_union_l, elem_of_singleton.
  - unfold isBlockExecutable. by apply negb_true_iff, bool_decide_eq_false.
Qed.

(** The updates of the scans other than [insertExecutable] leave the
    executable blocks alone. *)
Lemma executable_setEntry key v push st :
  executableBlocks (setEntry key v push st) = executableBlocks st.
Proof. done. Qed.

Lemma executable_markOverdefinedKey key st :
  executableBlocks (markOverdefinedKey key st) = executableBlocks st.
Proof. unfold markOverdefinedKey. by destruct (isOverdefined _). Qed.

Lemma executable_mergeLatticeValue key source st :
  executableBlocks (mergeLatticeValue key source st) = executableBlocks st.
Proof.
  unfold mergeLatticeValue. destruct (isUnknown source); [done|].
  by destruct (mergeIn _ _) as [? []].
Qed.

Lemma growsExecutable_insertExecutable st0 b s :
  executableBlocks st0 ⊆ executableBlocks s →
  executableBlocks st0 ⊆ executableBlocks (insertExecutable b s).
Proof. intros H. simpl. by apply union_subseteq_r'. Qed.

Lemma growsExecutable_markOverdefinedKey st0 key s :
  executableBlocks st0 ⊆ executableBlocks s →
  executableBlocks st0 ⊆ executableBlocks (markOverdefinedKey key s).
Proof. by rewrite executable_markOverdefinedKey. Qed.

Lemma growsExecutable_mergeLatticeValue st0 key source s :
  executableBlocks st0 ⊆ executableBlocks s →
  executableBlocks st0 ⊆ executableBlocks (mergeLatticeValue key source s).
Proof. by rewrite executable_mergeLatticeValue. Qed.

Lemma growsExecutable_scan st0 fuel block st st' :
  markBlockExecutable circuit getFieldRefFromValue fuel block st = Some st' →
  executableBlocks st0 ⊆ executableBlocks st →
  executableBlocks st0 ⊆ executableBlocks st'.
Proof.
  apply (scan_markBlockExecutable circuit getFieldRefFromValue
           (λ s, executableBlocks st0 ⊆ executableBlocks s)).
  - intros b s. apply growsExecutable_insertExecutable.
  - intros key s. apply growsExecutable_markOverdefinedKey.
  - intros key source s. apply growsExecutable_mergeLatticeValue.
  - done.
  - done.
Qed.

Lemma growsExecutable_markOverdefined st0 value s :
  executableBlocks st0 ⊆ executableBlocks s →
  executableBlocks st0 ⊆
    executableBlocks (markOverdefined circuit getFieldRefFromValue value s).
Proof.
  apply (scan_markOverdefined circuit getFieldRefFromValue
           (λ s, executableBlocks st0 ⊆ executableBlocks s)).
  intros key s'. apply growsExecutable_markOverdefinedKey.
Qed.

Lemma growsExecutable_markAll st0 values s :
  executableBlocks st0 ⊆ executableBlocks s →
  executableBlocks st0 ⊆
    executableBlocks
      (foldl (λ st v, markOverdefined circuit getFieldRefFromValue v st) s values).
Proof.
  apply (scan_foldl (λ s, executableBlocks st0 ⊆ executableBlocks s)).
  intros s' v. apply growsExecutable_markOverdefined.
Qed.

Lemma growsExecutable_recordUsers st0 block op s :
  executableBlocks st0 ⊆ executableBlocks s →
  executableBlocks st0 ⊆
    executableBlocks (recordUsers circuit getFieldRefFromValue block op s).
Proof.
  intros H. unfold recordUsers.
  apply (scan_foldl (λ s, executableBlocks st0 ⊆ executableBlocks s)); [|done].
  intros s' operand H'.
  destruct (getType circuit operand) as [[]|]; try done;
    by apply (scan_foldl (λ s, executableBlocks st0 ⊆ executableBlocks s)).
Qed.

Lemma foldlOpt_returns {A} (f : IMConstPropPass → A → option IMConstPropPass)
    (I : IMConstPropPass → Prop) (l : list A) :
  (∀ st a, I st → ∃ st', f st a = Some st' ∧ I st') →
  ∀ st, I st → ∃ st', foldlOpt f st l = Some st'.
Proof.
  intros Hf. induction l as [|a l IH]; intros st HI; simpl; [by exists st|].
  destruct (Hf st a HI) as (st1 & -> & HI1). by apply IH.
Qed.

Lemma markBlockExecutable_returns fuel :
  ∀ block st,
    (notYetExecutable circuit st < fuel)%nat →
    ∃ st', markBlockExecutable circuit getFieldRefFromValue fuel block st = Some st'.
Proof.
  induction fuel as [|fuel IH]; intros block st Hfuel; [lia|]. simpl.
  unfold isBlockExecutable at 1.
  case_bool_decide as Hexec; [by exists st|].
  destruct (circuit !! block) as [module|] eqn:Hmod; [|by eexists].
  pose proof (notYetExecutable_insertExecutable block st
                (lookup_lt_Some _ _ _ Hmod) Hexec) as Hless.
  set (st1 := insertExecutable block st) in *.
  apply (foldlOpt_returns _ (λ s, executableBlocks st1 ⊆ executableBlocks s)).
  - intros st0 op Hsub.
    assert (Hrec : ∀ s, executableBlocks st1 ⊆ executableBlocks s →
              ∃ st', recordUsers circuit getFieldRefFromValue block op <$> Some s
                     = Some st' ∧ executableBlocks st1 ⊆ executableBlocks st').
    { intros s Hs. eexists. split; [done|]. by apply growsExecutable_recordUsers. }
    destruct (isWireOrReg op).
    { apply Hrec.
      apply (scan_markWireOrRegOp circuit getFieldRefFromValue
               (λ s, executableBlocks st1 ⊆ executableBlocks s)); [|done].
      intros key s. apply growsExecutable_markOverdefinedKey. }
    destruct (opKind op); try (by apply Hrec).
    + apply Hrec. by apply growsExecutable_markAll.
    + apply Hrec. by apply growsExecutable_mergeLatticeValue.
    + apply Hrec. by apply growsExecutable_mergeLatticeValue.
    + apply Hrec. by apply growsExecutable_markOverdefined.
    + destruct (circuit !! moduleName) as [referenced|]; [|by apply Hrec].
      destruct (isFModule referenced).
      * destruct (IH moduleName st0) as [st4 E].
        { pose proof (notYetExecutable_anti st1 st0 Hsub). lia. }
        rewrite E. simpl. apply Hrec.
        apply (scan_forwardInstanceResults circuit getFieldRefFromValue
                 (λ s, executableBlocks st1 ⊆ executableBlocks s)).
        -- intros key source s. apply growsExecutable_mergeLatticeValue.
        -- done.
        -- by apply (growsExecutable_scan st1 _ _ _ _ E).
      * apply Hrec.
        apply (scan_markExtInstanceResults circuit getFieldRefFromValue
                 (λ s, executableBlocks st1 ⊆ executableBlocks s)); [|done].
        intros key s. apply growsExecutable_markOverdefinedKey.
    + apply Hrec. by apply growsExecutable_markAll.
    + apply Hrec. by apply growsExecutable_markOverdefined.
    + apply Hrec. by apply growsExecutable_markOverdefined.
  - apply (scan_foldl (λ s, executableBlocks st1 ⊆ executableBlocks s)); [|done].
    intros s ba Hs. destruct (hasDontTouchValue circuit ba); [|done].
    by apply growsExecutable_markOverdefined.
Qed.

Lemma markPublicModules_returns fuel :
  (length circuit < fuel)%nat →
  ∃ st0, markPublicModules circuit getFieldRefFromValue fuel initialPass = Some st0.
Proof.
  intros Hfuel. unfold markPublicModules.
  assert (Hbound : ∀ st, (notYetExecutable circuit st ≤ length circuit)%nat).
  { intros st. unfold notYetExecutable.
    etransitivity; [apply List.filter_length_le|]. by rewrite length_seq. }
  generalize initialPass.
  induction (imap (λ i m, (i, m)) circuit) as [|[block module] l IH];
    intros st; simpl; [by exists st|].
  destruct (isFModule module && isPublic module); [|apply IH].
  destruct (markBlockExecutable_returns fuel block st) as [st' ->].
  { specialize (Hbound st). lia. }
  simpl. apply IH.
Qed.

End ScansReturn.

(** *** Visits *)

Section Updates.

Variable circuit : CircuitOp.
Variable getFieldRefFromValue : Value → FieldRef.
Variable foldHook : Operation → list (option Attribute) → option (list OpFoldResult).

(** A visit is a sequence of these updates: merges, marks and reads at any
    key, diagnostics, and [setLatticeValue] at the results of the operation
    that is visited.  A property that each of them keeps is kept by the
    visit. *)
Variable P : IMConstPropPass → Prop.
Variable visited : Operation → Prop.
Hypothesis P_mergeLatticeValue :
  ∀ key source st, P st → P (mergeLatticeValue key source st).
Hypothesis P_markOverdefinedKey : ∀ key st, P st → P (markOverdefinedKey key st).
Hypothesis P_touchEntry : ∀ key st, P st → P (touchEntry key st).
Hypothesis P_setLatticeValue :
  ∀ op i source st,
    visited op → P st →
    P (setLatticeValue (getFieldRefFromValue (OpResult (opId op) i)) source st).
Hypothesis P_emitError : ∀ d st, P st → P (emitError d st).

Lemma update_foldl {A} (f : IMConstPropPass → A → IMConstPropPass) l :
  (∀ st a, P st → P (f st a)) → ∀ st, P st → P (foldl f st l).
Proof.
  intros Hf. induction l as [|a l IH]; intros st HP; simpl; [done|].
  by apply IH, Hf.
Qed.

Lemma update_markOverdefined value st :
  P st → P (markOverdefined circuit getFieldRefFromValue value st).
Proof.
  unfold markOverdefined. apply update_foldl. intros st' leaf.
  apply P_markOverdefinedKey.
Qed.

Lemma update_mergeLatticeValueValues result from st :
  P st → P (mergeLatticeValueValues circuit getFieldRefFromValue result from st).
Proof.
  intros HP. unfold mergeLatticeValueValues.
  destruct (latticeValues st !! getFieldRefFromValue from); [|done].
  assert (Hfrom : ∀ r f s, P s → P (mergeLatticeValueFrom r f s)).
  { intros r f s Hs. unfold mergeLatticeValueFrom.
    destruct (latticeValues s !! f); [|done]. by apply P_mergeLatticeValue. }
  destruct (getType circuit result) as [[]|]; try (by apply Hfrom);
    (apply update_foldl; [|done]; intros st' leaf; apply Hfrom).
Qed.

Lemma update_propagateElementLattice connect dest src fieldID destType st :
  P st →
  P (propagateElementLattice circuit getFieldRefFromValue connect dest src
                             fieldID destType st).
Proof.
  intros HP. unfold propagateElementLattice. cbv zeta.
  destruct (isUnknown _); [done|].
  destruct (getFieldRefFromValue dest).1 as [b n|o n].
  - apply P_mergeLatticeValue. apply update_foldl; [|done].
    intros st' u. apply P_mergeLatticeValue.
  - destruct (getDefiningOp circuit (OpResult o n)) as [owner|]; [|done].
    destruct (isWireOrReg owner); [by apply P_mergeLatticeValue|].
    destruct (opKind owner); try (by apply P_emitError); try done.
    destruct (circuit !! moduleName) as [module|];
      [destruct (isFModule module)|];
      repeat apply P_mergeLatticeValue; done.
Qed.

Lemma update_visitConnectLike connect st :
  P st → P (visitConnectLike circuit getFieldRefFromValue connect st).
Proof.
  intros HP. unfold visitConnectLike.
  destruct (operands connect) as [|dest [|src rest]]; try done.
  destruct (getType circuit dest) as [[]|];
    try (by repeat apply update_markOverdefined);
    (apply update_foldl; [|done]; intros st' leaf;
     apply update_propagateElementLattice).
Qed.

Lemma update_collectOperandConstants ops st :
  P st → P (collectOperandConstants getFieldRefFromValue ops st).1.
Proof.
  revert st. induction ops as [|operand rest IH]; intros st HP; simpl; [done|].
  destruct (isUnknown _); simpl; [by apply P_touchEntry|].
  by apply IH, P_touchEntry.
Qed.

Lemma update_adoptFoldResults op foldResults :
  visited op →
  ∀ i st, P st → P (adoptFoldResults getFieldRefFromValue op i foldResults st).
Proof.
  intros Hop.
  induction foldResults as [|r rest IH]; intros i st HP; simpl; [done|].
  destruct r as [[intAttr|tag]|v]; apply IH, P_setLatticeValue; try done.
  by apply P_touchEntry.
Qed.

Lemma update_visitOperation op st :
  visited op → P st → P (visitOperation circuit getFieldRefFromValue foldHook op st).
Proof.
  intros Hop HP. unfold visitOperation.
  destruct (isFConnectLike op); [by apply update_visitConnectLike|].
  assert (Hgeneric :
    P (if forallb (λ value, isOverdefinedKey st (getFieldRefFromValue value))
                  (getResults op)
       then st
       else
         match collectOperandConstants getFieldRefFromValue (operands op) st with
         | (st, None) => st
         | (st, Some operandConstants) =>
             match foldHook op operandConstants with
             | None =>
                 foldl (λ st value, markOverdefined circuit getFieldRefFromValue value st)
                       st (getResults op)
             | Some foldResults =>
                 adoptFoldResults getFieldRefFromValue op 0 foldResults st
             end
         end)).
  { destruct (forallb _ _); [done|].
    pose proof (update_collectOperandConstants (operands op) st HP) as H1.
    destruct (collectOperandConstants getFieldRefFromValue (operands op) st)
      as [st1 [operandConstants|]]; simpl in H1; [|done].
    destruct (foldHook op operandConstants) as [foldResults|].
    - by apply update_adoptFoldResults.
    - apply update_foldl; [|done]. intros st' v. apply update_markOverdefined. }
  destruct (opKind op); try exact Hgeneric; try done.
  - unfold visitRegResetOp.
    destruct (operands op) as [|clock [|resetSignal [|resetValue rest]]]; try done.
    destruct (getType circuit resetSignal) as [[]|]; try done.
    destruct (resultTypes op !! 0%nat); [|done].
    destruct (_ || _); [|done].
    apply update_foldl; [|done]. intros st' leaf. apply P_mergeLatticeValue.
  - unfold visitNode. destruct (_ || _); [by apply update_markOverdefined|].
    destruct (operands op); [done|]. by apply update_mergeLatticeValueValues.
  - unfold visitRefSend. destruct (operands op); [done|].
    by apply update_mergeLatticeValueValues.
  - unfold visitRefResolve. destruct (operands op); [done|].
    by apply update_mergeLatticeValueValues.
Qed.

End Updates.

Section Visits.

Variable circuit : CircuitOp.
Variable getFieldRefFromValue : Value → FieldRef.
Variable foldHook : Operation → list (option Attribute) → option (list OpFoldResult).

(** A property of the pass state that every write of an entry and every
    diagnostic keeps is kept by the visit. *)
Variable P : IMConstPropPass → Prop.
Hypothesis P_setEntry : ∀ key v push st, P st → P (setEntry key v push st).
Hypothesis P_emitError : ∀ d st, P st → P (emitError d st).

Lemma visit_foldl {A} (f : IMConstPropPass → A → IMConstPropPass) l :
  (∀ st a, P st → P (f st a)) → ∀ st, P st → P (foldl f st l).
Proof.
  intros Hf. induction l as [|a l IH]; intros st HP; simpl; [done|].
  by apply IH, Hf.
Qed.

Lemma visit_markOverdefinedKey key st : P st → P (markOverdefinedKey key st).
Proof.
  intros HP. unfold markOverdefinedKey.
  destruct (isOverdefined _); [done|by apply P_setEntry].
Qed.

Lemma visit_mergeLatticeValue key source st : P st → P (mergeLatticeValue key source st).
Proof.
  intros HP. unfold mergeLatticeValue. destruct (isUnknown source); [done|].
  destruct (mergeIn _ _) as [v []]; simpl; [by apply P_setEntry|done].
Qed.

Lemma visit_setLatticeValue key source st : P st → P (setLatticeValue key source st).
Proof.
  intros HP. unfold setLatticeValue. destruct (isUnknown source); [done|].
  case_bool_decide; [by apply P_setEntry|done].
Qed.

Lemma visit_touchEntry key st : P st → P (touchEntry key st).
Proof.
  intros HP. unfold touchEntry.
  destruct (latticeValues st !! key); [done|by apply P_setEntry].
Qed.

Lemma visit_visitOperation op st :
  P st → P (visitOperation circuit getFieldRefFromValue foldHook op st).
Proof.
  apply (update_visitOperation circuit getFieldRefFromValue foldHook P (λ _, True));
    try done.
  - intros key source s. apply visit_mergeLatticeValue.
  - intros key s. apply visit_markOverdefinedKey.
  - intros key s. apply visit_touchEntry.
  - intros o i source s _. apply visit_setLatticeValue.
Qed.

Lemma visit_visitUsers key st :
  P st → P (visitUsers circuit getFieldRefFromValue foldHook key st).
Proof.
  intros HP. unfold visitUsers. apply visit_foldl; [|done].
  intros st' user HP'. destruct (isBlockExecutable st' user.1); [|done].
  by apply visit_visitOperation.
Qed.

End Visits.

(** *** Overdefined entries through the analysis *)

Section OverdefinedThroughAnalysis.

Variable circuit : CircuitOp.
Variable getFieldRefFromValue : Value → FieldRef.
Variable foldHook : Operation → list (option Attribute) → option (list OpFoldResult).

Lemma fieldRefToUsers_visitUsers key st :
  fieldRefToUsers (visitUsers circuit getFieldRefFromValue foldHook key st)
  = fieldRefToUsers st.
Proof.
  by apply (visit_visitUsers circuit getFieldRefFromValue foldHook
              (λ s, fieldRefToUsers s = fieldRefToUsers st)).
Qed.

Lemma executableBlocks_visitUsers key st :
  executableBlocks (visitUsers circuit getFieldRefFromValue foldHook key st)
  = executableBlocks st.
Proof.
  by apply (visit_visitUsers circuit getFieldRefFromValue foldHook
              (λ s, executableBlocks s = executableBlocks st)).
Qed.

Lemma mapping_visitUsers key st :
  resultPortToInstanceResultMapping
    (visitUsers circuit getFieldRefFromValue foldHook key st)
  = resultPortToInstanceResultMapping st.
Proof.
  by apply (visit_visitUsers circuit getFieldRefFromValue foldHook
              (λ s, resultPortToInstanceResultMapping s
                    = resultPortToInstanceResultMapping st)).
Qed.

Lemma scan_keepsOverdefined fuel block st st' k :
  markBlockExecutable circuit getFieldRefFromValue fuel block st = Some st' →
  latticeValues st !! k = Some Overdefined →
  latticeValues st' !! k = Some Overdefined.
Proof.
  apply (scan_markBlockExecutable circuit getFieldRefFromValue
           (λ s, latticeValues s !! k = Some Overdefined)); try done.
  - intros key s. apply keepsOverdefined_markOverdefinedKey.
  - intros key source s. apply keepsOverdefined_mergeLatticeValue.
Qed.

Lemma markPublicModules_keepsOverdefined fuel st st' k :
  markPublicModules circuit getFieldRefFromValue fuel st = Some st' →
  latticeValues st !! k = Some Overdefined →
  latticeValues st' !! k = Some Overdefined.
Proof.
  apply (scan_markPublicModules circuit getFieldRefFromValue
           (λ s, latticeValues s !! k = Some Overdefined)); try done.
  - intros key s. apply keepsOverdefined_markOverdefinedKey.
  - intros key source s. apply keepsOverdefined_mergeLatticeValue.
Qed.

Lemma usersFromCircuit_seeded fuel st0 :
  markPublicModules circuit getFieldRefFromValue fuel initialPass = Some st0 →
  usersFromCircuit circuit st0.
Proof.
  intros Hseed.
  refine (scan_markPublicModules circuit getFieldRefFromValue
            (usersFromCircuit circuit) _ _ _ _ _ fuel _ _ Hseed _).
  - done.
  - intros key s H. unfold markOverdefinedKey.
    by destruct (isOverdefined _).
  - intros key source s H. unfold mergeLatticeValue.
    destruct (isUnknown source); [done|]. by destruct (mergeIn _ _) as [? []].
  - intros key block module op s Hmod Hop Hoperands H key' user. simpl.
    destruct (decide (key = key')) as [->|Hne].
    + rewrite lookup_insert_eq. simpl.
      intros [Hin | ->%list_elem_of_singleton]%elem_of_app; [by apply (H key')|].
      by exists module.
    + rewrite lookup_insert_ne by done. apply H.
  - done.
  - intros key user. simpl. rewrite lookup_empty. simpl.
    intros Hin. by apply elem_of_nil in Hin.
Qed.

Hypothesis foldHook_arity : foldHookArity foldHook.

Lemma visitUsers_keepsOverdefined key st :
  singleResultUsers (concat (map body circuit)) = true →
  usersFromCircuit circuit st →
  keepsOverdefined
    (λ s, foldl (λ st user,
                   if isBlockExecutable st user.1
                   then visitOperation circuit getFieldRefFromValue foldHook user.2 st
                   else st)
                s (default [] (fieldRefToUsers st !! key))).
Proof.
  intros Hsingle Husers.
  assert (Hall : ∀ user, user ∈ default [] (fieldRefToUsers st !! key) →
            (length (resultTypes user.2) ≤ 1)%nat).
  { intros user Hin. destruct (Husers key user Hin) as (module & Hmod & Hop & Hoperands).
    unfold singleResultUsers in Hsingle. rewrite forallb_forall in Hsingle.
    assert (Hin' : user.2 ∈ concat (map body circuit)).
    { apply list_elem_of_In, in_concat. exists (body module).
      split; [|by apply list_elem_of_In].
      apply in_map. apply list_elem_of_In. by eapply list_elem_of_lookup_2. }
    specialize (Hsingle _ (proj1 (list_elem_of_In _ _) Hin')).
    destruct (operands user.2); [done|]. by apply Nat.leb_le. }
  induction (default [] (fieldRefToUsers st !! key)) as [|user l IH]; simpl.
  { apply keepsOverdefined_id. }
  intros s k Hk. apply IH.
  - intros u Hu. apply Hall. by apply elem_of_cons; right.
  - destruct (isBlockExecutable s user.1); [|done].
    apply visitOperation_keeps_overdefined; [|apply foldHook_arity|done].
    apply Hall. by apply elem_of_cons; left.
Qed.

Lemma solve_keepsOverdefined fuel :
  singleResultUsers (concat (map body circuit)) = true →
  ∀ st st' k,
    usersFromCircuit circuit st →
    solve circuit getFieldRefFromValue foldHook fuel st = Some st' →
    latticeValues st !! k = Some Overdefined →
    latticeValues st' !! k = Some Overdefined.
Proof.
  intros Hsingle.
  induction fuel as [|fuel IH]; intros st st' k Husers Hsolve Hk; simpl in Hsolve.
  - destruct (changedLatticeValueWorklist st); [|done]. by inversion Hsolve; subst.
  - destruct (changedLatticeValueWorklist st) as [|key rest]; [by inversion Hsolve; subst|].
    apply (IH _ _ k) in Hsolve; [done| |].
    + intros key' user. rewrite fieldRefToUsers_visitUsers. apply Husers.
    + unfold visitUsers.
      apply (visitUsers_keepsOverdefined key (setWorklist rest st) Hsingle Husers).
      exact Hk.
Qed.

Lemma analyze_keepsOverdefined fuel st0 st k :
  singleResultUsers (concat (map body circuit)) = true →
  markPublicModules circuit getFieldRefFromValue fuel initialPass = Some st0 →
  solve circuit getFieldRefFromValue foldHook fuel st0 = Some st →
  latticeValues st0 !! k = Some Overdefined →
  latticeValues st !! k = Some Overdefined.
Proof.
  intros Hsingle Hseed Hsolve. apply (solve_keepsOverdefined fuel Hsingle st0 st k).
  - by apply (usersFromCircuit_seeded fuel).
  - done.
Qed.

End OverdefinedThroughAnalysis.

(** *** What the initial scans establish *)

Lemma scanKeeps_refl st : scanKeeps st st.
Proof. by split_and!. Qed.

Lemma scanKeeps_trans st1 st2 st3 :
  scanKeeps st1 st2 → scanKeeps st2 st3 → scanKeeps st1 st3.
Proof.
  intros (Ho & He & Hu & Hm) (Ho' & He' & Hu' & Hm').
  split_and!; auto. by transitivity (executableBlocks st2).
Qed.

Lemma scanKeeps_insertExecutable b st : scanKeeps st (insertExecutable b st).
Proof. split_and!; simpl; try done. apply union_subseteq_r. Qed.

Lemma scanKeeps_markOverdefinedKey key st : scanKeeps st (markOverdefinedKey key st).
Proof.
  split_and!.
  - intros k. apply keepsOverdefined_markOverdefinedKey.
  - by rewrite executable_markOverdefinedKey.
  - unfold markOverdefinedKey. by destruct (isOverdefined _).
  - unfold markOverdefinedKey. by destruct (isOverdefined _).
Qed.

Lemma scanKeeps_mergeLatticeValue key source st :
  scanKeeps st (mergeLatticeValue key source st).
Proof.
  split_and!.
  - intros k. apply keepsOverdefined_mergeLatticeValue.
  - by rewrite executable_mergeLatticeValue.
  - unfold mergeLatticeValue. destruct (isUnknown source); [done|].
    by destruct (mergeIn _ _) as [? []].
  - unfold mergeLatticeValue. destruct (isUnknown source); [done|].
    by destruct (mergeIn _ _) as [? []].
Qed.

Lemma scanKeeps_addUser key user st : scanKeeps st (addUser key user st).
Proof.
  split_and!; simpl; try done. intros key' user' Hin.
  destruct (decide (key = key')) as [->|Hne].
  - rewrite lookup_insert_eq. simpl. apply elem_of_app. by left.
  - by rewrite lookup_insert_ne.
Qed.

Lemma scanKeeps_addInstanceResult port r st :
  scanKeeps st (addInstanceResult port r st).
Proof.
  split_and!; simpl; try done. intros port' r' Hin.
  destruct (decide (port = port')) as [->|Hne].
  - rewrite lookup_insert_eq. simpl. apply elem_of_app. by left.
  - by rewrite lookup_insert_ne.
Qed.

Lemma scanKeeps_foldl {A} (f : IMConstPropPass → A → IMConstPropPass) l :
  (∀ st a, scanKeeps st (f st a)) → ∀ st, scanKeeps st (foldl f st l).
Proof.
  intros Hf. induction l as [|a l IH]; intros st; simpl.
  - apply scanKeeps_refl.
  - eapply scanKeeps_trans; [apply Hf | apply IH].
Qed.

Section ScanFacts.

Variable circuit : CircuitOp.
Variable getFieldRefFromValue : Value → FieldRef.

Lemma scanKeeps_markOverdefined value st :
  scanKeeps st (markOverdefined circuit getFieldRefFromValue value st).
Proof.
  apply (scan_markOverdefined circuit getFieldRefFromValue (scanKeeps st));
    [|apply scanKeeps_refl].
  intros key s H. eapply scanKeeps_trans; [exact H|apply scanKeeps_markOverdefinedKey].
Qed.

Lemma scanKeeps_markAll values st :
  scanKeeps st
    (foldl (λ st v, markOverdefined circuit getFieldRefFromValue v st) st values).
Proof.
  apply (scanKeeps_foldl (λ st v, markOverdefined circuit getFieldRefFromValue v st)).
  intros s v. apply scanKeeps_markOverdefined.
Qed.

Lemma scanKeeps_recordUsers block op st :
  scanKeeps st (recordUsers circuit getFieldRefFromValue block op st).
Proof.
  unfold recordUsers.
  apply (scanKeeps_foldl
           (λ st operand,
              match getType circuit operand with
              | Some (BaseType _ as t) | Some (RefType _ as t) =>
                  foldl (λ st leaf,
                           addUser (getSubField (getFieldRefFromValue operand) leaf.1)
                                   (block, op) st)
                        st (foreachFIRRTLGroundType t)
              | _ => st
              end)).
  intros s operand.
  destruct (getType circuit operand) as [[]|]; try apply scanKeeps_refl;
    (apply (scanKeeps_foldl (λ st leaf, addUser _ (block, op) st));
     intros; apply scanKeeps_addUser).
Qed.

Lemma scanKeeps_markBlockExecutable fuel block st st' :
  markBlockExecutable circuit getFieldRefFromValue fuel block st = Some st' →
  scanKeeps st st'.
Proof.
  intros Hrun.
  refine (scan_markBlockExecutable circuit getFieldRefFromValue (scanKeeps st)
            _ _ _ _ _ fuel block st st' Hrun (scanKeeps_refl st)).
  - intros b s H. eapply scanKeeps_trans; [exact H|apply scanKeeps_insertExecutable].
  - intros k s H. eapply scanKeeps_trans; [exact H|apply scanKeeps_markOverdefinedKey].
  - intros k v s H. eapply scanKeeps_trans; [exact H|apply scanKeeps_mergeLatticeValue].
  - intros k b m o s _ _ _ H. eapply scanKeeps_trans; [exact H|apply scanKeeps_addUser].
  - intros p r s H. eapply scanKeeps_trans; [exact H|apply scanKeeps_addInstanceResult].
Qed.

Lemma scanKeeps_forwardInstanceResults instance moduleName fModule st :
  scanKeeps st (forwardInstanceResults circuit getFieldRefFromValue instance
                                       moduleName fModule st).
Proof.
  apply (scan_forwardInstanceResults circuit getFieldRefFromValue (scanKeeps st));
    [| |apply scanKeeps_refl].
  - intros k v s H. eapply scanKeeps_trans; [exact H|apply scanKeeps_mergeLatticeValue].
  - intros p r s H. eapply scanKeeps_trans; [exact H|apply scanKeeps_addInstanceResult].
Qed.

Lemma scanKeeps_mergeLatticeValueValues result from st :
  scanKeeps st (mergeLatticeValueValues circuit getFieldRefFromValue result from st).
Proof.
  apply (scan_mergeLatticeValueValues circuit getFieldRefFromValue (scanKeeps st));
    [|apply scanKeeps_refl].
  intros k v s H. eapply scanKeeps_trans; [exact H|apply scanKeeps_mergeLatticeValue].
Qed.

Lemma markOverdefined_allOverdefined value st :
  allOverdefined circuit getFieldRefFromValue
    (markOverdefined circuit getFieldRefFromValue value st) value.
Proof.
  unfold allOverdefined, markOverdefined. intros leaf Hin. revert st.
  induction (groundTypesOfBaseValue circuit value) as [|l ls IH]; intros st;
    [by apply elem_of_nil in Hin|].
  simpl. apply elem_of_cons in Hin as [-> | Hin]; [|by apply IH].
  apply (keepsOverdefined_foldl
           (λ st leaf,
              markOverdefinedKey (getSubField (getFieldRefFromValue value) leaf.1) st)).
  - intros a. apply keepsOverdefined_markOverdefinedKey.
  - apply lookup_markOverdefinedKey_eq.
Qed.

Lemma allOverdefined_keeps st st' value :
  scanKeeps st st' →
  allOverdefined circuit getFieldRefFromValue st value →
  allOverdefined circuit getFieldRefFromValue st' value.
Proof. intros (Ho & _) H leaf Hin. by apply Ho, H. Qed.

Lemma markAll_allOverdefined values st value :
  value ∈ values →
  allOverdefined circuit getFieldRefFromValue
    (foldl (λ st v, markOverdefined circuit getFieldRefFromValue v st) st values) value.
Proof.
  revert st. induction values as [|v l IH]; intros st Hin;
    [by apply elem_of_nil in Hin|].
  simpl. apply elem_of_cons in Hin as [-> | Hin]; [|by apply IH].
  apply (allOverdefined_keeps
           (markOverdefined circuit getFieldRefFromValue v st));
    [apply scanKeeps_markAll|apply markOverdefined_allOverdefined].
Qed.

Lemma markWireOrRegOp_allOverdefined op st :
  allOverdefined circuit getFieldRefFromValue
    (markWireOrRegOp circuit getFieldRefFromValue op st) (OpResult (opId op) 0).
Proof.
  unfold markWireOrRegOp. cbv zeta.
  destruct (resultTypes op !! 0%nat) as [[t| |]|];
    try apply markOverdefined_allOverdefined.
  destruct (negb (isGround (getPassiveType t)));
    [apply markOverdefined_allOverdefined|].
  destruct (opDontTouch op); apply markOverdefined_allOverdefined.
Qed.

Lemma scanKeeps_markWireOrRegOp op st :
  scanKeeps st (markWireOrRegOp circuit getFieldRefFromValue op st).
Proof.
  apply (scan_markWireOrRegOp circuit getFieldRefFromValue (scanKeeps st));
    [|apply scanKeeps_refl].
  intros k s H. eapply scanKeeps_trans; [exact H|apply scanKeeps_markOverdefinedKey].
Qed.

Lemma markExtInstanceResults_allOverdefined instance module st resultNo :
  (resultNo < length (resultTypes instance))%nat →
  getPortDirection module resultNo ≠ Some In →
  allOverdefined circuit getFieldRefFromValue
    (markExtInstanceResults circuit getFieldRefFromValue instance module st)
    (OpResult (opId instance) resultNo).
Proof.
  intros Hlt Hdir. unfold markExtInstanceResults.
  set (f := λ st resultNo,
              match getPortDirection module resultNo with
              | Some In => st
              | _ => markOverdefined circuit getFieldRefFromValue
                                     (OpResult (opId instance) resultNo) st
              end).
  assert (Hf : ∀ s a, scanKeeps s (f s a)).
  { intros s a. unfold f. destruct (getPortDirection module a) as [[]|];
      apply scanKeeps_markOverdefined || apply scanKeeps_refl. }
  assert (Hin : resultNo ∈ seq 0 (length (resultTypes instance)))
    by (apply elem_of_seq; lia).
  revert st. induction (seq 0 (length (resultTypes instance))) as [|k l IH];
    intros st; [by apply elem_of_nil in Hin|].
  simpl. apply elem_of_cons in Hin as [-> | Hin]; [|by apply IH].
  apply (allOverdefined_keeps (f st k)); [apply (scanKeeps_foldl f), Hf|].
  unfold f. destruct (getPortDirection module k) as [[]|]; try done;
    apply markOverdefined_allOverdefined.
Qed.

Lemma scanKeeps_markExtInstanceResults instance module st :
  scanKeeps st (markExtInstanceResults circuit getFieldRefFromValue instance module st).
Proof.
  apply (scan_markExtInstanceResults circuit getFieldRefFromValue (scanKeeps st));
    [|apply scanKeeps_refl].
  intros k s H. eapply scanKeeps_trans; [exact H|apply scanKeeps_markOverdefinedKey].
Qed.

Lemma forwardInstanceResults_records instance moduleName fModule st resultNo :
  (resultNo < length (resultTypes instance))%nat →
  getPortDirection fModule resultNo ≠ Some In →
  OpResult (opId instance) resultNo ∈
    default [] (resultPortToInstanceResultMapping
                  (forwardInstanceResults circuit getFieldRefFromValue instance
                                          moduleName fModule st)
                  !! BlockArgument moduleName resultNo).
Proof.
  intros Hlt Hdir. unfold forwardInstanceResults.
  set (f := λ st resultNo,
              match getPortDirection fModule resultNo with
              | Some In => st
              | _ =>
                  mergeLatticeValueValues circuit getFieldRefFromValue
                    (OpResult (opId instance) resultNo)
                    (BlockArgument moduleName resultNo)
                    (addInstanceResult (BlockArgument moduleName resultNo)
                                       (OpResult (opId instance) resultNo) st)
              end).
  assert (Hstep : ∀ s a,
            scanKeeps (addInstanceResult (BlockArgument moduleName a)
                                         (OpResult (opId instance) a) s)
                      (mergeLatticeValueValues circuit getFieldRefFromValue
                         (OpResult (opId instance) a) (BlockArgument moduleName a)
                         (addInstanceResult (BlockArgument moduleName a)
                                            (OpResult (opId instance) a) s))).
  { intros s a. apply scanKeeps_mergeLatticeValueValues. }
  assert (Hf : ∀ s a, scanKeeps s (f s a)).
  { intros s a. unfold f. destruct (getPortDirection fModule a) as [[]|];
      try apply scanKeeps_refl;
      (eapply scanKeeps_trans; [apply scanKeeps_addInstanceResult|apply Hstep]). }
  assert (Hin : resultNo ∈ seq 0 (length (resultTypes instance)))
    by (apply elem_of_seq; lia).
  revert st. induction (seq 0 (length (resultTypes instance))) as [|k l IH];
    intros st; [by apply elem_of_nil in Hin|].
  simpl. apply elem_of_cons in Hin as [-> | Hin]; [|by apply IH].
  destruct (scanKeeps_foldl f l Hf (f st k)) as (_ & _ & _ & Hm). apply Hm.
  assert (Hadd : OpResult (opId instance) k ∈
            default [] (resultPortToInstanceResultMapping
                          (addInstanceResult (BlockArgument moduleName k)
                                             (OpResult (opId instance) k) st)
                          !! BlockArgument moduleName k)).
  { simpl. rewrite lookup_insert_eq. simpl. apply elem_of_app. right.
    by apply list_elem_of_singleton. }
  unfold f. destruct (getPortDirection fModule k) as [[]|]; try done;
    by apply (Hstep st k).
Qed.

Lemma recordUsers_records block op st operand t leaf :
  operand ∈ operands op → getType circuit operand = Some t →
  leaf ∈ foreachFIRRTLGroundType t →
  (block, op) ∈
    default [] (fieldRefToUsers (recordUsers circuit getFieldRefFromValue block op st)
                  !! getSubField (getFieldRefFromValue operand) leaf.1).
Proof.
  intros Hoperand Hty Hleaf. unfold recordUsers.
  set (g := λ operand (st : IMConstPropPass) (leaf : nat * FIRRTLBaseType),
              addUser (getSubField (getFieldRefFromValue operand) leaf.1) (block, op) st).
  set (f := λ st operand,
              match getType circuit operand with
              | Some (BaseType _ as t) | Some (RefType _ as t) =>
                  foldl (g operand) st (foreachFIRRTLGroundType t)
              | _ => st
              end).
  assert (Hg : ∀ o s a, scanKeeps s (g o s a)) by (intros; apply scanKeeps_addUser).
  assert (Hf : ∀ s a, scanKeeps s (f s a)).
  { intros s a. unfold f. destruct (getType circuit a) as [[]|];
      try apply scanKeeps_refl; apply (scanKeeps_foldl (g a)), Hg. }
  revert st. induction (operands op) as [|o l IH]; intros st;
    [by apply elem_of_nil in Hoperand|].
  simpl. apply elem_of_cons in Hoperand as [<- | Hin]; [|by apply IH].
  destruct (scanKeeps_foldl f l Hf (f st operand)) as (_ & _ & Hu & _). apply Hu.
  unfold f. rewrite Hty.
  assert (Hleaves : ∀ leaves s, leaf ∈ leaves →
            (block, op) ∈
              default [] (fieldRefToUsers (foldl (g operand) s leaves)
                            !! getSubField (getFieldRefFromValue operand) leaf.1)).
  { induction leaves as [|a ls IHl]; intros s Hl; [by apply elem_of_nil in Hl|].
    simpl. apply elem_of_cons in Hl as [<- | Hl]; [|by apply IHl].
    destruct (scanKeeps_foldl (g operand) ls (Hg operand) (g operand s leaf))
      as (_ & _ & Hu' & _).
    apply Hu'. unfold g. simpl. rewrite lookup_insert_eq. simpl.
    apply elem_of_app. right. by apply list_elem_of_singleton. }
  destruct t as [b|b|tag]; [by apply Hleaves|by apply Hleaves|].
  by apply elem_of_nil in Hleaf.
Qed.

Lemma scanMarked_keeps op st st' :
  scanKeeps st st' →
  scanMarked circuit getFieldRefFromValue op st →
  scanMarked circuit getFieldRefFromValue op st'.
Proof.
  intros Hk Hmarks. pose proof Hk as (Ho & He & Hu & Hm). unfold scanMarked in *.
  destruct (isWireOrReg op); [by apply (allOverdefined_keeps st)|].
  destruct (opKind op); try done;
    try (by apply (allOverdefined_keeps st));
    try (intros r Hr; by apply (allOverdefined_keeps st), Hmarks).
  destruct (circuit !! moduleName) as [referenced|]; [|done].
  destruct (isFModule referenced).
  - destruct Hmarks as [Hexec Hrec]. split; [by apply He|].
    intros k Hlt Hdir. by apply Hm, Hrec.
  - intros k Hlt Hdir. by apply (allOverdefined_keeps st), Hmarks.
Qed.

Lemma scannedOp_keeps block op st st' :
  scanKeeps st st' →
  scannedOp circuit getFieldRefFromValue block op st →
  scannedOp circuit getFieldRefFromValue block op st'.
Proof.
  intros Hk [Husers Hmarks]. split; [|by apply (scanMarked_keeps op st)].
  destruct Hk as (_ & _ & Hu & _).
  intros operand t leaf H1 H2 H3. by apply Hu, (Husers operand t).
Qed.

Lemma scansDone_keeps X st st' :
  scanKeeps st st' → executableBlocks st' = executableBlocks st →
  scansDone circuit getFieldRefFromValue X st →
  scansDone circuit getFieldRefFromValue X st'.
Proof.
  intros Hk He Hd block Hexec HX module Hmod op Hop. rewrite He in Hexec.
  by apply (scannedOp_keeps block op st st'), (Hd block Hexec HX module Hmod).
Qed.

Lemma scanLoop_prefix {A} (f : IMConstPropPass → A → option IMConstPropPass)
    (I : list A → IMConstPropPass → Prop) (l : list A) :
  (∀ done a st st', I done st → f st a = Some st' → I (done ++ [a]) st') →
  ∀ done st st', I done st → foldlOpt f st l = Some st' → I (done ++ l) st'.
Proof.
  intros Hstep. induction l as [|a l IH]; intros done st st' HI Hrun; simpl in Hrun.
  - inversion Hrun; subst. by rewrite app_nil_r.
  - destruct (f st a) as [st1|] eqn:E; [|done].
    replace (done ++ a :: l) with ((done ++ [a]) ++ l) by (by rewrite <- app_assoc).
    apply (IH _ st1); [|done]. by apply (Hstep done a st).
Qed.

Lemma executable_recordUsers block op st :
  executableBlocks (recordUsers circuit getFieldRefFromValue block op st)
  = executableBlocks st.
Proof.
  unfold recordUsers.
  apply (scan_foldl (λ s, executableBlocks s = executableBlocks st)); [|done].
  intros s operand Hs.
  destruct (getType circuit operand) as [[]|]; try done;
    by apply (scan_foldl (λ s, executableBlocks s = executableBlocks st)).
Qed.

Lemma executable_markOverdefined value st :
  executableBlocks (markOverdefined circuit getFieldRefFromValue value st)
  = executableBlocks st.
Proof.
  apply (scan_markOverdefined circuit getFieldRefFromValue
           (λ s, executableBlocks s = executableBlocks st)); [|done].
  intros key s. by rewrite executable_markOverdefinedKey.
Qed.

Lemma executable_markAll values st :
  executableBlocks
    (foldl (λ st v, markOverdefined circuit getFieldRefFromValue v st) st values)
  = executableBlocks st.
Proof.
  apply (scan_foldl (λ s, executableBlocks s = executableBlocks st)); [|done].
  intros s v. by rewrite executable_markOverdefined.
Qed.

Lemma executable_forwardInstanceResults instance moduleName fModule st :
  executableBlocks (forwardInstanceResults circuit getFieldRefFromValue instance
                                           moduleName fModule st)
  = executableBlocks st.
Proof.
  apply (scan_forwardInstanceResults circuit getFieldRefFromValue
           (λ s, executableBlocks s = executableBlocks st)); [| |done].
  - intros key source s. by rewrite executable_mergeLatticeValue.
  - done.
Qed.

Lemma executable_markExtInstanceResults instance module st :
  executableBlocks (markExtInstanceResults circuit getFieldRefFromValue instance
                                           module st)
  = executableBlocks st.
Proof.
  apply (scan_markExtInstanceResults circuit getFieldRefFromValue
           (λ s, executableBlocks s = executableBlocks st)); [|done].
  intros key s. by rewrite executable_markOverdefinedKey.
Qed.

Lemma executable_markWireOrRegOp op st :
  executableBlocks (markWireOrRegOp circuit getFieldRefFromValue op st)
  = executableBlocks st.
Proof.
  apply (scan_markWireOrRegOp circuit getFieldRefFromValue
           (λ s, executableBlocks s = executableBlocks st)); [|done].
  intros key s. by rewrite executable_markOverdefinedKey.
Qed.

Lemma markBlockExecutable_marks fuel block st st' :
  markBlockExecutable circuit getFieldRefFromValue fuel block st = Some st' →
  block ∈ executableBlocks st'.
Proof.
  intros Hrun. pose proof Hrun as Hrun'. destruct fuel as [|fuel]; [done|].
  simpl in Hrun. unfold isBlockExecutable in Hrun. case_bool_decide as Hexec.
  { by inversion Hrun; subst. }
  assert (Hin : block ∈ executableBlocks (insertExecutable block st))
    by (simpl; by apply elem_of_union_l, elem_of_singleton).
  destruct (circuit !! block) as [module|]; [|by inversion Hrun; subst].
  revert Hrun.
  match goal with
  | |- foldlOpt ?f ?s0 ?l = Some st' → _ =>
      intros Hrun;
      refine (scan_foldlOpt (λ x, block ∈ executableBlocks x) f (λ _, True) l
                _ _ s0 st' Hrun _); [|done|]
  end.
  - intros s op s' _ Hstep Hs. cbv zeta in Hstep.
    assert (Hrec : ∀ s0, block ∈ executableBlocks s0 →
              block ∈ executableBlocks
                        (recordUsers circuit getFieldRefFromValue block op s0)).
    { intros s0. by rewrite executable_recordUsers. }
    destruct (isWireOrReg op).
    { inversion Hstep; subst. apply Hrec. by rewrite executable_markWireOrRegOp. }
    destruct (opKind op); simpl in Hstep;
      try (inversion Hstep; subst; apply Hrec; done).
    + inversion Hstep; subst. apply Hrec. unfold markMemOp. by rewrite executable_markAll.
    + inversion Hstep; subst. apply Hrec. unfold markConstantOp.
      by rewrite executable_mergeLatticeValue.
    + inversion Hstep; subst. apply Hrec. unfold markSpecialConstantOp.
      by rewrite executable_mergeLatticeValue.
    + inversion Hstep; subst. apply Hrec. unfold markInvalidValueOp.
      by rewrite executable_markOverdefined.
    + destruct (circuit !! moduleName) as [referenced|];
        [|inversion Hstep; subst; by apply Hrec].
      destruct (isFModule referenced).
      * destruct (markBlockExecutable circuit getFieldRefFromValue fuel moduleName s)
          as [s1|] eqn:E; [|done].
        simpl in Hstep. inversion Hstep; subst. apply Hrec.
        rewrite executable_forwardInstanceResults.
        apply (growsExecutable_scan circuit getFieldRefFromValue s _ _ _ _ E);
          [done|exact Hs].
      * inversion Hstep; subst. apply Hrec.
        by rewrite executable_markExtInstanceResults.
    + inversion Hstep; subst. apply Hrec. by rewrite executable_markAll.
    + inversion Hstep; subst. apply Hrec. by rewrite executable_markOverdefined.
    + inversion Hstep; subst. apply Hrec. by rewrite executable_markOverdefined.
  - apply (scan_foldl (λ s, block ∈ executableBlocks s)); [|done].
    intros s ba Hs. destruct (hasDontTouchValue circuit ba); [|done].
    by rewrite executable_markOverdefined.
Qed.

End ScanFacts.

Section ScansDone.

Variable circuit : CircuitOp.
Variable getFieldRefFromValue : Value → FieldRef.

Lemma markBlockExecutable_marksDone fuel :
  ∀ X block st st',
    markBlockExecutable circuit getFieldRefFromValue fuel block st = Some st' →
    scansDone circuit getFieldRefFromValue X st →
    scansDone circuit getFieldRefFromValue X st'.
Proof.
  induction fuel as [|fuel IH]; intros X block st st' Hrun Hdone; [done|].
  simpl in Hrun. unfold isBlockExecutable in Hrun. case_bool_decide as Hexec.
  { by inversion Hrun; subst. }
  destruct (circuit !! block) as [module|] eqn:Hmod.
  2: { inversion Hrun; subst. intros b Hb HX. simpl in Hb.
       apply elem_of_union in Hb as [->%elem_of_singleton | Hb].
       - intros m Hm. congruence.
       - intros m Hm op Hop.
         apply (scannedOp_keeps circuit getFieldRefFromValue b op st);
           [apply scanKeeps_insertExecutable|]. by apply (Hdone b Hb HX m). }
  set (st1 := insertExecutable block st) in *.
  set (st3 := foldl (λ st ba,
                       if hasDontTouchValue circuit ba
                       then markOverdefined circuit getFieldRefFromValue ba st
                       else st) st1 (getArguments block module)) in *.
  assert (Hg13 : scanKeeps st1 st3).
  { apply (scanKeeps_foldl
             (λ st ba, if hasDontTouchValue circuit ba
                       then markOverdefined circuit getFieldRefFromValue ba st
                       else st)).
    intros s ba. destruct (hasDontTouchValue circuit ba);
      [apply scanKeeps_markOverdefined|apply scanKeeps_refl]. }
  assert (He13 : executableBlocks st3 = executableBlocks st1).
  { apply (scan_foldl (λ s, executableBlocks s = executableBlocks st1)); [|done].
    intros s ba Hs. destruct (hasDontTouchValue circuit ba); [|done].
    by rewrite executable_markOverdefined. }
  pose (I := λ (done : list Operation) (s : IMConstPropPass),
               scansDone circuit getFieldRefFromValue (X ∪ {[block]}) s ∧
               ∀ op, op ∈ done → scannedOp circuit getFieldRefFromValue block op s).
  assert (Hloop : I ([] ++ body module) st').
  { refine (scanLoop_prefix _ I (body module) _ [] st3 st' _ Hrun).
    - intros done op s s' (Hd & Hprefix) Hstep. cbv zeta in Hstep.
      assert (Hmarked : ∀ m,
                scanKeeps s m →
                scansDone circuit getFieldRefFromValue (X ∪ {[block]}) m →
                scanMarked circuit getFieldRefFromValue op m →
                s' = recordUsers circuit getFieldRefFromValue block op m →
                scanKeeps s s' ∧
                scansDone circuit getFieldRefFromValue (X ∪ {[block]}) s' ∧
                scannedOp circuit getFieldRefFromValue block op s').
      { intros m Hk Hdm Hm ->.
        pose proof (scanKeeps_recordUsers circuit getFieldRefFromValue block op m) as Hr.
        split_and!.
        - by eapply scanKeeps_trans.
        - apply (scansDone_keeps circuit getFieldRefFromValue _ m);
            [done|apply executable_recordUsers|done].
        - split.
          + intros operand t leaf. apply recordUsers_records.
          + by apply (scanMarked_keeps circuit getFieldRefFromValue op m). }
      assert (Hsame : ∀ m, scanKeeps s m → executableBlocks m = executableBlocks s →
                scansDone circuit getFieldRefFromValue (X ∪ {[block]}) m).
      { intros m Hk He. by apply (scansDone_keeps circuit getFieldRefFromValue _ s). }
      assert (Hpost : scanKeeps s s' ∧
                      scansDone circuit getFieldRefFromValue (X ∪ {[block]}) s' ∧
                      scannedOp circuit getFieldRefFromValue block op s').
      { unfold scanMarked in Hmarked. destruct (isWireOrReg op).
        { inversion Hstep; subst. eapply Hmarked; [| | |reflexivity].
          - apply scanKeeps_markWireOrRegOp.
          - apply Hsame; [apply scanKeeps_markWireOrRegOp
                         |apply executable_markWireOrRegOp].
          - apply markWireOrRegOp_allOverdefined. }
        destruct (opKind op) eqn:Hkind; simpl in Hstep;
          try (inversion Hstep; subst;
               by (eapply Hmarked; [apply scanKeeps_refl|done|done|reflexivity])).
        - (* MemOp *)
          inversion Hstep; subst. unfold markMemOp.
          eapply Hmarked; [| | |reflexivity].
          + apply scanKeeps_markAll.
          + apply Hsame; [apply scanKeeps_markAll|apply executable_markAll].
          + intros r Hr. by apply markAll_allOverdefined.
        - (* ConstantOp *)
          inversion Hstep; subst. unfold markConstantOp.
          eapply Hmarked; [| |done|reflexivity].
          + apply scanKeeps_mergeLatticeValue.
          + apply Hsame; [apply scanKeeps_mergeLatticeValue
                         |apply executable_mergeLatticeValue].
        - (* SpecialConstantOp *)
          inversion Hstep; subst. unfold markSpecialConstantOp.
          eapply Hmarked; [| |done|reflexivity].
          + apply scanKeeps_mergeLatticeValue.
          + apply Hsame; [apply scanKeeps_mergeLatticeValue
                         |apply executable_mergeLatticeValue].
        - (* InvalidValueOp *)
          inversion Hstep; subst. unfold markInvalidValueOp.
          eapply Hmarked; [| | |reflexivity].
          + apply scanKeeps_markOverdefined.
          + apply Hsame; [apply scanKeeps_markOverdefined
                         |apply executable_markOverdefined].
          + apply markOverdefined_allOverdefined.
        - (* InstanceOp *)
          destruct (circuit !! moduleName) as [referenced|] eqn:Href;
            [|inversion Hstep; subst;
              by (eapply Hmarked; [apply scanKeeps_refl|done|done|reflexivity])].
          destruct (isFModule referenced) eqn:Hf.
          + destruct (markBlockExecutable circuit getFieldRefFromValue fuel moduleName s)
              as [s1|] eqn:E; [|done].
            simpl in Hstep. inversion Hstep; subst.
            pose proof (scanKeeps_markBlockExecutable _ _ _ _ _ _ E) as Hg1.
            pose proof (scanKeeps_forwardInstanceResults circuit getFieldRefFromValue
                          op moduleName referenced s1) as Hg2.
            eapply Hmarked; [| | |reflexivity].
            * by eapply scanKeeps_trans.
            * apply (scansDone_keeps circuit getFieldRefFromValue _ s1);
                [done|apply executable_forwardInstanceResults|].
              by apply (IH _ _ _ _ E).
            * split.
              -- rewrite executable_forwardInstanceResults.
                 by apply (markBlockExecutable_marks _ _ _ _ _ _ E).
              -- intros k Hlt Hdir. by apply forwardInstanceResults_records.
          + inversion Hstep; subst.
            eapply Hmarked; [| | |reflexivity].
            * apply scanKeeps_markExtInstanceResults.
            * apply Hsame; [apply scanKeeps_markExtInstanceResults
                           |apply executable_markExtInstanceResults].
            * intros k Hlt Hdir. by apply markExtInstanceResults_allOverdefined.
        - (* UnrealizedConversionCastOp *)
          inversion Hstep; subst.
          eapply Hmarked; [| | |reflexivity].
          + apply scanKeeps_markAll.
          + apply Hsame; [apply scanKeeps_markAll|apply executable_markAll].
          + intros r Hr. by apply markAll_allOverdefined.
        - (* VerbatimExprOp *)
          inversion Hstep; subst.
          eapply Hmarked; [| | |reflexivity].
          + apply scanKeeps_markOverdefined.
          + apply Hsame; [apply scanKeeps_markOverdefined
                         |apply executable_markOverdefined].
          + apply markOverdefined_allOverdefined.
        - (* VerbatimWireOp *)
          inversion Hstep; subst.
          eapply Hmarked; [| | |reflexivity].
          + apply scanKeeps_markOverdefined.
          + apply Hsame; [apply scanKeeps_markOverdefined
                         |apply executable_markOverdefined].
          + apply markOverdefined_allOverdefined. }
      destruct Hpost as (Hg' & Hd' & Hop). split; [done|].
      intros op' [Hin | ->%list_elem_of_singleton]%elem_of_app; [|done].
      by apply (scannedOp_keeps circuit getFieldRefFromValue block op' s s'), Hprefix.
    - split; [|intros op Hop; by apply elem_of_nil in Hop].
      intros b Hb HX. rewrite He13 in Hb. simpl in Hb.
      apply not_elem_of_union in HX as [HX Hne].
      apply elem_of_union in Hb as [Hb | Hb]; [done|].
      intros m Hm op Hop.
      apply (scannedOp_keeps circuit getFieldRefFromValue b op st).
      + eapply scanKeeps_trans; [apply scanKeeps_insertExecutable|exact Hg13].
      + by apply (Hdone b Hb HX m). }
  destruct Hloop as (Hd & Hops). simpl in Hops.
  intros b Hb HX. destruct (decide (b = block)) as [->|Hne].
  - intros m Hm. rewrite Hmod in Hm. inversion Hm; subst m. exact Hops.
  - apply Hd; [done|]. apply not_elem_of_union. split; [done|].
    by intros ->%elem_of_singleton.
Qed.

Lemma markPublicModules_marksDone fuel st0 :
  markPublicModules circuit getFieldRefFromValue fuel initialPass = Some st0 →
  scansDone circuit getFieldRefFromValue ∅ st0 ∧
  ∀ bm, bm ∈ imap (λ i m, (i, m)) circuit →
        publicSeeded circuit getFieldRefFromValue st0 bm.
Proof.
  unfold markPublicModules. intros Hrun.
  pose (I := λ (done : list (nat * FModuleLike)) (s : IMConstPropPass),
               scansDone circuit getFieldRefFromValue ∅ s ∧
               ∀ bm, bm ∈ done → publicSeeded circuit getFieldRefFromValue s bm).
  assert (H : I ([] ++ imap (λ i m, (i, m)) circuit) st0); [|exact H].
  refine (scanLoop_prefix _ I _ _ [] initialPass st0 _ Hrun).
  - intros done [block module] s s' [Hd Hpre] Hstep. simpl in Hstep.
    assert (Hpost : scanKeeps s s' ∧ scansDone circuit getFieldRefFromValue ∅ s' ∧
                    publicSeeded circuit getFieldRefFromValue s' (block, module)).
    { unfold publicSeeded. simpl. destruct (isFModule module && isPublic module).
      - destruct (markBlockExecutable circuit getFieldRefFromValue fuel block s)
          as [s1|] eqn:E; [|done].
        simpl in Hstep. inversion Hstep; subst.
        pose proof (scanKeeps_markBlockExecutable _ _ _ _ _ _ E) as Hg1.
        pose proof (scanKeeps_markAll circuit getFieldRefFromValue
                      (getArguments block module) s1) as Hg2.
        split_and!.
        + by eapply scanKeeps_trans.
        + apply (scansDone_keeps circuit getFieldRefFromValue _ s1);
            [done|apply executable_markAll|].
          by apply (markBlockExecutable_marksDone _ _ _ _ _ E).
        + intros _. split.
          * rewrite executable_markAll.
            by apply (markBlockExecutable_marks _ _ _ _ _ _ E).
          * intros port Hport. by apply markAll_allOverdefined.
      - inversion Hstep; subst. split_and!; [apply scanKeeps_refl|done|done]. }
    destruct Hpost as (Hg & Hd' & Hbm). split; [done|].
    intros bm [Hin | ->%list_elem_of_singleton]%elem_of_app; [|done].
    intros Hpub. destruct (Hpre bm Hin Hpub) as [He Hv].
    pose proof Hg as (_ & He' & _). split; [by apply He'|].
    intros port Hport.
    by apply (allOverdefined_keeps circuit getFieldRefFromValue s s'), Hv.
  - split.
    + intros b Hb. by apply elem_of_empty in Hb.
    + intros bm Hbm. by apply elem_of_nil in Hbm.
Qed.

End ScansDone.

(** *** The marks of the scans at the fixpoint *)

Section MarksAtFixpoint.

Variable circuit : CircuitOp.
Variable getFieldRefFromValue : Value → FieldRef.
Variable foldHook : Operation → list (option Attribute) → option (list OpFoldResult).

Lemma solve_frame fuel :
  ∀ st st',
    solve circuit getFieldRefFromValue foldHook fuel st = Some st' →
    executableBlocks st' = executableBlocks st ∧
    fieldRefToUsers st' = fieldRefToUsers st ∧
    resultPortToInstanceResultMapping st' = resultPortToInstanceResultMapping st.
Proof.
  induction fuel as [|fuel IH]; intros st st' Hsolve; simpl in Hsolve.
  - destruct (changedLatticeValueWorklist st); [|done]. by inversion Hsolve; subst.
  - destruct (changedLatticeValueWorklist st) as [|key rest];
      [by inversion Hsolve; subst|].
    destruct (IH _ _ Hsolve) as (He & Hu & Hm).
    rewrite He, Hu, Hm.
    by rewrite executableBlocks_visitUsers, fieldRefToUsers_visitUsers,
               mapping_visitUsers.
Qed.

Lemma analyze_marksDone fuel st :
  singleResultUsers (concat (map body circuit)) = true →
  foldHookArity foldHook →
  analyze circuit getFieldRefFromValue foldHook fuel = Some st →
  scansDone circuit getFieldRefFromValue ∅ st ∧
  ∀ bm, bm ∈ imap (λ i m, (i, m)) circuit →
        publicSeeded circuit getFieldRefFromValue st bm.
Proof.
  intros Hsingle Harity Hrun. unfold analyze in Hrun.
  destruct (markPublicModules circuit getFieldRefFromValue fuel initialPass)
    as [st0|] eqn:Hseed; [|done].
  cbn [mbind option_bind] in Hrun.
  destruct (markPublicModules_marksDone circuit getFieldRefFromValue fuel st0 Hseed)
    as [Hdone Hpub].
  destruct (solve_frame fuel st0 st Hrun) as (He & Hu & Hm).
  assert (Hkeeps : scanKeeps st0 st).
  { split_and!.
    - intros k. by apply (analyze_keepsOverdefined circuit getFieldRefFromValue
                            foldHook Harity fuel st0 st k).
    - by rewrite He.
    - intros key user. by rewrite Hu.
    - intros port r. by rewrite Hm. }
  split.
  - by apply (scansDone_keeps circuit getFieldRefFromValue ∅ st0 st).
  - intros bm Hbm Hp. destruct (Hpub bm Hbm Hp) as [Hexec Hports]. split.
    + by rewrite He.
    + intros port Hport.
      by apply (allOverdefined_keeps circuit getFieldRefFromValue st0 st), Hports.
Qed.

Lemma allOverdefined_ground st value :
  groundValue circuit value = true →
  allOverdefined circuit getFieldRefFromValue st value →
  latticeValues st !! getFieldRefFromValue value = Some Overdefined.
Proof.
  unfold groundValue, allOverdefined, groundTypesOfBaseValue.
  destruct (getType circuit value) as [[t| |]|]; try done.
  intros Hground Hall. unfold foreachFIRRTLGroundTypeBase in Hall.
  rewrite Hground in Hall.
  specialize (Hall (0%nat, t) (proj2 (list_elem_of_singleton _ _) eq_refl)).
  unfold getSubField in Hall. simpl in Hall. rewrite Nat.add_0_r in Hall.
  by destruct (getFieldRefFromValue value).
Qed.

End MarksAtFixpoint.

(** The marking of the public modules returns: the nesting of
    [markBlockExecutable] is bounded by the number of modules. *)
Theorem initial_marking_returns
    (circuit : CircuitOp) (getFieldRefFromValue : Value → FieldRef) :
  ∃ st0, markPublicModules circuit getFieldRefFromValue (S (length circuit))
                           initialPass = Some st0.
Proof. apply markPublicModules_returns. lia. Qed.

(** At the fixpoint of the analysis every leaf of every port of a public
    module is Overdefined, and the module is executable, when no operation
    that has operands has more than one result. *)
Theorem public_module_ports_stay_overdefined
    (circuit : CircuitOp) (getFieldRefFromValue : Value → FieldRef)
    (foldHook : Operation → list (option Attribute) → option (list OpFoldResult))
    (fuel : nat) (st : IMConstPropPass) (block : nat) (module : FModuleLike)
    (port : Value) :
  singleResultUsers (concat (map body circuit)) = true →
  foldHookArity foldHook →
  analyze circuit getFieldRefFromValue foldHook fuel = Some st →
  circuit !! block = Some module →
  isFModule module = true → isPublic module = true →
  port ∈ getArguments block module →
  block ∈ executableBlocks st ∧
  allOverdefined circuit getFieldRefFromValue st port.
Proof.
  intros Hsingle Harity Hrun Hmod Hf Hp Hport.
  destruct (analyze_marksDone circuit getFieldRefFromValue foldHook fuel st
              Hsingle Harity Hrun) as [_ Hpub].
  destruct (Hpub (block, module)) as [Hexec Hports].
  - by apply elem_of_lookup_imap; exists block, module.
  - simpl. by rewrite Hf, Hp.
  - split; [done|]. by apply Hports.
Qed.

Lemma public_module_ports_stay_overdefined_witness :
  ∃ st, analyze [undrivenWireModule] rootFieldRef noFold 10 = Some st ∧
        0%nat ∈ executableBlocks st ∧
        allOverdefined [undrivenWireModule] rootFieldRef st (BlockArgument 0 0).
Proof.
  eexists. split; [vm_compute; reflexivity|].
  apply (public_module_ports_stay_overdefined
           [undrivenWireModule] rootFieldRef noFold 10 _ 0%nat undrivenWireModule).
  - reflexivity.
  - intros op operandConstants foldResults H. inversion H.
  - vm_compute; reflexivity.
  - reflexivity.
  - reflexivity.
  - reflexivity.
  - simpl. apply list_elem_of_singleton. reflexivity.
Defined.

(** At the fixpoint of the analysis every operation of an executable module
    still carries the marks of the scan: it is on record as a user of every
    leaf of its operands; the results of wires, registers, memories, invalid
    values, verbatim expressions and casts, and the results of an instance
    of a module without a body that are not its inputs, are Overdefined; an
    instance of a module with a body has made that module executable, and its
    results are on record at the ports of the module. *)
Theorem executable_operations_stay_marked
    (circuit : CircuitOp) (getFieldRefFromValue : Value → FieldRef)
    (foldHook : Operation → list (option Attribute) → option (list OpFoldResult))
    (fuel : nat) (st : IMConstPropPass) (block : nat) (module : FModuleLike)
    (op : Operation) :
  singleResultUsers (concat (map body circuit)) = true →
  foldHookArity foldHook →
  analyze circuit getFieldRefFromValue foldHook fuel = Some st →
  block ∈ executableBlocks st →
  circuit !! block = Some module →
  op ∈ body module →
  scannedOp circuit getFieldRefFromValue block op st.
Proof.
  intros Hsingle Harity Hrun Hexec Hmod Hop.
  destruct (analyze_marksDone circuit getFieldRefFromValue foldHook fuel st
              Hsingle Harity Hrun) as [Hdone _].
  apply (Hdone block Hexec (not_elem_of_empty block) module Hmod op Hop).
Qed.

Lemma executable_operations_stay_marked_witness :
  ∃ st, analyze [undrivenWireModule] rootFieldRef noFold 10 = Some st ∧
        scannedOp [undrivenWireModule] rootFieldRef 0
                  (plainOp 1 WireOp [] [UInt8]) st.
Proof.
  eexists. split; [vm_compute; reflexivity|].
  apply (executable_operations_stay_marked
           [undrivenWireModule] rootFieldRef noFold 10 _ 0%nat undrivenWireModule).
  - reflexivity.
  - intros op operandConstants foldResults H. inversion H.
  - vm_compute; reflexivity.
  - vm_compute; reflexivity.
  - reflexivity.
  - simpl. apply elem_of_cons. left. reflexivity.
Defined.

(** The rewrite replaces no ground-typed port of a public module: at the
    fixpoint of the analysis [replaceValueIfPossible] leaves the module as
    it is and answers false. *)
Theorem public_module_port_is_not_replaced
    (circuit : CircuitOp) (getFieldRefFromValue : Value → FieldRef)
    (foldHook : Operation → list (option Attribute) → option (list OpFoldResult))
    (fuel : nat) (st : IMConstPropPass) (block : nat) (module : FModuleLike)
    (port : Value) (rw : Rewriter) :
  singleResultUsers (concat (map body circuit)) = true →
  foldHookArity foldHook →
  analyze circuit getFieldRefFromValue foldHook fuel = Some st →
  circuit !! block = Some module →
  isFModule module = true → isPublic module = true →
  port ∈ getArguments block module →
  groundValue circuit port = true →
  replaceValueIfPossible getFieldRefFromValue st module port rw = (rw, false).
Proof.
  intros Hsingle Harity Hrun Hmod Hf Hp Hport Hground.
  destruct (analyze_marksDone circuit getFieldRefFromValue foldHook fuel st
              Hsingle Harity Hrun) as [_ Hpub].
  destruct (Hpub (block, module)) as [_ Hports].
  - by apply elem_of_lookup_imap; exists block, module.
  - simpl. by rewrite Hf, Hp.
  - unfold replaceValueIfPossible.
    by rewrite (allOverdefined_ground circuit getFieldRefFromValue st port Hground
                  (Hports port Hport)).
Qed.

Lemma public_module_port_is_not_replaced_witness :
  ∃ st, analyze [undrivenWireModule] rootFieldRef noFold 10 = Some st ∧
        replaceValueIfPossible rootFieldRef st undrivenWireModule (BlockArgument 0 0)
          (mkRewriter (body undrivenWireModule) 3 None [] 0 0)
        = (mkRewriter (body undrivenWireModule) 3 None [] 0 0, false).
Proof.
  eexists. split; [vm_compute; reflexivity|].
  apply (public_module_port_is_not_replaced
           [undrivenWireModule] rootFieldRef noFold 10 _ 0%nat undrivenWireModule).
  - reflexivity.
  - intros op operandConstants foldResults H. inversion H.
  - vm_compute; reflexivity.
  - reflexivity.
  - reflexivity.
  - reflexivity.
  - simpl. apply list_elem_of_singleton. reflexivity.
  - reflexivity.
Defined.

(** *** The lattice *)

Lemma merged_idem a : mergeIn a a = (a, false).
Proof.
  destruct a as [| |c|]; try done. unfold mergeIn; simpl.
  by rewrite bool_decide_eq_false_2 by tauto.
Qed.

Lemma merged_assoc a b c : merged (merged a b) c = merged a (merged b c).
Proof.
  unfold merged, mergeIn.
  destruct a as [| |x|], b as [| |y|], c as [| |z|]; simpl; try done;
    try (destruct (decide (x = y)) as [->|Hxy]);
    try (destruct (decide (y = z)) as [->|Hyz]);
    try (destruct (decide (x = z)) as [->|Hxz]);
    repeat (first [ rewrite bool_decide_eq_false_2 by tauto
                  | rewrite bool_decide_eq_true_2 by congruence
                  | progress simpl ]);
    congruence.
Qed.

Lemma mergeIn_changed a b : (mergeIn a b).2 = bool_decide (merged a b ≠ a).
Proof.
  unfold merged, mergeIn.
  destruct a as [| |x|], b as [| |y|]; simpl; try done;
    try (destruct (decide (x = y)) as [->|Hxy]);
    repeat (first [ rewrite bool_decide_eq_false_2 by tauto
                  | rewrite bool_decide_eq_true_2 by congruence
                  | progress simpl ]);
    try done.
Qed.

(** [mergeIn] is idempotent and associative, and it answers true exactly
    when it changed the target: merging the drivers of a value gives the
    same state in whatever order and however often they are merged. *)
Theorem mergeIn_is_idempotent_and_associative :
  (∀ a, mergeIn a a = (a, false)) ∧
  (∀ a b c, merged (merged a b) c = merged a (merged b c)) ∧
  (∀ a b, merged (merged a b) b = merged a b) ∧
  (∀ a b, (mergeIn a b).2 = true ↔ merged a b ≠ a).
Proof.
  split_and!.
  - apply merged_idem.
  - apply merged_assoc.
  - intros a b. rewrite merged_assoc. unfold merged at 2. by rewrite merged_idem.
  - intros a b. rewrite mergeIn_changed. apply bool_decide_eq_true.
Qed.

(** *** The rewrite: constants and the shape of the block *)

Lemma insertBefore_head new ops :
  insertBefore (opId <$> head ops) new ops = new :: ops.
Proof.
  destruct ops as [|op rest]; [done|]. simpl.
  by rewrite bool_decide_eq_true_2.
Qed.

(** [getConst] keeps one constant per value and type.  If the pool has no
    entry for the pair, the request creates exactly one constant, as the
    first operation of the block and with the next fresh id, and returns its
    result; if the pool has an entry, the request returns the value on
    record and changes nothing.  Either way the pool holds the returned
    value for the pair afterwards, so that a later request for the same
    value and type returns the same result and creates nothing; the
    insertion point is restored, and the constants of other values and
    types are not affected. *)
Theorem getConst_pools_constants
    (constantValue : IntegerAttr) (type : Type_) (rw : Rewriter) :
  let r := getConst constantValue type rw in
  let pooled := λ rw' : Rewriter,
    List.find (λ e, bool_decide (e.1 = (constantValue, type))) (rwConstPool rw') in
  match pooled rw with
  | None =>
      rwOps r.1 = mkOp (rwNextId rw) (materializeConstant constantValue type) []
                       [type] false true true false Pure :: rwOps rw ∧
      r.2 = OpResult (rwNextId rw) 0 ∧ rwNextId r.1 = S (rwNextId rw) ∧
      numErasedOp r.1 = numErasedOp rw ∧ numFoldedOp r.1 = numFoldedOp rw
  | Some e => r = (rw, e.2)
  end ∧
  pooled r.1 = Some ((constantValue, type), r.2) ∧
  getConst constantValue type r.1 = r ∧
  rwInsertionPoint r.1 = rwInsertionPoint rw ∧
  ∀ otherValue otherType,
    (otherValue, otherType) ≠ (constantValue, type) →
    List.find (λ e, bool_decide (e.1 = (otherValue, otherType))) (rwConstPool r.1)
    = List.find (λ e, bool_decide (e.1 = (otherValue, otherType))) (rwConstPool rw).
Proof.
  unfold getConst. cbv zeta.
  destruct (List.find _ (rwConstPool rw)) as [e|] eqn:Hfind; simpl.
  - rewrite Hfind. split_and!; try done.
    apply find_some in Hfind as [_ He]. apply bool_decide_eq_true in He.
    destruct e as [pair value]. simpl in He. by subst.
  - rewrite bool_decide_eq_true_2 by done. split_and!; try done.
    + by rewrite insertBefore_head.
    + intros otherValue otherType Hne.
      by rewrite bool_decide_eq_false_2 by congruence.
Qed.

Lemma rewrittenFrom_replaceOperand orig op value replacement :
  rewrittenFrom orig op → rewrittenFrom orig (replaceOperand value replacement op).
Proof.
  intros (Hid & Hkind & Hres & Hdt & Han & Hdn & His & Hef & Hlen & Hdest).
  unfold rewrittenFrom, replaceOperand; simpl. split_and!; try done.
  - by rewrite length_imap.
  - intros Hconn. rewrite <- (Hdest Hconn).
    destruct (operands op) as [|dest rest]; [done|]. simpl.
    assert (Hc : isFConnectLike op = true).
    { unfold isFConnectLike in *. by rewrite Hkind. }
    rewrite Hc. simpl. by rewrite andb_false_r.
Qed.

Lemma rewriteShape_replaceIfNotConnect freshId original value replacement rw :
  rewriteShape freshId original rw →
  rewriteShape freshId original (replaceIfNotConnect value replacement rw).
Proof.
  intros [Hnext Hops]. split; [done|]. simpl.
  intros op (op0 & -> & Hin)%list_elem_of_fmap.
  destruct (Hops op0 Hin) as [(orig & Horig & Hfrom) | (Hnil & Hid & Hconst & Hone)].
  - left. exists orig. split; [done|]. by apply rewrittenFrom_replaceOperand.
  - right. unfold replaceOperand; simpl. rewrite Hnil. simpl.
    split_and!; try done; lia.
Qed.

Lemma rewriteShape_eraseOp freshId original id rw :
  rewriteShape freshId original rw → rewriteShape freshId original (eraseOp id rw).
Proof.
  intros [Hnext Hops]. split; [done|]. simpl.
  intros op [_ Hin]%list_elem_of_filter. by apply Hops.
Qed.

Lemma rewriteShape_same freshId original rw rw' :
  rwOps rw' = rwOps rw → rwNextId rw' = rwNextId rw →
  rewriteShape freshId original rw → rewriteShape freshId original rw'.
Proof. intros Ho Hn [Hnext Hops]. split; rewrite ?Ho, ?Hn; done. Qed.

Lemma elem_of_insertBefore ip new ops op :
  op ∈ insertBefore ip new ops → op = new ∨ op ∈ ops.
Proof.
  induction ops as [|o rest IH]; simpl.
  - intros ->%list_elem_of_singleton. by left.
  - case_bool_decide.
    + intros [-> | Hin]%elem_of_cons; [by left|by right].
    + intros [-> | Hin]%elem_of_cons; [right; by apply elem_of_cons; left|].
      destruct (IH Hin) as [-> | Hin']; [by left|]. right. by apply elem_of_cons; right.
Qed.

Lemma rewriteShape_createOp freshId original kind type effect rw :
  match kind with
  | ConstantOp _ | SpecialConstantOp _ | InvalidValueOp => True
  | _ => False
  end →
  rewriteShape freshId original rw →
  rewriteShape freshId original (createOp kind type effect rw).1.
Proof.
  intros Hkind [Hnext Hops]. split; simpl; [lia|].
  intros op [-> | Hin]%elem_of_insertBefore.
  - right. simpl. split_and!; try done; try lia.
    unfold isConstantLike; simpl. by destruct kind.
  - destruct (Hops op Hin) as [H | (Hnil & Hid & Hconst & Hone)]; [by left|].
    right. split_and!; try done; lia.
Qed.

Lemma rewriteShape_getConst freshId original constantValue type rw :
  rewriteShape freshId original rw →
  rewriteShape freshId original (getConst constantValue type rw).1.
Proof.
  intros Hshape. unfold getConst. cbv zeta.
  destruct (List.find _ (rwConstPool rw)); [done|]. simpl.
  pose proof (rewriteShape_createOp freshId original
                (materializeConstant constantValue type) type Pure
                (setInsertionPoint (opId <$> head (rwOps rw)) rw)) as H.
  simpl in H. apply H.
  - unfold materializeConstant. destruct constantValue; [|done].
    destruct type as [[]| |]; try done; by destruct (_ =? _).
  - by apply (rewriteShape_same _ _ rw).
Qed.

Section RewriteShape.

Variable getFieldRefFromValue : Value → FieldRef.
Variable st : IMConstPropPass.
Variable module : FModuleLike.
Variable freshId : nat.
Variable original : list Operation.

Lemma rewriteShape_replaceValueIfPossible value rw :
  rewriteShape freshId original rw →
  rewriteShape freshId original
    (replaceValueIfPossible getFieldRefFromValue st module value rw).1.
Proof.
  intros Hshape. unfold replaceValueIfPossible.
  destruct (latticeValues st !! getFieldRefFromValue value) as [[| |c|]|]; try done.
  - destruct (definingOp rw value) as [reg|]; [|done].
    destruct (opKind reg); try done.
    destruct (resultTypes reg !! 0%nat) as [regType|]; [|done].
    cbv zeta. simpl. apply rewriteShape_replaceIfNotConnect.
    by apply (rewriteShape_createOp freshId original InvalidValueOp regType AllocateOnly).
  - destruct (typeOf module rw value) as [[b| |]|]; try done.
    cbv zeta. simpl. apply rewriteShape_replaceIfNotConnect.
    by apply rewriteShape_getConst.
Qed.

Lemma rewriteShape_rewriteOp id rw :
  rewriteShape freshId original rw →
  rewriteShape freshId original (rewriteOp getFieldRefFromValue st module id rw).
Proof.
  intros Hshape. unfold rewriteOp.
  destruct (findOp (rwOps rw) id) as [op|]; [|done].
  destruct (isFConnectLike op).
  { destruct (operands op) as [|dest rest]; [done|].
    destruct (definingOp rw dest) as [destOp|]; [|done].
    destruct (_ && _); [|done].
    apply (rewriteShape_same _ _ (eraseOp id rw)); [done|done|].
    by apply rewriteShape_eraseOp. }
  destruct (_ && _); [done|].
  destruct (use_empty (rwOps rw) op && _); [by apply rewriteShape_eraseOp|].
  destruct (isConstantLike op); [done|]. cbv zeta.
  set (start := setInsertionPoint (Some id) rw).
  assert (Hstart : rewriteShape freshId original start)
    by (by apply (rewriteShape_same _ _ rw)).
  set (step := λ (acc : Rewriter * bool) (result : Value),
                 ((replaceValueIfPossible getFieldRefFromValue st module result acc.1).1,
                  acc.2 ||
                  (replaceValueIfPossible getFieldRefFromValue st module result acc.1).2)).
  assert (Hfold : ∀ results acc,
            rewriteShape freshId original acc.1 →
            rewriteShape freshId original (foldl step acc results).1).
  { induction results as [|r results IH]; intros acc Hacc; [done|].
    simpl. apply IH. unfold step; simpl.
    by apply rewriteShape_replaceValueIfPossible. }
  specialize (Hfold (getResults op) (start, false) Hstart).
  set (r := foldl step (start, false) (getResults op)) in *.
  assert (Hcounted : rewriteShape freshId original
                       (if r.2 then countFolded r.1 else r.1)).
  { destruct r.2; [|done]. by apply (rewriteShape_same _ _ r.1). }
  destruct (_ && _ && _); [|done].
  apply (rewriteShape_same _ _ (eraseOp id (if r.2 then countFolded r.1 else r.1)));
    [done|done|].
  by apply rewriteShape_eraseOp.
Qed.

Lemma rewriteShape_walk fuel :
  ∀ cur rw rw',
    walk getFieldRefFromValue st module fuel cur rw = Some rw' →
    rewriteShape freshId original rw → rewriteShape freshId original rw'.
Proof.
  induction fuel as [|fuel IH]; intros cur rw rw' Hwalk Hshape; simpl in Hwalk.
  - destruct cur; [done|]. by inversion Hwalk; subst.
  - destruct cur as [id|]; [|by inversion Hwalk; subst].
    apply (IH _ _ _ Hwalk). by apply rewriteShape_rewriteOp.
Qed.

End RewriteShape.

Lemma rewriteShape_initial freshId ops ip pool erased folded :
  rewriteShape freshId ops (mkRewriter ops freshId ip pool erased folded).
Proof.
  split; [done|]. simpl. intros op Hin. left. exists op. split; [done|].
  by unfold rewrittenFrom.
Qed.

(** The rewrite of a module body only replaces operands, erases operations
    and creates constants and invalid values: at every step of the walk, and
    in the block it ends with, each operation is an operation of the
    original body with its kind, results and attributes, the same number of
    operands and, if it is a connect, the same destination, or it is a
    constant or invalid value that the builder created, with a fresh id and
    no operand. *)
Theorem rewrite_keeps_connect_destinations
    (getFieldRefFromValue : Value → FieldRef) (st : IMConstPropPass)
    (block : nat) (module : FModuleLike) (freshId : nat) :
  (∀ id rw,
     rewriteShape freshId (body module) rw →
     rewriteShape freshId (body module)
                  (rewriteOp getFieldRefFromValue st module id rw)) ∧
  (∀ fuel rw,
     rewriteModuleBody getFieldRefFromValue st block module fuel freshId = Some rw →
     rewriteShape freshId (body module) rw).
Proof.
  split.
  - intros id rw. apply rewriteShape_rewriteOp.
  - intros fuel rw. unfold rewriteModuleBody. cbv zeta.
    destruct (negb _).
    { intros [= <-]. apply rewriteShape_initial. }
    intros Hwalk. apply (rewriteShape_walk _ _ _ _ _ _ _ _ _ Hwalk).
    set (start := mkRewriter (body module) freshId (opId <$> head (body module)) [] 0 0).
    assert (Hfold : ∀ args rw0,
              rewriteShape freshId (body module) rw0 →
              rewriteShape freshId (body module)
                (foldl (λ rw port,
                          (replaceValueIfPossible getFieldRefFromValue st module
                                                  port rw).1) rw0 args)).
    { induction args as [|p args IH]; intros rw0 H0; [done|].
      simpl. apply IH. by apply rewriteShape_replaceValueIfPossible. }
    apply Hfold. apply rewriteShape_initial.
Qed.

(** *** The worklist loop: what a visit does *)

Lemma absorbs_merged target source : absorbs target source ↔ merged target source = target.
Proof.
  unfold absorbs, merged. split; [by intros ->|].
  intros H. pose proof (mergeIn_changed target source) as Hc.
  unfold merged in Hc. rewrite H in Hc.
  rewrite bool_decide_eq_false_2 in Hc by tauto.
  destruct (mergeIn target source) as [v b]. simpl in *. by subst.
Qed.

Lemma absorbs_refl a : absorbs a a.
Proof. apply merged_idem. Qed.

Lemma absorbs_trans a b c : absorbs a b → absorbs b c → absorbs a c.
Proof.
  rewrite !absorbs_merged. intros Hab Hbc.
  by rewrite <- Hab, merged_assoc, Hbc.
Qed.

Lemma absorbs_merged_source a x : absorbs (merged a x) x.
Proof.
  apply absorbs_merged. rewrite merged_assoc. unfold merged at 2.
  by rewrite merged_idem.
Qed.

Lemma merged_comm a b : merged a b = merged b a.
Proof. by destruct mergeIn_is_join as (_ & _ & _ & _ & _ & _ & _ & H). Qed.

Lemma absorbs_merged_target a x : absorbs (merged a x) a.
Proof.
  apply absorbs_merged. rewrite (merged_comm a x), merged_assoc.
  unfold merged at 2. by rewrite merged_idem.
Qed.

Lemma absorbs_unknown a : absorbs a Unknown.
Proof. by destruct a. Qed.

Lemma absorbs_overdefined a : absorbs Overdefined a.
Proof. by destruct a. Qed.

Lemma entryOf_setEntry key v push st k :
  entryOf (setEntry key v push st) k = if decide (k = key) then v else entryOf st k.
Proof.
  unfold entryOf. simpl. destruct (decide (k = key)) as [->|Hne].
  - by rewrite lookup_insert_eq.
  - by rewrite lookup_insert_ne.
Qed.

Lemma entryOf_mergeLatticeValue key source st k :
  entryOf (mergeLatticeValue key source st) k
  = if decide (k = key) then merged (entryOf st key) source else entryOf st k.
Proof.
  unfold mergeLatticeValue.
  destruct (isUnknown source) eqn:Hu.
  { destruct source; try done. destruct (decide (k = key)) as [->|]; [|done].
    unfold merged. by destruct (entryOf st key). }
  pose proof (mergeIn_changed (entryOf st key) source) as Hc.
  unfold merged in *. destruct (mergeIn (entryOf st key) source) as [v changed].
  simpl in *. destruct changed.
  - apply entryOf_setEntry.
  - destruct (decide (k = key)) as [->|]; [|done].
    symmetry in Hc. apply bool_decide_eq_false in Hc.
    by destruct (decide (v = entryOf st key)).
Qed.

Lemma visitStep_refl safe st : visitStep safe st st.
Proof. split_and!; try done. intros key _. apply absorbs_refl. Qed.

Lemma visitStep_trans safe st1 st2 st3 :
  visitStep safe st1 st2 → visitStep safe st2 st3 → visitStep safe st1 st3.
Proof.
  intros (Hw & Hc & Hs & He & Hu & Hm) (Hw' & Hc' & Hs' & He' & Hu' & Hm').
  split_and!; try congruence.
  - auto.
  - intros key Hne.
    destruct (decide (entryOf st2 key = entryOf st1 key)) as [Heq|Hne'].
    + apply Hc'. by rewrite Heq.
    + by apply Hw', Hc.
  - intros key Hsafe. by apply (absorbs_trans _ (entryOf st2 key)); auto.
Qed.

Lemma visitStep_weaken (safe safe' : FieldRef → Prop) st st' :
  (∀ key, safe' key → safe key) → visitStep safe st st' → visitStep safe' st st'.
Proof.
  intros Hsub (Hw & Hc & Hs & He & Hu & Hm). split_and!; try done.
  intros key Hsafe. by apply Hs, Hsub.
Qed.

Lemma visitStep_setEntry_pushed safe key v st :
  (safe key → absorbs v (entryOf st key)) →
  visitStep safe st (setEntry key v true st).
Proof.
  intros Hrise. split_and!; try done; simpl.
  - intros k Hk. by apply elem_of_cons; right.
  - intros k. rewrite entryOf_setEntry.
    destruct (decide (k = key)) as [->|]; [|done]. intros _. by apply elem_of_cons; left.
  - intros k Hsafe. rewrite entryOf_setEntry.
    destruct (decide (k = key)) as [->|]; [by apply Hrise|apply absorbs_refl].
Qed.

Lemma visitStep_mergeLatticeValue safe key source st :
  visitStep safe st (mergeLatticeValue key source st).
Proof.
  unfold mergeLatticeValue. destruct (isUnknown source); [apply visitStep_refl|].
  destruct (mergeIn (entryOf st key) source) as [v changed] eqn:Hm. simpl.
  destruct changed; [|apply visitStep_refl].
  apply visitStep_setEntry_pushed. intros _.
  replace v with (merged (entryOf st key) source) by (unfold merged; by rewrite Hm).
  apply absorbs_merged_target.
Qed.

Lemma visitStep_markOverdefinedKey safe key st :
  visitStep safe st (markOverdefinedKey key st).
Proof.
  unfold markOverdefinedKey. destruct (isOverdefined _); [apply visitStep_refl|].
  apply visitStep_setEntry_pushed. intros _. apply absorbs_overdefined.
Qed.

Lemma visitStep_touchEntry safe key st : visitStep safe st (touchEntry key st).
Proof.
  unfold touchEntry. destruct (latticeValues st !! key) eqn:Hk; [apply visitStep_refl|].
  assert (Hsame : ∀ k, entryOf (setEntry key Unknown false st) k = entryOf st k).
  { intros k. rewrite entryOf_setEntry. destruct (decide (k = key)) as [->|]; [|done].
    unfold entryOf. by rewrite Hk. }
  split_and!; try done.
  - intros k. by rewrite Hsame.
  - intros k _. rewrite Hsame. apply absorbs_refl.
Qed.

Lemma visitStep_emitError safe d st : visitStep safe st (emitError d st).
Proof. split_and!; try done. intros key _. apply absorbs_refl. Qed.

Lemma visitStep_setLatticeValue (safe : FieldRef → Prop) key source st :
  ¬ safe key → visitStep safe st (setLatticeValue key source st).
Proof.
  intros Hunsafe. unfold setLatticeValue.
  destruct (isUnknown source); [apply visitStep_refl|].
  case_bool_decide; [|apply visitStep_refl].
  by apply visitStep_setEntry_pushed.
Qed.

Section VisitSteps.

Variable circuit : CircuitOp.
Variable getFieldRefFromValue : Value → FieldRef.
Variable foldHook : Operation → list (option Attribute) → option (list OpFoldResult).
Variable safe : FieldRef → Prop.

Lemma visitStep_visitOperation op st :
  (∀ i, ¬ safe (getFieldRefFromValue (OpResult (opId op) i))) →
  visitStep safe st (visitOperation circuit getFieldRefFromValue foldHook op st).
Proof.
  intros Hop.
  refine (update_visitOperation circuit getFieldRefFromValue foldHook
            (visitStep safe st)
            (λ op, ∀ i, ¬ safe (getFieldRefFromValue (OpResult (opId op) i)))
            _ _ _ _ _ op st Hop (visitStep_refl safe st)).
  - intros key source s H. eapply visitStep_trans; [exact H|].
    apply visitStep_mergeLatticeValue.
  - intros key s H. eapply visitStep_trans; [exact H|].
    apply visitStep_markOverdefinedKey.
  - intros key s H. eapply visitStep_trans; [exact H|]. apply visitStep_touchEntry.
  - intros o i source s Ho H. eapply visitStep_trans; [exact H|].
    apply visitStep_setLatticeValue, Ho.
  - intros d s H. eapply visitStep_trans; [exact H|]. apply visitStep_emitError.
Qed.

Lemma visitStep_visitConnectLike connect st :
  visitStep (λ _, True) st (visitConnectLike circuit getFieldRefFromValue connect st).
Proof.
  refine (update_visitConnectLike circuit getFieldRefFromValue
            (visitStep (λ _, True) st) _ _ _ connect st (visitStep_refl _ st)).
  - intros key source s H. eapply visitStep_trans; [exact H|].
    apply visitStep_mergeLatticeValue.
  - intros key s H. eapply visitStep_trans; [exact H|].
    apply visitStep_markOverdefinedKey.
  - intros d s H. eapply visitStep_trans; [exact H|]. apply visitStep_emitError.
Qed.

Lemma visitStep_propagateElementLattice connect dest src fieldID destType st :
  visitStep (λ _, True) st
    (propagateElementLattice circuit getFieldRefFromValue connect dest src
                             fieldID destType st).
Proof.
  refine (update_propagateElementLattice circuit getFieldRefFromValue
            (visitStep (λ _, True) st) _ _ connect dest src fieldID destType st
            (visitStep_refl _ st)).
  - intros key source s H. eapply visitStep_trans; [exact H|].
    apply visitStep_mergeLatticeValue.
  - intros d s H. eapply visitStep_trans; [exact H|]. apply visitStep_emitError.
Qed.

End VisitSteps.

(** A visit never changes a lattice entry without queueing its key: after
    [visitOperation] every key whose entry differs from before is on the
    worklist, every key that was on the worklist still is, and the
    executable blocks, the users and the instance results on record are as
    before. *)
Theorem visit_queues_every_change
    (circuit : CircuitOp) (getFieldRefFromValue : Value → FieldRef)
    (foldHook : Operation → list (option Attribute) → option (list OpFoldResult))
    (op : Operation) (st : IMConstPropPass) :
  let st' := visitOperation circuit getFieldRefFromValue foldHook op st in
  (∀ key, entryOf st' key ≠ entryOf st key →
          key ∈ changedLatticeValueWorklist st') ∧
  (∀ key, key ∈ changedLatticeValueWorklist st →
          key ∈ changedLatticeValueWorklist st') ∧
  executableBlocks st' = executableBlocks st ∧
  fieldRefToUsers st' = fieldRefToUsers st ∧
  resultPortToInstanceResultMapping st' = resultPortToInstanceResultMapping st.
Proof.
  destruct (visitStep_visitOperation circuit getFieldRefFromValue foldHook
              (λ _, False) op st) as (Hw & Hc & _ & He & Hu & Hm); [intros i H; exact H|].
  by split_and!.
Qed.

(** *** The worklist loop: connects at the fixpoint *)

Lemma getExtendedLatticeValue_entryOf st st' key destType allowTruncation :
  entryOf st' key = entryOf st key →
  getExtendedLatticeValue st' key destType allowTruncation
  = getExtendedLatticeValue st key destType allowTruncation.
Proof.
  unfold entryOf, getExtendedLatticeValue.
  destruct (latticeValues st' !! key) as [v'|], (latticeValues st !! key) as [v|];
    simpl; intros H; subst; try done.
Qed.

Lemma getExtendedLatticeValue_unknown st key destType allowTruncation :
  entryOf st key = Unknown →
  getExtendedLatticeValue st key destType allowTruncation = Unknown.
Proof.
  unfold entryOf, getExtendedLatticeValue.
  destruct (latticeValues st !! key) as [v|]; simpl; [|done]. by intros ->.
Qed.

Lemma connectTargets_mapping circuit st st' dest fieldID :
  resultPortToInstanceResultMapping st' = resultPortToInstanceResultMapping st →
  connectTargets circuit st' dest fieldID = connectTargets circuit st dest fieldID.
Proof. intros H. unfold connectTargets. by rewrite H. Qed.

Lemma absorbs_after_merge key source st :
  absorbs (entryOf (mergeLatticeValue key source st) key) source.
Proof.
  rewrite entryOf_mergeLatticeValue. rewrite decide_True by done.
  apply absorbs_merged_source.
Qed.

Lemma absorbs_visitStep st st' key source :
  visitStep (λ _, True) st st' →
  absorbs (entryOf st key) source → absorbs (entryOf st' key) source.
Proof.
  intros (_ & _ & Hs & _) H. by apply (absorbs_trans _ (entryOf st key)); [apply Hs|].
Qed.

Lemma absorbs_after_merges (f : Value → FieldRef) source results :
  ∀ st r,
    r ∈ results →
    absorbs (entryOf (foldl (λ st u, mergeLatticeValue (f u) source st) st results)
                     (f r)) source.
Proof.
  induction results as [|u results IH]; intros st r Hin;
    [by apply elem_of_nil in Hin|].
  simpl. apply elem_of_cons in Hin as [-> | Hin]; [|by apply IH].
  assert (Hstep : ∀ l s,
            visitStep (λ _, True) s
              (foldl (λ st u, mergeLatticeValue (f u) source st) s l)).
  { induction l as [|a l IHl]; intros s; simpl; [apply visitStep_refl|].
    eapply visitStep_trans; [apply visitStep_mergeLatticeValue|apply IHl]. }
  eapply absorbs_visitStep; [apply Hstep|]. apply absorbs_after_merge.
Qed.

Section Connects.

Variable circuit : CircuitOp.
Variable foldHook : Operation → list (option Attribute) → option (list OpFoldResult).

Lemma propagateElementLattice_absorbs connect dest src fieldID destType st key :
  key ∈ connectTargets circuit st dest fieldID →
  absorbs
    (entryOf (propagateElementLattice circuit rootFieldRef connect dest src
                                      fieldID destType st) key)
    (getExtendedLatticeValue st (src, fieldID) (getPassiveType destType) false).
Proof.
  intros Hkey. unfold propagateElementLattice. cbv zeta.
  change (getSubField (rootFieldRef src) fieldID) with (src, fieldID).
  change (getSubField (rootFieldRef dest) fieldID) with (dest, fieldID).
  change ((rootFieldRef dest).1) with dest.
  set (srcValue := getExtendedLatticeValue st (src, fieldID)
                                           (getPassiveType destType) false).
  destruct (isUnknown srcValue) eqn:Hu.
  { destruct srcValue; try done. apply absorbs_unknown. }
  unfold connectTargets in Hkey. destruct dest as [b n|o n].
  - simpl. apply elem_of_app in Hkey
      as [(r & -> & Hr)%list_elem_of_fmap | ->%list_elem_of_singleton].
    + eapply absorbs_visitStep; [apply visitStep_mergeLatticeValue|].
      by apply (absorbs_after_merges (λ u, (u, fieldID))).
    + apply absorbs_after_merge.
  - destruct (getDefiningOp circuit (OpResult o n)) as [owner|];
      [|by apply elem_of_nil in Hkey].
    destruct (isWireOrReg owner).
    { apply list_elem_of_singleton in Hkey as ->. apply absorbs_after_merge. }
    destruct (opKind owner); try (by apply elem_of_nil in Hkey).
    simpl. apply elem_of_cons in Hkey as [-> | Hkey].
    + destruct (circuit !! moduleName) as [module|];
        [destruct (isFModule module)|]; try apply absorbs_after_merge.
      eapply absorbs_visitStep; [apply visitStep_mergeLatticeValue|].
      apply absorbs_after_merge.
    + destruct (circuit !! moduleName) as [module|];
        [destruct (isFModule module)|]; try (by apply elem_of_nil in Hkey).
      apply list_elem_of_singleton in Hkey as ->. apply absorbs_after_merge.
Qed.

Lemma leaves_establish connect dest src leaves :
  ∀ st leaf,
    leaf ∈ leaves →
    let st' := foldl (λ st leaf,
                        propagateElementLattice circuit rootFieldRef connect dest src
                                                leaf.1 leaf.2 st) st leaves in
    (src, leaf.1) ∈ changedLatticeValueWorklist st' ∨
    connectSatisfied circuit st' dest src leaf.
Proof.
  assert (Hstep : ∀ l s,
            visitStep (λ _, True) s
              (foldl (λ st leaf,
                        propagateElementLattice circuit rootFieldRef connect dest src
                                                leaf.1 leaf.2 st) s l)).
  { induction l as [|a l IHl]; intros s; simpl; [apply visitStep_refl|].
    eapply visitStep_trans; [apply visitStep_propagateElementLattice|apply IHl]. }
  induction leaves as [|a leaves IH]; intros st leaf Hin;
    [by apply elem_of_nil in Hin|].
  simpl. apply elem_of_cons in Hin as [-> | Hin]; [|by apply IH].
  set (st1 := propagateElementLattice circuit rootFieldRef connect dest src
                                      a.1 a.2 st).
  set (st' := foldl _ st1 leaves).
  pose proof (visitStep_propagateElementLattice circuit rootFieldRef connect dest
                src a.1 a.2 st) as H01. fold st1 in H01.
  pose proof (Hstep leaves st1) as H1'. fold st' in H1'.
  pose proof (visitStep_trans _ _ _ _ H01 H1') as H0'.
  destruct (decide (entryOf st' (src, a.1) = entryOf st (src, a.1))) as [Heq|Hne].
  - right. intros key Hkey.
    rewrite (getExtendedLatticeValue_entryOf st st') by done.
    destruct H0' as (_ & _ & _ & _ & _ & Hm).
    rewrite (connectTargets_mapping circuit st st') in Hkey by done.
    eapply absorbs_visitStep; [exact H1'|].
    by apply propagateElementLattice_absorbs.
  - left. destruct H0' as (_ & Hc & _). by apply Hc.
Qed.

Lemma visitConnectLike_establishes connect dest src rest destType leaf st :
  operands connect = dest :: src :: rest →
  getType circuit dest = Some destType →
  leaf ∈ foreachFIRRTLGroundType destType →
  let st' := visitConnectLike circuit rootFieldRef connect st in
  (src, leaf.1) ∈ changedLatticeValueWorklist st' ∨
  connectSatisfied circuit st' dest src leaf.
Proof.
  intros Hops Hty Hleaf. unfold visitConnectLike. rewrite Hops, Hty.
  destruct destType as [b|b|tag]; simpl in Hleaf.
  - by apply leaves_establish.
  - by apply leaves_establish.
  - by apply elem_of_nil in Hleaf.
Qed.

End Connects.

Lemma unique_opId (ops : list Operation) x y :
  NoDup (map opId ops) → x ∈ ops → y ∈ ops → opId x = opId y → x = y.
Proof.
  induction ops as [|a l IH]; intros Hnd Hx Hy Heq; [by apply elem_of_nil in Hx|].
  simpl in Hnd. apply NoDup_cons in Hnd as [Hnot Hnd].
  apply elem_of_cons in Hx as [-> | Hx]; apply elem_of_cons in Hy as [-> | Hy].
  - done.
  - destruct Hnot. rewrite Heq. by apply (list_elem_of_fmap_2 opId).
  - destruct Hnot. rewrite <- Heq. by apply (list_elem_of_fmap_2 opId).
  - by apply IH.
Qed.

Lemma body_allOps (circuit : CircuitOp) block module op :
  circuit !! block = Some module → op ∈ body module →
  op ∈ concat (map body circuit).
Proof.
  intros Hmod Hop. apply list_elem_of_In, in_concat. exists (body module).
  split; [|by apply list_elem_of_In].
  apply in_map. apply list_elem_of_In. by eapply list_elem_of_lookup_2.
Qed.

Section ConnectsAtFixpoint.

Variable circuit : CircuitOp.
Variable foldHook : Operation → list (option Attribute) → option (list OpFoldResult).

Hypothesis wellFormed : instancesWellFormed (concat (map body circuit)) = true.

Lemma instance_result_safe instance moduleName resultNo :
  instance ∈ concat (map body circuit) →
  opKind instance = InstanceOp moduleName →
  safeRoot circuit (OpResult (opId instance) resultNo).
Proof.
  intros Hin Hkind op Hop Hid.
  unfold instancesWellFormed in wellFormed.
  apply andb_true_iff in wellFormed as [Hnd Hinst].
  apply bool_decide_eq_true in Hnd.
  rewrite (unique_opId _ op instance Hnd Hop Hin Hid).
  rewrite forallb_forall in Hinst.
  specialize (Hinst instance (proj1 (list_elem_of_In _ _) Hin)).
  rewrite Hkind in Hinst. by apply bool_decide_eq_true in Hinst.
Qed.

Lemma connectTargets_safe st dest fieldID key :
  mappingFromCircuit circuit st →
  key ∈ connectTargets circuit st dest fieldID →
  key = (dest, fieldID) ∨ safeRoot circuit key.1.
Proof.
  intros Hmap Hkey. unfold connectTargets in Hkey. destruct dest as [b n|o n].
  - apply elem_of_app in Hkey
      as [(r & -> & Hr)%list_elem_of_fmap | ->%list_elem_of_singleton]; [|by left].
    right. destruct (Hmap _ _ Hr) as (instance & moduleName & resultNo & Hin & Hk & ->).
    by apply (instance_result_safe instance moduleName).
  - destruct (getDefiningOp circuit (OpResult o n)) as [owner|];
      [|by apply elem_of_nil in Hkey].
    destruct (isWireOrReg owner).
    { apply list_elem_of_singleton in Hkey as ->. by left. }
    destruct (opKind owner); try (by apply elem_of_nil in Hkey).
    apply elem_of_cons in Hkey as [-> | Hkey]; [by left|].
    destruct (circuit !! moduleName) as [module|];
      [destruct (isFModule module)|]; try (by apply elem_of_nil in Hkey).
    apply list_elem_of_singleton in Hkey as ->. by right.
Qed.

Lemma connectSatisfied_preserved st st' dest src leaf :
  mappingFromCircuit circuit st →
  visitStep (λ key, safeRoot circuit key.1) st st' →
  connectSatisfied circuit st dest src leaf →
  (dest, leaf.1) ∈ changedLatticeValueWorklist st' ∨
  (src, leaf.1) ∈ changedLatticeValueWorklist st' ∨
  connectSatisfied circuit st' dest src leaf.
Proof.
  intros Hmap (Hw & Hc & Hs & He & Hu & Hm) Hsat.
  destruct (decide (entryOf st' (dest, leaf.1) = entryOf st (dest, leaf.1)))
    as [Hdest|Hdest]; [|left; by apply Hc].
  destruct (decide (entryOf st' (src, leaf.1) = entryOf st (src, leaf.1)))
    as [Hsrc|Hsrc]; [|right; left; by apply Hc].
  right. right. intros key Hkey.
  rewrite (connectTargets_mapping circuit st st') in Hkey by done.
  rewrite (getExtendedLatticeValue_entryOf st st') by done.
  destruct (connectTargets_safe st dest leaf.1 key Hmap Hkey) as [-> | Hsafe].
  - rewrite Hdest. by apply Hsat.
  - apply (absorbs_trans _ (entryOf st key)); [by apply Hs|by apply Hsat].
Qed.

Lemma connectSatisfied_same st st' dest src leaf :
  latticeValues st' = latticeValues st →
  resultPortToInstanceResultMapping st' = resultPortToInstanceResultMapping st →
  connectSatisfied circuit st dest src leaf →
  connectSatisfied circuit st' dest src leaf.
Proof.
  intros Hl Hm Hsat key Hkey.
  rewrite (connectTargets_mapping circuit st st') in Hkey by done.
  assert (He : ∀ k, entryOf st' k = entryOf st k)
    by (intros k; unfold entryOf; by rewrite Hl).
  rewrite He, (getExtendedLatticeValue_entryOf st st') by apply He.
  by apply Hsat.
Qed.

Lemma user_unsafe st key user :
  usersFromCircuit circuit st →
  user ∈ default [] (fieldRefToUsers st !! key) →
  ∀ i, ¬ safeRoot circuit (rootFieldRef (OpResult (opId user.2) i)).1.
Proof.
  intros Husers Hin i Hsafe.
  destruct (Husers key user Hin) as (module & Hmod & Hop & Hoperands).
  apply Hoperands. apply (Hsafe user.2); [|done].
  by apply (body_allOps circuit user.1 module).
Qed.

Lemma visits_connectsPending (users : list (nat * Operation)) :
  ∀ st,
    (∀ user, user ∈ users →
       ∀ i, ¬ safeRoot circuit (rootFieldRef (OpResult (opId user.2) i)).1) →
    mappingFromCircuit circuit st →
    connectsPending circuit users st →
    connectsPending circuit []
      (foldl (λ st user,
                if isBlockExecutable st user.1
                then visitOperation circuit rootFieldRef foldHook user.2 st
                else st) st users).
Proof.
  induction users as [|user users IH]; intros st Husers Hmap Hpend; [done|].
  simpl. apply IH.
  - intros u Hu. apply Husers. by apply elem_of_cons; right.
  - unfold isBlockExecutable. case_bool_decide; [|done].
    destruct (visitStep_visitOperation circuit rootFieldRef foldHook
                (λ key, safeRoot circuit key.1) user.2 st)
      as (_ & _ & _ & _ & _ & Hm).
    { apply Husers. by apply elem_of_cons; left. }
    intros port r. rewrite Hm. apply Hmap.
  - unfold isBlockExecutable. case_bool_decide as Hexec.
    + pose proof (visitStep_visitOperation circuit rootFieldRef foldHook
                    (λ key, safeRoot circuit key.1) user.2 st
                    (Husers user (proj2 (elem_of_cons _ _ _) (or_introl eq_refl))))
        as Hstep.
      pose proof Hstep as (Hw & Hc & Hs & He & Hu & Hm).
      intros block module op dest src rest destType leaf
             Hb Hmod Hop Hconn Hops Hcov Hty Hleaf.
      rewrite He in Hb.
      destruct (Hpend block module op dest src rest destType leaf
                      Hb Hmod Hop Hconn Hops Hcov Hty Hleaf)
        as [Hd | [Hsrc | [Huser | Hsat]]].
      * left. by apply Hw.
      * right. left. by apply Hw.
      * apply elem_of_cons in Huser as [<- | Huser];
          [|right; right; by left].
        simpl. unfold visitOperation. rewrite Hconn.
        destruct (visitConnectLike_establishes circuit op dest src rest destType
                    leaf st Hops Hty Hleaf) as [Hq | Hsat].
        -- right. by left.
        -- right. right. by right.
      * destruct (connectSatisfied_preserved st _ dest src leaf Hmap Hstep Hsat)
          as [Hd | [Hsrc | Hsat']].
        -- by left.
        -- right. by left.
        -- right. right. by right.
    + intros block module op dest src rest destType leaf
             Hb Hmod Hop Hconn Hops Hcov Hty Hleaf.
      destruct (Hpend block module op dest src rest destType leaf
                      Hb Hmod Hop Hconn Hops Hcov Hty Hleaf)
        as [Hd | [Hsrc | [Huser | Hsat]]]; [by left|right; by left| |by repeat right].
      apply elem_of_cons in Huser as [<- | Huser]; [done|].
      right. right. by left.
Qed.

Lemma leavesCovered_leaf dest src destType leaf :
  leavesCovered circuit dest src = true →
  getType circuit dest = Some destType →
  leaf ∈ foreachFIRRTLGroundType destType →
  ∃ srcType leaf', getType circuit src = Some srcType ∧
                   leaf' ∈ foreachFIRRTLGroundType srcType ∧ leaf'.1 = leaf.1.
Proof.
  unfold leavesCovered. intros Hcov Hty Hleaf. rewrite Hty in Hcov.
  destruct (getType circuit src) as [srcType|]; [|done].
  rewrite forallb_forall in Hcov.
  specialize (Hcov leaf (proj1 (list_elem_of_In _ _) Hleaf)).
  apply existsb_exists in Hcov as (leaf' & Hin & Heq).
  exists srcType, leaf'. split_and!; [done|by apply list_elem_of_In|].
  by apply Nat.eqb_eq.
Qed.

Lemma turn_connectsPending key rest st :
  usersFromCircuit circuit st → mappingFromCircuit circuit st →
  usersRecorded circuit rootFieldRef st →
  changedLatticeValueWorklist st = key :: rest →
  connectsPending circuit [] st →
  connectsPending circuit []
    (visitUsers circuit rootFieldRef foldHook key (setWorklist rest st)).
Proof.
  intros Husers Hmap Hrec Hwl Hpend. unfold visitUsers.
  change (fieldRefToUsers (setWorklist rest st)) with (fieldRefToUsers st).
  apply visits_connectsPending.
  - intros user Hin. by apply (user_unsafe st key).
  - done.
  - intros block module op dest src rest' destType leaf
           Hb Hmod Hop Hconn Hops Hcov Hty Hleaf.
    change (changedLatticeValueWorklist (setWorklist rest st)) with rest.
    destruct (Hpend block module op dest src rest' destType leaf
                    Hb Hmod Hop Hconn Hops Hcov Hty Hleaf)
      as [Hd | [Hsrc | [Huser | Hsat]]].
    + rewrite Hwl in Hd. apply elem_of_cons in Hd as [<- | Hd]; [|by left].
      right. right. left.
      apply (Hrec block module op dest destType leaf); try done.
      rewrite Hops. by apply elem_of_cons; left.
    + rewrite Hwl in Hsrc. apply elem_of_cons in Hsrc as [<- | Hsrc];
        [|right; by left].
      right. right. left.
      destruct (leavesCovered_leaf dest src destType leaf Hcov Hty Hleaf)
        as (srcType & leaf' & Hsty & Hleaf' & Heq).
      rewrite <- Heq.
      apply (Hrec block module op src srcType leaf'); try done.
      rewrite Hops. apply elem_of_cons; right. by apply elem_of_cons; left.
    + by apply elem_of_nil in Huser.
    + right. right. right. by apply (connectSatisfied_same st).
Qed.

Lemma solve_connectsPending fuel :
  ∀ st st',
    usersFromCircuit circuit st → mappingFromCircuit circuit st →
    usersRecorded circuit rootFieldRef st →
    connectsPending circuit [] st →
    solve circuit rootFieldRef foldHook fuel st = Some st' →
    connectsPending circuit [] st' ∧ changedLatticeValueWorklist st' = [].
Proof.
  induction fuel as [|fuel IH]; intros st st' Husers Hmap Hrec Hpend Hsolve;
    simpl in Hsolve.
  - destruct (changedLatticeValueWorklist st) eqn:Hwl; [|done].
    by inversion Hsolve; subst.
  - destruct (changedLatticeValueWorklist st) as [|key rest] eqn:Hwl;
      [by inversion Hsolve; subst|].
    apply (IH _ _) in Hsolve; [done| | | |].
    + intros k user. rewrite fieldRefToUsers_visitUsers. apply Husers.
    + intros port r. rewrite mapping_visitUsers. apply Hmap.
    + intros block module op operand t leaf.
      rewrite executableBlocks_visitUsers, fieldRefToUsers_visitUsers. apply Hrec.
    + by apply turn_connectsPending.
Qed.

End ConnectsAtFixpoint.

Lemma seededQueued_visitStep safe st st' :
  visitStep safe st st' → seededQueued st → seededQueued st'.
Proof.
  intros (Hw & Hc & _) Hq key Hne.
  destruct (decide (entryOf st' key = entryOf st key)) as [Heq|Hchanged].
  - apply Hw, Hq. by rewrite <- Heq.
  - by apply Hc.
Qed.

Section ConnectsSeeded.

Variable circuit : CircuitOp.
Variable getFieldRefFromValue : Value → FieldRef.

Lemma seededQueued_seeded fuel st0 :
  markPublicModules circuit getFieldRefFromValue fuel initialPass = Some st0 →
  seededQueued st0.
Proof.
  intros Hseed.
  refine (scan_markPublicModules circuit getFieldRefFromValue seededQueued
            _ _ _ _ _ fuel _ _ Hseed _).
  - done.
  - intros key s. apply (seededQueued_visitStep (λ _, True)).
    apply visitStep_markOverdefinedKey.
  - intros key source s. apply (seededQueued_visitStep (λ _, True)).
    apply visitStep_mergeLatticeValue.
  - done.
  - done.
  - intros key. unfold entryOf. simpl. by rewrite lookup_empty.
Qed.

Lemma mappingFromCircuit_same st st' :
  resultPortToInstanceResultMapping st' = resultPortToInstanceResultMapping st →
  mappingFromCircuit circuit st → mappingFromCircuit circuit st'.
Proof. intros Hm H port r. rewrite Hm. apply H. Qed.

Lemma mappingFromCircuit_markOverdefinedKey key st :
  mappingFromCircuit circuit st → mappingFromCircuit circuit (markOverdefinedKey key st).
Proof.
  apply mappingFromCircuit_same. unfold markOverdefinedKey.
  by destruct (isOverdefined _).
Qed.

Lemma mappingFromCircuit_mergeLatticeValue key source st :
  mappingFromCircuit circuit st →
  mappingFromCircuit circuit (mergeLatticeValue key source st).
Proof.
  apply mappingFromCircuit_same. unfold mergeLatticeValue.
  destruct (isUnknown source); [done|]. by destruct (mergeIn _ _) as [? []].
Qed.

Lemma mappingFromCircuit_forwardInstanceResults instance moduleName fModule st :
  instance ∈ concat (map body circuit) →
  opKind instance = InstanceOp moduleName →
  mappingFromCircuit circuit st →
  mappingFromCircuit circuit
    (forwardInstanceResults circuit getFieldRefFromValue instance moduleName
                            fModule st).
Proof.
  intros Hin Hkind. unfold forwardInstanceResults.
  apply (scan_foldl (mappingFromCircuit circuit)).
  intros s resultNo Hs.
  destruct (getPortDirection fModule resultNo) as [[]|]; try done;
    (apply (scan_mergeLatticeValueValues circuit getFieldRefFromValue
              (mappingFromCircuit circuit));
     [intros key source s'; apply mappingFromCircuit_mergeLatticeValue|];
     intros port r; simpl;
     destruct (decide (BlockArgument moduleName resultNo = port)) as [<-|Hne];
     [rewrite lookup_insert_eq; simpl;
      intros [Hr | ->%list_elem_of_singleton]%elem_of_app;
      [by apply (Hs _ _ Hr)|by exists instance, moduleName, resultNo]
     |rewrite lookup_insert_ne by done; apply Hs]).
Qed.

Lemma mappingFromCircuit_scan fuel :
  ∀ block st st',
    markBlockExecutable circuit getFieldRefFromValue fuel block st = Some st' →
    mappingFromCircuit circuit st → mappingFromCircuit circuit st'.
Proof.
  induction fuel as [|fuel IH]; intros block st st' Hrun HP; simpl in Hrun; [done|].
  destruct (isBlockExecutable st block); [by inversion Hrun; subst|].
  destruct (circuit !! block) as [module|] eqn:Hmod;
    [|by inversion Hrun; subst].
  assert (Hover : ∀ value s, mappingFromCircuit circuit s →
            mappingFromCircuit circuit
              (markOverdefined circuit getFieldRefFromValue value s)).
  { intros value s. apply scan_markOverdefined.
    intros key s'. apply mappingFromCircuit_markOverdefinedKey. }
  refine (scan_foldlOpt (mappingFromCircuit circuit) _ (λ op, op ∈ body module)
            _ _ _ _ _ Hrun _); [|done|].
  - intros st0 op st1 Hop Hstep HP0.
    assert (Hmark : ∀ st2, mappingFromCircuit circuit st2 →
              mappingFromCircuit circuit
                (recordUsers circuit getFieldRefFromValue block op st2)).
    { intros st2. by apply (scan_recordUsers circuit getFieldRefFromValue
                              (mappingFromCircuit circuit)) with (module := module). }
    destruct (isWireOrReg op).
    { inversion Hstep; subst. apply Hmark, scan_markWireOrRegOp; [|done].
      intros key s'. apply mappingFromCircuit_markOverdefinedKey. }
    destruct (opKind op) eqn:Hkind; simpl in Hstep;
      try (inversion Hstep; subst; apply Hmark; done).
    + inversion Hstep; subst. apply Hmark. unfold markMemOp.
      apply (scan_foldl (mappingFromCircuit circuit)); [|done].
      intros s v. apply Hover.
    + inversion Hstep; subst. by apply Hmark, mappingFromCircuit_mergeLatticeValue.
    + inversion Hstep; subst. by apply Hmark, mappingFromCircuit_mergeLatticeValue.
    + inversion Hstep; subst. by apply Hmark, Hover.
    + destruct (circuit !! moduleName) as [referenced|];
        [|inversion Hstep; subst; by apply Hmark].
      destruct (isFModule referenced).
      * destruct (markBlockExecutable circuit getFieldRefFromValue fuel moduleName st0)
          as [st2|] eqn:E; [|done].
        simpl in Hstep. inversion Hstep; subst.
        apply Hmark, mappingFromCircuit_forwardInstanceResults; [|done|].
        -- by apply (body_allOps circuit block module).
        -- by apply (IH _ _ _ E).
      * inversion Hstep; subst. apply Hmark, scan_markExtInstanceResults; [|done].
        intros key s'. apply mappingFromCircuit_markOverdefinedKey.
    + inversion Hstep; subst. apply Hmark.
      apply (scan_foldl (mappingFromCircuit circuit)); [|done].
      intros s v. apply Hover.
    + inversion Hstep; subst. by apply Hmark, Hover.
    + inversion Hstep; subst. by apply Hmark, Hover.
  - apply (scan_foldl (mappingFromCircuit circuit)); [|done].
    intros st0 ba HP0. destruct (hasDontTouchValue circuit ba); [|done].
    by apply Hover.
Qed.

Lemma mappingFromCircuit_seeded fuel st0 :
  markPublicModules circuit getFieldRefFromValue fuel initialPass = Some st0 →
  mappingFromCircuit circuit st0.
Proof.
  unfold markPublicModules. intros Hrun.
  refine (scan_foldlOpt (mappingFromCircuit circuit) _ (λ _, True) _ _ _ _ _ Hrun _);
    [|done|].
  - intros st bm st1 _ Hstep HP. destruct bm as [block module]. simpl in Hstep.
    destruct (_ && _); [|by inversion Hstep; subst].
    destruct (markBlockExecutable circuit getFieldRefFromValue fuel block st)
      as [st2|] eqn:E; [|done].
    simpl in Hstep. inversion Hstep; subst.
    apply (scan_foldl (mappingFromCircuit circuit)).
    + intros s port. apply scan_markOverdefined.
      intros key s'. apply mappingFromCircuit_markOverdefinedKey.
    + by apply (mappingFromCircuit_scan _ _ _ _ E).
  - intros port r. simpl. rewrite lookup_empty. simpl.
    intros Hin. by apply elem_of_nil in Hin.
Qed.

Lemma usersRecorded_seeded fuel st0 :
  markPublicModules circuit getFieldRefFromValue fuel initialPass = Some st0 →
  usersRecorded circuit getFieldRefFromValue st0.
Proof.
  intros Hseed.
  destruct (markPublicModules_marksDone circuit getFieldRefFromValue fuel st0 Hseed)
    as [Hdone _].
  intros block module op operand t leaf Hb Hmod Hop Hoperand Hty Hleaf.
  destruct (Hdone block Hb (not_elem_of_empty block) module Hmod op Hop) as [Hu _].
  by apply (Hu operand t).
Qed.

End ConnectsSeeded.

Lemma connectsPending_seeded circuit st0 :
  seededQueued st0 → connectsPending circuit [] st0.
Proof.
  intros Hq block module op dest src rest destType leaf
         Hb Hmod Hop Hconn Hops Hcov Hty Hleaf.
  destruct (decide (entryOf st0 (src, leaf.1) = Unknown)) as [Hu|Hne].
  - right. right. right. intros key Hkey.
    rewrite getExtendedLatticeValue_unknown by done. apply absorbs_unknown.
  - right. left. by apply Hq.
Qed.

(** On a circuit with unique operation ids whose instances have no operand
    and whose values are root values, every connect of an executable block
    is satisfied when the worklist loop ends: for every leaf of the
    destination, every entry the connect drives (the destination, the
    results on record for a port at the instances of its module, the port
    of the module behind an instance result) absorbs the value of the
    source, extended to the type of the leaf.  The worklist is empty then. *)
Theorem connects_are_satisfied_at_the_fixpoint
    (circuit : CircuitOp)
    (foldHook : Operation → list (option Attribute) → option (list OpFoldResult))
    (fuel : nat) (st : IMConstPropPass) (block : nat) (module : FModuleLike)
    (op : Operation) (dest src : Value) (rest : list Value) (destType : Type_)
    (leaf : nat * FIRRTLBaseType) (key : FieldRef) :
  instancesWellFormed (concat (map body circuit)) = true →
  analyze circuit rootFieldRef foldHook fuel = Some st →
  block ∈ executableBlocks st → circuit !! block = Some module →
  op ∈ body module → isFConnectLike op = true →
  operands op = dest :: src :: rest →
  leavesCovered circuit dest src = true →
  getType circuit dest = Some destType →
  leaf ∈ foreachFIRRTLGroundType destType →
  key ∈ connectTargets circuit st dest leaf.1 →
  changedLatticeValueWorklist st = [] ∧
  absorbs (entryOf st key)
          (getExtendedLatticeValue st (src, leaf.1) (getPassiveType leaf.2) false).
Proof.
  intros Hwf Hrun Hb Hmod Hop Hconn Hops Hcov Hty Hleaf Hkey.
  unfold analyze in Hrun.
  destruct (markPublicModules circuit rootFieldRef fuel initialPass)
    as [st0|] eqn:Hseed; [|done].
  cbn [mbind option_bind] in Hrun.
  destruct (solve_connectsPending circuit foldHook Hwf fuel st0 st) as [Hpend Hwl];
    try done.
  - by apply (usersFromCircuit_seeded circuit rootFieldRef fuel).
  - by apply (mappingFromCircuit_seeded circuit rootFieldRef fuel).
  - by apply (usersRecorded_seeded circuit rootFieldRef fuel).
  - apply connectsPending_seeded.
    by apply (seededQueued_seeded circuit rootFieldRef fuel).
  - split; [done|].
    destruct (Hpend block module op dest src rest destType leaf
                    Hb Hmod Hop Hconn Hops Hcov Hty Hleaf)
      as [Hd | [Hsrc | [Huser | Hsat]]].
    + rewrite Hwl in Hd. by apply elem_of_nil in Hd.
    + rewrite Hwl in Hsrc. by apply elem_of_nil in Hsrc.
    + by apply elem_of_nil in Huser.
    + by apply Hsat.
Qed.

Lemma connects_are_satisfied_at_the_fixpoint_witness :
  ∃ st, analyze (twoSitesCircuit (literal 3) (literal 4)) rootFieldRef noFold 20
          = Some st ∧
        changedLatticeValueWorklist st = [] ∧
        absorbs (entryOf st (BlockArgument 1 0, 0%nat))
                (getExtendedLatticeValue st (OpResult 1 0, 0%nat)
                                         (getPassiveType (UIntType 8)) false).
Proof.
  eexists. split; [vm_compute; reflexivity|].
  apply (connects_are_satisfied_at_the_fixpoint
           (twoSitesCircuit (literal 3) (literal 4)) noFold 20 _ 0%nat
           (twoSitesTop (literal 3) (literal 4))
           (plainOp 5 StrictConnectOp [OpResult 3 0; OpResult 1 0] [])
           (OpResult 3 0) (OpResult 1 0) [] UInt8 (0%nat, UIntType 8)
           (BlockArgument 1 0, 0%nat)).
  - vm_compute; reflexivity.
  - vm_compute; reflexivity.
  - vm_compute; reflexivity.
  - reflexivity.
  - simpl. do 4 (apply elem_of_cons; right). apply elem_of_cons; left. reflexivity.
  - reflexivity.
  - reflexivity.
  - vm_compute; reflexivity.
  - reflexivity.
  - simpl. apply list_elem_of_singleton. reflexivity.
  - vm_compute. apply elem_of_cons; right. apply list_elem_of_singleton. reflexivity.
Defined.

Lemma rewrite_keeps_connect_destinations_witness :
  ∃ st,
    analyze (twoSitesCircuit (literal 3) (literal 3)) rootFieldRef noFold 20
    = Some st ∧
    ∃ rw,
      rewriteModuleBody rootFieldRef st 0 (twoSitesTop (literal 3) (literal 3)) 10 8
      = Some rw ∧
      rewriteShape 8 (body (twoSitesTop (literal 3) (literal 3))) rw.
Proof.
  eexists. split; [vm_compute; reflexivity|].
  match goal with
  | |- ∃ rw, rewriteModuleBody _ ?st _ _ _ _ = Some rw ∧ _ => pose (fixpoint := st)
  end.
  eexists. split; [vm_compute; reflexivity|].
  apply (proj2 (rewrite_keeps_connect_destinations rootFieldRef fixpoint 0%nat
                  (twoSitesTop (literal 3) (literal 3)) 8%nat) 10%nat).
  vm_compute; reflexivity.
Defined.

(** *** The worklist loop, turn by turn *)

Lemma solve_solveTurn circuit getFieldRefFromValue foldHook fuel st :
  changedLatticeValueWorklist st ≠ [] →
  solve circuit getFieldRefFromValue foldHook (S fuel) st
  = solve circuit getFieldRefFromValue foldHook fuel
          (solveTurn circuit getFieldRefFromValue foldHook st).
Proof.
  intros Hwl. unfold solveTurn. simpl.
  by destruct (changedLatticeValueWorklist st).
Qed.

(** A state that the loop reaches after some turns leads to the same result
    as the state the loop started from. *)
Lemma solve_after_turns circuit getFieldRefFromValue foldHook (turns : nat) :
  ∀ fuel st st',
    solve circuit getFieldRefFromValue foldHook fuel
          (Nat.iter turns (solveTurn circuit getFieldRefFromValue foldHook) st)
    = Some st' →
    solve circuit getFieldRefFromValue foldHook (turns + fuel) st = Some st'.
Proof.
  induction turns as [|turns IH]; intros fuel st st' Hrun; [done|].
  rewrite Nat.iter_succ_r in Hrun.
  destruct (changedLatticeValueWorklist st) as [|key rest] eqn:Hwl.
  - assert (Hsame : solveTurn circuit getFieldRefFromValue foldHook st = st)
      by (unfold solveTurn; by rewrite Hwl).
    rewrite Hsame in Hrun. apply IH in Hrun.
    destruct (turns + fuel)%nat; simpl in *; by rewrite Hwl in *.
  - apply IH in Hrun. replace (S turns + fuel)%nat with (S (turns + fuel)) by lia.
    rewrite solve_solveTurn; [done|]. by rewrite Hwl.
Qed.


(** *** The initial scans: constants *)

Lemma scanRises_refl st : scanRises st st.
Proof. split; [done|]. intros key. apply absorbs_refl. Qed.

Lemma scanRises_trans st1 st2 st3 :
  scanRises st1 st2 → scanRises st2 st3 → scanRises st1 st3.
Proof.
  intros [He Hr] [He' Hr']. split; [by rewrite He'|].
  intros key. by apply (absorbs_trans _ (entryOf st2 key)).
Qed.

Lemma scanRises_visitStep st st' : visitStep (λ _, True) st st' → scanRises st st'.
Proof. intros (_ & _ & Hs & He & _ & _). split; [done|]. intros key. by apply Hs. Qed.

Lemma scanRises_same st st' :
  executableBlocks st' = executableBlocks st →
  latticeValues st' = latticeValues st → scanRises st st'.
Proof.
  intros He Hl. split; [done|]. intros key. unfold entryOf. rewrite Hl.
  apply absorbs_refl.
Qed.

Section ConstantsSeeded.

Variable circuit : CircuitOp.
Variable getFieldRefFromValue : Value → FieldRef.

(** What every update of the scans does to a state that rose from [st]. *)
Lemma rises_markOverdefinedKey st key m :
  scanRises st m → scanRises st (markOverdefinedKey key m).
Proof.
  intros H. apply (scanRises_trans _ m); [done|].
  apply scanRises_visitStep, visitStep_markOverdefinedKey.
Qed.

Lemma rises_mergeLatticeValue st key source m :
  scanRises st m → scanRises st (mergeLatticeValue key source m).
Proof.
  intros H. apply (scanRises_trans _ m); [done|].
  apply scanRises_visitStep, visitStep_mergeLatticeValue.
Qed.

Lemma rises_addUser st key user m :
  scanRises st m → scanRises st (addUser key user m).
Proof. intros H. apply (scanRises_trans _ m); [done|]. by apply scanRises_same. Qed.

Lemma rises_addInstanceResult st port r m :
  scanRises st m → scanRises st (addInstanceResult port r m).
Proof. intros H. apply (scanRises_trans _ m); [done|]. by apply scanRises_same. Qed.

Lemma rises_markOverdefined st value m :
  scanRises st m →
  scanRises st (markOverdefined circuit getFieldRefFromValue value m).
Proof.
  apply (scan_markOverdefined circuit getFieldRefFromValue (scanRises st)).
  intros key s. apply rises_markOverdefinedKey.
Qed.

Lemma rises_markAll st values m :
  scanRises st m →
  scanRises st (foldl (λ st value,
                         markOverdefined circuit getFieldRefFromValue value st)
                      m values).
Proof.
  apply (scan_foldl (scanRises st)). intros s value. apply rises_markOverdefined.
Qed.

Lemma rises_recordUsers st block op m :
  scanRises st m →
  scanRises st (recordUsers circuit getFieldRefFromValue block op m).
Proof.
  unfold recordUsers. apply (scan_foldl (scanRises st)). intros s operand Hs.
  destruct (getType circuit operand) as [[t|t|]|]; try done;
    (apply (scan_foldl (scanRises st)); [|done]);
    intros s' leaf; apply rises_addUser.
Qed.

(** The entries only rise in a scan. *)
Lemma markBlockExecutable_rises fuel block st st' key :
  markBlockExecutable circuit getFieldRefFromValue fuel block st = Some st' →
  absorbs (entryOf st' key) (entryOf st key).
Proof.
  intros Hrun.
  refine (scan_markBlockExecutable circuit getFieldRefFromValue
            (λ m, absorbs (entryOf m key) (entryOf st key))
            _ _ _ _ _ fuel block st st' Hrun (absorbs_refl _)).
  - by intros b m.
  - intros k m Hm. eapply absorbs_trans; [|exact Hm].
    by apply (scanRises_visitStep m), visitStep_markOverdefinedKey.
  - intros k source m Hm. eapply absorbs_trans; [|exact Hm].
    by apply (scanRises_visitStep m), visitStep_mergeLatticeValue.
  - by intros k b module op m _ _ _.
  - by intros port r m.
Qed.

(** One operation of the scan: its constant is seeded; the entries rise,
    and the executable blocks are the same but for a nested scan. *)
Lemma scanStep_rises fuel block op st st' :
  scanStep circuit getFieldRefFromValue fuel block st op = Some st' →
  constantSeeded getFieldRefFromValue op st' ∧
  (scanRises st st' ∨
   ∃ moduleName st1,
     markBlockExecutable circuit getFieldRefFromValue fuel moduleName st = Some st1 ∧
     scanRises st1 st').
Proof.
  unfold scanStep. cbv zeta. intros Hstep.
  assert (Hplain : ∀ m,
            (∀ value, opKind op ≠ ConstantOp value) →
            scanRises st m →
            st' = recordUsers circuit getFieldRefFromValue block op m →
            constantSeeded getFieldRefFromValue op st' ∧
            (scanRises st st' ∨
             ∃ moduleName st1,
               markBlockExecutable circuit getFieldRefFromValue fuel moduleName st
               = Some st1 ∧ scanRises st1 st')).
  { intros m Hkind Hm ->. split.
    - intros value Hv. by destruct (Hkind value).
    - left. by apply rises_recordUsers. }
  destruct (isWireOrReg op) eqn:Hwire.
  { inversion Hstep; subst. eapply Hplain; [| |reflexivity].
    - intros value Hv. unfold isWireOrReg in Hwire. by rewrite Hv in Hwire.
    - apply (scan_markWireOrRegOp circuit getFieldRefFromValue (scanRises st));
        [|apply scanRises_refl].
      intros key s. apply rises_markOverdefinedKey. }
  destruct (opKind op) eqn:Hkind; simpl in Hstep;
    try (inversion Hstep; subst;
         by (eapply Hplain; [done|apply scanRises_refl|reflexivity])).
  - (* MemOp *)
    inversion Hstep; subst. eapply Hplain; [done| |reflexivity].
    unfold markMemOp. apply rises_markAll, scanRises_refl.
  - (* ConstantOp *)
    inversion Hstep; subst. split.
    + intros v Hv. rewrite Hkind in Hv. injection Hv as <-.
      destruct (rises_recordUsers
                  (markConstantOp getFieldRefFromValue op value st) block op
                  (markConstantOp getFieldRefFromValue op value st)
                  (scanRises_refl _)) as [_ Hr].
      eapply absorbs_trans; [apply Hr|].
      unfold markConstantOp. apply absorbs_after_merge.
    + left. apply rises_recordUsers. unfold markConstantOp.
      apply rises_mergeLatticeValue, scanRises_refl.
  - (* SpecialConstantOp *)
    inversion Hstep; subst. eapply Hplain; [done| |reflexivity].
    unfold markSpecialConstantOp. apply rises_mergeLatticeValue, scanRises_refl.
  - (* InvalidValueOp *)
    inversion Hstep; subst. eapply Hplain; [done| |reflexivity].
    unfold markInvalidValueOp. apply rises_markOverdefined, scanRises_refl.
  - (* InstanceOp *)
    destruct (circuit !! moduleName) as [referenced|] eqn:Href;
      [|inversion Hstep; subst;
        by (eapply Hplain; [done|apply scanRises_refl|reflexivity])].
    destruct (isFModule referenced).
    + destruct (markBlockExecutable circuit getFieldRefFromValue fuel moduleName st)
        as [st1|] eqn:E; [|done].
      simpl in Hstep. inversion Hstep; subst. split; [intros value Hv; congruence|].
      right. exists moduleName, st1. split; [done|].
      apply rises_recordUsers.
      apply (scan_forwardInstanceResults circuit getFieldRefFromValue (scanRises st1));
        [| |apply scanRises_refl].
      * intros key source s. apply rises_mergeLatticeValue.
      * intros port r s. apply rises_addInstanceResult.
    + inversion Hstep; subst. eapply Hplain; [done| |reflexivity].
      apply (scan_markExtInstanceResults circuit getFieldRefFromValue (scanRises st));
        [|apply scanRises_refl].
      intros key s. apply rises_markOverdefinedKey.
  - (* UnrealizedConversionCastOp *)
    inversion Hstep; subst. eapply Hplain; [done| |reflexivity].
    apply rises_markAll, scanRises_refl.
  - (* VerbatimExprOp *)
    inversion Hstep; subst. eapply Hplain; [done| |reflexivity].
    apply rises_markOverdefined, scanRises_refl.
  - (* VerbatimWireOp *)
    inversion Hstep; subst. eapply Hplain; [done| |reflexivity].
    apply rises_markOverdefined, scanRises_refl.
Qed.

Lemma constantSeeded_rises op st st' :
  (∀ key, absorbs (entryOf st' key) (entryOf st key)) →
  constantSeeded getFieldRefFromValue op st →
  constantSeeded getFieldRefFromValue op st'.
Proof.
  intros Hr Hs value Hv. eapply absorbs_trans; [apply Hr|by apply Hs].
Qed.

Lemma constantsSeeded_rises X st st' :
  scanRises st st' →
  constantsSeeded circuit getFieldRefFromValue X st →
  constantsSeeded circuit getFieldRefFromValue X st'.
Proof.
  intros [He Hr] Hs block module op Hb HX Hmod Hop. rewrite He in Hb.
  apply (constantSeeded_rises op st); [done|]. by apply (Hs block module).
Qed.

Lemma markBlockExecutable_constantsSeeded fuel :
  ∀ X block st st',
    markBlockExecutable circuit getFieldRefFromValue fuel block st = Some st' →
    constantsSeeded circuit getFieldRefFromValue X st →
    constantsSeeded circuit getFieldRefFromValue X st'.
Proof.
  induction fuel as [|fuel IH]; intros X block st st' Hrun Hdone; [done|].
  simpl in Hrun. unfold isBlockExecutable in Hrun. case_bool_decide as Hexec.
  { by inversion Hrun; subst. }
  destruct (circuit !! block) as [module|] eqn:Hmod.
  2: { inversion Hrun; subst. intros b m op Hb HX Hm Hop. simpl in Hb.
       apply elem_of_union in Hb as [->%elem_of_singleton | Hb]; [congruence|].
       by apply (Hdone b m op). }
  set (st1 := insertExecutable block st) in *.
  set (st3 := foldl (λ st ba,
                       if hasDontTouchValue circuit ba
                       then markOverdefined circuit getFieldRefFromValue ba st
                       else st) st1 (getArguments block module)) in *.
  assert (H13 : scanRises st1 st3).
  { apply (scan_foldl (scanRises st1)); [|apply scanRises_refl].
    intros s ba Hs. destruct (hasDontTouchValue circuit ba); [|done].
    by apply rises_markOverdefined. }
  change (foldlOpt (scanStep circuit getFieldRefFromValue fuel block) st3 (body module)
          = Some st') in Hrun.
  pose (I := λ (done : list Operation) (s : IMConstPropPass),
               constantsSeeded circuit getFieldRefFromValue (X ∪ {[block]}) s ∧
               ∀ op, op ∈ done → constantSeeded getFieldRefFromValue op s).
  assert (Hloop : I ([] ++ body module) st').
  { refine (scanLoop_prefix _ I (body module) _ [] st3 st' _ Hrun).
    - intros done op s s' (Hd & Hprefix) Hstep.
      destruct (scanStep_rises fuel block op s s' Hstep)
        as [Hop [Hr | (moduleName & s1 & E & Hr)]].
      + split; [by apply (constantsSeeded_rises _ s)|].
        intros op' [Hin | ->%list_elem_of_singleton]%elem_of_app; [|done].
        apply (constantSeeded_rises op' s); [apply Hr|by apply Hprefix].
      + split.
        * apply (constantsSeeded_rises _ s1); [done|]. by apply (IH _ _ _ _ E).
        * intros op' [Hin | ->%list_elem_of_singleton]%elem_of_app; [|done].
          apply (constantSeeded_rises op' s1); [apply Hr|].
          apply (constantSeeded_rises op' s); [|by apply Hprefix].
          intros key. by apply (markBlockExecutable_rises fuel moduleName).
    - split; [|intros op Hop; by apply elem_of_nil in Hop].
      intros b m op Hb HX Hm Hop. destruct H13 as [He13 Hr13].
      rewrite He13 in Hb. simpl in Hb.
      apply not_elem_of_union in HX as [HX Hne].
      apply elem_of_union in Hb as [Hb | Hb]; [done|].
      apply (constantSeeded_rises op st1); [done|]. by apply (Hdone b m op). }
  destruct Hloop as (Hd & Hops). simpl in Hops.
  intros b m op Hb HX Hm Hop. destruct (decide (b = block)) as [->|Hne].
  - rewrite Hmod in Hm. inversion Hm; subst m. by apply Hops.
  - apply (Hd b m op); try done. apply not_elem_of_union. split; [done|].
    by intros ->%elem_of_singleton.
Qed.

Lemma constantsSeeded_seeded fuel st0 :
  markPublicModules circuit getFieldRefFromValue fuel initialPass = Some st0 →
  constantsSeeded circuit getFieldRefFromValue ∅ st0.
Proof.
  unfold markPublicModules. intros Hrun.
  refine (scan_foldlOpt (constantsSeeded circuit getFieldRefFromValue ∅)
            _ (λ _, True) _ _ _ initialPass st0 Hrun _); [|done|].
  - intros s [block module] s' _ Hstep Hs. simpl in Hstep.
    destruct (_ && _); [|by inversion Hstep; subst].
    destruct (markBlockExecutable circuit getFieldRefFromValue fuel block s)
      as [s1|] eqn:E; [|done].
    simpl in Hstep. inversion Hstep; subst.
    apply (constantsSeeded_rises _ s1); [apply rises_markAll, scanRises_refl|].
    by apply (markBlockExecutable_constantsSeeded _ _ _ _ _ E).
  - intros b m op Hb. by apply elem_of_empty in Hb.
Qed.

End ConstantsSeeded.

(** *** The worklist loop: entries that no visit overwrites *)

Section SafeEntries.

Variable circuit : CircuitOp.
Variable foldHook : Operation → list (option Attribute) → option (list OpFoldResult).

Lemma visits_rise (users : list (nat * Operation)) :
  ∀ st key,
    (∀ user, user ∈ users →
       ∀ i, ¬ safeRoot circuit (rootFieldRef (OpResult (opId user.2) i)).1) →
    safeRoot circuit key.1 →
    absorbs (entryOf (foldl (λ st user,
                               if isBlockExecutable st user.1
                               then visitOperation circuit rootFieldRef foldHook
                                                   user.2 st
                               else st) st users) key)
            (entryOf st key).
Proof.
  induction users as [|user users IH]; intros st key Husers Hsafe; simpl;
    [apply absorbs_refl|].
  eapply absorbs_trans.
  - apply IH; [|done]. intros u Hu. apply Husers. by apply elem_of_cons; right.
  - destruct (isBlockExecutable st user.1); [|apply absorbs_refl].
    destruct (visitStep_visitOperation circuit rootFieldRef foldHook
                (λ key, safeRoot circuit key.1) user.2 st) as (_ & _ & Hs & _).
    + apply Husers. by apply elem_of_cons; left.
    + by apply Hs.
Qed.

Lemma solve_rises fuel :
  ∀ st st' key,
    usersFromCircuit circuit st →
    solve circuit rootFieldRef foldHook fuel st = Some st' →
    safeRoot circuit key.1 →
    absorbs (entryOf st' key) (entryOf st key).
Proof.
  induction fuel as [|fuel IH]; intros st st' key Husers Hsolve Hsafe;
    simpl in Hsolve.
  - destruct (changedLatticeValueWorklist st); [|done].
    inversion Hsolve; subst. apply absorbs_refl.
  - destruct (changedLatticeValueWorklist st) as [|changedKey rest];
      [inversion Hsolve; subst; apply absorbs_refl|].
    eapply absorbs_trans.
    + apply (IH _ _ key) in Hsolve; [exact Hsolve| |done].
      intros k user. rewrite fieldRefToUsers_visitUsers. apply Husers.
    + unfold visitUsers.
      change (fieldRefToUsers (setWorklist rest st)) with (fieldRefToUsers st).
      apply (visits_rise _ (setWorklist rest st) key); [|done].
      intros user Hin. by apply (user_unsafe circuit st changedKey).
Qed.

End SafeEntries.

(** *** Two call sites of one module *)

Lemma findOp_defining (ops : list Operation) (op : Operation) :
  NoDup (map opId ops) → op ∈ ops → findOp ops (opId op) = Some op.
Proof.
  unfold findOp. induction ops as [|a l IH]; intros Hnd Hin;
    [by apply elem_of_nil in Hin|].
  simpl. destruct (Nat.eqb (opId a) (opId op)) eqn:E.
  - apply Nat.eqb_eq in E. f_equal.
    apply (unique_opId (a :: l) a op Hnd); [by apply elem_of_cons; left|done|done].
  - apply elem_of_cons in Hin as [-> | Hin];
      [by rewrite Nat.eqb_refl in E|].
    simpl in Hnd. apply NoDup_cons in Hnd as [_ Hnd]. by apply IH.
Qed.

Lemma absorbs_constant (x : LatticeValue) (c : IntegerAttr) :
  absorbs x (Constant c) → x = Constant c ∨ x = Overdefined.
Proof.
  unfold absorbs, mergeIn. destruct x as [| |d|]; simpl; try done; [|by right].
  case_bool_decide as Hd; [done|]. intros _. left.
  destruct (decide (Constant d = Constant c)) as [He|He]; [done|by destruct Hd].
Qed.

Lemma absorbs_two_constants (x : LatticeValue) (c d : IntegerAttr) :
  c ≠ d → absorbs x (Constant c) → absorbs x (Constant d) → x = Overdefined.
Proof.
  intros Hne [-> | ->]%absorbs_constant [Hd | Hd]%absorbs_constant; try done.
  by inversion Hd.
Qed.

Lemma absorbs_overdefined_inv (x : LatticeValue) :
  absorbs x Overdefined → x = Overdefined.
Proof. unfold absorbs, mergeIn. by destruct x. Qed.

Lemma getExtendedLatticeValue_literal st key value destType allowTruncation :
  latticeValues st !! key = Some (Constant (IntAttr value)) →
  getExtendedLatticeValue st key destType allowTruncation
  = extendedLiteral value destType.
Proof. intros H. unfold getExtendedLatticeValue, extendedLiteral. by rewrite H. Qed.

Lemma extendedLiteral_cases value destType :
  extendedLiteral value destType = Overdefined ∨
  ∃ c, extendedLiteral value destType = Constant c.
Proof.
  unfold extendedLiteral. cbv zeta.
  destruct (_ =? -1); [by left|]. right. destruct (_ =? _); by eexists.
Qed.

(** An entry that absorbs the extensions of two literals that differ is
    Overdefined. *)
Lemma absorbs_two_literals (x : LatticeValue) (a b : APSInt) (t : FIRRTLBaseType) :
  extendedLiteral a t ≠ extendedLiteral b t →
  absorbs x (extendedLiteral a t) → absorbs x (extendedLiteral b t) →
  x = Overdefined.
Proof.
  intros Hne HA HB.
  destruct (extendedLiteral_cases a t) as [Ha | [c Ha]];
    rewrite Ha in *; [by apply absorbs_overdefined_inv|].
  destruct (extendedLiteral_cases b t) as [Hb | [d Hb]];
    rewrite Hb in *; [by apply absorbs_overdefined_inv|].
  apply (absorbs_two_constants x c d); [congruence|done|done].
Qed.

Section TwoSites.

Variable circuit : CircuitOp.
Variable foldHook : Operation → list (option Attribute) → option (list OpFoldResult).
Variable fuel : nat.
Variable st : IMConstPropPass.

Hypothesis wellFormed : instancesWellFormed (concat (map body circuit)) = true.
Hypothesis analyzed : analyze circuit rootFieldRef foldHook fuel = Some st.

Lemma analyze_connectsSatisfied :
  changedLatticeValueWorklist st = [] ∧
  ∀ block module op dest src rest destType leaf,
    block ∈ executableBlocks st → circuit !! block = Some module →
    op ∈ body module → isFConnectLike op = true →
    operands op = dest :: src :: rest →
    leavesCovered circuit dest src = true →
    getType circuit dest = Some destType →
    leaf ∈ foreachFIRRTLGroundType destType →
    connectSatisfied circuit st dest src leaf.
Proof.
  pose proof analyzed as Hrun. unfold analyze in Hrun.
  destruct (markPublicModules circuit rootFieldRef fuel initialPass)
    as [st0|] eqn:Hseed; [|done].
  cbn [mbind option_bind] in Hrun.
  destruct (solve_connectsPending circuit foldHook wellFormed fuel st0 st)
    as [Hpend Hwl]; try done.
  - by apply (usersFromCircuit_seeded circuit rootFieldRef fuel).
  - by apply (mappingFromCircuit_seeded circuit rootFieldRef fuel).
  - by apply (usersRecorded_seeded circuit rootFieldRef fuel).
  - apply connectsPending_seeded.
    by apply (seededQueued_seeded circuit rootFieldRef fuel).
  - split; [done|].
    intros block module op dest src rest destType leaf
           Hb Hmod Hop Hconn Hops Hcov Hty Hleaf.
    destruct (Hpend block module op dest src rest destType leaf
                    Hb Hmod Hop Hconn Hops Hcov Hty Hleaf)
      as [Hd | [Hsrc | [Huser | Hsat]]]; [| | |done].
    + rewrite Hwl in Hd. by apply elem_of_nil in Hd.
    + rewrite Hwl in Hsrc. by apply elem_of_nil in Hsrc.
    + by apply elem_of_nil in Huser.
Qed.

(** The entry of a constant without operands in an executable block holds
    its literal, or is Overdefined, when the loop ends. *)
Lemma analyze_constant block module constant value :
  block ∈ executableBlocks st → circuit !! block = Some module →
  constant ∈ body module → opKind constant = ConstantOp value →
  operands constant = [] →
  absorbs (entryOf st (OpResult (opId constant) 0, 0%nat)) (Constant (IntAttr value)).
Proof.
  intros Hb Hmod Hop Hkind Hoperands.
  pose proof analyzed as Hrun. unfold analyze in Hrun.
  destruct (markPublicModules circuit rootFieldRef fuel initialPass)
    as [st0|] eqn:Hseed; [|done].
  cbn [mbind option_bind] in Hrun.
  destruct (solve_frame circuit rootFieldRef foldHook fuel st0 st Hrun)
    as (He & _ & _).
  eapply absorbs_trans.
  - apply (solve_rises circuit foldHook fuel st0 st); [|exact Hrun|].
    + by apply (usersFromCircuit_seeded circuit rootFieldRef fuel).
    + simpl. intros op Hin Hid.
      unfold instancesWellFormed in wellFormed.
      apply andb_true_iff in wellFormed as [Hnd _].
      apply bool_decide_eq_true in Hnd.
      rewrite (unique_opId _ op constant Hnd Hin); [done| |done].
      by apply (body_allOps circuit block module).
  - apply (constantsSeeded_seeded circuit rootFieldRef fuel st0 Hseed
             block module constant); try done.
    by rewrite <- He.
Qed.

(** A call site in an executable block: the entry of the port absorbs the
    literal, extended to the type of the port. *)
Lemma literalSite_absorbed callee calleeModule resultNo t block value :
  circuit !! callee = Some calleeModule → isFModule calleeModule = true →
  isGround t = true →
  block ∈ executableBlocks st →
  literalSite circuit callee resultNo t block value →
  absorbs (entryOf st (BlockArgument callee resultNo, 0%nat))
          (extendedLiteral value t).
Proof.
  intros Hcallee Hf Hground Hb
         (module & instance & constant & connect & rest & constantType & Hmod &
          Hinst & Hik & Hconst & Hck & Hco & Hconn & Hlike & Hops & Htd & Hts &
          Hcground).
  destruct analyze_connectsSatisfied as [_ Hsat].
  assert (Hleaf : foreachFIRRTLGroundType (BaseType t) = [(0%nat, t)]).
  { simpl. unfold foreachFIRRTLGroundTypeBase. by rewrite Hground. }
  assert (Hcov : leavesCovered circuit (OpResult (opId instance) resultNo)
                               (OpResult (opId constant) 0) = true).
  { unfold leavesCovered. rewrite Htd, Hts, Hleaf. simpl.
    unfold foreachFIRRTLGroundTypeBase. by rewrite Hcground. }
  specialize (Hsat block module connect _ _ rest (BaseType t) (0%nat, t)
                   Hb Hmod Hconn Hlike Hops Hcov Htd).
  rewrite Hleaf in Hsat.
  specialize (Hsat (proj2 (list_elem_of_singleton _ _) eq_refl)
                   (BlockArgument callee resultNo, 0%nat)).
  simpl in Hsat. rewrite (getPassiveType_ground t Hground) in Hsat.
  assert (Hdef : findOp (concat (map body circuit)) (opId instance) = Some instance).
  { apply findOp_defining.
    - unfold instancesWellFormed in wellFormed.
      apply andb_true_iff in wellFormed as [Hnd _].
      by apply bool_decide_eq_true in Hnd.
    - by apply (body_allOps circuit block module). }
  assert (Hkey : (BlockArgument callee resultNo, 0%nat)
                 ∈ connectTargets circuit st (OpResult (opId instance) resultNo) 0).
  { unfold connectTargets, getDefiningOp. rewrite Hdef.
    unfold isWireOrReg. rewrite Hik, Hcallee, Hf.
    apply elem_of_cons; right. by apply list_elem_of_singleton. }
  specialize (Hsat Hkey).
  pose proof (analyze_constant block module constant value Hb Hmod Hconst Hck Hco)
    as Hsrc.
  unfold entryOf in Hsrc.
  destruct (latticeValues st !! (OpResult (opId constant) 0, 0%nat)) as [v|]
    eqn:Hentry; simpl in Hsrc;
    apply absorbs_constant in Hsrc as [Hv | Hv]; try done; subst v.
  - by rewrite (getExtendedLatticeValue_literal st _ value t false Hentry) in Hsat.
  - unfold getExtendedLatticeValue in Hsat. rewrite Hentry in Hsat.
    eapply absorbs_trans; [exact Hsat|apply absorbs_overdefined].
Qed.

End TwoSites.

(** C5, amended: if two call sites in executable blocks drive the same port
    of a module with a body with two literals that differ at the width of the
    port, the entry of the module's block argument is Overdefined when the
    worklist loop ends.  This holds for every circuit with unique operation
    ids whose instances have no operand and whose values are root values,
    for every fold hook, for every ground port type and for literals of any
    width: what is compared is each literal as [getExtendedLatticeValue]
    extends it to the type of the port. *)
Theorem two_executable_sites_make_argument_overdefined
    (circuit : CircuitOp)
    (foldHook : Operation → list (option Attribute) → option (list OpFoldResult))
    (fuel : nat) (st : IMConstPropPass)
    (callee : nat) (calleeModule : FModuleLike) (resultNo : nat)
    (t : FIRRTLBaseType) (blockA blockB : nat) (a b : APSInt) :
  instancesWellFormed (concat (map body circuit)) = true →
  analyze circuit rootFieldRef foldHook fuel = Some st →
  circuit !! callee = Some calleeModule → isFModule calleeModule = true →
  isGround t = true →
  blockA ∈ executableBlocks st → literalSite circuit callee resultNo t blockA a →
  blockB ∈ executableBlocks st → literalSite circuit callee resultNo t blockB b →
  extendedLiteral a t ≠ extendedLiteral b t →
  changedLatticeValueWorklist st = [] ∧
  latticeValues st !! (BlockArgument callee resultNo, 0%nat) = Some Overdefined.
Proof.
  intros Hwf Hrun Hcallee Hf Hground HbA HsiteA HbB HsiteB Hne.
  split; [by destruct (analyze_connectsSatisfied circuit foldHook fuel st Hwf Hrun)|].
  pose proof (literalSite_absorbed circuit foldHook fuel st Hwf Hrun callee
                calleeModule resultNo t blockA a Hcallee Hf Hground HbA HsiteA)
    as HA.
  pose proof (literalSite_absorbed circuit foldHook fuel st Hwf Hrun callee
                calleeModule resultNo t blockB b Hcallee Hf Hground HbB HsiteB)
    as HB.
  assert (Hentry : entryOf st (BlockArgument callee resultNo, 0%nat) = Overdefined).
  { by apply (absorbs_two_literals _ a b t). }
  unfold entryOf in Hentry.
  by destruct (latticeValues st !! (BlockArgument callee resultNo, 0%nat));
    simpl in Hentry; subst.
Qed.

Lemma two_executable_sites_make_argument_overdefined_witness :
  ∃ st, analyze (twoSitesCircuit (literal 3) (literal 4)) rootFieldRef noFold 20
          = Some st ∧
        changedLatticeValueWorklist st = [] ∧
        latticeValues st !! (BlockArgument 1 0, 0%nat) = Some Overdefined.
Proof.
  eexists. split; [vm_compute; reflexivity|].
  apply (two_executable_sites_make_argument_overdefined
           (twoSitesCircuit (literal 3) (literal 4)) noFold 20 _
           1%nat twoSitesCallee 0%nat (UIntType 8) 0%nat 0%nat
           (literal 3) (literal 4)).
  - vm_compute; reflexivity.
  - vm_compute; reflexivity.
  - reflexivity.
  - reflexivity.
  - reflexivity.
  - vm_compute; reflexivity.
  - exists (twoSitesTop (literal 3) (literal 4)),
           (plainOp 3 (InstanceOp 1) [] [UInt8]),
           (plainOp 1 (ConstantOp (literal 3)) [] [UInt8]),
           (plainOp 5 StrictConnectOp [OpResult 3 0; OpResult 1 0] []), [],
           (UIntType 8).
    split_and!; try reflexivity.
    + simpl. do 2 (apply elem_of_cons; right). apply elem_of_cons; left. reflexivity.
    + simpl. apply elem_of_cons; left. reflexivity.
    + simpl. do 4 (apply elem_of_cons; right). apply elem_of_cons; left. reflexivity.
  - vm_compute; reflexivity.
  - exists (twoSitesTop (literal 3) (literal 4)),
           (plainOp 4 (InstanceOp 1) [] [UInt8]),
           (plainOp 2 (ConstantOp (literal 4)) [] [UInt8]),
           (plainOp 6 StrictConnectOp [OpResult 4 0; OpResult 2 0] []), [],
           (UIntType 8).
    split_and!; try reflexivity.
    + simpl. do 3 (apply elem_of_cons; right). apply elem_of_cons; left. reflexivity.
    + simpl. apply elem_of_cons; right. apply elem_of_cons; left. reflexivity.
    + simpl. do 5 (apply elem_of_cons; right). apply elem_of_cons; left. reflexivity.
  - vm_compute. intros H. inversion H.
Defined.

(** C5, counterexample: two call sites drive the input port of the callee
    with 3 and with 4, but the second site is in a private module that
    nothing instantiates.  Its block never becomes executable, its connect is
    never visited, and the entry of the callee's block argument is the
    Constant 3 when the worklist loop ends. *)
Lemma unexecuted_site_leaves_argument_constant :
  literalSite (deadSiteCircuit (literal 3) (literal 4)) 1 0 (UIntType 8) 0 (literal 3) ∧
  literalSite (deadSiteCircuit (literal 3) (literal 4)) 1 0 (UIntType 8) 2 (literal 4) ∧
  extendedLiteral (literal 3) (UIntType 8) ≠ extendedLiteral (literal 4) (UIntType 8) ∧
  ∃ st, analyze (deadSiteCircuit (literal 3) (literal 4)) rootFieldRef noFold 20
          = Some st ∧
        changedLatticeValueWorklist st = [] ∧
        executableBlocks st = {[0%nat; 1%nat]} ∧
        latticeValues st !! (BlockArgument 1 0, 0%nat)
        = Some (Constant (IntAttr (literal 3))).
Proof.
  split_and!.
  - exists (liveSiteTop (literal 3)),
           (plainOp 3 (InstanceOp 1) [] [UInt8]),
           (plainOp 1 (ConstantOp (literal 3)) [] [UInt8]),
           (plainOp 5 StrictConnectOp [OpResult 3 0; OpResult 1 0] []), [],
           (UIntType 8).
    split_and!; try reflexivity.
    + simpl. apply elem_of_cons; right. apply elem_of_cons; left. reflexivity.
    + simpl. apply elem_of_cons; left. reflexivity.
    + simpl. do 2 (apply elem_of_cons; right). apply elem_of_cons; left. reflexivity.
  - exists (deadSiteModule (literal 4)),
           (plainOp 4 (InstanceOp 1) [] [UInt8]),
           (plainOp 2 (ConstantOp (literal 4)) [] [UInt8]),
           (plainOp 6 StrictConnectOp [OpResult 4 0; OpResult 2 0] []), [],
           (UIntType 8).
    split_and!; try reflexivity.
    + simpl. apply elem_of_cons; right. apply elem_of_cons; left. reflexivity.
    + simpl. apply elem_of_cons; left. reflexivity.
    + simpl. do 2 (apply elem_of_cons; right). apply elem_of_cons; left. reflexivity.
  - vm_compute. intros H. inversion H.
  - eexists. split; [vm_compute; reflexivity|].
    split_and!; vm_compute; reflexivity.
Qed.

End IMConstPropProofs.

(** ** IMDeadCodeElim: properties *)

Module IMDeadCodeElimProofs.

Import IMDeadCodeElim.

Lemma onlyAddsLiveValues_refl st : onlyAddsLiveValues st st.
Proof. by split_and!. Qed.

Lemma onlyAddsLiveValues_trans st1 st2 st3 :
  onlyAddsLiveValues st1 st2 → onlyAddsLiveValues st2 st3 →
  onlyAddsLiveValues st1 st3.
Proof.
  intros (Hi & Hl & Hm & Hv) (Hi' & Hl' & Hm' & Hv').
  split_and!; try congruence. by transitivity (liveValues st2).
Qed.

Lemma onlyAddsLiveValues_foldl {A} (f : IMDeadCodeElimPass → A → IMDeadCodeElimPass) l :
  (∀ st a, onlyAddsLiveValues st (f st a)) →
  ∀ st, onlyAddsLiveValues st (foldl f st l).
Proof.
  intros Hf. induction l as [|a l IH]; intros st; simpl.
  - apply onlyAddsLiveValues_refl.
  - eapply onlyAddsLiveValues_trans; [apply Hf | apply IH].
Qed.

Lemma markAlive_onlyAdds value st : onlyAddsLiveValues st (markAlive value st).
Proof.
  unfold markAlive. destruct (isKnownAlive st value).
  - apply onlyAddsLiveValues_refl.
  - split_and!; simpl; try done. apply union_subseteq_r.
Qed.

Lemma markAlive_alive value st : value ∈ liveValues (markAlive value st).
Proof.
  unfold markAlive, isKnownAlive. case_bool_decide; simpl; [done|].
  apply elem_of_union_l. by apply elem_of_singleton.
Qed.

Lemma markAliveAll_onlyAdds values st : onlyAddsLiveValues st (markAliveAll values st).
Proof.
  unfold markAliveAll. apply onlyAddsLiveValues_foldl.
  intros st' a. apply markAlive_onlyAdds.
Qed.

Lemma markAliveAll_alive values st value :
  value ∈ values → value ∈ liveValues (markAliveAll values st).
Proof.
  unfold markAliveAll. revert st.
  induction values as [|v values IH]; intros st Hin; simpl.
  - by apply elem_of_nil in Hin.
  - apply elem_of_cons in Hin as [-> | Hin]; [|by apply IH].
    pose proof (markAliveAll_onlyAdds values (markAlive v st)) as (_ & _ & _ & Hsub).
    apply Hsub, markAlive_alive.
Qed.

Lemma visitUser_onlyAdds op st : onlyAddsLiveValues st (visitUser op st).
Proof.
  unfold visitUser, visitConnect, visitSubelement.
  destruct (isFConnectLike op).
  - destruct (operands op) as [|dest [|src rest]];
      try apply onlyAddsLiveValues_refl.
    destruct (isKnownAlive st dest);
      [apply markAlive_onlyAdds | apply onlyAddsLiveValues_refl].
  - destruct (isSubelement op); [|apply onlyAddsLiveValues_refl].
    destruct (operands op) as [|input rest]; [apply onlyAddsLiveValues_refl|].
    destruct (isKnownAlive st input);
      [apply markAlive_onlyAdds | apply onlyAddsLiveValues_refl].
Qed.

Lemma markBlockUndeletable_onlyAdds block st :
  onlyAddsLiveValues st (markBlockUndeletable block st).
Proof. by split_and!. Qed.

Lemma pendingOf_pushLazy instance port st i :
  pendingOf (pushLazy instance port st) i =
  if decide (instance = i) then pendingOf st i ++ [port] else pendingOf st i.
Proof.
  unfold pendingOf, pushLazy; simpl. rewrite lookup_insert.
  case_decide; [by subst|done].
Qed.

Lemma pendingAlive_onlyAdds st st' :
  onlyAddsLiveValues st st' →
  pendingPortsOfLiveInstancesAlive st → pendingPortsOfLiveInstancesAlive st'.
Proof.
  intros (Hi & Hl & _ & Hv) Hinv instance port Hlive Hpend.
  unfold pendingOf in Hpend. rewrite Hi in Hlive. rewrite Hl in Hpend.
  apply Hv. by apply (Hinv instance).
Qed.

Section LivenessProperties.

Variable circuit : CircuitOp.

(** The loop over the instance results of an input port: the live instances
    stay what they are, live values are only added, a pending list only
    grows, and only the list of an instance that is not alive grows. *)
Lemma propagateToInstances_loop (results : list Value) (st : IMDeadCodeElimPass) :
  let st' :=
    foldl (λ st userOfResultPort,
             match userOfResultPort with
             | OpResult instance _ =>
                 if bool_decide (instance ∈ liveInstances st)
                 then markAlive userOfResultPort st
                 else pushLazy instance userOfResultPort st
             | BlockArgument _ _ => st
             end) st results in
  liveInstances st' = liveInstances st ∧
  liveValues st ⊆ liveValues st' ∧
  (∀ i, i ∈ liveInstances st → pendingOf st' i = pendingOf st i) ∧
  (∀ i port, port ∈ pendingOf st i → port ∈ pendingOf st' i) ∧
  (∀ instance resultNo,
     OpResult instance resultNo ∈ results →
     if bool_decide (instance ∈ liveInstances st)
     then OpResult instance resultNo ∈ liveValues st'
     else OpResult instance resultNo ∈ pendingOf st' instance).
Proof.
  revert st. induction results as [|r results IH]; intros st; simpl.
  { split_and!; try done. intros instance resultNo Hin. by apply elem_of_nil in Hin. }
  set (st1 := match r with
              | OpResult instance _ =>
                  if bool_decide (instance ∈ liveInstances st)
                  then markAlive r st else pushLazy instance r st
              | BlockArgument _ _ => st
              end).
  assert (Hstep :
    liveInstances st1 = liveInstances st ∧
    liveValues st ⊆ liveValues st1 ∧
    (∀ i, i ∈ liveInstances st → pendingOf st1 i = pendingOf st i) ∧
    (∀ i port, port ∈ pendingOf st i → port ∈ pendingOf st1 i) ∧
    (∀ instance resultNo, r = OpResult instance resultNo →
       if bool_decide (instance ∈ liveInstances st)
       then r ∈ liveValues st1 else r ∈ pendingOf st1 instance)).
  { subst st1. destruct r as [b n|instance resultNo].
    - split_and!; done.
    - case_bool_decide as Hlive.
      + destruct (markAlive_onlyAdds (OpResult instance resultNo) st)
          as (Hi & Hl & _ & Hv).
        split_and!; try done.
        * intros i _. unfold pendingOf. by rewrite Hl.
        * intros i port. unfold pendingOf. by rewrite Hl.
        * intros instance' resultNo' [= <- <-].
          rewrite bool_decide_eq_true_2 by done. apply markAlive_alive.
      + split_and!; try done.
        * intros i Hi. rewrite pendingOf_pushLazy.
          case_decide; [by subst|done].
        * intros i port Hport. rewrite pendingOf_pushLazy.
          case_decide; [|done]. subst. apply elem_of_app. by left.
        * intros instance' resultNo' [= <- <-].
          rewrite bool_decide_eq_false_2 by done.
          rewrite pendingOf_pushLazy, decide_True by done.
          apply elem_of_app. right. by apply list_elem_of_singleton. }
  destruct Hstep as (Hi1 & Hv1 & Hkeep1 & Hgrow1 & Hr1).
  destruct (IH st1) as (Hi & Hv & Hkeep & Hgrow & Hres).
  split_and!.
  - congruence.
  - by transitivity (liveValues st1).
  - intros i Hlive. rewrite Hkeep by (by rewrite Hi1). by apply Hkeep1.
  - intros i port Hport. by apply Hgrow, Hgrow1.
  - intros instance resultNo Hin.
    apply elem_of_cons in Hin as [Heq | Hin].
    + specialize (Hr1 instance resultNo (eq_sym Heq)). rewrite Heq.
      case_bool_decide; [by apply Hv | by apply Hgrow].
    + specialize (Hres instance resultNo Hin).
      by rewrite Hi1 in Hres.
Qed.

Lemma visitUsers_onlyAdds (users : list Operation) st :
  onlyAddsLiveValues st (foldl (λ st user, visitUser user st) st users).
Proof. apply onlyAddsLiveValues_foldl. intros st' a. apply visitUser_onlyAdds. Qed.

(** What one [visitValue] does to the live instances and the pending
    lists. *)
Lemma visitValue_flushes value st instance port :
  instance ∉ liveInstances st →
  instance ∈ liveInstances (visitValue circuit value st) →
  port ∈ pendingOf st instance →
  port ∈ liveValues (visitValue circuit value st).
Proof.
  intros Hdead Halive Hpend. unfold visitValue in *.
  destruct (visitUsers_onlyAdds (getUsers circuit value) st) as (Hi & Hl & Hm & Hv).
  set (st1 := foldl (λ st user, visitUser user st) st (getUsers circuit value)) in *.
  assert (Hkeep : ∀ st2, onlyAddsLiveValues st1 st2 →
                         instance ∈ liveInstances st2 → False).
  { intros st2 (Hi2 & _) Hin. rewrite Hi2, Hi in Hin. done. }
  destruct value as [block argNumber|o resultNumber].
  - destruct (circuit !! block) as [module|];
      [|by destruct (Hkeep st1 (onlyAddsLiveValues_refl _))].
    destruct (getPortDirection module argNumber) as [[]|];
      try by destruct (Hkeep st1 (onlyAddsLiveValues_refl _)).
    destruct (propagateToInstances_loop
                (default [] (resultPortToInstanceResultMapping st1
                               !! BlockArgument block argNumber)) st1)
      as (Hi' & _).
    unfold propagateToInstances in Halive. rewrite Hi', Hi in Halive. done.
  - destruct (getDefiningOp circuit (OpResult o resultNumber)) as [op|];
      [|by destruct (Hkeep st1 (onlyAddsLiveValues_refl _))].
    assert (Hother : ∀ values, instance ∈ liveInstances (markAliveAll values st1) → False).
    { intros values. apply Hkeep, markAliveAll_onlyAdds. }
    destruct (opKind op) eqn:Hkind; try by destruct (Hother _ Halive).
    destruct (circuit !! moduleName) as [module|];
      [|by destruct (Hkeep st1 (onlyAddsLiveValues_refl _))].
    destruct (isFModule module); simpl in *;
      [|by destruct (Hkeep st1 (onlyAddsLiveValues_refl _))].
    assert (Hflush :
      let st2 := if bool_decide (opId op ∈ liveInstances st1) then st1
                 else markAliveAll (pendingOf st1 (opId op))
                                   (insertLiveInstance (opId op) st1) in
      ∀ st3, onlyAddsLiveValues st2 st3 → instance ∈ liveInstances st3 →
             port ∈ liveValues st3).
    { intros st2 st3 (Hi3 & _ & _ & Hv3) Hin. subst st2. rewrite Hi3 in Hin.
      case_bool_decide as Hlive.
      - rewrite Hi in Hin. done.
      - destruct (markAliveAll_onlyAdds (pendingOf st1 (opId op))
                    (insertLiveInstance (opId op) st1)) as (Hi4 & _).
        rewrite Hi4 in Hin. simpl in Hin. rewrite Hi in Hin.
        apply elem_of_union in Hin as [Hin%elem_of_singleton | Hin]; [subst|done].
        apply Hv3, markAliveAll_alive.
        unfold pendingOf. rewrite Hl. exact Hpend. }
    destruct (getPortDirection module resultNumber) as [[]|];
      try by destruct (Hkeep st1 (onlyAddsLiveValues_refl _)).
    + by apply (Hflush _ (markAlive_onlyAdds _ _)).
    + by apply (Hflush _ (markAlive_onlyAdds _ _)).
Qed.

Lemma visitValue_queues block argNumber module instance resultNo st :
  circuit !! block = Some module →
  getPortDirection module argNumber = Some In →
  OpResult instance resultNo ∈
    default [] (resultPortToInstanceResultMapping st !! BlockArgument block argNumber) →
  instance ∉ liveInstances st →
  OpResult instance resultNo ∈
    pendingOf (visitValue circuit (BlockArgument block argNumber) st) instance.
Proof.
  intros Hmod Hdir Hin Hdead. unfold visitValue. rewrite Hmod, Hdir.
  destruct (visitUsers_onlyAdds (getUsers circuit (BlockArgument block argNumber)) st)
    as (Hi & Hl & Hm & Hv).
  set (st1 := foldl (λ st user, visitUser user st) st
                    (getUsers circuit (BlockArgument block argNumber))) in *.
  destruct (propagateToInstances_loop
              (default [] (resultPortToInstanceResultMapping st1
                             !! BlockArgument block argNumber)) st1)
    as (_ & _ & _ & _ & Hres).
  rewrite Hm in Hres. specialize (Hres instance resultNo Hin).
  rewrite bool_decide_eq_false_2 in Hres by (by rewrite Hi).
  unfold propagateToInstances. by rewrite Hm.
Qed.


(** One [visitValue] keeps the pending ports of live instances alive. *)
Lemma visitValue_pendingAlive value st :
  pendingPortsOfLiveInstancesAlive st →
  pendingPortsOfLiveInstancesAlive (visitValue circuit value st).
Proof.
  intros Hinv. unfold visitValue.
  pose proof (pendingAlive_onlyAdds _ _
                (visitUsers_onlyAdds (getUsers circuit value) st) Hinv) as Hinv1.
  set (st1 := foldl (λ st user, visitUser user st) st (getUsers circuit value)) in *.
  clearbody st1. clear Hinv st.
  destruct value as [block argNumber|o resultNumber].
  - destruct (circuit !! block) as [module|]; [|done].
    destruct (getPortDirection module argNumber) as [[]|]; try done.
    destruct (propagateToInstances_loop
                (default [] (resultPortToInstanceResultMapping st1
                               !! BlockArgument block argNumber)) st1)
      as (Hi & Hv & Hkeep & _).
    intros instance port Hlive Hpend. unfold propagateToInstances in *.
    rewrite Hi in Hlive. rewrite (Hkeep _ Hlive) in Hpend.
    apply Hv. by apply (Hinv1 instance).
  - destruct (getDefiningOp circuit (OpResult o resultNumber)) as [op|]; [|done].
    assert (Hother : ∀ values,
              pendingPortsOfLiveInstancesAlive (markAliveAll values st1)).
    { intros values.
      apply (pendingAlive_onlyAdds st1); [apply markAliveAll_onlyAdds | done]. }
    destruct (opKind op); try apply Hother.
    destruct (circuit !! moduleName) as [module|]; [|done].
    destruct (isFModule module); simpl; [|done].
    assert (Hflush :
      pendingPortsOfLiveInstancesAlive
        (if bool_decide (opId op ∈ liveInstances st1) then st1
         else markAliveAll (pendingOf st1 (opId op))
                           (insertLiveInstance (opId op) st1))).
    { case_bool_decide as Hlive; [done|].
      destruct (markAliveAll_onlyAdds (pendingOf st1 (opId op))
                  (insertLiveInstance (opId op) st1)) as (Hi & Hl & _ & Hv).
      intros instance port Hin Hpend.
      rewrite Hi in Hin. unfold pendingOf in Hpend, Hl |- *. rewrite Hl in Hpend.
      simpl in Hin, Hpend.
      apply elem_of_union in Hin as [Hin%elem_of_singleton | Hin].
      - subst. by apply markAliveAll_alive.
      - apply Hv. simpl. by apply (Hinv1 instance). }
    destruct (getPortDirection module resultNumber) as [[]|]; try done;
      by apply (pendingAlive_onlyAdds _ _ (markAlive_onlyAdds _ _)).
Qed.

Lemma solveStep_pendingAlive st :
  pendingPortsOfLiveInstancesAlive st →
  pendingPortsOfLiveInstancesAlive (solveStep circuit st).
Proof.
  intros Hinv. unfold solveStep.
  destruct (valueWorklist st) as [|value rest]; [done|].
  apply visitValue_pendingAlive.
  by apply (pendingAlive_onlyAdds st).
Qed.

Lemma keepsPending_foldl {A} (f : IMDeadCodeElimPass → A → IMDeadCodeElimPass) l :
  (∀ st a, keepsPending st (f st a)) → ∀ st, keepsPending st (foldl f st l).
Proof.
  intros Hf. induction l as [|a l IH]; intros st; simpl; [done|].
  unfold keepsPending in *. by rewrite IH, Hf.
Qed.

Lemma keepsPending_foldlOpt {A} (f : IMDeadCodeElimPass → A → option IMDeadCodeElimPass) l :
  (∀ st a st', f st a = Some st' → keepsPending st st') →
  ∀ st st', foldlOpt f st l = Some st' → keepsPending st st'.
Proof.
  intros Hf. induction l as [|a l IH]; intros st st' H; simpl in H.
  - by inversion H.
  - destruct (f st a) as [st1|] eqn:E; [|done].
    unfold keepsPending in *. by rewrite (IH _ _ H), (Hf _ _ _ E).
Qed.

Lemma keepsPending_markAliveAll values st : keepsPending st (markAliveAll values st).
Proof. by destruct (markAliveAll_onlyAdds values st) as (_ & H & _). Qed.

Lemma keepsPending_markAlive value st : keepsPending st (markAlive value st).
Proof. by destruct (markAlive_onlyAdds value st) as (_ & H & _). Qed.

Lemma keepsPending_afterCalleeMarked block instance moduleName st :
  keepsPending st (afterCalleeMarked block instance moduleName st).
Proof.
  unfold afterCalleeMarked, recordInstanceResults, keepsPending.
  rewrite (keepsPending_foldl
             (λ st resultNo, addInstanceResult _ _ st)) by done.
  destruct (_ && _); simpl; by destruct (isBlockUndeletable st moduleName).
Qed.

Lemma keepsPending_markExtInstanceOp block instance module st :
  keepsPending st (markExtInstanceOp block instance module st).
Proof.
  unfold markExtInstanceOp, markAliveInstance, keepsPending. simpl.
  apply (keepsPending_foldl
           (λ st resultNo,
              match getPortDirection module resultNo with
              | Some Out => st
              | _ => markAlive (OpResult (opId instance) resultNo) st
              end)).
  intros st' resultNo.
  destruct (getPortDirection module resultNo) as [[]|];
    done || apply keepsPending_markAlive.
Qed.

Lemma keepsPending_markBlockExecutable fuel :
  ∀ block st st',
    markBlockExecutable circuit fuel block st = Some st' → keepsPending st st'.
Proof.
  induction fuel as [|fuel IH]; intros block st st' H; simpl in H; [done|].
  destruct (isBlockExecutable st block); [by inversion H|].
  destruct (circuit !! block) as [fmodule|]; [|by inversion H].
  apply keepsPending_foldlOpt in H.
  - unfold keepsPending in *. rewrite H.
    rewrite (keepsPending_foldl
               (λ st blockArg,
                  if hasDontTouchValue circuit blockArg
                  then markBlockUndeletable block (markAlive blockArg st)
                  else st)).
    + by destruct (_ || _).
    + intros st0 blockArg. destruct (hasDontTouchValue circuit blockArg); [|done].
      unfold keepsPending. simpl. apply keepsPending_markAlive.
  - intros st0 op st1 Hop. unfold keepsPending.
    destruct (isDeclaration op).
    { inversion Hop; subst. unfold markDeclaration.
      destruct (negb (isDeletableDeclaration op)); [|done].
      simpl. apply keepsPending_markAliveAll. }
    destruct (opKind op);
      try (destruct (isFConnectLike op); [by inversion Hop|];
           destruct (hasUnknownSideEffect op); inversion Hop; subst; [|done];
           unfold markUnknownSideEffectOp; simpl;
           by rewrite !keepsPending_markAliveAll).
    destruct (circuit !! moduleName) as [referenced|]; [|by inversion Hop].
    destruct (isFModule referenced).
    + destruct (markBlockExecutable circuit fuel moduleName st0) as [st2|] eqn:E;
        [|done].
      inversion Hop; subst.
      by rewrite keepsPending_afterCalleeMarked, (IH _ _ _ E).
    + inversion Hop; subst. apply keepsPending_markExtInstanceOp.
Qed.

Lemma markPublicModules_no_pending fuel st0 :
  markPublicModules circuit fuel initialPass = Some st0 →
  lazyLiveInputPorts st0 = ∅.
Proof.
  intros H. unfold markPublicModules in H.
  apply keepsPending_foldlOpt in H; [exact H|].
  intros st [block module] st' Hstep. simpl in Hstep.
  destruct (_ && _); [|by inversion Hstep].
  destruct (markBlockExecutable circuit fuel block st) as [st1|] eqn:E; [|done].
  inversion Hstep; subst. unfold keepsPending.
  by rewrite keepsPending_markAliveAll, (keepsPending_markBlockExecutable _ _ _ _ E).
Qed.

(** The initial scans terminate: their depth is bounded by the number of
    blocks that are not executable yet. *)
Lemma length_filter_le {A} (P Q : A → bool) (l : list A) :
  (∀ x, P x = true → Q x = true) →
  (length (List.filter P l) ≤ length (List.filter Q l))%nat.
Proof.
  intros HPQ. induction l as [|a l IH]; simpl; [done|].
  destruct (P a) eqn:E.
  - rewrite (HPQ a E). simpl. lia.
  - destruct (Q a); simpl; lia.
Qed.

Lemma length_filter_lt {A} (P Q : A → bool) (l : list A) (a : A) :
  (∀ x, P x = true → Q x = true) →
  a ∈ l → P a = false → Q a = true →
  (length (List.filter P l) < length (List.filter Q l))%nat.
Proof.
  intros HPQ Hin HP HQ. induction l as [|b l IH]; [by apply elem_of_nil in Hin|].
  pose proof (length_filter_le P Q l HPQ) as Hle. simpl.
  apply elem_of_cons in Hin as [Heq | Hin].
  - subst b. rewrite HP, HQ. simpl. lia.
  - specialize (IH Hin). destruct (P b) eqn:E.
    + rewrite (HPQ b E). simpl. lia.
    + destruct (Q b); simpl; lia.
Qed.

Lemma notYetExecutable_mono st st' :
  executableBlocks st ⊆ executableBlocks st' →
  (notYetExecutable circuit st' ≤ notYetExecutable circuit st)%nat.
Proof.
  intros Hsub. apply length_filter_le. intros b. unfold isBlockExecutable.
  rewrite !negb_true_iff, !bool_decide_eq_false. intros Hnot Hin.
  by apply Hnot, Hsub.
Qed.

Lemma notYetExecutable_insert block st :
  (block < length circuit)%nat →
  block ∉ executableBlocks st →
  (notYetExecutable circuit (insertExecutable block st)
   < notYetExecutable circuit st)%nat.
Proof.
  intros Hlt Hnot. apply length_filter_lt with (a := block).
  - intros b. unfold isBlockExecutable. simpl.
    rewrite !negb_true_iff, !bool_decide_eq_false. intros Hb Hin.
    by apply Hb, elem_of_union_r.
  - apply elem_of_seq. lia.
  - unfold isBlockExecutable. simpl. apply negb_false_iff, bool_decide_eq_true.
    by apply elem_of_union_l, elem_of_singleton.
  - unfold isBlockExecutable. by apply negb_true_iff, bool_decide_eq_false.
Qed.

Lemma markAlive_executable value st :
  executableBlocks (markAlive value st) = executableBlocks st.
Proof. unfold markAlive. by destruct (isKnownAlive st value). Qed.

Lemma markAliveAll_executable values st :
  executableBlocks (markAliveAll values st) = executableBlocks st.
Proof.
  unfold markAliveAll. revert st.
  induction values as [|v values IH]; intros st; simpl; [done|].
  by rewrite IH, markAlive_executable.
Qed.

Lemma afterCalleeMarked_executable block instance moduleName st :
  executableBlocks (afterCalleeMarked block instance moduleName st)
  = executableBlocks st.
Proof.
  unfold afterCalleeMarked, recordInstanceResults.
  set (st1 := if isBlockUndeletable st moduleName
              then markAliveInstance block instance st else st).
  set (st2 := if opInnerSym instance && isLiveInnerSymbol st1 moduleName (opId instance)
              then markAliveInstance block instance st1 else st1).
  assert (H2 : executableBlocks st2 = executableBlocks st).
  { subst st2 st1. destruct (_ && _); simpl;
      by destruct (isBlockUndeletable st moduleName). }
  rewrite <- H2. generalize st2.
  induction (seq 0 (length (resultTypes instance))) as [|r l IH]; intro st3;
    simpl; [done|].
  by rewrite IH.
Qed.

Lemma markExtInstanceOp_executable block instance module st :
  executableBlocks (markExtInstanceOp block instance module st)
  = executableBlocks st.
Proof.
  unfold markExtInstanceOp, markAliveInstance. simpl. revert st.
  induction (seq 0 (length (resultTypes instance))) as [|r l IH]; intro st;
    simpl; [done|].
  rewrite IH. destruct (getPortDirection module r) as [[]|];
    by rewrite ?markAlive_executable.
Qed.

Lemma markBlockExecutable_terminates fuel :
  ∀ block st,
    (notYetExecutable circuit st < fuel)%nat →
    ∃ st', markBlockExecutable circuit fuel block st = Some st' ∧
           executableBlocks st ⊆ executableBlocks st'.
Proof.
  induction fuel as [|fuel IH]; intros block st Hfuel; [lia|]. simpl.
  unfold isBlockExecutable at 1.
  case_bool_decide as Hexec; [by exists st|].
  destruct (circuit !! block) as [fmodule|] eqn:Hmod.
  2: { eexists; split; [done|]. simpl. apply union_subseteq_r. }
  pose proof (notYetExecutable_insert block st (lookup_lt_Some _ _ _ Hmod) Hexec)
    as Hless.
  set (st1 := insertExecutable block st) in *.
  set (st2 := if isPublic fmodule || negb (modAnnotationsEmpty fmodule)
              then markBlockUndeletable block st1 else st1).
  set (st3 := foldl (λ st blockArg,
                       if hasDontTouchValue circuit blockArg
                       then markBlockUndeletable block (markAlive blockArg st)
                       else st) st2 (getArguments block fmodule)).
  assert (H3 : executableBlocks st3 = executableBlocks st1).
  { subst st3. transitivity (executableBlocks st2).
    - generalize st2.
      induction (getArguments block fmodule) as [|a l IHl]; intro st0; simpl; [done|].
      rewrite IHl. destruct (hasDontTouchValue circuit a); [|done].
      simpl. apply markAlive_executable.
    - subst st2. by destruct (_ || _). }
  assert (Hloop : ∀ ops st0,
    (notYetExecutable circuit st0 < fuel)%nat →
    ∃ st', foldlOpt
             (λ st op,
                if isDeclaration op then Some (markDeclaration block op st)
                else
                  match opKind op with
                  | InstanceOp moduleName =>
                      match circuit !! moduleName with
                      | None => Some st
                      | Some referenced =>
                          if isFModule referenced then
                            afterCalleeMarked block op moduleName
                              <$> markBlockExecutable circuit fuel moduleName st
                          else Some (markExtInstanceOp block op referenced st)
                      end
                  | _ =>
                      if isFConnectLike op then Some st
                      else if hasUnknownSideEffect op
                      then Some (markUnknownSideEffectOp block op st)
                      else Some st
                  end) st0 ops = Some st' ∧
           executableBlocks st0 ⊆ executableBlocks st').
  { induction ops as [|op ops IHops]; intros st0 Hst0; simpl; [by exists st0|].
    assert (Hstep : ∃ st4,
      (if isDeclaration op then Some (markDeclaration block op st0)
       else
         match opKind op with
         | InstanceOp moduleName =>
             match circuit !! moduleName with
             | None => Some st0
             | Some referenced =>
                 if isFModule referenced then
                   afterCalleeMarked block op moduleName
                     <$> markBlockExecutable circuit fuel moduleName st0
                 else Some (markExtInstanceOp block op referenced st0)
             end
         | _ =>
             if isFConnectLike op then Some st0
             else if hasUnknownSideEffect op
             then Some (markUnknownSideEffectOp block op st0)
             else Some st0
         end) = Some st4 ∧ executableBlocks st0 ⊆ executableBlocks st4).
    { destruct (isDeclaration op).
      { eexists; split; [done|]. unfold markDeclaration.
        destruct (negb (isDeletableDeclaration op)); [|done].
        simpl. by rewrite markAliveAll_executable. }
      assert (Hplain : ∃ st4,
        (if isFConnectLike op then Some st0
         else if hasUnknownSideEffect op
              then Some (markUnknownSideEffectOp block op st0) else Some st0)
        = Some st4 ∧ executableBlocks st0 ⊆ executableBlocks st4).
      { destruct (isFConnectLike op); [by exists st0|].
        destruct (hasUnknownSideEffect op); [|by exists st0].
        eexists; split; [done|]. unfold markUnknownSideEffectOp. simpl.
        by rewrite !markAliveAll_executable. }
      destruct (opKind op); try exact Hplain.
      destruct (circuit !! moduleName) as [referenced|]; [|by exists st0].
      destruct (isFModule referenced).
      - destruct (IH moduleName st0 Hst0) as (st5 & -> & Hsub).
        eexists; split; [done|]. by rewrite afterCalleeMarked_executable.
      - eexists; split; [done|]. by rewrite markExtInstanceOp_executable. }
    destruct Hstep as (st4 & -> & Hsub4).
    destruct (IHops st4) as (st' & -> & Hsub').
    - pose proof (notYetExecutable_mono _ _ Hsub4). lia.
    - exists st'. split; [done|]. by transitivity (executableBlocks st4). }
  destruct (Hloop (body fmodule) st3) as (st' & Hrun & Hsub).
  - pose proof (notYetExecutable_mono st1 st3) as Hm.
    rewrite H3 in Hm. specialize (Hm (reflexivity _)). lia.
  - exists st'. split; [exact Hrun|].
    rewrite H3 in Hsub. transitivity (executableBlocks st1); [|done].
    subst st1. simpl. apply union_subseteq_r.
Qed.

Lemma markPublicModules_terminates fuel :
  (length circuit < fuel)%nat →
  ∃ st0, markPublicModules circuit fuel initialPass = Some st0.
Proof.
  intros Hfuel. unfold markPublicModules.
  assert (Hbound : ∀ st, (notYetExecutable circuit st ≤ length circuit)%nat).
  { intros st. unfold notYetExecutable.
    etransitivity; [apply List.filter_length_le|]. by rewrite length_seq. }
  generalize initialPass.
  induction (imap (λ i m, (i, m)) circuit) as [|[block module] l IH];
    intros st; simpl; [by exists st|].
  destruct (isFModule module && isPublic module); [|apply IH].
  destruct (markBlockExecutable_terminates fuel block st) as (st' & -> & _).
  { specialize (Hbound st). lia. }
  simpl. apply IH.
Qed.

(** C6: (1) an input port that became alive leaves the result of every
    instance that is not known alive in that instance's pending list;
    (2) whenever a turn of the worklist loop makes an instance alive, every
    port pending for it is alive after the turn; (3) the other way an
    instance becomes alive, [markAlive(InstanceOp)] in the initial scans,
    happens while no port is pending: the scans never touch the pending
    lists, which are empty when the worklist loop starts; (4) the initial
    scans return, with fuel above the number of modules; (5) so at every
    state of the worklist loop the pending ports of live instances are
    alive. *)
Theorem pending_input_ports_are_queued_and_flushed :
  (∀ st block argNumber module instance resultNo,
     circuit !! block = Some module →
     getPortDirection module argNumber = Some In →
     OpResult instance resultNo ∈
       default [] (resultPortToInstanceResultMapping st
                     !! BlockArgument block argNumber) →
     instance ∉ liveInstances st →
     OpResult instance resultNo ∈
       pendingOf (visitValue circuit (BlockArgument block argNumber) st) instance) ∧
  (∀ st instance port,
     instance ∉ liveInstances st →
     instance ∈ liveInstances (solveStep circuit st) →
     port ∈ pendingOf st instance →
     port ∈ liveValues (solveStep circuit st)) ∧
  (∀ fuel block st st',
     markBlockExecutable circuit fuel block st = Some st' →
     lazyLiveInputPorts st' = lazyLiveInputPorts st) ∧
  (∃ st0, markPublicModules circuit (S (length circuit)) initialPass = Some st0) ∧
  (∀ fuel st0,
     markPublicModules circuit fuel initialPass = Some st0 →
     lazyLiveInputPorts st0 = ∅ ∧
     ∀ n, pendingPortsOfLiveInstancesAlive (Nat.iter n (solveStep circuit) st0)).
Proof.
  split_and!.
  - intros st block argNumber module instance resultNo.
    apply visitValue_queues.
  - intros st instance port Hdead Halive Hpend. unfold solveStep in *.
    destruct (valueWorklist st) as [|value rest]; [done|].
    by apply (visitValue_flushes value (setValueWorklist rest st) instance).
  - apply keepsPending_markBlockExecutable.
  - apply markPublicModules_terminates. lia.
  - intros fuel st0 Hseed.
    pose proof (markPublicModules_no_pending fuel st0 Hseed) as Hempty.
    split; [done|].
    induction n as [|n IH]; simpl.
    + intros instance port _ Hpend. unfold pendingOf in Hpend.
      rewrite Hempty, lookup_empty in Hpend. by apply elem_of_nil in Hpend.
    + by apply solveStep_pendingAlive.
Qed.

End LivenessProperties.


(** *** The order of the phases *)

Lemma foldl_log {A} (f : A → Phase) (l : list A) (log : list Phase) :
  foldl (λ log a, log ++ [f a]) log l = log ++ map f l.
Proof.
  revert log. induction l as [|a l IH]; intros log; simpl.
  - by rewrite app_nil_r.
  - by rewrite IH, <- app_assoc.
Qed.

Lemma schedule_eq (circuit : CircuitOp) (postOrder : list nat) :
  schedule circuit postOrder =
    (map ForwardConstantOutputPort (List.filter (isFModuleName circuit) postOrder)
       ++ [Liveness]
       ++ map RewriteModuleSignature (fModuleOps circuit))
    ++ map RewriteModuleBody (fModuleOps circuit)
    ++ map EraseEmptyModule (List.filter (isFModuleName circuit) postOrder).
Proof.
  unfold schedule, runOnOperation.
  rewrite !foldl_log. simpl. by rewrite <- !app_assoc.
Qed.

Lemma lookup_app_left_only (l1 l2 : list Phase) i x (P : Phase → Prop) :
  (l1 ++ l2) !! i = Some x → P x → (∀ y, y ∈ l2 → ¬ P y) →
  (i < length l1)%nat.
Proof.
  intros Hi HP Hnot. destruct (decide (i < length l1)%nat) as [|Hge]; [done|].
  rewrite lookup_app_r in Hi by lia.
  apply list_elem_of_lookup_2 in Hi. by destruct (Hnot x Hi).
Qed.

Lemma lookup_app_right_only (l1 l2 : list Phase) i x (P : Phase → Prop) :
  (l1 ++ l2) !! i = Some x → P x → (∀ y, y ∈ l1 → ¬ P y) →
  (length l1 ≤ i)%nat.
Proof.
  intros Hi HP Hnot. destruct (decide (length l1 ≤ i)%nat) as [|Hlt]; [done|].
  rewrite lookup_app_l in Hi by lia.
  apply list_elem_of_lookup_2 in Hi. by destruct (Hnot x Hi).
Qed.

(** C7, counterexample: for a circuit of one module the signature of the
    module is rewritten before its body. *)
Lemma signature_rewrite_precedes_body_rewrite :
  schedule [mkModule true true true [] []] [0%nat] =
    [ForwardConstantOutputPort 0; Liveness; RewriteModuleSignature 0;
     RewriteModuleBody 0; EraseEmptyModule 0].
Proof. reflexivity. Qed.

(** C7, amended: every signature rewrite (dead-instance erasure, port
    pruning, replacement of instances in the instance graph) runs before
    every body rewrite, and the erasure of empty modules, the only other
    phase that edits the instance graph, runs after every body rewrite: no
    signature or instance-graph mutation falls between two body rewrites. *)
Theorem body_rewrites_run_between_signature_rewrites_and_erasure
    (circuit : CircuitOp) (postOrder : list nat) :
  (∀ i j m m',
     schedule circuit postOrder !! i = Some (RewriteModuleSignature m) →
     schedule circuit postOrder !! j = Some (RewriteModuleBody m') →
     (i < j)%nat) ∧
  (∀ i j m m',
     schedule circuit postOrder !! i = Some (RewriteModuleBody m) →
     schedule circuit postOrder !! j = Some (EraseEmptyModule m') →
     (i < j)%nat) ∧
  (∀ i j k p m m',
     schedule circuit postOrder !! i = Some (RewriteModuleBody m) →
     schedule circuit postOrder !! k = Some (RewriteModuleBody m') →
     schedule circuit postOrder !! j = Some p →
     (i < j < k)%nat →
     mutatesSignatureOrInstanceGraph p = false).
Proof.
  rewrite schedule_eq.
  set (before := map ForwardConstantOutputPort
                     (List.filter (isFModuleName circuit) postOrder)
                   ++ [Liveness]
                   ++ map RewriteModuleSignature (fModuleOps circuit)).
  set (bodies := map RewriteModuleBody (fModuleOps circuit)).
  set (after := map EraseEmptyModule (List.filter (isFModuleName circuit) postOrder)).
  assert (Hbefore : ∀ y, y ∈ before → ∀ m, y ≠ RewriteModuleBody m ∧ y ≠ EraseEmptyModule m).
  { intros y Hy m. subst before.
    rewrite !elem_of_app, !list_elem_of_fmap, list_elem_of_singleton in Hy.
    destruct Hy as [(? & -> & _) | [-> | (? & -> & _)]]; done. }
  assert (Hbodies : ∀ y, y ∈ bodies → ∃ m, y = RewriteModuleBody m).
  { intros y Hy. subst bodies. apply list_elem_of_fmap in Hy as (m & -> & _). eauto. }
  assert (Hafter : ∀ y, y ∈ after → ∃ m, y = EraseEmptyModule m).
  { intros y Hy. subst after. apply list_elem_of_fmap in Hy as (m & -> & _). eauto. }
  assert (Hsig : ∀ i m, (before ++ bodies ++ after) !! i = Some (RewriteModuleSignature m) →
                        (i < length before)%nat).
  { intros i m Hi.
    apply (lookup_app_left_only _ _ _ _ (λ p, ∃ m, p = RewriteModuleSignature m) Hi);
      [eauto|].
    intros y Hy [m0 ->]. apply elem_of_app in Hy as [Hy | Hy].
    - by destruct (Hbodies _ Hy).
    - by destruct (Hafter _ Hy). }
  assert (Hbody : ∀ i m, (before ++ bodies ++ after) !! i = Some (RewriteModuleBody m) →
                         (length before ≤ i < length before + length bodies)%nat).
  { intros i m Hi. split.
    - apply (lookup_app_right_only _ _ _ _ (λ p, ∃ m, p = RewriteModuleBody m) Hi);
        [eauto|].
      intros y Hy [m0 ->]. by destruct (Hbefore _ Hy m0).
    - rewrite app_assoc in Hi. rewrite <- length_app.
      apply (lookup_app_left_only _ _ _ _ (λ p, ∃ m, p = RewriteModuleBody m) Hi);
        [eauto|].
      intros y Hy [m0 ->]. by destruct (Hafter _ Hy). }
  assert (Herase : ∀ i m, (before ++ bodies ++ after) !! i = Some (EraseEmptyModule m) →
                          (length before + length bodies ≤ i)%nat).
  { intros i m Hi. rewrite app_assoc in Hi. rewrite <- length_app.
    apply (lookup_app_right_only _ _ _ _ (λ p, ∃ m, p = EraseEmptyModule m) Hi);
      [eauto|].
    intros y Hy [m0 ->]. apply elem_of_app in Hy as [Hy | Hy].
    - by destruct (Hbefore _ Hy m0).
    - by destruct (Hbodies _ Hy). }
  split_and!.
  - intros i j m m' Hi Hj. apply Hsig in Hi. apply Hbody in Hj. lia.
  - intros i j m m' Hi Hj. apply Hbody in Hi. apply Herase in Hj. lia.
  - intros i j k p m m' Hi Hk Hj Hlt.
    apply Hbody in Hi. apply Hbody in Hk.
    destruct p as [m0| |m0|m0|m0]; try done.
    + apply Hsig in Hj. lia.
    + apply Herase in Hj. lia.
Qed.


(** *** A run in which a port waits for its instance *)

(** After four turns the input port of the child is alive while the first
    instance is not: its input result waits in the pending list, not alive.
    After eight turns the output of the first instance made it alive, and
    the waiting result is alive.  The loop ends after nine turns. *)
Example pending_port_waits_then_is_flushed :
  ∃ st0, markPublicModules waitingCircuit 5 initialPass = Some st0 ∧
    let st4 := Nat.iter 4 (solveStep waitingCircuit) st0 in
    let st8 := Nat.iter 8 (solveStep waitingCircuit) st0 in
    (isKnownAlive st4 (BlockArgument 1 0) = true ∧
     bool_decide (1%nat ∈ liveInstances st4) = false ∧
     pendingOf st4 1 = [OpResult 1 0] ∧
     isKnownAlive st4 (OpResult 1 0) = false) ∧
    (bool_decide (1%nat ∈ liveInstances st8) = true ∧
     isKnownAlive st8 (OpResult 1 0) = true) ∧
    solve waitingCircuit 9 st0 = Some (Nat.iter 9 (solveStep waitingCircuit) st0).
Proof.
  eexists. split; [vm_compute; reflexivity|].
  split_and!; vm_compute; reflexivity.
Qed.


(** *** The worklist loop: what a visit establishes *)

Lemma grows_refl st : grows st st.
Proof. split_and!; try done; auto. Qed.

Lemma grows_trans st1 st2 st3 : grows st1 st2 → grows st2 st3 → grows st1 st3.
Proof.
  intros (Hv & Hi & Hp & Hm & Hw & Hn & Ho & He & Hu)
         (Hv' & Hi' & Hp' & Hm' & Hw' & Hn' & Ho' & He' & Hu').
  split_and!; [| | | | | | |congruence|congruence].
  - by transitivity (liveValues st2).
  - by transitivity (liveInstances st2).
  - auto.
  - congruence.
  - auto.
  - intros v Hin. destruct (Hn' v Hin) as [H2|H3]; [|by right].
    destruct (Hn v H2) as [H1|H1]; [by left|right; auto].
  - intros v Hin. destruct (Ho' v Hin) as [H2|[H3 Hnot]].
    + destruct (Ho v H2) as [H1|[H1 Hnot]]; [by left|right; split; auto].
    + right. split; [done|]. intros H1. apply Hnot. by apply Hv.
Qed.

Lemma grows_foldl {A} (f : IMDeadCodeElimPass → A → IMDeadCodeElimPass) l :
  (∀ st a, grows st (f st a)) → ∀ st, grows st (foldl f st l).
Proof.
  intros Hf. induction l as [|a l IH]; intros st; simpl.
  - apply grows_refl.
  - eapply grows_trans; [apply Hf | apply IH].
Qed.

Lemma markAlive_grows value st : grows st (markAlive value st).
Proof.
  unfold markAlive, isKnownAlive. case_bool_decide as Halive.
  - apply grows_refl.
  - split_and!; simpl; try done.
    + apply union_subseteq_r.
    + intros v Hin. by apply elem_of_cons; right.
    + intros v [Hin%elem_of_singleton | Hin]%elem_of_union; [|by left].
      right. subst. by apply elem_of_cons; left.
    + intros v [-> | Hin]%elem_of_cons; [|by left].
      right. split; [|done]. by apply elem_of_union_l, elem_of_singleton.
Qed.

Lemma markAliveAll_grows values st : grows st (markAliveAll values st).
Proof. apply grows_foldl. intros st' a. apply markAlive_grows. Qed.

Lemma pushLazy_grows instance port st : grows st (pushLazy instance port st).
Proof.
  split_and!; simpl; try done; auto.
  intros i p Hin. rewrite pendingOf_pushLazy. case_decide; [|done].
  subst. apply elem_of_app. by left.
Qed.

Lemma insertLiveInstance_grows instance st : grows st (insertLiveInstance instance st).
Proof. split_and!; simpl; try done; auto. apply union_subseteq_r. Qed.

Lemma visitUser_grows op st : grows st (visitUser op st).
Proof.
  unfold visitUser, visitConnect, visitSubelement.
  destruct (isFConnectLike op).
  - destruct (operands op) as [|dest [|src rest]]; try apply grows_refl.
    destruct (isKnownAlive st dest); [apply markAlive_grows | apply grows_refl].
  - destruct (isSubelement op); [|apply grows_refl].
    destruct (operands op) as [|input rest]; [apply grows_refl|].
    destruct (isKnownAlive st input); [apply markAlive_grows | apply grows_refl].
Qed.

Section Closure.

Variable circuit : CircuitOp.

Lemma propagateToInstances_grows blockArg st :
  grows st (propagateToInstances blockArg st).
Proof.
  unfold propagateToInstances.
  generalize (default [] (resultPortToInstanceResultMapping st !! blockArg)).
  intros l. apply grows_foldl. intros st' [b n|instance resultNo].
  - apply grows_refl.
  - case_bool_decide; [apply markAlive_grows | apply pushLazy_grows].
Qed.

Lemma visitValue_grows value st : grows st (visitValue circuit value st).
Proof.
  unfold visitValue. cbv zeta.
  set (st1 := foldl (λ st user, visitUser user st) st (getUsers circuit value)).
  apply (grows_trans st st1).
  { apply (grows_foldl (λ st user, visitUser user st)). intros; apply visitUser_grows. }
  clearbody st1.
  destruct value as [block argNumber|o resultNumber].
  - destruct (circuit !! block) as [module|]; [|apply grows_refl].
    destruct (getPortDirection module argNumber) as [[]|]; try apply grows_refl.
    apply propagateToInstances_grows.
  - destruct (getDefiningOp circuit (OpResult o resultNumber)) as [op|];
      [|apply grows_refl].
    destruct (opKind op); try apply markAliveAll_grows.
    destruct (circuit !! moduleName) as [module|]; [|apply grows_refl].
    destruct (isFModule module); simpl; [|apply grows_refl].
    assert (Hflush : grows st1
              (if bool_decide (opId op ∈ liveInstances st1) then st1
               else markAliveAll (pendingOf st1 (opId op))
                                 (insertLiveInstance (opId op) st1))).
    { case_bool_decide; [apply grows_refl|].
      eapply grows_trans; [apply insertLiveInstance_grows | apply markAliveAll_grows]. }
    destruct (getPortDirection module resultNumber) as [[]|]; try apply grows_refl;
      (eapply grows_trans; [exact Hflush | apply markAlive_grows]).
Qed.

Lemma closedAt_grows st st' v : grows st st' → closedAt circuit st v → closedAt circuit st' v.
Proof.
  intros (Hv & Hi & Hp & Hm & _) (Hc & Hs & Hin & Hdef).
  split_and!.
  - intros op src rest ???. apply Hv. eauto.
  - intros op rest ????. apply Hv. eauto.
  - intros block argNumber module instance resultNo -> Hmod Hdir Hmem.
    rewrite Hm in Hmem.
    destruct (Hin block argNumber module instance resultNo eq_refl Hmod Hdir Hmem);
      [left; by apply Hv | right; by apply Hp].
  - intros op Hop. specialize (Hdef op Hop).
    destruct (opKind op); try (intros x Hx; apply Hv; by apply Hdef).
    intros module resultNumber Heq Hmod Hf Hdir.
    destruct (Hdef module resultNumber Heq Hmod Hf Hdir). split; [by apply Hi | by apply Hv].
Qed.

Lemma elem_of_getUsers op value :
  op ∈ getUsers circuit value ↔ op ∈ concat (map body circuit) ∧ value ∈ operands op.
Proof.
  unfold getUsers. rewrite list_elem_of_In, in_flat_map. split.
  - intros (op' & Hin & Huse). apply in_flat_map in Huse as (operand & Hoperand & Hsel).
    case_bool_decide; [|by destruct Hsel]. destruct Hsel as [<-|[]]. subst.
    split; by apply list_elem_of_In.
  - intros [Hin Huse]. exists op. split; [by apply list_elem_of_In|].
    apply in_flat_map. exists value. split; [by apply list_elem_of_In|].
    rewrite bool_decide_eq_true_2 by done. by left.
Qed.

(** After the users of the alive value [v] are visited: the source of every
    connect into [v] is alive, and so is the result of every subelement
    operation that reads [v]. *)
Lemma visitUsers_closes (users : list Operation) v st :
  v ∈ liveValues st →
  let st' := foldl (λ st user, visitUser user st) st users in
  (∀ op src rest, op ∈ users → isFConnectLike op = true →
     operands op = v :: src :: rest → src ∈ liveValues st') ∧
  (∀ op rest, op ∈ users → isFConnectLike op = false → isSubelement op = true →
     operands op = v :: rest → OpResult (opId op) 0 ∈ liveValues st').
Proof.
  revert st. induction users as [|user users IH]; intros st Halive; simpl.
  { split; intros; by match goal with H : _ ∈ [] |- _ => apply elem_of_nil in H end. }
  pose proof (visitUser_grows user st) as (Hv1 & _).
  destruct (IH (visitUser user st) (Hv1 _ Halive)) as [IHc IHs].
  pose proof (grows_foldl (λ st user, visitUser user st) users
                (λ st a, visitUser_grows a st) (visitUser user st)) as (Hv2 & _).
  split.
  - intros op src rest [-> | Hin]%elem_of_cons Hconn Hops; [|by eapply IHc].
    apply Hv2. unfold visitUser, visitConnect. rewrite Hconn, Hops.
    unfold isKnownAlive. rewrite bool_decide_eq_true_2 by done.
    apply markAlive_alive.
  - intros op rest [-> | Hin]%elem_of_cons Hconn Hsub Hops; [|by eapply IHs].
    apply Hv2. unfold visitUser, visitSubelement. rewrite Hconn, Hsub, Hops.
    unfold isKnownAlive. rewrite bool_decide_eq_true_2 by done.
    apply markAlive_alive.
Qed.

Lemma visitValue_closes v st :
  v ∈ liveValues st → closedAt circuit (visitValue circuit v st) v.
Proof.
  intros Halive.
  destruct (visitUsers_closes (getUsers circuit v) v st Halive) as [Hc Hs].
  pose proof (grows_foldl (λ st user, visitUser user st) (getUsers circuit v)
                (λ st a, visitUser_grows a st) st) as Hg1.
  unfold visitValue.
  set (st1 := foldl (λ st user, visitUser user st) st (getUsers circuit v)) in *.
  set (st' := match v with BlockArgument _ _ => _ | OpResult _ _ => _ end).
  assert (Hg2 : grows st1 st').
  { subst st'. clearbody st1. destruct v as [block argNumber|o resultNumber].
    - destruct (circuit !! block) as [module|]; [|apply grows_refl].
      destruct (getPortDirection module argNumber) as [[]|]; try apply grows_refl.
      apply propagateToInstances_grows.
    - destruct (getDefiningOp circuit (OpResult o resultNumber)) as [op|];
        [|apply grows_refl].
      destruct (opKind op); try apply markAliveAll_grows.
      destruct (circuit !! moduleName) as [module|]; [|apply grows_refl].
      destruct (isFModule module); simpl; [|apply grows_refl].
      assert (Hflush : grows st1
                (if bool_decide (opId op ∈ liveInstances st1) then st1
                 else markAliveAll (pendingOf st1 (opId op))
                                   (insertLiveInstance (opId op) st1))).
      { case_bool_decide; [apply grows_refl|].
        eapply grows_trans; [apply insertLiveInstance_grows | apply markAliveAll_grows]. }
      destruct (getPortDirection module resultNumber) as [[]|]; try apply grows_refl;
        (eapply grows_trans; [exact Hflush | apply markAlive_grows]). }
  destruct Hg2 as (Hv2 & Hi2 & Hp2 & Hm2 & _).
  split_and!.
  - intros op src rest Hin Hconn Hops. apply Hv2. eapply Hc; eauto.
    apply elem_of_getUsers. split; [done|]. rewrite Hops. by apply elem_of_cons; left.
  - intros op rest Hin Hconn Hsub Hops. apply Hv2. eapply Hs; eauto.
    apply elem_of_getUsers. split; [done|]. rewrite Hops. by apply elem_of_cons; left.
  - intros block argNumber module instance resultNo Heq Hmod Hdir Hmem.
    subst v st'. rewrite Hmod, Hdir in *.
    destruct (propagateToInstances_loop
                (default [] (resultPortToInstanceResultMapping st1
                               !! BlockArgument block argNumber)) st1)
      as (_ & _ & _ & _ & Hres).
    rewrite Hm2 in Hmem. specialize (Hres instance resultNo Hmem).
    unfold propagateToInstances.
    case_bool_decide; [by left | by right].
  - intros op Hop. subst st'. destruct v as [block argNumber|o resultNumber]; [done|].
    rewrite Hop.
    destruct (opKind op) eqn:Hkind;
      try (intros x Hx; by apply markAliveAll_alive).
    intros module resultNumber' [= Ho <-] Hmod Hf Hdir.
    rewrite Hmod, Hf. simpl.
    set (st2 := if bool_decide (opId op ∈ liveInstances st1) then st1
                else markAliveAll (pendingOf st1 (opId op))
                                  (insertLiveInstance (opId op) st1)).
    assert (Hlive : opId op ∈ liveInstances st2).
    { subst st2. case_bool_decide; [done|].
      destruct (markAliveAll_onlyAdds (pendingOf st1 (opId op))
                  (insertLiveInstance (opId op) st1)) as (-> & _).
      simpl. by apply elem_of_union_l, elem_of_singleton. }
    destruct (getPortDirection module resultNumber) as [[]|] eqn:Hd; [done| |].
    + split; [|apply markAlive_alive].
      by destruct (markAlive_onlyAdds (BlockArgument moduleName resultNumber) st2) as (-> & _).
    + split; [|apply markAlive_alive].
      by destruct (markAlive_onlyAdds (BlockArgument moduleName resultNumber) st2) as (-> & _).
Qed.

Lemma solveStep_grows_popped st v rest :
  valueWorklist st = v :: rest →
  grows (setValueWorklist rest st) (solveStep circuit st).
Proof. intros Hwl. unfold solveStep. rewrite Hwl. apply visitValue_grows. Qed.

Lemma solveStep_visitedOrQueued st :
  visitedOrQueued circuit st → visitedOrQueued circuit (solveStep circuit st).
Proof.
  intros Hinv. pose proof Hinv as [Hq Hvis].
  destruct (valueWorklist st) as [|v rest] eqn:Hwl.
  { unfold solveStep. by rewrite Hwl. }
  pose proof (solveStep_grows_popped st v rest Hwl) as Hg.
  pose proof Hg as (Hv & Hi & Hp & Hm & Hw & Hn & Ho & _).
  assert (Hvalive : v ∈ liveValues st) by (apply Hq; rewrite ?Hwl; by apply elem_of_cons; left).
  split.
  - intros x Hx. destruct (Ho x Hx) as [Hrest | [Hnew _]]; [|done].
    apply Hv. simpl. apply Hq. rewrite ?Hwl. by apply elem_of_cons; right.
  - intros x Hx Hnot. destruct (Hn x Hx) as [Hold | Hnew]; [|done]. simpl in Hold.
    destruct (decide (x = v)) as [->|Hne].
    + unfold solveStep. rewrite Hwl. by apply visitValue_closes.
    + assert (Hnotst : x ∉ v :: rest).
      { intros [-> | Hin]%elem_of_cons; [done|]. apply Hnot, Hw. done. }
      specialize (Hvis x Hold Hnotst).
      apply (closedAt_grows (setValueWorklist rest st)); [done|].
      destruct Hvis as (H1 & H2 & H3 & H4). split_and!; done.
Qed.

Lemma solve_visitedOrQueued fuel :
  ∀ st st', solve circuit fuel st = Some st' →
            visitedOrQueued circuit st →
            visitedOrQueued circuit st' ∧ valueWorklist st' = [].
Proof.
  induction fuel as [|fuel IH]; intros st st' Hsolve Hinv; simpl in Hsolve.
  - destruct (valueWorklist st) eqn:Hwl; [|done]. by inversion Hsolve; subst.
  - destruct (valueWorklist st) eqn:Hwl; [by inversion Hsolve; subst|].
    apply (IH _ _ Hsolve). by apply solveStep_visitedOrQueued.
Qed.

End Closure.

(** *** The worklist loop: it ends *)

Lemma elem_of_getResults op v :
  v ∈ getResults op ↔
  ∃ i, (i < length (resultTypes op))%nat ∧ v = OpResult (opId op) i.
Proof.
  unfold getResults. rewrite elem_of_lookup_imap. split.
  - intros (i & t & -> & Hi). exists i. split; [by eapply lookup_lt_Some|done].
  - intros (i & Hi & ->). destruct (lookup_lt_is_Some_2 _ _ Hi) as [t Ht]. eauto.
Qed.

Lemma elem_of_concat {A} (x : A) (ls : list (list A)) :
  x ∈ concat ls ↔ ∃ l, l ∈ ls ∧ x ∈ l.
Proof.
  rewrite list_elem_of_In, in_concat. split.
  - intros (l & Hl & Hx). exists l. by rewrite !list_elem_of_In.
  - intros (l & Hl & Hx). exists l. by rewrite <- !list_elem_of_In.
Qed.

Section Universe.

Variable circuit : CircuitOp.

Lemma circuitValues_argument block module v :
  circuit !! block = Some module → v ∈ getArguments block module →
  v ∈ circuitValues circuit.
Proof.
  intros Hmod Hin. apply elem_of_app. left.
  apply elem_of_concat. exists (getArguments block module). split; [|done].
  by apply (elem_of_lookup_imap_2 getArguments circuit module block).
Qed.

Lemma allOps_body block module op :
  circuit !! block = Some module → op ∈ body module →
  op ∈ concat (map body circuit).
Proof.
  intros Hmod Hin. apply elem_of_concat. exists (body module). split; [|done].
  apply (list_elem_of_fmap_2 body). by eapply list_elem_of_lookup_2.
Qed.

Lemma circuitValues_op op v :
  op ∈ concat (map body circuit) →
  v ∈ OpResult (opId op) 0 :: getResults op ++ operands op →
  v ∈ circuitValues circuit.
Proof.
  intros Hop Hin. apply elem_of_app. right.
  apply list_elem_of_In, in_flat_map. exists op.
  split; by apply list_elem_of_In.
Qed.

Lemma circuitValues_result op v :
  op ∈ concat (map body circuit) → v ∈ getResults op → v ∈ circuitValues circuit.
Proof.
  intros Hop Hin. apply (circuitValues_op op); [done|].
  apply elem_of_cons. right. apply elem_of_app. by left.
Qed.

Lemma circuitValues_operand op v :
  op ∈ concat (map body circuit) → v ∈ operands op → v ∈ circuitValues circuit.
Proof.
  intros Hop Hin. apply (circuitValues_op op); [done|].
  apply elem_of_cons. right. apply elem_of_app. by right.
Qed.

Lemma circuitValues_first_result op :
  op ∈ concat (map body circuit) → OpResult (opId op) 0 ∈ circuitValues circuit.
Proof.
  intros Hop. apply (circuitValues_op op); [done|]. apply elem_of_cons. by left.
Qed.

Lemma reachableValues_circuitValues v :
  v ∈ circuitValues circuit → v ∈ reachableValues circuit.
Proof. intros Hin. apply elem_of_app. by left. Qed.

Lemma reachableValues_result o k :
  OpResult o k ∈ reachableValues circuit → OpResult o k ∈ circuitValues circuit.
Proof.
  intros [Hin | Hin]%elem_of_app; [done|].
  apply list_elem_of_In, in_flat_map in Hin as (v & _ & Hin).
  unfold calleePort in Hin. destruct v; [done|].
  destruct (getDefiningOp _ _); [|done]. destruct (opKind _); try done.
  by destruct Hin as [|[]].
Qed.

Lemma reachableValues_calleePort o k op moduleName :
  OpResult o k ∈ circuitValues circuit →
  getDefiningOp circuit (OpResult o k) = Some op →
  opKind op = InstanceOp moduleName →
  BlockArgument moduleName k ∈ reachableValues circuit.
Proof.
  intros Hin Hdef Hkind. apply elem_of_app. right.
  apply list_elem_of_In, in_flat_map. exists (OpResult o k).
  split; [by apply list_elem_of_In|].
  unfold calleePort. rewrite Hdef, Hkind. by left.
Qed.

Lemma findOp_elem_of ops id op : findOp ops id = Some op → op ∈ ops.
Proof.
  unfold findOp. intros H. apply find_some in H as [H _]. by apply list_elem_of_In.
Qed.

Lemma getDefiningOp_allOps v op :
  getDefiningOp circuit v = Some op → op ∈ concat (map body circuit).
Proof. destruct v; [done|]. apply findOp_elem_of. Qed.

(** ** The potential never grows *)

Lemma bounded_markAlive n v st :
  v ∈ reachableValues circuit → bounded circuit n st →
  bounded circuit n (markAlive v st).
Proof.
  intros HU (Hlive & Hmap & Hpend & Hpot).
  unfold markAlive, isKnownAlive. case_bool_decide as Halive; [done|].
  split_and!; simpl; try done.
  - intros x [->%elem_of_singleton | Hx]%elem_of_union; auto.
  - unfold potential in *. simpl.
    assert (size ((list_to_set (reachableValues circuit) : gset Value)
                    ∖ ({[v]} ∪ liveValues st))
            < size ((list_to_set (reachableValues circuit) : gset Value)
                    ∖ liveValues st))%nat; [|lia].
    apply subset_size. split.
    + intros x [Hx Hnot]%elem_of_difference. apply elem_of_difference.
      split; [done|]. intros Hx'. apply Hnot. by apply elem_of_union_r.
    + intros Hsub. specialize (Hsub v).
      rewrite !elem_of_difference, elem_of_union, elem_of_singleton in Hsub.
      destruct Hsub as [_ Hsub]; [|by apply Hsub; left].
      split; [by apply elem_of_list_to_set|done].
Qed.

Lemma bounded_markAliveAll n values st :
  (∀ v, v ∈ values → v ∈ reachableValues circuit) → bounded circuit n st →
  bounded circuit n (markAliveAll values st).
Proof.
  unfold markAliveAll. revert st.
  induction values as [|v values IH]; intros st HU Hb; simpl; [done|].
  apply IH.
  - intros x Hx. apply HU. by apply elem_of_cons; right.
  - apply bounded_markAlive; [|done]. apply HU. by apply elem_of_cons; left.
Qed.

Lemma bounded_pushLazy n instance port st :
  port ∈ circuitValues circuit → bounded circuit n st →
  bounded circuit n (pushLazy instance port st).
Proof.
  intros HU (Hlive & Hmap & Hpend & Hpot). split_and!; try done.
  intros i r. rewrite pendingOf_pushLazy. case_decide; [|apply Hpend].
  intros [Hr | ->%list_elem_of_singleton]%elem_of_app; [by eapply Hpend|done].
Qed.

Lemma bounded_insertLiveInstance n instance st :
  bounded circuit n st → bounded circuit n (insertLiveInstance instance st).
Proof. by intros (Hlive & Hmap & Hpend & Hpot). Qed.

Lemma bounded_visitUser n op st :
  op ∈ concat (map body circuit) → bounded circuit n st →
  bounded circuit n (visitUser op st).
Proof.
  intros Hop Hb. unfold visitUser, visitConnect, visitSubelement.
  destruct (isFConnectLike op).
  - destruct (operands op) as [|dest [|src rest]] eqn:Hops; try done.
    destruct (isKnownAlive st dest); [|done].
    apply bounded_markAlive; [|done].
    apply reachableValues_circuitValues, (circuitValues_operand op); [done|].
    rewrite Hops. apply elem_of_cons; right. by apply elem_of_cons; left.
  - destruct (isSubelement op); [|done].
    destruct (operands op) as [|input rest]; [done|].
    destruct (isKnownAlive st input); [|done].
    apply bounded_markAlive; [|done].
    by apply reachableValues_circuitValues, circuitValues_first_result.
Qed.

Lemma bounded_foldl {A} n (f : IMDeadCodeElimPass → A → IMDeadCodeElimPass)
    (Q : A → Prop) l :
  (∀ st a, Q a → bounded circuit n st → bounded circuit n (f st a)) →
  (∀ a, a ∈ l → Q a) →
  ∀ st, bounded circuit n st → bounded circuit n (foldl f st l).
Proof.
  intros Hf. induction l as [|a l IH]; intros HQ st Hb; simpl; [done|].
  apply IH.
  - intros x Hx. apply HQ. by apply elem_of_cons; right.
  - apply Hf; [|done]. apply HQ. by apply elem_of_cons; left.
Qed.

Lemma bounded_visitValue n v st :
  v ∈ liveValues st → bounded circuit n st →
  bounded circuit n (visitValue circuit v st).
Proof.
  intros Halive Hb. unfold visitValue. cbv zeta.
  set (st1 := foldl (λ st user, visitUser user st) st (getUsers circuit v)).
  assert (Hb1 : bounded circuit n st1).
  { apply (bounded_foldl n (λ st user, visitUser user st)
             (λ op, op ∈ concat (map body circuit))); [| |done].
    - intros st' op Hop. by apply bounded_visitUser.
    - intros op Hop. by apply elem_of_getUsers in Hop as [Hop _]. }
  assert (HvU : v ∈ reachableValues circuit) by (by destruct Hb as (Hlive & _); apply Hlive).
  clearbody st1. clear Hb Halive st.
  destruct v as [block argNumber|o resultNumber].
  - destruct (circuit !! block) as [module|]; [|done].
    destruct (getPortDirection module argNumber) as [[]|]; try done.
    unfold propagateToInstances.
    apply (bounded_foldl n _ (λ r, r ∈ circuitValues circuit)); [| |done].
    + intros st' [b k|instance resultNo] Hr Hb'; [done|].
      case_bool_decide; [|by apply bounded_pushLazy].
      by apply bounded_markAlive; [apply reachableValues_circuitValues|].
    + intros r Hr. destruct Hb1 as (_ & Hmap & _). eauto.
  - destruct (getDefiningOp circuit (OpResult o resultNumber)) as [op|] eqn:Hdef;
      [|done].
    pose proof (getDefiningOp_allOps _ _ Hdef) as Hop.
    assert (Hoperands : bounded circuit n (markAliveAll (operands op) st1)).
    { apply bounded_markAliveAll; [|done]. intros x Hx.
      by apply reachableValues_circuitValues, (circuitValues_operand op). }
    destruct (opKind op) eqn:Hkind; try exact Hoperands.
    + apply bounded_markAliveAll; [|done]. intros x Hx.
      by apply reachableValues_circuitValues, (circuitValues_result op).
    + destruct (circuit !! moduleName) as [module|]; [|done].
      destruct (isFModule module); simpl; [|done].
      assert (Hflush : bounded circuit n
                (if bool_decide (opId op ∈ liveInstances st1) then st1
                 else markAliveAll (pendingOf st1 (opId op))
                                   (insertLiveInstance (opId op) st1))).
      { case_bool_decide; [done|].
        apply bounded_markAliveAll; [|by apply bounded_insertLiveInstance].
        intros x Hx. destruct Hb1 as (_ & _ & Hpend & _).
        apply reachableValues_circuitValues. eauto. }
      assert (Hport : BlockArgument moduleName resultNumber ∈ reachableValues circuit).
      { eapply reachableValues_calleePort; [|done..].
        by apply reachableValues_result. }
      destruct (getPortDirection module resultNumber) as [[]|]; try done;
        by apply bounded_markAlive.
Qed.

Lemma bounded_solveStep n st v rest :
  valueWorklist st = v :: rest → v ∈ liveValues st →
  bounded circuit (S n) st → bounded circuit n (solveStep circuit st).
Proof.
  intros Hwl Halive (Hlive & Hmap & Hpend & Hpot).
  unfold solveStep. rewrite Hwl. apply bounded_visitValue; [done|].
  split_and!; try done.
  unfold potential in *. rewrite Hwl in Hpot. simpl in *. lia.
Qed.

Lemma bounded_pending n st : bounded circuit n st → valueWorklist st ≠ [] → (0 < n)%nat.
Proof.
  intros (_ & _ & _ & Hpot) Hwl. unfold potential in Hpot.
  destruct (valueWorklist st); [done|]. simpl in Hpot. lia.
Qed.

Lemma solve_terminates fuel :
  ∀ n st, bounded circuit n st → visitedOrQueued circuit st → (n < fuel)%nat →
          ∃ st', solve circuit fuel st = Some st'.
Proof.
  induction fuel as [|fuel IH]; intros n st Hb Hinv Hfuel; [lia|].
  simpl. destruct (valueWorklist st) as [|v rest] eqn:Hwl; [by eexists|].
  assert (Halive : v ∈ liveValues st).
  { destruct Hinv as [Hq _]. apply Hq. rewrite Hwl. by apply elem_of_cons; left. }
  destruct n as [|n].
  { assert (0 < 0)%nat; [|lia]. apply (bounded_pending 0 st); [done|by rewrite Hwl]. }
  apply (IH n).
  - by apply (bounded_solveStep n st v rest).
  - by apply solveStep_visitedOrQueued.
  - lia.
Qed.

End Universe.

(** *** The initial scans: what they keep *)

Section Seeding.

Variable circuit : CircuitOp.

(** A property of the pass state that every update of the initial scans
    keeps is kept by the scans. *)
Variable P : IMDeadCodeElimPass → Prop.
Hypothesis P_markAlive :
  ∀ v st, v ∈ circuitValues circuit → P st → P (markAlive v st).
Hypothesis P_markBlockUndeletable : ∀ b st, P st → P (markBlockUndeletable b st).
Hypothesis P_insertLiveInstance : ∀ i st, P st → P (insertLiveInstance i st).
Hypothesis P_insertExecutable : ∀ b st, P st → P (insertExecutable b st).
Hypothesis P_addInstanceResult :
  ∀ port r st, r ∈ circuitValues circuit → P st → P (addInstanceResult port r st).

Lemma seeding_markAliveAll values st :
  (∀ v, v ∈ values → v ∈ circuitValues circuit) → P st → P (markAliveAll values st).
Proof.
  unfold markAliveAll. revert st.
  induction values as [|v values IH]; intros st HU HP; simpl; [done|].
  apply IH.
  - intros x Hx. apply HU. by apply elem_of_cons; right.
  - apply P_markAlive; [|done]. apply HU. by apply elem_of_cons; left.
Qed.

Lemma seeding_foldl {A} (f : IMDeadCodeElimPass → A → IMDeadCodeElimPass)
    (Q : A → Prop) l :
  (∀ st a, Q a → P st → P (f st a)) → (∀ a, a ∈ l → Q a) →
  ∀ st, P st → P (foldl f st l).
Proof.
  intros Hf. induction l as [|a l IH]; intros HQ st HP; simpl; [done|].
  apply IH.
  - intros x Hx. apply HQ. by apply elem_of_cons; right.
  - apply Hf; [|done]. apply HQ. by apply elem_of_cons; left.
Qed.

Lemma seeding_foldlOpt {A} (f : IMDeadCodeElimPass → A → option IMDeadCodeElimPass)
    (Q : A → Prop) l :
  (∀ st a st', Q a → f st a = Some st' → P st → P st') → (∀ a, a ∈ l → Q a) →
  ∀ st st', foldlOpt f st l = Some st' → P st → P st'.
Proof.
  intros Hf. induction l as [|a l IH]; intros HQ st st' Hrun HP; simpl in Hrun.
  - by inversion Hrun; subst.
  - destruct (f st a) as [st1|] eqn:E; [|done].
    apply (IH (λ x Hx, HQ x (proj2 (elem_of_cons _ _ _) (or_intror Hx))) st1 st' Hrun).
    apply (Hf st a st1); [|done..]. apply HQ. by apply elem_of_cons; left.
Qed.

Lemma seeding_markAliveInstance block instance st :
  P st → P (markAliveInstance block instance st).
Proof. intros HP. by apply P_insertLiveInstance, P_markBlockUndeletable. Qed.

Lemma seeding_results instance resultNo :
  instance ∈ concat (map body circuit) →
  resultNo ∈ seq 0 (length (resultTypes instance)) →
  OpResult (opId instance) resultNo ∈ circuitValues circuit.
Proof.
  intros Hop Hin. apply (circuitValues_result circuit instance); [done|].
  apply elem_of_getResults. exists resultNo. split; [|done].
  apply elem_of_seq in Hin. lia.
Qed.

Lemma seeding_afterCalleeMarked block instance moduleName st :
  instance ∈ concat (map body circuit) →
  P st → P (afterCalleeMarked block instance moduleName st).
Proof.
  intros Hop HP. unfold afterCalleeMarked, recordInstanceResults. cbv zeta.
  apply (seeding_foldl _ (λ resultNo, resultNo ∈ seq 0 (length (resultTypes instance))));
    [| done |].
  - intros st' resultNo Hin HP'. apply P_addInstanceResult; [|done].
    by apply seeding_results.
  - destruct (_ && _); [apply seeding_markAliveInstance|];
      destruct (isBlockUndeletable st moduleName);
      done || by apply seeding_markAliveInstance.
Qed.

Lemma seeding_markExtInstanceOp block instance module st :
  instance ∈ concat (map body circuit) →
  P st → P (markExtInstanceOp block instance module st).
Proof.
  intros Hop HP. unfold markExtInstanceOp. apply seeding_markAliveInstance.
  apply (seeding_foldl _ (λ resultNo, resultNo ∈ seq 0 (length (resultTypes instance))));
    [| done | done].
  intros st' resultNo Hin HP'.
  destruct (getPortDirection module resultNo) as [[]|]; try done;
    (apply P_markAlive; [by apply seeding_results|done]).
Qed.

Lemma seeding_markDeclaration block op st :
  op ∈ concat (map body circuit) → P st → P (markDeclaration block op st).
Proof.
  intros Hop HP. unfold markDeclaration.
  destruct (negb (isDeletableDeclaration op)); [|done].
  apply P_markBlockUndeletable, seeding_markAliveAll; [|done].
  intros v Hv. by apply (circuitValues_result circuit op).
Qed.

Lemma seeding_markUnknownSideEffectOp block op st :
  op ∈ concat (map body circuit) → P st → P (markUnknownSideEffectOp block op st).
Proof.
  intros Hop HP. unfold markUnknownSideEffectOp.
  apply P_markBlockUndeletable, seeding_markAliveAll.
  { intros v Hv. by apply (circuitValues_operand circuit op). }
  apply seeding_markAliveAll; [|done].
  intros v Hv. by apply (circuitValues_result circuit op).
Qed.

Lemma seeding_markBlockExecutable fuel :
  ∀ block st st',
    markBlockExecutable circuit fuel block st = Some st' → P st → P st'.
Proof.
  induction fuel as [|fuel IH]; intros block st st' Hrun HP; simpl in Hrun; [done|].
  destruct (isBlockExecutable st block); [by inversion Hrun; subst|].
  destruct (circuit !! block) as [fmodule|] eqn:Hmod;
    [|inversion Hrun; subst; by apply P_insertExecutable].
  refine (seeding_foldlOpt _ (λ op, op ∈ concat (map body circuit)) _ _ _ _ _ Hrun _).
  - intros st0 op st1 Hop Hstep HP0.
    destruct (isDeclaration op).
    { inversion Hstep; subst. by apply seeding_markDeclaration. }
    assert (Hplain :
      (if isFConnectLike op then Some st0
       else if hasUnknownSideEffect op
            then Some (markUnknownSideEffectOp block op st0) else Some st0)
      = Some st1 → P st1).
    { destruct (isFConnectLike op); [by intros [= <-]|].
      destruct (hasUnknownSideEffect op); intros [= <-]; [|done].
      by apply seeding_markUnknownSideEffectOp. }
    destruct (opKind op); try exact (Hplain Hstep).
    destruct (circuit !! moduleName) as [referenced|]; [|by inversion Hstep; subst].
    destruct (isFModule referenced).
    + destruct (markBlockExecutable circuit fuel moduleName st0) as [st2|] eqn:E;
        [|done].
      inversion Hstep; subst.
      apply seeding_afterCalleeMarked; [done|]. by apply (IH _ _ _ E).
    + inversion Hstep; subst. by apply seeding_markExtInstanceOp.
  - intros op Hop. by apply (allOps_body circuit block fmodule).
  - apply (seeding_foldl _ (λ v, v ∈ getArguments block fmodule)); [|done|].
    + intros st0 blockArg Hin HP0.
      destruct (hasDontTouchValue circuit blockArg); [|done].
      apply P_markBlockUndeletable, P_markAlive; [|done].
      by apply (circuitValues_argument circuit block fmodule).
    + destruct (_ || _); [apply P_markBlockUndeletable|]; by apply P_insertExecutable.
Qed.

Lemma seeding_markPublicModules fuel st st' :
  markPublicModules circuit fuel st = Some st' → P st → P st'.
Proof.
  unfold markPublicModules. intros Hrun HP.
  refine (seeding_foldlOpt _ (λ bm, circuit !! bm.1 = Some bm.2) _ _ _ _ _ Hrun HP).
  - intros st0 [block module] st1 Hmod Hstep HP0. simpl in *.
    destruct (_ && _); [|by inversion Hstep; subst].
    destruct (markBlockExecutable circuit fuel block st0) as [st2|] eqn:E; [|done].
    inversion Hstep; subst. apply seeding_markAliveAll.
    + intros v Hv. by apply (circuitValues_argument circuit block module).
    + by apply (seeding_markBlockExecutable _ _ _ _ E).
  - intros [block module] Hin.
    apply elem_of_lookup_imap_1 in Hin as (i & m & [= -> ->] & Hm). done.
Qed.

End Seeding.

Section Analysis.

Variable circuit : CircuitOp.

Lemma allQueued_seeded fuel st0 :
  markPublicModules circuit fuel initialPass = Some st0 → allQueued st0.
Proof.
  intros Hseed.
  refine (seeding_markPublicModules circuit allQueued _ _ _ _ _ fuel _ _ Hseed _).
  - intros v st _ Hq x. unfold markAlive, isKnownAlive.
    case_bool_decide; [apply Hq|]. simpl.
    rewrite elem_of_union, elem_of_singleton, elem_of_cons. by rewrite (Hq x).
  - done.
  - done.
  - done.
  - done.
  - intros x. simpl. by rewrite elem_of_empty, elem_of_nil.
Qed.

Lemma size_list_to_set_le (l : list Value) :
  (size (list_to_set l : gset Value) ≤ length l)%nat.
Proof.
  induction l as [|x l IH].
  { rewrite list_to_set_nil, size_empty. done. }
  rewrite list_to_set_cons, size_union_alt, size_singleton. simpl.
  pose proof (subseteq_size (list_to_set l ∖ {[x]}) (list_to_set l : gset Value)) as H.
  assert (size (list_to_set l ∖ {[x]} : gset Value) ≤ size (list_to_set l : gset Value))%nat.
  { apply subseteq_size. intros y [Hy _]%elem_of_difference. done. }
  lia.
Qed.

Lemma bounded_seeded fuel st0 :
  markPublicModules circuit fuel initialPass = Some st0 →
  bounded circuit (2 * length (reachableValues circuit)) st0.
Proof.
  intros Hseed.
  refine (seeding_markPublicModules circuit
            (bounded circuit (2 * length (reachableValues circuit)))
            _ _ _ _ _ fuel _ _ Hseed _).
  - intros v st Hv. by apply bounded_markAlive, reachableValues_circuitValues.
  - done.
  - done.
  - done.
  - intros port r st Hr (Hlive & Hmap & Hpend & Hpot). split_and!; try done.
    intros port' r'. simpl.
    destruct (decide (port = port')) as [->|Hne].
    + rewrite lookup_insert_eq. simpl.
      intros [Hin | ->%list_elem_of_singleton]%elem_of_app; [by eapply Hmap|done].
    + rewrite lookup_insert_ne by done. apply Hmap.
  - split_and!; simpl.
    + intros v Hv. by apply elem_of_empty in Hv.
    + intros port r. rewrite lookup_empty. simpl. intros Hr. by apply elem_of_nil in Hr.
    + intros i r. unfold pendingOf. simpl. rewrite lookup_empty. simpl.
      intros Hr. by apply elem_of_nil in Hr.
    + unfold potential. simpl. rewrite difference_empty_L.
      pose proof (size_list_to_set_le (reachableValues circuit)). lia.
Qed.

Lemma visitedOrQueued_seeded fuel st0 :
  markPublicModules circuit fuel initialPass = Some st0 →
  visitedOrQueued circuit st0.
Proof.
  intros Hseed. pose proof (allQueued_seeded fuel st0 Hseed) as Hq. split.
  - intros v Hv. by apply Hq.
  - intros v Hv Hnot. by apply Hq in Hv.
Qed.

Lemma solve_pendingAlive fuel :
  ∀ st st', solve circuit fuel st = Some st' →
            pendingPortsOfLiveInstancesAlive st →
            pendingPortsOfLiveInstancesAlive st'.
Proof.
  induction fuel as [|fuel IH]; intros st st' Hsolve Hinv; simpl in Hsolve.
  - destruct (valueWorklist st); [|done]. by inversion Hsolve; subst.
  - destruct (valueWorklist st) eqn:Hwl; [by inversion Hsolve; subst|].
    apply (IH _ _ Hsolve). by apply solveStep_pendingAlive.
Qed.

(** The analysis returns, and what it returns is closed. *)
Lemma analyze_returns :
  ∃ st, analyze circuit (analysisFuel circuit) = Some st.
Proof.
  unfold analyze, analysisFuel.
  destruct (markPublicModules_terminates circuit
              (S (length circuit + 2 * length (reachableValues circuit))))
    as [st0 Hseed]; [lia|].
  rewrite Hseed. cbn [mbind option_bind].
  apply (solve_terminates circuit _ (2 * length (reachableValues circuit)) st0).
  - by apply (bounded_seeded _ _ Hseed).
  - by apply (visitedOrQueued_seeded _ _ Hseed).
  - lia.
Qed.

Lemma analyze_closed fuel st :
  analyze circuit fuel = Some st →
  valueWorklist st = [] ∧
  (∀ v, v ∈ liveValues st → closedAt circuit st v) ∧
  pendingPortsOfLiveInstancesAlive st.
Proof.
  unfold analyze. intros Hrun.
  destruct (markPublicModules circuit fuel initialPass) as [st0|] eqn:Hseed; [|done].
  cbn [mbind option_bind] in Hrun.
  destruct (solve_visitedOrQueued circuit fuel st0 st Hrun
              (visitedOrQueued_seeded _ _ Hseed)) as [[Hq Hvis] Hwl].
  split_and!; [done| |].
  - intros v Hv. apply Hvis; [done|]. rewrite Hwl. apply not_elem_of_nil.
  - apply (solve_pendingAlive fuel st0 st Hrun).
    intros instance port _ Hpend. unfold pendingOf in Hpend.
    rewrite (markPublicModules_no_pending circuit fuel st0 Hseed), lookup_empty in Hpend.
    by apply elem_of_nil in Hpend.
Qed.

End Analysis.

(** *** The result of the analysis *)

Section Results.

Variable circuit : CircuitOp.

(** The marking of the public modules and the loop over the value worklist
    return for every circuit, and the value worklist is empty then: the
    marking nests at most as deep as there are modules, and every turn of
    the loop shortens the worklist or makes a value or an instance alive.
    The loops over the symbol worklists are not part of [analyze]. *)
Theorem liveness_analysis_returns :
  ∃ st, analyze circuit (analysisFuel circuit) = Some st ∧ valueWorklist st = [].
Proof.
  destruct (analyze_returns circuit) as [st Hrun]. exists st. split; [done|].
  by destruct (analyze_closed circuit _ _ Hrun) as (Hwl & _).
Qed.

(** At the end of the analysis the source of every connect with an alive
    destination is alive, and so is the result of every subfield, subindex
    or subaccess operation that reads an alive value. *)
Theorem live_destination_makes_source_live :
  (∃ st, analyze circuit (analysisFuel circuit) = Some st) ∧
  ∀ fuel st, analyze circuit fuel = Some st →
    (∀ op dest src rest,
       op ∈ concat (map body circuit) → isFConnectLike op = true →
       operands op = dest :: src :: rest →
       dest ∈ liveValues st → src ∈ liveValues st) ∧
    (∀ op input rest,
       op ∈ concat (map body circuit) → isFConnectLike op = false →
       isSubelement op = true → operands op = input :: rest →
       input ∈ liveValues st → OpResult (opId op) 0 ∈ liveValues st).
Proof.
  split; [apply analyze_returns|]. intros fuel st Hrun.
  destruct (analyze_closed circuit _ _ Hrun) as (_ & Hclosed & _). split.
  - intros op dest src rest Hop Hconn Hops Hdest.
    destruct (Hclosed dest Hdest) as (Hc & _). eauto.
  - intros op input rest Hop Hconn Hsub Hops Hin.
    destruct (Hclosed input Hin) as (_ & Hs & _). eauto.
Qed.

(** At the end of the analysis an alive result of an operation that is
    neither an instance nor a memory has all its operands alive, and an
    alive port of a memory makes every port of the memory alive. *)
Theorem live_result_makes_operands_live :
  (∃ st, analyze circuit (analysisFuel circuit) = Some st) ∧
  ∀ fuel st, analyze circuit fuel = Some st →
    ∀ v op, v ∈ liveValues st → getDefiningOp circuit v = Some op →
      match opKind op with
      | InstanceOp _ => True
      | MemOp => ∀ port, port ∈ getResults op → port ∈ liveValues st
      | _ => ∀ operand, operand ∈ operands op → operand ∈ liveValues st
      end.
Proof.
  split; [apply analyze_returns|]. intros fuel st Hrun v op Hv Hdef.
  destruct (analyze_closed circuit _ _ Hrun) as (_ & Hclosed & _).
  destruct (Hclosed v Hv) as (_ & _ & _ & Hd). specialize (Hd op Hdef).
  by destruct (opKind op).
Qed.

(** At the end of the analysis an alive result of an instance that is not
    an input of the instantiated module makes the instance alive and the
    port of the module alive; every input port that waited for the instance
    is alive. *)
Theorem live_instance_output_makes_instance_live :
  (∃ st, analyze circuit (analysisFuel circuit) = Some st) ∧
  ∀ fuel st, analyze circuit fuel = Some st →
    ∀ instance moduleName module resultNumber,
      getDefiningOp circuit (OpResult (opId instance) resultNumber) = Some instance →
      opKind instance = InstanceOp moduleName →
      circuit !! moduleName = Some module → isFModule module = true →
      getPortDirection module resultNumber ≠ Some In →
      OpResult (opId instance) resultNumber ∈ liveValues st →
      opId instance ∈ liveInstances st ∧
      BlockArgument moduleName resultNumber ∈ liveValues st ∧
      ∀ port, port ∈ pendingOf st (opId instance) → port ∈ liveValues st.
Proof.
  split; [apply analyze_returns|].
  intros fuel st Hrun instance moduleName module resultNumber Hdef Hkind Hmod Hf Hdir Hv.
  destruct (analyze_closed circuit _ _ Hrun) as (_ & Hclosed & Hpend).
  destruct (Hclosed _ Hv) as (_ & _ & _ & Hd). specialize (Hd instance Hdef).
  rewrite Hkind in Hd.
  destruct (Hd module resultNumber eq_refl Hmod Hf Hdir) as [Hlive Harg].
  split_and!; [done..|]. intros port Hport. by apply (Hpend (opId instance)).
Qed.

(** At the end of the analysis, for an alive input port of a module, every
    instance result on record for the port is alive if its instance is, and
    waits in the list of its instance otherwise. *)
Theorem live_input_port_reaches_live_instances :
  (∃ st, analyze circuit (analysisFuel circuit) = Some st) ∧
  ∀ fuel st, analyze circuit fuel = Some st →
    ∀ block argNumber module instance resultNo,
      circuit !! block = Some module →
      getPortDirection module argNumber = Some In →
      BlockArgument block argNumber ∈ liveValues st →
      OpResult instance resultNo ∈
        default [] (resultPortToInstanceResultMapping st
                      !! BlockArgument block argNumber) →
      (instance ∈ liveInstances st → OpResult instance resultNo ∈ liveValues st) ∧
      (OpResult instance resultNo ∉ liveValues st →
       OpResult instance resultNo ∈ pendingOf st instance).
Proof.
  split; [apply analyze_returns|].
  intros fuel st Hrun block argNumber module instance resultNo Hmod Hdir Hv Hmem.
  destruct (analyze_closed circuit _ _ Hrun) as (_ & Hclosed & Hpend).
  destruct (Hclosed _ Hv) as (_ & _ & Hin & _).
  destruct (Hin block argNumber module instance resultNo eq_refl Hmod Hdir Hmem)
    as [Halive | Hqueued].
  - split; [done|]. intros Hnot. done.
  - split; [|done]. intros Hlive. by apply (Hpend instance).
Qed.

End Results.

(** *** The initial scans: what they establish *)

Lemma scanGrows_refl st : scanGrows st st.
Proof. by split_and!. Qed.

Lemma scanGrows_trans st1 st2 st3 :
  scanGrows st1 st2 → scanGrows st2 st3 → scanGrows st1 st3.
Proof.
  intros (Hv & Hi & He & Hu & Hm) (Hv' & Hi' & He' & Hu' & Hm').
  split_and!; try (etransitivity; eassumption). auto.
Qed.

Lemma scanGrows_markAlive v st : scanGrows st (markAlive v st).
Proof.
  destruct (markAlive_onlyAdds v st) as (Hi & _ & Hm & Hv).
  split_and!; try done.
  - by rewrite Hi.
  - by rewrite markAlive_executable.
  - unfold markAlive. by destruct (isKnownAlive st v).
  - intros port r. by rewrite Hm.
Qed.

Lemma scanGrows_markBlockUndeletable b st : scanGrows st (markBlockUndeletable b st).
Proof. split_and!; simpl; try done. apply union_subseteq_r. Qed.

Lemma scanGrows_insertLiveInstance i st : scanGrows st (insertLiveInstance i st).
Proof. split_and!; simpl; try done. apply union_subseteq_r. Qed.

Lemma scanGrows_insertExecutable b st : scanGrows st (insertExecutable b st).
Proof. split_and!; simpl; try done. apply union_subseteq_r. Qed.

Lemma scanGrows_addInstanceResult port r st : scanGrows st (addInstanceResult port r st).
Proof.
  split_and!; simpl; try done. intros port' r' Hin.
  destruct (decide (port = port')) as [->|Hne].
  - rewrite lookup_insert_eq. simpl. apply elem_of_app. by left.
  - by rewrite lookup_insert_ne.
Qed.

Section Scan.

Variable circuit : CircuitOp.

Lemma scanGrows_markBlockExecutable fuel block st st' :
  markBlockExecutable circuit fuel block st = Some st' → scanGrows st st'.
Proof.
  intros Hrun.
  refine (seeding_markBlockExecutable circuit (scanGrows st) _ _ _ _ _
            fuel block st st' Hrun (scanGrows_refl st)).
  - intros v st0 _ H. eapply scanGrows_trans; [exact H|apply scanGrows_markAlive].
  - intros b st0 H. eapply scanGrows_trans; [exact H|apply scanGrows_markBlockUndeletable].
  - intros i st0 H. eapply scanGrows_trans; [exact H|apply scanGrows_insertLiveInstance].
  - intros b st0 H. eapply scanGrows_trans; [exact H|apply scanGrows_insertExecutable].
  - intros p r st0 _ H. eapply scanGrows_trans; [exact H|apply scanGrows_addInstanceResult].
Qed.

Lemma scannedOp_grows block op st st' :
  scanGrows st st' → scannedOp circuit block op st → scannedOp circuit block op st'.
Proof.
  intros (Hv & Hi & He & Hu & Hm). unfold scannedOp.
  destruct (isDeclaration op).
  { intros H Hdel. destruct (H Hdel) as [Hr Hb]. split; [|by apply Hu].
    intros r Hin. by apply Hv, Hr. }
  assert (Hplain :
    (isFConnectLike op = false → hasUnknownSideEffect op = true →
     (∀ result, result ∈ getResults op → result ∈ liveValues st) ∧
     (∀ operand, operand ∈ operands op → operand ∈ liveValues st) ∧
     block ∈ undeletableBlocks st) →
    isFConnectLike op = false → hasUnknownSideEffect op = true →
    (∀ result, result ∈ getResults op → result ∈ liveValues st') ∧
    (∀ operand, operand ∈ operands op → operand ∈ liveValues st') ∧
    block ∈ undeletableBlocks st').
  { intros H Hc Heff. destruct (H Hc Heff) as (Hr & Ho & Hb).
    split_and!; [| |by apply Hu]; intros x Hx; apply Hv; auto. }
  destruct (opKind op); try exact Hplain.
  destruct (circuit !! moduleName) as [referenced|]; [|done].
  destruct (isFModule referenced).
  - intros [Hexec Hres]. split; [by apply He|]. intros k Hk. by apply Hm, Hres.
  - intros (Hlive & Hb & Hres). split_and!; [by apply Hi|by apply Hu|].
    intros k Hk Hdir. by apply Hv, Hres.
Qed.

Lemma scannedBlock_grows block st st' :
  scanGrows st st' → scannedBlock circuit st block → scannedBlock circuit st' block.
Proof.
  intros Hg Hs module Hmod. destruct (Hs module Hmod) as (Hpub & Hops & Hports).
  split_and!.
  - intros H. destruct Hg as (_ & _ & _ & Hu & _). by apply Hu, Hpub.
  - intros op Hop. by apply (scannedOp_grows block op st st'), Hops.
  - intros port Hport Hdt. destruct (Hports port Hport Hdt) as [Hv Hu].
    destruct Hg as (Hv' & _ & _ & Hu' & _). split; [by apply Hv'|by apply Hu'].
Qed.

Lemma scansDone_grows X st st' :
  scanGrows st st' → executableBlocks st' = executableBlocks st →
  scansDone circuit X st → scansDone circuit X st'.
Proof.
  intros Hg He Hd block Hexec HX. rewrite He in Hexec.
  by apply (scannedBlock_grows block st st'), Hd.
Qed.

(** The loop over the operations of a block, with what holds of the
    operations already behind. *)
Lemma foldlOpt_prefix {A} (f : IMDeadCodeElimPass → A → option IMDeadCodeElimPass)
    (I : list A → IMDeadCodeElimPass → Prop) (l : list A) :
  (∀ done a st st', I done st → f st a = Some st' → I (done ++ [a]) st') →
  ∀ done st st', I done st → foldlOpt f st l = Some st' → I (done ++ l) st'.
Proof.
  intros Hstep. induction l as [|a l IH]; intros done st st' HI Hrun; simpl in Hrun.
  - inversion Hrun; subst. by rewrite app_nil_r.
  - destruct (f st a) as [st1|] eqn:E; [|done].
    replace (done ++ a :: l) with ((done ++ [a]) ++ l) by (by rewrite <- app_assoc).
    apply (IH _ st1); [|done]. by apply (Hstep done a st).
Qed.

Lemma markAliveInstance_scanGrows block instance st :
  scanGrows st (markAliveInstance block instance st).
Proof.
  unfold markAliveInstance.
  eapply scanGrows_trans; [apply scanGrows_markBlockUndeletable
                          |apply scanGrows_insertLiveInstance].
Qed.

Lemma markAliveAll_scanGrows values st : scanGrows st (markAliveAll values st).
Proof.
  unfold markAliveAll. revert st. induction values as [|v l IH]; intros st; simpl.
  - apply scanGrows_refl.
  - eapply scanGrows_trans; [apply scanGrows_markAlive|apply IH].
Qed.

Lemma scanGrows_foldl {A} (f : IMDeadCodeElimPass → A → IMDeadCodeElimPass) l :
  (∀ st a, scanGrows st (f st a)) → ∀ st, scanGrows st (foldl f st l).
Proof.
  intros Hf. induction l as [|a l IH]; intros st; simpl.
  - apply scanGrows_refl.
  - eapply scanGrows_trans; [apply Hf | apply IH].
Qed.

Lemma recordInstanceResults_records instance moduleName st resultNo :
  (resultNo < length (resultTypes instance))%nat →
  OpResult (opId instance) resultNo ∈
    default [] (resultPortToInstanceResultMapping
                  (recordInstanceResults instance moduleName st)
                  !! BlockArgument moduleName resultNo).
Proof.
  unfold recordInstanceResults. intros Hlt.
  assert (Hin : resultNo ∈ seq 0 (length (resultTypes instance)))
    by (apply elem_of_seq; lia).
  revert st. induction (seq 0 (length (resultTypes instance))) as [|k l IH];
    intros st; [by apply elem_of_nil in Hin|].
  simpl. apply elem_of_cons in Hin as [-> | Hin]; [|by apply IH].
  pose proof (scanGrows_foldl
                (λ st resultNo,
                   addInstanceResult (BlockArgument moduleName resultNo)
                                     (OpResult (opId instance) resultNo) st) l
                (λ st a, scanGrows_addInstanceResult _ _ st)
                (addInstanceResult (BlockArgument moduleName k)
                                   (OpResult (opId instance) k) st))
    as (_ & _ & _ & _ & Hm).
  apply Hm. simpl. rewrite lookup_insert_eq. simpl.
  apply elem_of_app. right. by apply list_elem_of_singleton.
Qed.

Lemma afterCalleeMarked_scanGrows block instance moduleName st :
  scanGrows st (afterCalleeMarked block instance moduleName st).
Proof.
  unfold afterCalleeMarked, recordInstanceResults. cbv zeta.
  eapply scanGrows_trans;
    [|apply (scanGrows_foldl
               (λ st resultNo,
                  addInstanceResult (BlockArgument moduleName resultNo)
                                    (OpResult (opId instance) resultNo) st));
      intros; apply scanGrows_addInstanceResult].
  destruct (_ && _).
  - eapply scanGrows_trans; [|apply markAliveInstance_scanGrows].
    destruct (isBlockUndeletable st moduleName);
      [apply markAliveInstance_scanGrows|apply scanGrows_refl].
  - destruct (isBlockUndeletable st moduleName);
      [apply markAliveInstance_scanGrows|apply scanGrows_refl].
Qed.

Lemma markExtInstanceOp_scanned block instance module st :
  let st' := markExtInstanceOp block instance module st in
  scanGrows st st' ∧
  opId instance ∈ liveInstances st' ∧ block ∈ undeletableBlocks st' ∧
  ∀ resultNo, (resultNo < length (resultTypes instance))%nat →
    getPortDirection module resultNo ≠ Some Out →
    OpResult (opId instance) resultNo ∈ liveValues st'.
Proof.
  unfold markExtInstanceOp. cbv zeta.
  set (f := λ st resultNo,
              match getPortDirection module resultNo with
              | Some Out => st
              | _ => markAlive (OpResult (opId instance) resultNo) st
              end).
  assert (Hf : ∀ st a, scanGrows st (f st a)).
  { intros st0 a. unfold f.
    destruct (getPortDirection module a) as [[]|];
      apply scanGrows_markAlive || apply scanGrows_refl. }
  split_and!.
  - eapply scanGrows_trans; [apply (scanGrows_foldl f), Hf
                            |apply markAliveInstance_scanGrows].
  - simpl. by apply elem_of_union_l, elem_of_singleton.
  - simpl. by apply elem_of_union_l, elem_of_singleton.
  - intros resultNo Hlt Hdir. simpl.
    assert (Hin : resultNo ∈ seq 0 (length (resultTypes instance)))
      by (apply elem_of_seq; lia).
    revert st. induction (seq 0 (length (resultTypes instance))) as [|k l IH];
      intros st; [by apply elem_of_nil in Hin|].
    simpl. apply elem_of_cons in Hin as [-> | Hin]; [|by apply IH].
    destruct (scanGrows_foldl f l Hf (f st k)) as (Hv & _). apply Hv.
    unfold f. destruct (getPortDirection module k) as [[]|]; try done;
      apply markAlive_alive.
Qed.

Lemma dontTouchPorts_scanGrows block args st :
  scanGrows st
    (foldl (λ st blockArg,
              if hasDontTouchValue circuit blockArg
              then markBlockUndeletable block (markAlive blockArg st)
              else st) st args).
Proof.
  apply (scanGrows_foldl
           (λ st blockArg,
              if hasDontTouchValue circuit blockArg
              then markBlockUndeletable block (markAlive blockArg st)
              else st)).
  intros st0 a. destruct (hasDontTouchValue circuit a); [|apply scanGrows_refl].
  eapply scanGrows_trans; [apply scanGrows_markAlive
                          |apply scanGrows_markBlockUndeletable].
Qed.

Lemma dontTouchPorts_alive block args :
  ∀ st port,
    port ∈ args → hasDontTouchValue circuit port = true →
    let st' := foldl (λ st blockArg,
                        if hasDontTouchValue circuit blockArg
                        then markBlockUndeletable block (markAlive blockArg st)
                        else st) st args in
    port ∈ liveValues st' ∧ block ∈ undeletableBlocks st'.
Proof.
  induction args as [|a l IHl]; intros st port Hin Hdt;
    [by apply elem_of_nil in Hin|].
  simpl. apply elem_of_cons in Hin as [-> | Hin]; [|by apply IHl].
  rewrite Hdt.
  destruct (dontTouchPorts_scanGrows block l
              (markBlockUndeletable block (markAlive a st)))
    as (Hv & _ & _ & Hu & _).
  split.
  - apply Hv. simpl. apply markAlive_alive.
  - apply Hu. simpl. by apply elem_of_union_l, elem_of_singleton.
Qed.

Lemma dontTouchPorts_executable block args st :
  executableBlocks
    (foldl (λ st blockArg,
              if hasDontTouchValue circuit blockArg
              then markBlockUndeletable block (markAlive blockArg st)
              else st) st args)
  = executableBlocks st.
Proof.
  revert st. induction args as [|a l IHl]; intro st; simpl; [done|].
  rewrite IHl. destruct (hasDontTouchValue circuit a); [|done].
  simpl. apply markAlive_executable.
Qed.

Lemma markBlockExecutable_executable fuel block st st' :
  markBlockExecutable circuit fuel block st = Some st' →
  block ∈ executableBlocks st'.
Proof.
  intros Hrun. destruct fuel as [|fuel]; [done|]. simpl in Hrun.
  unfold isBlockExecutable in Hrun. case_bool_decide as Hexec.
  { by inversion Hrun; subst. }
  assert (Hin : block ∈ executableBlocks (insertExecutable block st))
    by (simpl; by apply elem_of_union_l, elem_of_singleton).
  destruct (circuit !! block) as [fmodule|]; [|by inversion Hrun; subst].
  revert Hrun.
  set (st1 := foldl _ _ (getArguments block fmodule)).
  assert (H1 : block ∈ executableBlocks st1).
  { subst st1. rewrite dontTouchPorts_executable. by destruct (_ || _). }
  clearbody st1. intros Hrun.
  assert (Hg : scanGrows st1 st').
  { refine (seeding_foldlOpt (scanGrows st1) _ (λ _, True) _ _ _ _ _ Hrun
              (scanGrows_refl st1)); [|done].
    intros st0 op st2 _ Hstep Hg0. eapply scanGrows_trans; [exact Hg0|].
    destruct (isDeclaration op).
    { inversion Hstep; subst. unfold markDeclaration.
      destruct (negb _); [|apply scanGrows_refl].
      eapply scanGrows_trans; [apply markAliveAll_scanGrows
                              |apply scanGrows_markBlockUndeletable]. }
    assert (Hplain :
      (if isFConnectLike op then Some st0
       else if hasUnknownSideEffect op
            then Some (markUnknownSideEffectOp block op st0) else Some st0)
      = Some st2 → scanGrows st0 st2).
    { destruct (isFConnectLike op); [intros [= <-]; apply scanGrows_refl|].
      destruct (hasUnknownSideEffect op); intros [= <-]; [|apply scanGrows_refl].
      unfold markUnknownSideEffectOp.
      eapply scanGrows_trans; [|apply scanGrows_markBlockUndeletable].
      eapply scanGrows_trans; apply markAliveAll_scanGrows. }
    destruct (opKind op); try exact (Hplain Hstep).
    destruct (circuit !! moduleName) as [referenced|];
      [|inversion Hstep; subst; apply scanGrows_refl].
    destruct (isFModule referenced).
    - destruct (markBlockExecutable circuit fuel moduleName st0) as [st3|] eqn:E;
        [|done].
      inversion Hstep; subst.
      eapply scanGrows_trans; [by eapply scanGrows_markBlockExecutable
                              |apply afterCalleeMarked_scanGrows].
    - inversion Hstep; subst. apply markExtInstanceOp_scanned. }
  destruct Hg as (_ & _ & He & _). by apply He.
Qed.

Lemma markBlockExecutable_scansDone fuel :
  ∀ X block st st',
    markBlockExecutable circuit fuel block st = Some st' →
    scansDone circuit X st → scansDone circuit X st'.
Proof.
  induction fuel as [|fuel IH]; intros X block st st' Hrun Hdone; [done|].
  pose proof (scanGrows_markBlockExecutable _ _ _ _ Hrun) as Hgrow.
  simpl in Hrun. unfold isBlockExecutable in Hrun. case_bool_decide as Hexec.
  { by inversion Hrun; subst. }
  destruct (circuit !! block) as [fmodule|] eqn:Hmod.
  2: { inversion Hrun; subst. intros b Hb HX. simpl in Hb.
       apply elem_of_union in Hb as [->%elem_of_singleton | Hb].
       - intros module Hm. congruence.
       - apply (scannedBlock_grows b st); [apply scanGrows_insertExecutable|].
         by apply Hdone. }
  set (st1 := insertExecutable block st) in *.
  set (st2 := if isPublic fmodule || negb (modAnnotationsEmpty fmodule)
              then markBlockUndeletable block st1 else st1) in *.
  set (st3 := foldl (λ st blockArg,
                       if hasDontTouchValue circuit blockArg
                       then markBlockUndeletable block (markAlive blockArg st)
                       else st) st2 (getArguments block fmodule)) in *.
  assert (Hg13 : scanGrows st1 st3 ∧ executableBlocks st3 = executableBlocks st1).
  { split.
    - eapply (scanGrows_trans _ st2).
      + subst st2. destruct (_ || _);
          [apply scanGrows_markBlockUndeletable|apply scanGrows_refl].
      + apply dontTouchPorts_scanGrows.
    - transitivity (executableBlocks st2).
      + apply dontTouchPorts_executable.
      + subst st2. by destruct (_ || _). }
  destruct Hg13 as [Hg13 He13].
  (* the loop over the operations *)
  pose (I := λ (done : list Operation) (s : IMDeadCodeElimPass),
               scansDone circuit (X ∪ {[block]}) s ∧ scanGrows st3 s ∧
               ∀ op, op ∈ done → scannedOp circuit block op s).
  assert (Hloop : I ([] ++ body fmodule) st').
  { refine (foldlOpt_prefix _ I (body fmodule) _ [] st3 st' _ Hrun).
    - intros done op s s' (Hd & Hg & Hprefix) Hstep.
      assert (Hpost : scanGrows s s' ∧ scansDone circuit (X ∪ {[block]}) s' ∧
                      scannedOp circuit block op s').
      { unfold scannedOp. destruct (isDeclaration op) eqn:Hdecl.
        { inversion Hstep; subst. unfold markDeclaration.
          destruct (isDeletableDeclaration op) eqn:Hdel; simpl.
          - split_and!; [apply scanGrows_refl|done|done].
          - assert (Hg' : scanGrows s (markBlockUndeletable block
                                           (markAliveAll (getResults op) s))).
            { eapply scanGrows_trans; [apply markAliveAll_scanGrows
                                      |apply scanGrows_markBlockUndeletable]. }
            split_and!; [done| |].
            + apply (scansDone_grows _ s); [done| |done]. simpl.
              apply markAliveAll_executable.
            + intros _. split; [|simpl; by apply elem_of_union_l, elem_of_singleton].
              intros r Hr. simpl. by apply markAliveAll_alive. }
        assert (Hplain :
          (if isFConnectLike op then Some s
           else if hasUnknownSideEffect op
                then Some (markUnknownSideEffectOp block op s) else Some s)
          = Some s' →
          scanGrows s s' ∧ scansDone circuit (X ∪ {[block]}) s' ∧
          (isFConnectLike op = false → hasUnknownSideEffect op = true →
           (∀ result, result ∈ getResults op → result ∈ liveValues s') ∧
           (∀ operand, operand ∈ operands op → operand ∈ liveValues s') ∧
           block ∈ undeletableBlocks s')).
        { destruct (isFConnectLike op);
            [intros [= <-]; split_and!; [apply scanGrows_refl|done|done]|].
          destruct (hasUnknownSideEffect op); intros [= <-];
            [|split_and!; [apply scanGrows_refl|done|done]].
          assert (Hg' : scanGrows s (markUnknownSideEffectOp block op s)).
          { unfold markUnknownSideEffectOp.
            eapply scanGrows_trans; [|apply scanGrows_markBlockUndeletable].
            eapply scanGrows_trans; apply markAliveAll_scanGrows. }
          split_and!; [done| |].
          - apply (scansDone_grows _ s); [done| |done].
            unfold markUnknownSideEffectOp. simpl.
            by rewrite !markAliveAll_executable.
          - intros _ _. unfold markUnknownSideEffectOp. simpl. split_and!.
            + intros r Hr.
              destruct (markAliveAll_onlyAdds (operands op)
                          (markAliveAll (getResults op) s)) as (_ & _ & _ & Hv).
              by apply Hv, markAliveAll_alive.
            + intros x Hx. by apply markAliveAll_alive.
            + by apply elem_of_union_l, elem_of_singleton. }
        destruct (opKind op) eqn:Hkind; try exact (Hplain Hstep).
        destruct (circuit !! moduleName) as [referenced|] eqn:Href;
          [|inversion Hstep; subst; split_and!; [apply scanGrows_refl|done|done]].
        destruct (isFModule referenced) eqn:Hf.
        - destruct (markBlockExecutable circuit fuel moduleName s) as [s1|] eqn:E;
            [|done].
          inversion Hstep; subst.
          pose proof (scanGrows_markBlockExecutable _ _ _ _ E) as Hg1.
          pose proof (afterCalleeMarked_scanGrows block op moduleName s1) as Hg2.
          split_and!.
          + by eapply scanGrows_trans.
          + apply (scansDone_grows _ s1); [done| |by apply (IH _ _ _ _ E)].
            apply afterCalleeMarked_executable.
          + destruct Hg2 as (_ & _ & He2 & _). apply He2.
            by apply (markBlockExecutable_executable _ _ _ _ E).
          + intros k Hk. unfold afterCalleeMarked. cbv zeta.
            by apply recordInstanceResults_records.
        - inversion Hstep; subst.
          destruct (markExtInstanceOp_scanned block op referenced s)
            as (Hg' & Hlive & Hb & Hres).
          split_and!; try done.
          apply (scansDone_grows _ s); [done| |done].
          apply markExtInstanceOp_executable. }
      destruct Hpost as (Hg' & Hd' & Hop).
      split_and!; [done|by eapply scanGrows_trans|].
      intros op' [Hin | ->%list_elem_of_singleton]%elem_of_app; [|done].
      by apply (scannedOp_grows block op' s s'), Hprefix.
    - split_and!; [|apply scanGrows_refl|intros op Hop; by apply elem_of_nil in Hop].
      intros b Hb HX. rewrite He13 in Hb. simpl in Hb.
      apply not_elem_of_union in HX as [HX Hne].
      apply elem_of_union in Hb as [Hb | Hb]; [done|].
      apply (scannedBlock_grows b st).
      + eapply scanGrows_trans; [apply scanGrows_insertExecutable|exact Hg13].
      + by apply Hdone. }
  destruct Hloop as (Hd & Hg & Hops). simpl in Hops.
  intros b Hb HX. destruct (decide (b = block)) as [->|Hne].
  - intros module Hm. rewrite Hmod in Hm. inversion Hm; subst module.
    split_and!; [|done|].
    + intros Hpub. destruct Hg as (_ & _ & _ & Hu & _). apply Hu.
      destruct Hg13 as (_ & _ & _ & Hu13 & _).
      assert (Hin2 : block ∈ undeletableBlocks st2).
      { subst st2. rewrite Hpub. simpl. by apply elem_of_union_l, elem_of_singleton. }
      destruct (dontTouchPorts_scanGrows block (getArguments block fmodule) st2)
        as (_ & _ & _ & Hu' & _).
      by apply Hu'.
    + intros port Hport Hdt.
      destruct (dontTouchPorts_alive block (getArguments block fmodule) st2 port
                  Hport Hdt) as [Hv3 Hu3].
      destruct Hg as (Hv & _ & _ & Hu & _). split; [by apply Hv|by apply Hu].
  - apply Hd; [done|]. apply not_elem_of_union. split; [done|].
    by intros ->%elem_of_singleton.
Qed.

End Scan.

Section ScanResults.

Variable circuit : CircuitOp.

Lemma markPublicModules_scanned fuel st0 :
  markPublicModules circuit fuel initialPass = Some st0 →
  scansDone circuit ∅ st0 ∧
  ∀ bm, bm ∈ imap (λ i m, (i, m)) circuit → publicSeeded st0 bm.
Proof.
  unfold markPublicModules. intros Hrun.
  pose (I := λ (done : list (nat * FModuleLike)) (s : IMDeadCodeElimPass),
               scansDone circuit ∅ s ∧ ∀ bm, bm ∈ done → publicSeeded s bm).
  assert (H : I ([] ++ imap (λ i m, (i, m)) circuit) st0); [|exact H].
  refine (foldlOpt_prefix _ I _ _ [] initialPass st0 _ Hrun).
  - intros done [block module] s s' [Hd Hpre] Hstep. simpl in Hstep.
    assert (Hpost : scanGrows s s' ∧ scansDone circuit ∅ s' ∧
                    publicSeeded s' (block, module)).
    { unfold publicSeeded. simpl. destruct (isFModule module && isPublic module).
      - destruct (markBlockExecutable circuit fuel block s) as [s1|] eqn:E; [|done].
        inversion Hstep; subst.
        pose proof (scanGrows_markBlockExecutable _ _ _ _ _ E) as Hg1.
        pose proof (markAliveAll_scanGrows (getArguments block module) s1) as Hg2.
        split_and!.
        + by eapply scanGrows_trans.
        + apply (scansDone_grows _ _ s1); [done|apply markAliveAll_executable|].
          by apply (markBlockExecutable_scansDone _ _ _ _ _ _ E).
        + intros _. split.
          * rewrite markAliveAll_executable.
            by apply (markBlockExecutable_executable _ _ _ _ _ E).
          * intros port Hport. by apply markAliveAll_alive.
      - inversion Hstep; subst. split_and!; [apply scanGrows_refl|done|done]. }
    destruct Hpost as (Hg & Hd' & Hbm). split; [done|].
    intros bm [Hin | ->%list_elem_of_singleton]%elem_of_app; [|done].
    intros Hpub. destruct (Hpre bm Hin Hpub) as [He Hv].
    destruct Hg as (Hv' & _ & He' & _). split; [by apply He'|].
    intros port Hport. by apply Hv', Hv.
  - split.
    + intros b Hb. by apply elem_of_empty in Hb.
    + intros bm Hbm. by apply elem_of_nil in Hbm.
Qed.

Lemma solveStep_scanGrows st :
  scanGrows st (solveStep circuit st) ∧
  executableBlocks (solveStep circuit st) = executableBlocks st.
Proof.
  destruct (valueWorklist st) as [|v rest] eqn:Hwl.
  { unfold solveStep. rewrite Hwl. split; [apply scanGrows_refl|done]. }
  destruct (solveStep_grows_popped circuit st v rest Hwl)
    as (Hv & Hi & _ & Hm & _ & _ & _ & He & Hu).
  split; [|done]. split_and!; try done.
  - by rewrite He.
  - by rewrite Hu.
  - intros port r. by rewrite Hm.
Qed.

Lemma solve_scanGrows fuel :
  ∀ st st', solve circuit fuel st = Some st' →
            scanGrows st st' ∧ executableBlocks st' = executableBlocks st.
Proof.
  induction fuel as [|fuel IH]; intros st st' Hsolve; simpl in Hsolve.
  - destruct (valueWorklist st); [|done]. inversion Hsolve; subst.
    split; [apply scanGrows_refl|done].
  - destruct (valueWorklist st) eqn:Hwl.
    { inversion Hsolve; subst. split; [apply scanGrows_refl|done]. }
    destruct (IH _ _ Hsolve) as [Hg He].
    destruct (solveStep_scanGrows st) as [Hg1 He1].
    split; [by eapply scanGrows_trans|congruence].
Qed.

Lemma analyze_scanned fuel st :
  analyze circuit fuel = Some st →
  scansDone circuit ∅ st ∧
  ∀ bm, bm ∈ imap (λ i m, (i, m)) circuit → publicSeeded st bm.
Proof.
  unfold analyze. intros Hrun.
  destruct (markPublicModules circuit fuel initialPass) as [st0|] eqn:Hseed; [|done].
  cbn [mbind option_bind] in Hrun.
  destruct (markPublicModules_scanned fuel st0 Hseed) as [Hd Hpub].
  destruct (solve_scanGrows fuel st0 st Hrun) as [Hg He].
  split.
  - by apply (scansDone_grows circuit ∅ st0).
  - intros bm Hbm Hp. destruct (Hpub bm Hbm Hp) as [Hexec Hv].
    destruct Hg as (Hv' & _ & He' & _). split; [by apply He'|].
    intros port Hport. by apply Hv', Hv.
Qed.

Lemma analyze_scannedOp fuel st block module op :
  analyze circuit fuel = Some st →
  block ∈ executableBlocks st → circuit !! block = Some module →
  op ∈ body module → scannedOp circuit block op st.
Proof.
  intros Hrun Hexec Hmod Hop.
  destruct (analyze_scanned fuel st Hrun) as [Hd _].
  destruct (Hd block Hexec (not_elem_of_empty _) module Hmod) as (_ & Hops & _).
  by apply Hops.
Qed.

(** The ports of a public module are alive, and its block is executable and
    cannot be deleted. *)
Theorem public_module_ports_are_alive :
  (∃ st, analyze circuit (analysisFuel circuit) = Some st) ∧
  ∀ fuel st, analyze circuit fuel = Some st →
    ∀ block module,
      circuit !! block = Some module →
      isFModule module = true → isPublic module = true →
      block ∈ executableBlocks st ∧ block ∈ undeletableBlocks st ∧
      ∀ port, port ∈ getArguments block module → port ∈ liveValues st.
Proof.
  split; [apply analyze_returns|].
  intros fuel st Hrun block module Hmod Hf Hpub.
  destruct (analyze_scanned fuel st Hrun) as [Hd Hseeded].
  destruct (Hseeded (block, module)) as [Hexec Hports].
  { by apply (elem_of_lookup_imap_2 (λ i m, (i, m)) circuit module block). }
  { simpl. by rewrite Hf, Hpub. }
  split_and!; [done| |done].
  destruct (Hd block Hexec (not_elem_of_empty _) module Hmod) as [Hu _].
  apply Hu. by rewrite Hpub.
Qed.

(** A module instantiated from an executable block is executable. *)
Theorem instantiated_modules_are_executable :
  (∃ st, analyze circuit (analysisFuel circuit) = Some st) ∧
  ∀ fuel st, analyze circuit fuel = Some st →
    ∀ block module instance moduleName referenced,
      block ∈ executableBlocks st → circuit !! block = Some module →
      instance ∈ body module → opKind instance = InstanceOp moduleName →
      circuit !! moduleName = Some referenced → isFModule referenced = true →
      moduleName ∈ executableBlocks st.
Proof.
  split; [apply analyze_returns|].
  intros fuel st Hrun block module instance moduleName referenced
         Hexec Hmod Hop Hkind Href Hf.
  pose proof (analyze_scannedOp fuel st block module instance Hrun Hexec Hmod Hop) as Hs.
  unfold scannedOp, isDeclaration in Hs. rewrite Hkind, Href, Hf in Hs.
  by destruct Hs.
Qed.

(** A port that may not be touched is alive in every executable module, and
    pins the block: the assertion of [rewriteModuleSignature] on such ports
    holds. *)
Theorem dont_touch_ports_are_alive :
  (∃ st, analyze circuit (analysisFuel circuit) = Some st) ∧
  ∀ fuel st, analyze circuit fuel = Some st →
    ∀ block module port,
      block ∈ executableBlocks st → circuit !! block = Some module →
      port ∈ getArguments block module →
      hasDontTouchValue circuit port = true →
      port ∈ liveValues st ∧ block ∈ undeletableBlocks st.
Proof.
  split; [apply analyze_returns|].
  intros fuel st Hrun block module port Hexec Hmod Hport Hdt.
  destruct (analyze_scanned fuel st Hrun) as [Hd _].
  destruct (Hd block Hexec (not_elem_of_empty _) module Hmod) as (_ & _ & Hports).
  by apply Hports.
Qed.

(** Declarations that may not be deleted and operations with unknown side
    effects are alive, with their operands, and pin their block. *)
Theorem pinned_operations_are_alive :
  (∃ st, analyze circuit (analysisFuel circuit) = Some st) ∧
  ∀ fuel st, analyze circuit fuel = Some st →
    ∀ block module op,
      block ∈ executableBlocks st → circuit !! block = Some module →
      op ∈ body module →
      (isDeclaration op = true → isDeletableDeclaration op = false →
       (∀ result, result ∈ getResults op → result ∈ liveValues st) ∧
       block ∈ undeletableBlocks st) ∧
      (isDeclaration op = false → isFConnectLike op = false →
       (∀ moduleName, opKind op ≠ InstanceOp moduleName) →
       hasUnknownSideEffect op = true →
       (∀ result, result ∈ getResults op → result ∈ liveValues st) ∧
       (∀ operand, operand ∈ operands op → operand ∈ liveValues st) ∧
       block ∈ undeletableBlocks st).
Proof.
  split; [apply analyze_returns|].
  intros fuel st Hrun block module op Hexec Hmod Hop.
  pose proof (analyze_scannedOp fuel st block module op Hrun Hexec Hmod Hop) as Hs.
  unfold scannedOp in Hs. split.
  - intros Hdecl Hdel. rewrite Hdecl in Hs. by apply Hs.
  - intros Hdecl Hconn Hinst Heff. rewrite Hdecl in Hs.
    destruct (opKind op) eqn:Hkind; try (by apply Hs).
    by destruct (Hinst moduleName).
Qed.

(** An instance of an external module is alive, with every result that is
    not an output of the module. *)
Theorem external_instances_are_alive :
  (∃ st, analyze circuit (analysisFuel circuit) = Some st) ∧
  ∀ fuel st, analyze circuit fuel = Some st →
    ∀ block module instance moduleName referenced,
      block ∈ executableBlocks st → circuit !! block = Some module →
      instance ∈ body module → opKind instance = InstanceOp moduleName →
      circuit !! moduleName = Some referenced → isFModule referenced = false →
      opId instance ∈ liveInstances st ∧ block ∈ undeletableBlocks st ∧
      ∀ resultNo, (resultNo < length (resultTypes instance))%nat →
        getPortDirection referenced resultNo ≠ Some Out →
        OpResult (opId instance) resultNo ∈ liveValues st.
Proof.
  split; [apply analyze_returns|].
  intros fuel st Hrun block module instance moduleName referenced
         Hexec Hmod Hop Hkind Href Hf.
  pose proof (analyze_scannedOp fuel st block module instance Hrun Hexec Hmod Hop) as Hs.
  unfold scannedOp, isDeclaration in Hs. by rewrite Hkind, Href, Hf in Hs.
Qed.

(** An alive input port of a module is alive at every alive instance of
    the module. *)
Theorem live_input_port_is_live_at_live_instances :
  (∃ st, analyze circuit (analysisFuel circuit) = Some st) ∧
  ∀ fuel st, analyze circuit fuel = Some st →
    ∀ block module instance moduleName referenced resultNo,
      block ∈ executableBlocks st → circuit !! block = Some module →
      instance ∈ body module → opKind instance = InstanceOp moduleName →
      circuit !! moduleName = Some referenced → isFModule referenced = true →
      (resultNo < length (resultTypes instance))%nat →
      getPortDirection referenced resultNo = Some In →
      BlockArgument moduleName resultNo ∈ liveValues st →
      opId instance ∈ liveInstances st →
      OpResult (opId instance) resultNo ∈ liveValues st.
Proof.
  split; [apply analyze_returns|].
  intros fuel st Hrun block module instance moduleName referenced resultNo
         Hexec Hmod Hop Hkind Href Hf Hlt Hdir Hport Hlive.
  pose proof (analyze_scannedOp fuel st block module instance Hrun Hexec Hmod Hop) as Hs.
  unfold scannedOp, isDeclaration in Hs. rewrite Hkind, Href, Hf in Hs.
  destruct Hs as [_ Hrec]. specialize (Hrec resultNo Hlt).
  destruct (analyze_closed circuit _ _ Hrun) as (_ & Hclosed & Hpend).
  destruct (Hclosed _ Hport) as (_ & _ & Hin & _).
  destruct (Hin moduleName resultNo referenced (opId instance) resultNo
              eq_refl Href Hdir Hrec) as [Halive | Hqueued]; [done|].
  by apply (Hpend (opId instance)).
Qed.

End ScanResults.

(** *** The rewrite of a module body *)

Section BodyRewriteProperties.

Variable st : IMDeadCodeElimPass.

Lemma rewriteOps_sublist ops :
  ∀ before, sublist (brOps (rewriteOps st before ops)) ops ∧
            (length (brOps (rewriteOps st before ops))
             + numErasedOps (rewriteOps st before ops) = length ops)%nat.
Proof.
  induction ops as [|op rest IH]; intros before; simpl.
  { split; [constructor|done]. }
  destruct (IH (before ++ [op])) as [Hsub Hlen].
  set (r := rewriteOps st (before ++ [op]) rest) in *.
  assert (Hkeep : sublist (brOps (keepOp op r)) (op :: rest) ∧
                  (length (brOps (keepOp op r)) + numErasedOps (keepOp op r)
                   = S (length rest))%nat).
  { simpl. split; [by constructor|lia]. }
  assert (Hdrop : ∀ b, sublist (brOps (dropDeadOp b r)) (op :: rest) ∧
                  (length (brOps (dropDeadOp b r)) + numErasedOps (dropDeadOp b r)
                   = S (length rest))%nat).
  { intros b. simpl. split; [by constructor|lia]. }
  destruct (isFConnectLike op).
  - destruct (operands op) as [|dest ?]; [done|].
    destruct (isAssumedDead st dest); [apply (Hdrop true)|done].
  - destruct (_ && _); [apply Hdrop|].
    destruct (isOpTriviallyDead _ op); [apply (Hdrop true)|done].
Qed.

Lemma rewriteOps_connects ops :
  ∀ before op dest rest,
    isFConnectLike op = true → operands op = dest :: rest →
    (op ∈ brOps (rewriteOps st before ops) → dest ∈ liveValues st) ∧
    (op ∈ ops → dest ∈ liveValues st → op ∈ brOps (rewriteOps st before ops)).
Proof.
  induction ops as [|op' ops' IH]; intros before op dest rest Hconn Hops; simpl.
  { split; intros H; by apply elem_of_nil in H. }
  destruct (IH (before ++ [op']) op dest rest Hconn Hops) as [IH1 IH2].
  set (r := rewriteOps st (before ++ [op']) ops') in *.
  assert (Hother : ∀ r', brOps r' = brOps r →
            (op ∈ brOps r' → dest ∈ liveValues st)).
  { intros r' ->. done. }
  destruct (isFConnectLike op') eqn:Hconn'.
  - destruct (operands op') as [|dest' rest'] eqn:Hops'.
    + simpl. split.
      * intros [-> | Hin]%elem_of_cons; [congruence|by apply IH1].
      * intros [-> | Hin]%elem_of_cons Hlive; [congruence|].
        apply elem_of_cons. right. by apply IH2.
    + unfold isAssumedDead, isKnownAlive. case_bool_decide as Hlive'; simpl.
      * split.
        -- intros [-> | Hin]%elem_of_cons; [|by apply IH1]. congruence.
        -- intros [-> | Hin]%elem_of_cons Hlive; apply elem_of_cons;
             [by left|right; by apply IH2].
      * split; [done|].
        intros [-> | Hin]%elem_of_cons Hlive; [|by apply IH2]. congruence.
  - assert (Hne : op ≠ op') by (intros ->; congruence).
    assert (Hkeep : (op ∈ brOps (keepOp op' r) → dest ∈ liveValues st) ∧
                    (op ∈ op' :: ops' → dest ∈ liveValues st →
                     op ∈ brOps (keepOp op' r))).
    { simpl. split.
      - intros [-> | Hin]%elem_of_cons; [done|by apply IH1].
      - intros [-> | Hin]%elem_of_cons Hlive; [done|].
        apply elem_of_cons. right. by apply IH2. }
    assert (Hdrop : ∀ b, (op ∈ brOps (dropDeadOp b r) → dest ∈ liveValues st) ∧
                    (op ∈ op' :: ops' → dest ∈ liveValues st →
                     op ∈ brOps (dropDeadOp b r))).
    { intros b. simpl. split; [done|].
      intros [-> | Hin]%elem_of_cons Hlive; [done|by apply IH2]. }
    destruct (_ && _); [apply Hdrop|].
    destruct (isOpTriviallyDead _ op'); [apply (Hdrop true)|done].
Qed.

Lemma rewriteOps_keeps_effects ops :
  ∀ before op,
    op ∈ ops → isFConnectLike op = false → isDeclaration op = false →
    hasUnknownSideEffect op = true →
    op ∈ brOps (rewriteOps st before ops).
Proof.
  induction ops as [|op' ops' IH]; intros before op Hin Hconn Hdecl Heff; simpl.
  { by apply elem_of_nil in Hin. }
  set (r := rewriteOps st (before ++ [op']) ops') in *.
  assert (Hrest : op ∈ ops' → op ∈ brOps r) by (intros H; by apply IH).
  apply elem_of_cons in Hin as [<- | Hin].
  - rewrite Hconn, Hdecl, Heff. simpl.
    unfold isOpTriviallyDead, IMConstProp.wouldOpBeTriviallyDead.
    unfold hasUnknownSideEffect in Heff.
    destruct (opEffect op); try done. rewrite andb_false_r. simpl.
    by apply elem_of_cons; left.
  - destruct (isFConnectLike op').
    + destruct (operands op') as [|dest ?]; simpl;
        [apply elem_of_cons; right; auto|].
      destruct (isAssumedDead st dest); simpl; [auto|apply elem_of_cons; right; auto].
    + destruct (_ && _); simpl; [auto|].
      destruct (isOpTriviallyDead _ op'); simpl; [auto|apply elem_of_cons; right; auto].
Qed.

End BodyRewriteProperties.

Lemma NoDup_fmap_eq {A B} (f : A → B) (l : list A) x y :
  NoDup (map f l) → x ∈ l → y ∈ l → f x = f y → x = y.
Proof.
  induction l as [|a l IH]; intros Hnd Hx Hy Heq; [by apply elem_of_nil in Hx|].
  simpl in Hnd. apply NoDup_cons in Hnd as [Hnot Hnd].
  apply elem_of_cons in Hx as [-> | Hx]; apply elem_of_cons in Hy as [-> | Hy].
  - done.
  - destruct Hnot. rewrite Heq. by apply (list_elem_of_fmap_2 f).
  - destruct Hnot. rewrite <- Heq. by apply (list_elem_of_fmap_2 f).
  - by apply IH.
Qed.

Lemma use_empty_true ops op :
  (∀ user o k, user ∈ ops → OpResult o k ∈ operands user → o ≠ opId op) →
  IMConstProp.use_empty ops op = true.
Proof.
  intros H. unfold IMConstProp.use_empty.
  apply forallb_forall. intros user Huser%list_elem_of_In.
  apply forallb_forall. intros [b n|o k] Hoperand%list_elem_of_In; [done|].
  apply negb_true_iff, Nat.eqb_neq. by eapply H.
Qed.

Section UsersRemoved.

Variable st : IMDeadCodeElimPass.

Lemma isAssumedDeadOp_result op k :
  isAssumedDeadOp st op = true → (k < length (resultTypes op))%nat →
  OpResult (opId op) k ∉ liveValues st.
Proof.
  intros Hdead Hk. unfold isAssumedDeadOp in Hdead.
  rewrite forallb_forall in Hdead.
  specialize (Hdead (OpResult (opId op) k)).
  unfold isKnownAlive in Hdead. intros Hin.
  rewrite bool_decide_eq_true_2 in Hdead by done.
  assert (false = true); [|done]. apply Hdead.
  apply list_elem_of_In, elem_of_getResults. eauto.
Qed.

Lemma definedBefore_spec ops :
  ∀ before0, definedBefore before0 ops = true →
    ∀ before op after o k,
      ops = before ++ op :: after → OpResult o k ∈ operands op →
      ∃ def, def ∈ before0 ++ before ∧ opId def = o ∧
             (k < length (resultTypes def))%nat.
Proof.
  induction ops as [|op' rest IH]; intros before0 Hdef before op after o k Hsplit Hin.
  { by destruct before. }
  simpl in Hdef. apply andb_true_iff in Hdef as [Hhere Hrest].
  destruct before as [|b before]; simpl in Hsplit.
  - inversion Hsplit; subst. rewrite app_nil_r.
    rewrite forallb_forall in Hhere.
    specialize (Hhere (OpResult o k) (proj1 (list_elem_of_In _ _) Hin)).
    apply existsb_exists in Hhere as (def & Hdefin & Hprop).
    apply andb_true_iff in Hprop as [Hid Hlt].
    exists def. split_and!; [by apply list_elem_of_In|by apply Nat.eqb_eq|].
    by apply Nat.ltb_lt.
  - inversion Hsplit; subst.
    destruct (IH (before0 ++ [b]) Hrest before op after o k eq_refl Hin)
      as (def & Hdefin & Hid & Hlt).
    exists def. split; [|done]. by rewrite <- app_assoc in Hdefin.
Qed.

Lemma liveClosed_spec ops :
  liveClosed st ops = true ↔
  ∀ op, op ∈ ops →
    if isFConnectLike op then
      ∃ dest src, operands op = [dest; src] ∧
                  (dest ∈ liveValues st → src ∈ liveValues st)
    else
      isAssumedDeadOp st op = false ∨
      (hasUnknownSideEffect op = true ∧ isDeclaration op = false) →
      ∀ operand, operand ∈ operands op → operand ∈ liveValues st.
Proof.
  unfold liveClosed. rewrite forallb_forall.
  assert (Halive : ∀ v, isKnownAlive st v = true ↔ v ∈ liveValues st).
  { intros v. unfold isKnownAlive. apply bool_decide_eq_true. }
  split; intros H op Hin.
  - specialize (H op (proj1 (list_elem_of_In _ _) Hin)).
    destruct (isFConnectLike op).
    + destruct (operands op) as [|dest [|src [|]]]; try done.
      exists dest, src. split; [done|]. intros Hd.
      apply Halive. apply Halive in Hd. by rewrite Hd in H.
    + intros Hpre operand Hop.
      assert (Hcond : negb (isAssumedDeadOp st op) ||
                      hasUnknownSideEffect op && negb (isDeclaration op) = true).
      { destruct Hpre as [-> | [-> ->]]; [done|]. by rewrite orb_true_r. }
      rewrite Hcond in H. simpl in H. rewrite forallb_forall in H.
      apply Halive, H. by apply list_elem_of_In.
  - specialize (H op (proj2 (list_elem_of_In _ _) Hin)).
    destruct (isFConnectLike op).
    + destruct H as (dest & src & -> & Himp).
      destruct (isKnownAlive st dest) eqn:Hd; [|done]. simpl.
      apply Halive, Himp. by apply Halive.
    + destruct (negb (isAssumedDeadOp st op) ||
                hasUnknownSideEffect op && negb (isDeclaration op)) eqn:Hcond;
        [|done].
      simpl. apply forallb_forall. intros operand Hop%list_elem_of_In.
      apply Halive, H; [|done].
      apply orb_true_iff in Hcond as [Hc | Hc].
      * left. by apply negb_true_iff.
      * right. apply andb_true_iff in Hc as [-> Hc]. split; [done|].
        by apply negb_true_iff.
Qed.

Lemma rewriteOps_usersRemoved (full : list Operation) :
  definedBefore [] full = true → NoDup (map opId full) →
  liveClosed st full = true →
  ∀ ops before, full = before ++ ops →
    usersRemoved (rewriteOps st before ops) = true ∧
    ∀ user operand, user ∈ brOps (rewriteOps st before ops) →
                    operand ∈ operands user → operand ∈ liveValues st.
Proof.
  intros Hssa0 Hids Hclosed0.
  pose proof (definedBefore_spec full [] Hssa0) as Hssa. simpl in Hssa.
  pose proof (proj1 (liveClosed_spec full) Hclosed0) as Hclosed.
  induction ops as [|op rest IH]; intros before Hfull; simpl.
  { split; [done|]. intros user operand H. by apply elem_of_nil in H. }
  assert (Hfull' : full = (before ++ [op]) ++ rest) by (by rewrite <- app_assoc).
  destruct (IH (before ++ [op]) Hfull') as [Hok Hkept].
  destruct (rewriteOps_sublist st rest (before ++ [op])) as [Hsub _].
  set (r := rewriteOps st (before ++ [op]) rest) in *.
  assert (Hin : op ∈ full).
  { rewrite Hfull. apply elem_of_app. right. by apply elem_of_cons; left. }
  pose proof (Hclosed op Hin) as Hop.
  assert (Hkeep : (∀ operand, operand ∈ operands op → operand ∈ liveValues st) →
            usersRemoved (keepOp op r) = true ∧
            ∀ user operand, user ∈ brOps (keepOp op r) →
                            operand ∈ operands user → operand ∈ liveValues st).
  { intros Hoperands. simpl. split; [done|].
    intros user operand [-> | Huser]%elem_of_cons; [apply Hoperands|by apply Hkept]. }
  destruct (isFConnectLike op).
  - destruct Hop as (dest & src & Hops & Hlive). rewrite Hops.
    unfold isAssumedDead, isKnownAlive. case_bool_decide as Hdest; simpl; [|done].
    split; [done|].
    intros user operand [-> | Huser]%elem_of_cons; [|by apply Hkept].
    rewrite Hops.
    intros [-> | [-> | H%elem_of_nil]%elem_of_cons]%elem_of_cons; auto. done.
  - destruct ((isDeclaration op || negb (hasUnknownSideEffect op)) &&
              isAssumedDeadOp st op) eqn:Hdead.
    + simpl. split; [|done]. rewrite Hok. simpl.
      apply andb_true_iff in Hdead as [_ Hdead].
      apply use_empty_true. intros user o k Huser Hoperand ->.
      assert (Hnotbefore : ∀ def, def ∈ before → opId def ≠ opId op).
      { intros def Hdef Heq. rewrite Hfull in Hids.
        rewrite map_app in Hids. apply NoDup_app in Hids as (_ & Hdisj & _).
        apply (Hdisj (opId op)).
        - rewrite <- Heq. by apply (list_elem_of_fmap_2 opId).
        - simpl. by apply elem_of_cons; left. }
      apply elem_of_app in Huser as [Huser | [-> | Huser]%elem_of_cons].
      * apply list_elem_of_split in Huser as (b1 & a1 & ->).
        destruct (Hssa b1 user (a1 ++ op :: rest) (opId op) k) as (def & Hdef & Heq & _);
          [by rewrite Hfull, <- app_assoc|done|].
        apply (Hnotbefore def); [|done]. apply elem_of_app. by left.
      * destruct (Hssa before op rest (opId op) k) as (def & Hdef & Heq & _);
          [done..|]. by apply (Hnotbefore def).
      * assert (Hrest : user ∈ rest) by (by eapply elem_of_sublist).
        pose proof (Hkept user (OpResult (opId op) k) Huser Hoperand) as Halive.
        apply list_elem_of_split in Hrest as (b2 & a2 & ->).
        destruct (Hssa (before ++ op :: b2) user a2 (opId op) k)
          as (def & Hdef & Heq & Hk);
          [by rewrite Hfull, <- app_assoc|done|].
        assert (def = op) as ->.
        { apply (NoDup_fmap_eq opId full); [done| |done|done].
          rewrite Hfull. rewrite app_comm_cons, app_assoc.
          apply elem_of_app. by left. }
        by apply (isAssumedDeadOp_result op k).
    + destruct (isOpTriviallyDead _ op); [by split|].
      apply Hkeep. apply Hop.
      apply andb_false_iff in Hdead as [Hd | Hd]; [right|by left].
      apply orb_false_iff in Hd as [Hdecl Heff].
      split; [|done]. by apply negb_false_iff.
Qed.

End UsersRemoved.

(** [rewriteModuleBody] only erases, and counts what it erases; a connect
    stays exactly when its destination is alive; an operation with an
    unknown side effect that is neither a connect nor a declaration stays;
    the body of a block that is not executable is left alone. *)
Theorem rewriteModuleBody_erases_dead_connects
    (st : IMDeadCodeElimPass) (block : nat) (module : FModuleLike) :
  let r := rewriteModuleBody st block module in
  sublist (brOps r) (body module) ∧
  (length (brOps r) + numErasedOps r = length (body module))%nat ∧
  (isBlockExecutable st block = false → brOps r = body module) ∧
  (isBlockExecutable st block = true →
   ∀ op dest rest,
     op ∈ body module → isFConnectLike op = true → operands op = dest :: rest →
     (op ∈ brOps r ↔ dest ∈ liveValues st)) ∧
  (∀ op, op ∈ body module → isFConnectLike op = false →
         isDeclaration op = false → hasUnknownSideEffect op = true →
         op ∈ brOps r).
Proof.
  unfold rewriteModuleBody. destruct (isBlockExecutable st block); simpl.
  - destruct (rewriteOps_sublist st (body module) []) as [Hsub Hlen].
    split_and!; [done|done|done| |].
    + intros _ op dest rest Hin Hconn Hops.
      destruct (rewriteOps_connects st (body module) [] op dest rest Hconn Hops)
        as [H1 H2].
      split; auto.
    + intros op Hin Hconn Hdecl Heff. by apply rewriteOps_keeps_effects.
  - split_and!; [done|lia|done|done|done].
Qed.

(** In a block in SSA form with unique operation ids, over live values that
    are closed under the rules of the analysis, every operation that
    [rewriteModuleBody] erases as dead has lost its users before: the
    assertion of the source holds. *)
Theorem rewriteModuleBody_users_already_removed
    (st : IMDeadCodeElimPass) (block : nat) (module : FModuleLike) :
  definedBefore [] (body module) = true →
  NoDup (map opId (body module)) →
  liveClosed st (body module) = true →
  usersRemoved (rewriteModuleBody st block module) = true.
Proof.
  intros Hssa Hids Hclosed. unfold rewriteModuleBody.
  destruct (isBlockExecutable st block); simpl; [|done].
  by destruct (rewriteOps_usersRemoved st (body module) Hssa Hids Hclosed
                 (body module) [] eq_refl).
Qed.

Lemma rewriteModuleBody_users_already_removed_witness :
  usersRemoved
    (rewriteModuleBody
       (mkPass {[0%nat]} ∅ [] ∅ ∅ ∅ ∅ ∅) 0
       (mkModule true false true [] deadChain)) = true ∧
  brOps (rewriteModuleBody
           (mkPass {[0%nat]} ∅ [] ∅ ∅ ∅ ∅ ∅) 0
           (mkModule true false true [] deadChain)) = [].
Proof.
  split; [|vm_compute; reflexivity].
  apply rewriteModuleBody_users_already_removed.
  - reflexivity.
  - apply (bool_decide_unpack (NoDup _)). vm_compute. exact I.
  - vm_compute. reflexivity.
Defined.

Section AnalysisAndRewrite.

Variable circuit : CircuitOp.

Lemma findOp_unique ops op :
  NoDup (map opId ops) → op ∈ ops → findOp ops (opId op) = Some op.
Proof.
  intros Hnd Hin. unfold findOp.
  destruct (List.find (λ op0, Nat.eqb (opId op0) (opId op)) ops) as [op'|] eqn:E.
  - apply find_some in E as [Hin' Heq]. apply Nat.eqb_eq in Heq.
    f_equal. apply (NoDup_fmap_eq opId ops); [done| |done|done].
    by apply list_elem_of_In.
  - pose proof (find_none _ _ E op (proj1 (list_elem_of_In _ _) Hin)) as Hno.
    simpl in Hno. by rewrite Nat.eqb_refl in Hno.
Qed.

(** On a well-formed circuit the result of the liveness analysis is closed,
    on every executable block, in the way the rewrite of the module bodies
    counts on. *)
Theorem liveness_result_is_closed :
  (∃ st, analyze circuit (analysisFuel circuit) = Some st) ∧
  ∀ fuel st, analyze circuit fuel = Some st →
    wellFormedOps (concat (map body circuit)) = true →
    ∀ block module,
      block ∈ executableBlocks st → circuit !! block = Some module →
      liveClosed st (body module) = true.
Proof.
  split; [apply analyze_returns|].
  intros fuel st Hrun Hwf block module Hexec Hmod.
  apply andb_true_iff in Hwf as [Hids Hshape].
  apply bool_decide_eq_true in Hids. rewrite forallb_forall in Hshape.
  destruct (analyze_closed circuit _ _ Hrun) as (_ & Hclosed & _).
  apply liveClosed_spec. intros op Hop.
  pose proof (allOps_body circuit block module op Hmod Hop) as Hall.
  specialize (Hshape op (proj1 (list_elem_of_In _ _) Hall)).
  destruct (isFConnectLike op) eqn:Hconn.
  - destruct (operands op) as [|dest [|src [|]]] eqn:Hops; try done.
    exists dest, src. split; [done|]. intros Hdest.
    destruct (Hclosed dest Hdest) as (Hc & _). by eapply Hc.
  - intros Hpre operand Hoperand.
    assert (Hnoops : (∃ m, opKind op = InstanceOp m) ∨ opKind op = MemOp → False).
    { intros [[m Hk] | Hk]; rewrite Hk in Hshape;
        destruct (operands op); by try apply elem_of_nil in Hoperand. }
    destruct Hpre as [Halive | [Heff Hdecl]].
    + unfold isAssumedDeadOp in Halive.
      assert (∃ r, r ∈ getResults op ∧ r ∈ liveValues st) as (r & Hr & Hlive).
      { induction (getResults op) as [|r l IH]; [done|]. simpl in Halive.
        apply andb_false_iff in Halive as [Hr | Hl].
        - exists r. split; [by apply elem_of_cons; left|].
          apply negb_false_iff in Hr. by apply bool_decide_eq_true in Hr.
        - destruct (IH Hl) as (r' & Hr' & Hlive'). exists r'.
          split; [by apply elem_of_cons; right|done]. }
      apply elem_of_getResults in Hr as (k & Hk & ->).
      destruct (Hclosed _ Hlive) as (_ & _ & _ & Hdef).
      specialize (Hdef op (findOp_unique _ op Hids Hall)).
      destruct (opKind op) eqn:Hkind; try (by apply Hdef);
        destruct Hnoops; eauto.
    + pose proof (analyze_scannedOp circuit fuel st block module op
                    Hrun Hexec Hmod Hop) as Hs.
      unfold scannedOp in Hs. rewrite Hdecl in Hs.
      destruct (opKind op) eqn:Hkind;
        try (destruct (Hs Hconn Heff) as (_ & Hoperands & _); by apply Hoperands).
      destruct Hnoops; eauto.
Qed.

End AnalysisAndRewrite.

(** *** The erasure of empty modules *)

Lemma concat_map_body_eraseInstancesOf name circuit :
  concat (map body (map (eraseInstancesOf name) circuit)) =
  List.filter (λ op, negb (isInstanceOf name op && negb (opInnerSym op)))
              (concat (map body circuit)).
Proof.
  induction circuit as [|m circuit IH]; simpl; [done|].
  by rewrite List.filter_app, IH.
Qed.

Lemma instancesOf_eraseInstancesOf name circuit :
  instancesOf (map (eraseInstancesOf name) circuit) name =
  List.filter opInnerSym (instancesOf circuit name).
Proof.
  unfold instancesOf. rewrite concat_map_body_eraseInstancesOf.
  induction (concat (map body circuit)) as [|op l IH]; simpl; [done|].
  destruct (isInstanceOf name op) eqn:Hinst; simpl.
  - destruct (opInnerSym op) eqn:Hsym; simpl; [|done].
    by rewrite Hinst, IH.
  - by rewrite Hinst, IH.
Qed.

(** [eraseEmptyModule] erases a module only if it has no operation, is not
    public, has no annotation and no port; no instance of the module is left
    then.  Whatever it does, an instance of the module that is left was
    there before, and carries an inner symbol if anything was erased; the
    operations that are not instances of the module stay. *)
Theorem eraseEmptyModule_leaves_no_instance (name : nat) (w : ModuleEraser) :
  let w' := eraseEmptyModule name w in
  (meErased w' = meErased w ∧ numErasedModules w' = numErasedModules w ∨
   meErased w' = {[name]} ∪ meErased w ∧
   numErasedModules w' = S (numErasedModules w) ∧
   meWarnings w' = meWarnings w ∧
   instancesOf (meCircuit w') name = [] ∧
   ∃ module, meCircuit w !! name = Some module ∧
     body module = [] ∧ isPublic module = false ∧
     modAnnotationsEmpty module = true ∧ ports module = []) ∧
  (∀ op, op ∈ instancesOf (meCircuit w') name →
         op ∈ instancesOf (meCircuit w) name ∧
         (meCircuit w' = meCircuit w ∨ opInnerSym op = true)) ∧
  (∀ op, isInstanceOf name op = false →
         (op ∈ concat (map body (meCircuit w')) ↔
          op ∈ concat (map body (meCircuit w)))).
Proof.
  unfold eraseEmptyModule.
  assert (Hsame : ∀ w1, meCircuit w1 = meCircuit w → meErased w1 = meErased w →
    numErasedModules w1 = numErasedModules w →
    (meErased w1 = meErased w ∧ numErasedModules w1 = numErasedModules w ∨
     meErased w1 = {[name]} ∪ meErased w ∧
     numErasedModules w1 = S (numErasedModules w) ∧
     meWarnings w1 = meWarnings w ∧
     instancesOf (meCircuit w1) name = [] ∧
     ∃ module, meCircuit w !! name = Some module ∧
       body module = [] ∧ isPublic module = false ∧
       modAnnotationsEmpty module = true ∧ ports module = []) ∧
    (∀ op, op ∈ instancesOf (meCircuit w1) name →
           op ∈ instancesOf (meCircuit w) name ∧
           (meCircuit w1 = meCircuit w ∨ opInnerSym op = true)) ∧
    (∀ op, isInstanceOf name op = false →
           (op ∈ concat (map body (meCircuit w1)) ↔
            op ∈ concat (map body (meCircuit w))))).
  { intros w1 Hc He Hn. rewrite Hc. split_and!; [by left|auto|done]. }
  destruct (meCircuit w !! name) as [module|] eqn:Hmod; [|by apply Hsame].
  case_bool_decide as Hbody; cbn [negb]; [|by apply Hsame].
  destruct (isPublic module) eqn:Hpub;
    [exact (Hsame (emitWarning name ModuleIsPublic w) eq_refl eq_refl eq_refl)|].
  destruct (modAnnotationsEmpty module) eqn:Hanno; cbn [negb];
    [|exact (Hsame (emitWarning name ModuleHasAnnotations w) eq_refl eq_refl eq_refl)].
  case_bool_decide as Hports; cbn [negb];
    [|exact (Hsame (emitWarning name ModuleHasPorts w) eq_refl eq_refl eq_refl)].
  assert (Hothers : ∀ op, isInstanceOf name op = false →
    (op ∈ concat (map body (map (eraseInstancesOf name) (meCircuit w))) ↔
     op ∈ concat (map body (meCircuit w)))).
  { intros op Hop. rewrite concat_map_body_eraseInstancesOf.
    rewrite !list_elem_of_In, filter_In, Hop. simpl. tauto. }
  assert (Hleft : ∀ op,
    op ∈ instancesOf (map (eraseInstancesOf name) (meCircuit w)) name →
    op ∈ instancesOf (meCircuit w) name ∧
    (map (eraseInstancesOf name) (meCircuit w) = meCircuit w ∨ opInnerSym op = true)).
  { intros op. rewrite instancesOf_eraseInstancesOf, !list_elem_of_In, filter_In.
    intros [Hin H]. split; [done|by right]. }
  cbv zeta. case_bool_decide as Hsym; cbn [negb]; simpl.
  - split_and!; [right|done|done].
    split_and!; try done.
    + by rewrite instancesOf_eraseInstancesOf.
    + by exists module.
  - split_and!; [by left|done|done].
Qed.

(** *** The properties on a sample circuit *)

(** The analysis of the sample circuit, run once and named. *)
Ltac run_sample :=
  let r := eval vm_compute in (analyze sampleCircuit 40) in
  lazymatch r with
  | Some ?s =>
      pose (fixpoint := s);
      assert (Hrun : analyze sampleCircuit 40 = Some fixpoint)
        by (vm_compute; reflexivity);
      assert (Hexec : 0%nat ∈ executableBlocks fixpoint)
        by (vm_compute; reflexivity);
      exists fixpoint; split; [exact Hrun|]
  end.

Ltac in_body := simpl; repeat (first [ apply elem_of_cons; left; reflexivity
                                     | apply elem_of_cons; right ]).

Lemma live_destination_makes_source_live_witness :
  ∃ st, analyze sampleCircuit 40 = Some st ∧
        OpResult 3 1 ∈ liveValues st ∧ OpResult 7 0 ∈ liveValues st.
Proof.
  run_sample.
  pose proof (proj2 (live_destination_makes_source_live sampleCircuit) 40%nat
                fixpoint Hrun) as [Hconnect Hsub].
  split.
  - apply (Hconnect (plainOp 6 StrictConnectOp [BlockArgument 0 1; OpResult 3 1] [])
                    (BlockArgument 0 1) (OpResult 3 1) []).
    + in_body.
    + reflexivity.
    + reflexivity.
    + vm_compute; reflexivity.
  - apply (Hsub (plainOp 7 SubfieldOp [OpResult 1 0] [UInt8]) (OpResult 1 0) []).
    + in_body.
    + reflexivity.
    + reflexivity.
    + reflexivity.
    + vm_compute; reflexivity.
Defined.

Lemma live_result_makes_operands_live_witness :
  ∃ st, analyze sampleCircuit 40 = Some st ∧
        OpResult 1 0 ∈ liveValues st ∧ OpResult 9 1 ∈ liveValues st.
Proof.
  run_sample.
  pose proof (proj2 (live_result_makes_operands_live sampleCircuit) 40%nat
                fixpoint Hrun) as H.
  split.
  - apply (H (OpResult 2 0)
             (mkOp 2 NodeOp [OpResult 1 0] [UInt8] true true true false Pure)).
    + vm_compute; reflexivity.
    + reflexivity.
    + apply list_elem_of_singleton. reflexivity.
  - apply (H (OpResult 9 0) (plainOp 9 MemOp [] [UInt8; UInt8])).
    + vm_compute; reflexivity.
    + reflexivity.
    + in_body.
Defined.

Lemma live_instance_output_makes_instance_live_witness :
  ∃ st, analyze sampleCircuit 40 = Some st ∧
        3%nat ∈ liveInstances st ∧ BlockArgument 1 1 ∈ liveValues st.
Proof.
  run_sample.
  assert (Halive : OpResult (opId sampleInstance) 1 ∈ liveValues fixpoint)
    by (vm_compute; reflexivity).
  pose proof (proj2 (live_instance_output_makes_instance_live sampleCircuit) 40%nat
                fixpoint Hrun sampleInstance 1%nat sampleChild 1%nat
                eq_refl eq_refl eq_refl eq_refl
                (λ H, eq_ind (Some Out)
                        (λ d, match d with Some Out => True | _ => False end)
                        I _ H)
                Halive) as (Hinstance & Hport & _).
  split; [exact Hinstance|exact Hport].
Defined.

Lemma live_input_port_is_live_at_live_instances_witness :
  ∃ st, analyze sampleCircuit 40 = Some st ∧ OpResult 3 0 ∈ liveValues st.
Proof.
  run_sample.
  apply (proj2 (live_input_port_is_live_at_live_instances sampleCircuit) 40%nat
           fixpoint Hrun 0%nat sampleTop sampleInstance 1%nat sampleChild 0%nat).
  - exact Hexec.
  - reflexivity.
  - in_body.
  - reflexivity.
  - reflexivity.
  - reflexivity.
  - simpl. lia.
  - reflexivity.
  - vm_compute; reflexivity.
  - vm_compute; reflexivity.
Defined.

Lemma public_module_ports_are_alive_witness :
  ∃ st, analyze sampleCircuit 40 = Some st ∧
        0%nat ∈ executableBlocks st ∧ 0%nat ∈ undeletableBlocks st ∧
        BlockArgument 0 0 ∈ liveValues st.
Proof.
  run_sample.
  pose proof (proj2 (public_module_ports_are_alive sampleCircuit) 40%nat
                fixpoint Hrun 0%nat sampleTop eq_refl eq_refl eq_refl)
    as (Hexec' & Hundel & Hports).
  split_and!; [exact Hexec'|exact Hundel|].
  apply Hports. in_body.
Defined.

Lemma dont_touch_ports_are_alive_witness :
  ∃ st, analyze sampleCircuit 40 = Some st ∧
        BlockArgument 1 2 ∈ liveValues st ∧ 1%nat ∈ undeletableBlocks st.
Proof.
  run_sample.
  apply (proj2 (dont_touch_ports_are_alive sampleCircuit) 40%nat fixpoint Hrun
           1%nat sampleChild (BlockArgument 1 2)).
  - vm_compute; reflexivity.
  - reflexivity.
  - in_body.
  - reflexivity.
Defined.

Lemma instantiated_modules_are_executable_witness :
  ∃ st, analyze sampleCircuit 40 = Some st ∧ 1%nat ∈ executableBlocks st.
Proof.
  run_sample.
  apply (proj2 (instantiated_modules_are_executable sampleCircuit) 40%nat
           fixpoint Hrun 0%nat sampleTop sampleInstance 1%nat sampleChild).
  - exact Hexec.
  - reflexivity.
  - in_body.
  - reflexivity.
  - reflexivity.
  - reflexivity.
Defined.

Lemma pinned_operations_are_alive_witness :
  ∃ st, analyze sampleCircuit 40 = Some st ∧
        OpResult 2 0 ∈ liveValues st ∧ OpResult 7 0 ∈ liveValues st ∧
        0%nat ∈ undeletableBlocks st.
Proof.
  run_sample.
  pose proof (proj2 (pinned_operations_are_alive sampleCircuit) 40%nat fixpoint Hrun
                0%nat sampleTop) as H.
  assert (Hnode : mkOp 2 NodeOp [OpResult 1 0] [UInt8] true true true false Pure
                  ∈ body sampleTop) by in_body.
  assert (Heffect : mkOp 8 (OtherOp 0) [OpResult 7 0] [] false true true false
                         UnknownEffect ∈ body sampleTop) by in_body.
  pose proof (proj1 (H _ Hexec eq_refl Hnode) eq_refl eq_refl) as [Hresults Hpinned].
  pose proof (proj2 (H _ Hexec eq_refl Heffect) eq_refl eq_refl
                (λ m Hm, eq_ind (OtherOp 0)
                           (λ k, match k with OtherOp _ => True | _ => False end)
                           I _ Hm)
                eq_refl) as (_ & Hoperands & _).
  split_and!.
  - apply Hresults. apply list_elem_of_singleton. reflexivity.
  - apply Hoperands. apply list_elem_of_singleton. reflexivity.
  - exact Hpinned.
Defined.

Lemma external_instances_are_alive_witness :
  ∃ st, analyze sampleCircuit 40 = Some st ∧
        4%nat ∈ liveInstances st ∧ OpResult 4 0 ∈ liveValues st.
Proof.
  run_sample.
  assert (Hin : plainOp 4 (InstanceOp 2) [] [UInt8] ∈ body sampleTop) by in_body.
  pose proof (proj2 (external_instances_are_alive sampleCircuit) 40%nat fixpoint Hrun
                0%nat sampleTop _ 2%nat sampleExt Hexec eq_refl Hin
                eq_refl eq_refl eq_refl) as (Hinstance & _ & Hresults).
  split; [exact Hinstance|]. apply Hresults; [simpl; lia|simpl; discriminate].
Defined.

Lemma liveness_result_is_closed_witness :
  ∃ st, analyze sampleCircuit 40 = Some st ∧
        liveClosed st (body sampleTop) = true.
Proof.
  run_sample.
  apply (proj2 (liveness_result_is_closed sampleCircuit) 40%nat fixpoint Hrun
           ltac:(vm_compute; reflexivity) 0%nat sampleTop Hexec eq_refl).
Defined.

Lemma rewriteModuleBody_erases_dead_connects_witness :
  ∃ st, analyze sampleCircuit 40 = Some st ∧
        plainOp 6 StrictConnectOp [BlockArgument 0 1; OpResult 3 1] []
        ∈ brOps (rewriteModuleBody st 0 sampleTop).
Proof.
  run_sample.
  pose proof (rewriteModuleBody_erases_dead_connects fixpoint 0%nat sampleTop)
    as (_ & _ & _ & Hconnects & _).
  apply (Hconnects ltac:(vm_compute; reflexivity) _ (BlockArgument 0 1) [OpResult 3 1]).
  - in_body.
  - reflexivity.
  - reflexivity.
  - vm_compute; reflexivity.
Defined.

Lemma eraseEmptyModule_leaves_no_instance_witness :
  let w' := eraseEmptyModule 1 (mkModuleEraser (emptyChildCircuit false) ∅ [] 0) in
  meErased w' = {[1%nat]} ∪ ∅ ∧ instancesOf (meCircuit w') 1 = [].
Proof.
  destruct (eraseEmptyModule_leaves_no_instance
              1%nat (mkModuleEraser (emptyChildCircuit false) ∅ [] 0))
    as [[[_ Hcount] | (Herased & _ & _ & Hnone & _)] _].
  - vm_compute in Hcount. discriminate Hcount.
  - split; [exact Herased|exact Hnone].
Defined.

(** *** Instances of undeletable modules *)

Lemma pins_refl block st : pins block st st.
Proof. split_and!; [apply scanGrows_refl|done|apply union_subseteq_r]. Qed.

Lemma pins_trans block st1 st2 st3 :
  pins block st1 st2 → pins block st2 st3 → pins block st1 st3.
Proof.
  intros (Hg & He & Hu) (Hg' & He' & Hu'). split_and!.
  - by eapply scanGrows_trans.
  - congruence.
  - intros b Hb. apply Hu' in Hb.
    apply elem_of_union in Hb as [Hb | Hb]; [by apply elem_of_union_l|by apply Hu].
Qed.

Lemma pins_foldl {A} block (f : IMDeadCodeElimPass → A → IMDeadCodeElimPass) l :
  (∀ st a, pins block st (f st a)) → ∀ st, pins block st (foldl f st l).
Proof.
  intros Hf. induction l as [|a l IH]; intros st; simpl; [apply pins_refl|].
  eapply pins_trans; [apply Hf|apply IH].
Qed.

Lemma pins_markAlive block v st : pins block st (markAlive v st).
Proof.
  split_and!; [apply scanGrows_markAlive|apply markAlive_executable|].
  unfold markAlive. destruct (isKnownAlive st v); simpl; apply union_subseteq_r.
Qed.

Lemma pins_markAliveAll block values st : pins block st (markAliveAll values st).
Proof.
  unfold markAliveAll.
  apply (pins_foldl block (λ st value, markAlive value st)).
  intros s v. apply pins_markAlive.
Qed.

Lemma pins_markBlockUndeletable block st : pins block st (markBlockUndeletable block st).
Proof. split_and!; [apply scanGrows_markBlockUndeletable|done|done]. Qed.

Lemma pins_markAliveInstance block instance st :
  pins block st (markAliveInstance block instance st).
Proof.
  split_and!; [apply markAliveInstance_scanGrows|done|done].
Qed.

Lemma pins_addInstanceResult block port r st :
  pins block st (addInstanceResult port r st).
Proof.
  split_and!; [apply scanGrows_addInstanceResult|done|simpl; apply union_subseteq_r].
Qed.

Lemma pins_afterCalleeMarked block instance moduleName st :
  pins block st (afterCalleeMarked block instance moduleName st).
Proof.
  unfold afterCalleeMarked, recordInstanceResults. cbv zeta.
  eapply pins_trans;
    [|apply (pins_foldl block
               (λ st resultNo,
                  addInstanceResult (BlockArgument moduleName resultNo)
                                    (OpResult (opId instance) resultNo) st));
      intros; apply pins_addInstanceResult].
  destruct (_ && _).
  - eapply pins_trans; [|apply pins_markAliveInstance].
    destruct (isBlockUndeletable st moduleName);
      [apply pins_markAliveInstance|apply pins_refl].
  - destruct (isBlockUndeletable st moduleName);
      [apply pins_markAliveInstance|apply pins_refl].
Qed.

Lemma pins_markExtInstanceOp block instance module st :
  pins block st (markExtInstanceOp block instance module st).
Proof.
  unfold markExtInstanceOp.
  eapply pins_trans; [|apply pins_markAliveInstance].
  apply (pins_foldl block
           (λ st resultNo,
              match getPortDirection module resultNo with
              | Some Out => st
              | _ => markAlive (OpResult (opId instance) resultNo) st
              end)).
  intros s k. destruct (getPortDirection module k) as [[]|];
    apply pins_markAlive || apply pins_refl.
Qed.

Lemma pins_markDeclaration block op st : pins block st (markDeclaration block op st).
Proof.
  unfold markDeclaration. destruct (negb _); [|apply pins_refl].
  eapply pins_trans; [apply pins_markAliveAll|apply pins_markBlockUndeletable].
Qed.

Lemma pins_markUnknownSideEffectOp block op st :
  pins block st (markUnknownSideEffectOp block op st).
Proof.
  unfold markUnknownSideEffectOp.
  eapply pins_trans; [|apply pins_markBlockUndeletable].
  eapply pins_trans; apply pins_markAliveAll.
Qed.

Section UndeletableModules.

Variable circuit : CircuitOp.

Lemma pins_ports block args st :
  pins block st
    (foldl (λ st blockArg,
              if hasDontTouchValue circuit blockArg
              then markBlockUndeletable block (markAlive blockArg st)
              else st) st args).
Proof.
  apply (pins_foldl block
           (λ st blockArg,
              if hasDontTouchValue circuit blockArg
              then markBlockUndeletable block (markAlive blockArg st)
              else st)).
  intros s a. destruct (hasDontTouchValue circuit a); [|apply pins_refl].
  eapply pins_trans; [apply pins_markAlive|apply pins_markBlockUndeletable].
Qed.

(** One turn of the loop of [markBlockExecutable] over the operations: an
    update that pins nothing but the block, or the scan of the instantiated
    module followed by such an update. *)
Lemma scanStep_cases fuel block op st st' :
  (if isDeclaration op then Some (markDeclaration block op st)
   else
     match opKind op with
     | InstanceOp moduleName =>
         match circuit !! moduleName with
         | None => Some st
         | Some referenced =>
             if isFModule referenced then
               afterCalleeMarked block op moduleName
                 <$> markBlockExecutable circuit fuel moduleName st
             else Some (markExtInstanceOp block op referenced st)
         end
     | _ =>
         if isFConnectLike op then Some st
         else if hasUnknownSideEffect op
         then Some (markUnknownSideEffectOp block op st)
         else Some st
     end) = Some st' →
  (pins block st st' ∧
   ∀ moduleName referenced,
     opKind op = InstanceOp moduleName → circuit !! moduleName = Some referenced →
     isFModule referenced = false) ∨
  ∃ moduleName referenced st1,
    opKind op = InstanceOp moduleName ∧ circuit !! moduleName = Some referenced ∧
    isFModule referenced = true ∧
    markBlockExecutable circuit fuel moduleName st = Some st1 ∧
    st' = afterCalleeMarked block op moduleName st1.
Proof.
  intros Hstep. destruct (isDeclaration op) eqn:Hdecl.
  { inversion Hstep; subst. left. split; [apply pins_markDeclaration|].
    intros mn ref Hk. unfold isDeclaration in Hdecl. by rewrite Hk in Hdecl. }
  assert (Hplain :
    (if isFConnectLike op then Some st
     else if hasUnknownSideEffect op
          then Some (markUnknownSideEffectOp block op st) else Some st)
    = Some st' → pins block st st').
  { destruct (isFConnectLike op); [intros [= <-]; apply pins_refl|].
    destruct (hasUnknownSideEffect op); intros [= <-]; [|apply pins_refl].
    apply pins_markUnknownSideEffectOp. }
  destruct (opKind op) eqn:Hkind; try (left; split; [exact (Hplain Hstep)|done]).
  destruct (circuit !! moduleName) as [referenced|] eqn:Href.
  2: { inversion Hstep; subst. left. split; [apply pins_refl|].
       intros mn ref [= <-]. by rewrite Href. }
  destruct (isFModule referenced) eqn:Hf.
  - destruct (markBlockExecutable circuit fuel moduleName st) as [st1|] eqn:E; [|done].
    inversion Hstep; subst. right. by exists moduleName, referenced, st1.
  - inversion Hstep; subst. left. split; [apply pins_markExtInstanceOp|].
    intros mn ref [= <-]. rewrite Href. by intros [= <-].
Qed.

Lemma undeletable_is_new fuel :
  ∀ block st st',
    markBlockExecutable circuit fuel block st = Some st' →
    ∀ b, b ∈ undeletableBlocks st' →
         b ∈ undeletableBlocks st ∨ b ∉ executableBlocks st.
Proof.
  induction fuel as [|fuel IH]; intros block st st' Hrun b Hb; [done|].
  simpl in Hrun. unfold isBlockExecutable in Hrun. case_bool_decide as Hexec.
  { inversion Hrun; subst. by left. }
  assert (Hnew : ∀ s, pins block st s → ∀ b, b ∈ undeletableBlocks s →
            b ∈ undeletableBlocks st ∨ b ∉ executableBlocks st).
  { intros s (_ & _ & Hu) b' Hb'. apply Hu in Hb'.
    apply elem_of_union in Hb' as [->%elem_of_singleton | Hb']; [by right|by left]. }
  destruct (circuit !! block) as [fmodule|] eqn:Hmod.
  2: { inversion Hrun; subst. simpl in Hb. by left. }
  set (P := λ s : IMDeadCodeElimPass,
              executableBlocks st ⊆ executableBlocks s ∧
              ∀ b, b ∈ undeletableBlocks s →
                   b ∈ undeletableBlocks st ∨ b ∉ executableBlocks st).
  assert (HP : P st').
  { refine (seeding_foldlOpt P _ (λ _, True) _ _ _ _ _ Hrun _); [|done|].
    - intros s op s' _ Hstep [He Hund].
      destruct (scanStep_cases fuel block op s s' Hstep)
        as [[(Hg & He' & Hu) _] | (mn & ref & s1 & Hk & Href & Hf & E & ->)].
      + split; [by rewrite He'|].
        intros b' Hb'. apply Hu in Hb'.
        apply elem_of_union in Hb' as [->%elem_of_singleton | Hb'];
          [by right|by apply Hund].
      + destruct (scanGrows_markBlockExecutable circuit _ _ _ _ E)
          as (_ & _ & He1 & _).
        destruct (pins_afterCalleeMarked block op mn s1) as (_ & He2 & Hu2).
        split; [rewrite He2; by transitivity (executableBlocks s)|].
        intros b' Hb'. apply Hu2 in Hb'.
        apply elem_of_union in Hb' as [->%elem_of_singleton | Hb']; [by right|].
        destruct (IH _ _ _ E b' Hb') as [Hold | Hnot]; [by apply Hund|].
        right. intros Hin. apply Hnot. by apply He.
    - split.
      + transitivity (executableBlocks (insertExecutable block st));
          [simpl; apply union_subseteq_r|].
        rewrite dontTouchPorts_executable. by destruct (_ || _).
      + intros b' Hb'.
        destruct (pins_ports block (getArguments block fmodule)
                    (if isPublic fmodule || negb (modAnnotationsEmpty fmodule)
                     then markBlockUndeletable block (insertExecutable block st)
                     else insertExecutable block st)) as (_ & _ & Hu).
        apply Hu in Hb'.
        apply elem_of_union in Hb' as [->%elem_of_singleton | Hb']; [by right|].
        destruct (_ || _); simpl in Hb'; [|by left].
        apply elem_of_union in Hb' as [->%elem_of_singleton | Hb']; [by right|by left]. }
  by apply HP.
Qed.

Lemma foldlOpt_prefix_in {A}
    (f : IMDeadCodeElimPass → A → option IMDeadCodeElimPass)
    (I : list A → IMDeadCodeElimPass → Prop) (Q : A → Prop) (l : list A) :
  (∀ done a st st', Q a → I done st → f st a = Some st' → I (done ++ [a]) st') →
  (∀ a, a ∈ l → Q a) →
  ∀ done st st', I done st → foldlOpt f st l = Some st' → I (done ++ l) st'.
Proof.
  intros Hstep. induction l as [|a l IH]; intros HQ done st st' HI Hrun;
    simpl in Hrun.
  - inversion Hrun; subst. by rewrite app_nil_r.
  - destruct (f st a) as [st1|] eqn:E; [|done].
    replace (done ++ a :: l) with ((done ++ [a]) ++ l) by (by rewrite <- app_assoc).
    apply (IH (λ x Hx, HQ x (proj2 (elem_of_cons _ _ _) (or_intror Hx))) _ st1);
      [|done].
    apply (Hstep done a st); [|done..]. apply HQ. by apply elem_of_cons; left.
Qed.

Lemma afterCalleeMarked_alive block instance moduleName st :
  moduleName ∈ undeletableBlocks st →
  opId instance ∈ liveInstances (afterCalleeMarked block instance moduleName st) ∧
  block ∈ undeletableBlocks (afterCalleeMarked block instance moduleName st).
Proof.
  intros Hund. unfold afterCalleeMarked, isBlockUndeletable.
  rewrite bool_decide_eq_true_2 by done. cbv zeta.
  set (s1 := markAliveInstance block instance st).
  assert (H1 : opId instance ∈ liveInstances s1 ∧ block ∈ undeletableBlocks s1).
  { subst s1. unfold markAliveInstance. simpl.
    split; apply elem_of_union_l; by apply elem_of_singleton. }
  set (s2 := if opInnerSym instance && isLiveInnerSymbol s1 moduleName (opId instance)
             then markAliveInstance block instance s1 else s1).
  assert (H12 : pins block s1 s2).
  { subst s2. destruct (_ && _); [apply pins_markAliveInstance|apply pins_refl]. }
  assert (H23 : pins block s2 (recordInstanceResults instance moduleName s2)).
  { unfold recordInstanceResults.
    apply (pins_foldl block
             (λ st resultNo,
                addInstanceResult (BlockArgument moduleName resultNo)
                                  (OpResult (opId instance) resultNo) st)).
    intros; apply pins_addInstanceResult. }
  destruct (pins_trans _ _ _ _ H12 H23) as ((_ & Hi & _ & Hu & _) & _ & _).
  destruct H1 as [Hlive Hpinned]. split; [by apply Hi|by apply Hu].
Qed.

Section Ranked.

Variable rank : nat → nat.
Hypothesis ranked : instantiationRanked circuit rank.

Lemma instancesPinned_step X block st st' :
  pins block st st' → block ∈ X →
  instancesPinned circuit X st → instancesPinned circuit X st'.
Proof.
  intros (Hg & He & Hu) HX Hinv b module instance mn ref Hb HbX Hmod Hin Hk Href Hf.
  rewrite He in Hb.
  destruct (Hinv b module instance mn ref Hb HbX Hmod Hin Hk Href Hf)
    as (Hexec & HmnX & Hpin).
  rewrite He. split_and!; [done|done|].
  intros Hund. apply Hu in Hund.
  apply elem_of_union in Hund as [->%elem_of_singleton | Hund]; [done|].
  destruct (Hpin Hund) as [Hlive Hbu].
  destruct Hg as (_ & Hi & _ & Hu' & _). split; [by apply Hi|by apply Hu'].
Qed.

Lemma markBlockExecutable_instancesPinned fuel :
  ∀ X block st st',
    (∀ a, a ∈ X → (rank a < rank block)%nat) →
    markBlockExecutable circuit fuel block st = Some st' →
    instancesPinned circuit X st → instancesPinned circuit X st'.
Proof.
  induction fuel as [|fuel IH]; intros X block st st' HX Hrun Hinv; [done|].
  simpl in Hrun. unfold isBlockExecutable in Hrun. case_bool_decide as Hexec.
  { by inversion Hrun; subst. }
  assert (HblockX : block ∉ X).
  { intros Hin. specialize (HX block Hin). lia. }
  (* the state before the loop over the operations *)
  assert (Hstart : ∀ s, pins block (insertExecutable block st) s →
            instancesPinned circuit (X ∪ {[block]}) s).
  { intros s (Hg & He & Hu) b module instance mn ref Hb HbX Hmod Hin Hk Href Hf.
    rewrite He in Hb. simpl in Hb.
    apply not_elem_of_union in HbX as [HbX Hne].
    apply elem_of_union in Hb as [Hb | Hb]; [done|].
    destruct (Hinv b module instance mn ref Hb HbX Hmod Hin Hk Href Hf)
      as (Hmn & HmnX & Hpin).
    assert (Hmnb : mn ≠ block) by (intros ->; done).
    split_and!.
    - rewrite He. simpl. by apply elem_of_union_r.
    - apply not_elem_of_union. split; [done|]. by intros ->%elem_of_singleton.
    - intros Hund. apply Hu in Hund. simpl in Hund.
      apply elem_of_union in Hund as [->%elem_of_singleton | Hund]; [done|].
      destruct (Hpin Hund) as [Hlive Hbu].
      destruct Hg as (_ & Hi & _ & Hu' & _). split; [by apply Hi|by apply Hu']. }
  destruct (circuit !! block) as [fmodule|] eqn:Hmod.
  2: { inversion Hrun; subst.
       intros b module instance mn ref Hb HbX Hm Hin Hk Href Hf. simpl in Hb.
       apply elem_of_union in Hb as [->%elem_of_singleton | Hb]; [congruence|].
       destruct (Hinv b module instance mn ref Hb HbX Hm Hin Hk Href Hf)
         as (Hmn & HmnX & Hpin).
       split_and!; [simpl; by apply elem_of_union_r|done|done]. }
  set (st2 := if isPublic fmodule || negb (modAnnotationsEmpty fmodule)
              then markBlockUndeletable block (insertExecutable block st)
              else insertExecutable block st) in *.
  set (st3 := foldl (λ st blockArg,
                       if hasDontTouchValue circuit blockArg
                       then markBlockUndeletable block (markAlive blockArg st)
                       else st) st2 (getArguments block fmodule)) in *.
  assert (H13 : pins block (insertExecutable block st) st3).
  { eapply (pins_trans _ _ st2).
    - subst st2. destruct (_ || _); [apply pins_markBlockUndeletable|apply pins_refl].
    - apply pins_ports. }
  pose (I := λ (done : list Operation) (s : IMDeadCodeElimPass),
               block ∈ executableBlocks s ∧
               instancesPinned circuit (X ∪ {[block]}) s ∧
               ∀ instance mn ref,
                 instance ∈ done → opKind instance = InstanceOp mn →
                 circuit !! mn = Some ref → isFModule ref = true →
                 mn ∈ executableBlocks s ∧ (mn ∉ X ∪ {[block]}) ∧
                 (mn ∈ undeletableBlocks s →
                  opId instance ∈ liveInstances s ∧ block ∈ undeletableBlocks s)).
  assert (Hloop : I ([] ++ body fmodule) st').
  { refine (foldlOpt_prefix_in _ I (λ op, op ∈ body fmodule) (body fmodule)
              _ _ [] st3 st' _ Hrun).
    - intros done op s s' Hop (Hbs & Hd & Hprefix) Hstep.
      assert (Hkeep : ∀ s0 s1,
                pins block s0 s1 →
                (∀ instance mn ref,
                   instance ∈ done → opKind instance = InstanceOp mn →
                   circuit !! mn = Some ref → isFModule ref = true →
                   mn ∈ executableBlocks s0 ∧ (mn ∉ X ∪ {[block]}) ∧
                   (mn ∈ undeletableBlocks s0 →
                    opId instance ∈ liveInstances s0 ∧ block ∈ undeletableBlocks s0)) →
                ∀ instance mn ref,
                   instance ∈ done → opKind instance = InstanceOp mn →
                   circuit !! mn = Some ref → isFModule ref = true →
                   mn ∈ executableBlocks s1 ∧ (mn ∉ X ∪ {[block]}) ∧
                   (mn ∈ undeletableBlocks s1 →
                    opId instance ∈ liveInstances s1 ∧ block ∈ undeletableBlocks s1)).
      { intros s0 s1 (Hg & He & Hu) H0 instance mn ref Hin Hk Href Hf.
        destruct (H0 instance mn ref Hin Hk Href Hf) as (Hmn & HmnX & Hpin).
        split_and!; [by rewrite He|done|].
        intros Hund. apply Hu in Hund.
        apply elem_of_union in Hund as [->%elem_of_singleton | Hund].
        - destruct HmnX. apply elem_of_union_r. by apply elem_of_singleton.
        - destruct (Hpin Hund) as [Hlive Hbu].
          destruct Hg as (_ & Hi & _ & Hu' & _). split; [by apply Hi|by apply Hu']. }
      assert (HinX : block ∈ X ∪ {[block]})
        by (apply elem_of_union_r; by apply elem_of_singleton).
      destruct (scanStep_cases fuel block op s s' Hstep)
        as [[Hpins Hnot] | (mn & ref & s1 & Hk & Href & Hf & E & ->)].
      + destruct Hpins as (Hg & He & Hu). split_and!.
        * by rewrite He.
        * by apply (instancesPinned_step _ block s).
        * intros instance mn' ref' [Hin | ->%list_elem_of_singleton]%elem_of_app
                 Hk' Href' Hf'.
          -- by apply (Hkeep s s' (conj Hg (conj He Hu)) Hprefix instance mn' ref').
          -- rewrite (Hnot mn' ref' Hk' Href') in Hf'. done.
      + (* the scan of the instantiated module *)
        pose proof (ranked block fmodule op mn Hmod Hop Hk) as Hrank.
        assert (HmnX : mn ∉ X ∪ {[block]}).
        { intros [Hin | ->%elem_of_singleton]%elem_of_union; [|lia].
          specialize (HX mn Hin). lia. }
        pose proof (scanGrows_markBlockExecutable circuit _ _ _ _ E) as Hg1.
        pose proof (pins_afterCalleeMarked block op mn s1) as Hp2.
        assert (Hd1 : instancesPinned circuit (X ∪ {[block]}) s1).
        { apply (IH (X ∪ {[block]}) mn s s1); [|done|done].
          intros a [Hin | ->%elem_of_singleton]%elem_of_union; [|done].
          specialize (HX a Hin). lia. }
        split_and!.
        * destruct Hp2 as (_ & He2 & _). rewrite He2.
          destruct Hg1 as (_ & _ & He1 & _). by apply He1.
        * by apply (instancesPinned_step _ block s1).
        * intros instance mn' ref' [Hin | ->%list_elem_of_singleton]%elem_of_app
                 Hk' Href' Hf'.
          -- refine (Hkeep s1 _ Hp2 _ instance mn' ref' Hin Hk' Href' Hf').
             intros i0 m0 r0 Hi0 Hk0 Hr0 Hf0.
             destruct (Hprefix i0 m0 r0 Hi0 Hk0 Hr0 Hf0) as (Hm0 & Hm0X & Hpin0).
             pose proof Hg1 as (_ & Hi1 & He1 & Hu1 & _).
             split_and!; [by apply He1|done|].
             intros Hund.
             destruct (undeletable_is_new fuel mn s s1 E m0 Hund) as [Hold | Hnot];
               [|done].
             destruct (Hpin0 Hold) as [Hlive Hbu]. split; [by apply Hi1|by apply Hu1].
          -- rewrite Hk in Hk'. inversion Hk'; subst mn'.
             destruct Hp2 as (_ & He2 & Hu2). split_and!; [|done|].
             ++ rewrite He2. by apply (markBlockExecutable_executable circuit _ _ _ _ E).
             ++ intros Hund. apply Hu2 in Hund.
                apply elem_of_union in Hund as [->%elem_of_singleton | Hund]; [lia|].
                by apply afterCalleeMarked_alive.
    - done.
    - split_and!.
      + destruct H13 as (_ & He & _). rewrite He. simpl.
        apply elem_of_union_l. by apply elem_of_singleton.
      + by apply Hstart.
      + intros instance mn ref Hin. by apply elem_of_nil in Hin. }
  destruct Hloop as (Hbs & Hd & Hops). simpl in Hops.
  intros b module instance mn ref Hb HbX Hm Hin Hk Href Hf.
  destruct (decide (b = block)) as [->|Hne].
  - rewrite Hmod in Hm. inversion Hm; subst module.
    destruct (Hops instance mn ref Hin Hk Href Hf) as (Hmn & HmnX & Hpin).
    split_and!; [done| |done]. intros Hc. apply HmnX. by apply elem_of_union_l.
  - destruct (Hd b module instance mn ref Hb) as (Hmn & HmnX & Hpin); try done.
    { apply not_elem_of_union. split; [done|]. by intros ->%elem_of_singleton. }
    split_and!; [done| |done]. intros Hc. apply HmnX. by apply elem_of_union_l.
Qed.

Lemma instancesPinned_grows X st st' :
  scanGrows st st' → executableBlocks st' = executableBlocks st →
  undeletableBlocks st' = undeletableBlocks st →
  instancesPinned circuit X st → instancesPinned circuit X st'.
Proof.
  intros (_ & Hi & _) He Hu Hinv b module instance mn ref Hb HbX Hmod Hin Hk Href Hf.
  rewrite He in Hb.
  destruct (Hinv b module instance mn ref Hb HbX Hmod Hin Hk Href Hf)
    as (Hmn & HmnX & Hpin).
  rewrite He, Hu. split_and!; [done|done|].
  intros Hund. destruct (Hpin Hund) as [Hlive Hbu]. split; [by apply Hi|done].
Qed.

Lemma markAliveAll_undeletable values st :
  undeletableBlocks (markAliveAll values st) = undeletableBlocks st.
Proof.
  unfold markAliveAll. revert st.
  induction values as [|v values IH]; intros st; simpl; [done|].
  rewrite IH. unfold markAlive. by destruct (isKnownAlive st v).
Qed.

Lemma markPublicModules_instancesPinned fuel st0 :
  markPublicModules circuit fuel initialPass = Some st0 →
  instancesPinned circuit ∅ st0.
Proof.
  unfold markPublicModules. intros Hrun.
  refine (seeding_foldlOpt (instancesPinned circuit ∅) _ (λ _, True) _ _ _ _ _ Hrun _);
    [|done|].
  - intros st [block module] st' _ Hstep Hinv. simpl in Hstep.
    destruct (_ && _); [|by inversion Hstep; subst].
    destruct (markBlockExecutable circuit fuel block st) as [st1|] eqn:E; [|done].
    inversion Hstep; subst.
    apply (instancesPinned_grows ∅ st1).
    + apply markAliveAll_scanGrows.
    + apply markAliveAll_executable.
    + apply markAliveAll_undeletable.
    + apply (markBlockExecutable_instancesPinned fuel ∅ block st st1); [|done|done].
      intros a Ha. by apply elem_of_empty in Ha.
  - intros b module instance mn ref Hb. by apply elem_of_empty in Hb.
Qed.

Lemma solve_undeletable fuel :
  ∀ st st', solve circuit fuel st = Some st' →
            undeletableBlocks st' = undeletableBlocks st.
Proof.
  induction fuel as [|fuel IH]; intros st st' Hsolve; simpl in Hsolve.
  - destruct (valueWorklist st); [|done]. by inversion Hsolve; subst.
  - destruct (valueWorklist st) as [|v rest] eqn:Hwl; [by inversion Hsolve; subst|].
    rewrite (IH _ _ Hsolve).
    by destruct (solveStep_grows_popped circuit st v rest Hwl)
      as (_ & _ & _ & _ & _ & _ & _ & _ & Hu).
Qed.

(** In a circuit without instantiation cycles, an instance of an
    undeletable module with a body is alive and makes the block it stands in
    undeletable: a module that holds an operation with a side effect, a
    declaration or a port that may not be touched, or an alive instance
    of such a module, keeps all its instances. *)
Theorem instances_of_undeletable_modules_are_alive :
  (∃ st, analyze circuit (analysisFuel circuit) = Some st) ∧
  ∀ fuel st, analyze circuit fuel = Some st →
    ∀ block module instance moduleName referenced,
      block ∈ executableBlocks st → circuit !! block = Some module →
      instance ∈ body module → opKind instance = InstanceOp moduleName →
      circuit !! moduleName = Some referenced → isFModule referenced = true →
      moduleName ∈ undeletableBlocks st →
      opId instance ∈ liveInstances st ∧ block ∈ undeletableBlocks st.
Proof.
  split; [apply analyze_returns|].
  intros fuel st Hrun block module instance mn ref Hb Hmod Hin Hk Href Hf Hund.
  unfold analyze in Hrun.
  destruct (markPublicModules circuit fuel initialPass) as [st0|] eqn:Hseed; [|done].
  cbn [mbind option_bind] in Hrun.
  pose proof (markPublicModules_instancesPinned fuel st0 Hseed) as Hinv.
  destruct (solve_scanGrows circuit fuel st0 st Hrun) as [Hg He].
  pose proof (solve_undeletable fuel st0 st Hrun) as Hu.
  by apply (instancesPinned_grows ∅ st0 st Hg He Hu Hinv block module instance mn ref
              Hb (not_elem_of_empty block) Hmod Hin Hk Href Hf).
Qed.

End Ranked.

End UndeletableModules.

Lemma sampleCircuit_ranked : instantiationRanked sampleCircuit (λ block, block).
Proof.
  intros block module instance mn Hmod Hin Hk.
  destruct block as [|[|[|block]]]; simpl in Hmod; inversion Hmod; subst module;
    simpl in Hin.
  - repeat (apply elem_of_cons in Hin as [-> | Hin];
            [simpl in Hk; inversion Hk; subst; lia|]).
    by apply elem_of_nil in Hin.
  - repeat (apply elem_of_cons in Hin as [-> | Hin];
            [simpl in Hk; inversion Hk; subst; lia|]).
    by apply elem_of_nil in Hin.
  - by apply elem_of_nil in Hin.
Qed.

Lemma instances_of_undeletable_modules_are_alive_witness :
  ∃ st, analyze sampleCircuit 40 = Some st ∧
        3%nat ∈ liveInstances st ∧ 0%nat ∈ undeletableBlocks st.
Proof.
  run_sample.
  apply (proj2 (instances_of_undeletable_modules_are_alive sampleCircuit
                  (λ block, block) sampleCircuit_ranked) 40%nat fixpoint Hrun
           0%nat sampleTop sampleInstance 1%nat sampleChild).
  - exact Hexec.
  - reflexivity.
  - in_body.
  - reflexivity.
  - reflexivity.
  - reflexivity.
  - vm_compute; reflexivity.
Defined.

End IMDeadCodeElimProofs.
